(** * Banksia tournament core: a shallow embedding of [game.cpp] and
    [tourmng.cpp], and the properties of the specification checked on it.

    Conventions of the embedding.
    - A C++ [int] is a [Z]; arithmetic that can leave the 32-bit range is
      written with [Int32.wrap].  [assert] is compiled out ([NDEBUG]) and
      has no counterpart here.
    - [std::string] is [string], [std::vector] is [list], [std::map] is a
      [gmap] read out in key order.
    - Collaborators whose code is outside the two files (the board, the
      players, the engine pool, the opening book, the PRNG, jsoncpp) are
      interfaces (classes, Section variables) or small explicit models,
      each introduced where it is used.

    The first part holds the model, the second part the properties. *)

From Stdlib Require Import ZArith Lia Bool List Permutation Sorted DecimalString.
From stdpp Require Import base gmap list strings fin_maps sorting.

Local Open Scope Z_scope.

(** * Part I: the model *)

(** ** 32-bit signed integers *)

Module Int32.

Definition min_int : Z := - 2 ^ 31.
Definition max_int : Z := 2 ^ 31 - 1.

(** Two's complement wrap-around into [min_int .. max_int]. *)
Definition wrap (x : Z) : Z := (x + 2 ^ 31) mod 2 ^ 32 - 2 ^ 31.

Definition in_range (x : Z) : Prop := min_int <= x <= max_int.

Definition in_rangeb (x : Z) : bool := (min_int <=? x) && (x <=? max_int).

(** [x++] on an [int]. *)
Definition incr (x : Z) : Z := wrap (x + 1).

(** [x << n] on an [int]. *)
Definition shl (x n : Z) : Z := wrap (Z.shiftl x n).

(** Conversion of an [int] to [size_t] (64 bits), as the usual arithmetic
    conversions do when an [int] is compared with a [size()]. *)
Definition to_size_t (x : Z) : Z := x mod 2 ^ 64.

End Int32.

(** ** Moves and their packed form in the schedule file *)

Module Moves.

(** [PieceType] is an enumeration; [static_cast] from and to [int] keeps
    the underlying value, so a piece kind is carried as that value. *)
Definition PieceType := Z.

Record Move := mkMove { from : Z; dest : Z; promotion : PieceType }.

(** Modelled from the spec: the declaration of [Move] (its header is not
    among the two source files).  The data model lists the fields as
    [{from, to, promotion}], and [game.cpp] passes them on in that order
    ([checkMake(m.from, m.dest, m.promotion)]); the positional
    constructor [Move(a, b, c)] takes origin, destination, promotion. *)
Definition Move_ctor (a b : Z) (c : PieceType) : Move :=
  {| from := a; dest := b; promotion := c |}.

(** [MatchRecord::load], the body of the loop over ["startMoves"]:
    [Move m(k & 0xff, k >> 8 & 0xff, static_cast<PieceType>(k >> 16 & 0xff))]. *)
Definition unpack (k : Z) : Move :=
  Move_ctor (Z.land k 255)
            (Z.land (Z.shiftr k 8) 255)
            (Z.land (Z.shiftr k 16) 255).

(** [MatchRecord::saveToJson], the body of the loop over [startMoves]:
    [k = m.dest | m.from << 8 | static_cast<int>(m.promotion) << 16]. *)
Definition pack (m : Move) : Z :=
  Z.lor (Z.lor (dest m) (Int32.shl (from m) 8))
        (Int32.shl (promotion m) 16).

(** A byte value. *)
Definition byte (x : Z) : Prop := 0 <= x < 256.

(** The integer whose low, middle and high bytes are [d], [f] and [p]:
    the layout [dest | from<<8 | promotion<<16] of the schedule file. *)
Definition bytes (d f p : Z) : Z := d + 256 * f + 65536 * p.

(** For comparison only: the decoding that reads the bytes into the
    fields the encoder took them from. *)
Definition unpack_by_field (k : Z) : Move :=
  {| dest := Z.land k 255;
     from := Z.land (Z.shiftr k 8) 255;
     promotion := Z.land (Z.shiftr k 16) 255 |}.

End Moves.

(** ** Sides, results and the states of records, games and tournaments *)

Module Chess.

(** [Side]: [white] is index [W = 0], [black] is index [B = 1]. *)
Inductive Side := white | black.

Definition getXSide (sd : Side) : Side :=
  match sd with white => black | black => white end.

Definition side_index (sd : Side) : Z :=
  match sd with white => 0 | black => 1 end.

Inductive ResultType := noresult | win | draw | loss.

(** Modelled from the spec: the enumeration [ReasonType] (declared in a
    header outside the two files); the constants the two files name are
    [resign], [illegalmove], [timeout], [adjudication] and [crash]. *)
Inductive ReasonType :=
  | noreason | mate | stalemate | repetition | resign | fiftymoves
  | insufficientmaterial | illegalmove | timeout | adjudication | crash
  | tablebase.

Record Result := mkResult { result : ResultType; reason : ReasonType }.

#[global] Instance Side_eq_dec : EqDecision Side.
Proof. solve_decision. Defined.

#[global] Instance ResultType_eq_dec : EqDecision ResultType.
Proof. solve_decision. Defined.

#[global] Instance ReasonType_eq_dec : EqDecision ReasonType.
Proof. solve_decision. Defined.

End Chess.

Module MatchState.
Inductive t := none | playing | completed | error.
#[global] Instance eq_dec : EqDecision t.
Proof. solve_decision. Defined.
End MatchState.

Module GameState.
Inductive t := none | begin | ready | playing | stopped | ending | ended.
#[global] Instance eq_dec : EqDecision t.
Proof. solve_decision. Defined.
End GameState.

Module TourState.
Inductive t := none | playing | done.
#[global] Instance eq_dec : EqDecision t.
Proof. solve_decision. Defined.
End TourState.

Module TourType.
(** The index of a type in [tourTypeNames] is its enumeration value. *)
Inductive t := roundrobin | knockout | none.
#[global] Instance eq_dec : EqDecision t.
Proof. solve_decision. Defined.
End TourType.

(** ** Outcomes of code that can throw or loop *)

Module Outcome.

Inductive t (A : Type) : Type :=
  | Returns (a : A)
  | Throws
  | Diverges.
Arguments Returns {A} a.
Arguments Throws {A}.
Arguments Diverges {A}.

Definition bind {A B : Type} (f : A -> t B) (m : t A) : t B :=
  match m with
  | Returns a => f a
  | Throws => Throws
  | Diverges => Diverges
  end.

#[global] Instance outcome_ret : MRet t := fun A a => Returns a.
#[global] Instance outcome_bind : MBind t := fun A B f m => bind f m.

End Outcome.

(** ** The part of jsoncpp the record loader uses

    A value without reals (the record objects of the schedule file hold
    strings and integers only).  An accessor that jsoncpp makes fail with a
    [Json::LogicError] is [Throws] here. *)

Module Json.

Import Outcome.

#[local] Unset Elimination Schemes.
Inductive Value :=
  | JNull
  | JBool (b : bool)
  | JInt (z : Z)
  | JString (s : string)
  | JArray (l : list Value)
  | JObject (l : list (string * Value)).
#[local] Set Elimination Schemes.

Fixpoint find (key : string) (l : list (string * Value)) : option Value :=
  match l with
  | [] => None
  | (k, v) :: rest => if String.eqb k key then Some v else find key rest
  end.

(** [v[key]]: the member, null when it is absent or [v] is null. *)
Definition member (v : Value) (key : string) : Outcome.t Value :=
  match v with
  | JNull => Returns JNull
  | JObject l => Returns (default JNull (find key l))
  | _ => Throws
  end.

(** [v.isMember(key)]. *)
Definition isMember (v : Value) (key : string) : Outcome.t bool :=
  match v with
  | JNull => Returns false
  | JObject l => Returns (bool_decide (is_Some (find key l)))
  | _ => Throws
  end.

(** [v[i]] for an [int] index on a value held by the caller: a negative
    index fails; a null value or a missing element reads as null. *)
Definition at_index (v : Value) (i : Z) : Outcome.t Value :=
  if i <? 0 then Throws else
  match v with
  | JNull => Returns JNull
  | JArray l => Returns (default JNull (l !! Z.to_nat i))
  | _ => Throws
  end.

(** [v.size()]. *)
Definition size (v : Value) : nat :=
  match v with
  | JArray l => length l
  | JObject l => length l
  | _ => 0%nat
  end.

(** [v.asString()]. *)
Definition asString (v : Value) : Outcome.t string :=
  match v with
  | JNull => Returns ""%string
  | JString s => Returns s
  | JBool b => Returns (if b then "true" else "false")%string
  | JInt z => Returns (NilEmpty.string_of_int (Z.to_int z))
  | _ => Throws
  end.

(** [v.asInt()]. *)
Definition asInt (v : Value) : Outcome.t Z :=
  match v with
  | JNull => Returns 0
  | JInt z => if Int32.in_rangeb z then Returns z else Throws
  | JBool b => Returns (if b then 1 else 0)
  | _ => Throws
  end.

End Json.


(** ** Match records and their JSON form *)

Module Records.

Import Chess Moves Outcome.

(** Modelled from the spec: the declaration of [MatchRecord] (header
    outside the two files): two player names indexed by side, an optional
    start position, the opening moves, the state, the result kind, and the
    three integers [gameIdx], [round], [pairId]. *)
Record MatchRecord := mkMatchRecord {
  playernameW : string;
  playernameB : string;
  startFen : string;
  startMoves : list Move;
  state : MatchState.t;
  resultType : ResultType;
  gameIdx : Z;
  round : Z;
  pairId : Z
}.

(** [playernames[sd]]. *)
Definition playernames (r : MatchRecord) (sd : Side) : string :=
  match sd with white => playernameW r | black => playernameB r end.

(** Modelled from the spec: a default-constructed record (empty names, no
    opening, state none, no result, integers zero). *)
Definition MatchRecord_default : MatchRecord :=
  {| playernameW := ""; playernameB := ""; startFen := ""; startMoves := [];
     state := MatchState.none; resultType := noresult;
     gameIdx := 0; round := 0; pairId := 0 |}.

(** Modelled from the spec: the constructor [MatchRecord(name0, name1,
    swap)] ("coin flip on who plays White"): [name0] is White unless
    [swap] is set. *)
Definition MatchRecord_ctor (name0 name1 : string) (swap : bool) : MatchRecord :=
  {| playernameW := if swap then name1 else name0;
     playernameB := if swap then name0 else name1;
     startFen := ""; startMoves := [];
     state := MatchState.none; resultType := noresult;
     gameIdx := 0; round := 0; pairId := 0 |}.

(** Modelled from the spec: [swapPlayers()] exchanges the two names
    ("alternate colors (swap after each)"). *)
Definition swapPlayers (r : MatchRecord) : MatchRecord :=
  {| playernameW := playernameB r; playernameB := playernameW r;
     startFen := startFen r; startMoves := startMoves r;
     state := state r; resultType := resultType r;
     gameIdx := gameIdx r; round := round r; pairId := pairId r |}.

(** Modelled from the spec: [string2ResultType] and [resultType2String]
    (defined outside the two files), after the schedule file's
    ["result": "*"|"1-0"|"0-1"|"1/2-1/2"]; an unknown string is no
    result. *)
Definition string2ResultType (s : string) : ResultType :=
  if String.eqb s "1-0" then win
  else if String.eqb s "0-1" then loss
  else if String.eqb s "1/2-1/2" then draw
  else noresult.

Definition resultType2String (r : ResultType) : string :=
  match r with
  | noresult => "*"
  | win => "1-0"
  | loss => "0-1"
  | draw => "1/2-1/2"
  end.

(** [MatchRecord::isValid]. *)
Definition isValid (r : MatchRecord) : bool :=
  negb (String.eqb (playernameW r) "") && negb (String.eqb (playernameB r) "").

(** The loop of [MatchRecord::load] over the ["startMoves"] array:
    [for (i = 0; i < int(array.size()); i++)], from index [i], with at most
    [fuel] elements left to visit. *)
Fixpoint load_moves (array : Json.Value) (n i : Z) (fuel : nat) : Outcome.t (list Move) :=
  match fuel with
  | O => Returns []
  | S fuel' =>
      if i <? n then
        v ← Json.at_index array i;
        k ← Json.asInt v;
        rest ← load_moves array n (i + 1) fuel';
        mret (unpack k :: rest)
      else Returns []
  end.

(** [MatchRecord::load].  The record keeps its [startFen] when the object
    has none; every other field is overwritten.  It returns [true]. *)
Definition load (self : MatchRecord) (obj : Json.Value) : Outcome.t (bool * MatchRecord) :=
  array ← Json.member obj "players";
  v0 ← Json.at_index array 0;
  name0 ← Json.asString v0;
  v1 ← Json.at_index array 1;
  name1 ← Json.asString v1;
  hasFen ← Json.isMember obj "startFen";
  fen ← (if hasFen : bool
         then Json.member obj "startFen" ≫= Json.asString
         else mret (startFen self));
  hasMoves ← Json.isMember obj "startMoves";
  moves ← (if hasMoves : bool
           then marr ← Json.member obj "startMoves";
                load_moves marr (Int32.wrap (Z.of_nat (Json.size marr))) 0
                           (Json.size marr)
           else mret []);
  s ← Json.member obj "result" ≫= Json.asString;
  let rt := string2ResultType s in
  let st := if decide (rt = noresult) then MatchState.none else MatchState.completed in
  gi ← Json.member obj "gameIdx" ≫= Json.asInt;
  rd ← Json.member obj "round" ≫= Json.asInt;
  pid ← Json.member obj "pairId" ≫= Json.asInt;
  mret (true,
        {| playernameW := name0; playernameB := name1;
           startFen := fen; startMoves := moves;
           state := st; resultType := rt;
           gameIdx := gi; round := rd; pairId := pid |}).

(** [MatchRecord::saveToJson]. *)
Definition saveToJson (r : MatchRecord) : Json.Value :=
  Json.JObject (
    [("players", Json.JArray [Json.JString (playernameW r); Json.JString (playernameB r)])]
    ++ (if String.eqb (startFen r) "" then []
        else [("startFen", Json.JString (startFen r))])
    ++ (match startMoves r with
        | [] => []
        | ms => [("startMoves", Json.JArray (map (fun m => Json.JInt (pack m)) ms))]
        end)
    ++ [("result", Json.JString (resultType2String (resultType r)));
        ("gameIdx", Json.JInt (gameIdx r));
        ("round", Json.JInt (round r));
        ("pairId", Json.JInt (pairId r))])%list.

End Records.


(** ** [std::sort] and reading a [std::map] in key order *)

Module Std.

(** [std::sort(first, last, comp)] leaves the order of equivalent elements
    unspecified.  Its contract is [sort_post]: the result is a permutation
    of the input in which no element is [comp]-before an earlier one. *)
Definition sort_post {A : Type} (comp : A -> A -> bool) (l l' : list A) : Prop :=
  Permutation l l' /\
  forall (i j : nat) (x y : A),
    (i < j)%nat -> l' !! i = Some x -> l' !! j = Some y -> comp y x = false.

(** [x] may stand before [y]: [y] is not [comp]-before [x]. *)
Definition ordered {A : Type} (comp : A -> A -> bool) (x y : A) : Prop :=
  comp y x = false.

(** One sort with that contract, used where the model has to run. *)
Fixpoint sort_insert {A : Type} (comp : A -> A -> bool) (x : A) (l : list A) : list A :=
  match l with
  | [] => [x]
  | y :: l' => if comp x y then x :: l else y :: sort_insert comp x l'
  end.

Definition sort {A : Type} (comp : A -> A -> bool) (l : list A) : list A :=
  foldr (sort_insert comp) [] l.

(** The entries of a [std::map<std::string, V>] in iteration order. *)
Definition string_map_entries {V : Type} (m : gmap string V) : list (string * V) :=
  merge_sort (fun a b => Is_true (String.leb (fst a) (fst b))) (map_to_list m).

(** The entries of a [std::map<int, V>] in iteration order. *)
Definition int_map_entries {V : Type} (m : gmap Z V) : list (Z * V) :=
  @merge_sort _ (fun a b => fst a <= fst b)
    (fun a b => Z_le_dec (fst a) (fst b)) (map_to_list m).

End Std.

(** ** Standings *)

Module Standings.

Import Chess Records.

(** Modelled from the spec: the declaration of [TourPlayer] (header
    outside the two files): a name, an Elo that is 0 when unknown, and
    counters that start at zero. *)
Record TourPlayer := mkTourPlayer {
  name : string;
  elo : Z;
  gameCnt : Z;
  winCnt : Z;
  drawCnt : Z;
  lossCnt : Z;
  whiteCnt : Z
}.

Definition TourPlayer_default : TourPlayer :=
  {| name := ""; elo := 0; gameCnt := 0; winCnt := 0; drawCnt := 0;
     lossCnt := 0; whiteCnt := 0 |}.

Definition set_name (s : string) (r : TourPlayer) : TourPlayer :=
  {| name := s; elo := elo r; gameCnt := gameCnt r; winCnt := winCnt r;
     drawCnt := drawCnt r; lossCnt := lossCnt r; whiteCnt := whiteCnt r |}.

(** [r.gameCnt++], [r.winCnt++], [r.drawCnt++], [r.lossCnt++],
    [r.whiteCnt++]. *)
Definition incr_gameCnt (r : TourPlayer) : TourPlayer :=
  {| name := name r; elo := elo r; gameCnt := Int32.incr (gameCnt r);
     winCnt := winCnt r; drawCnt := drawCnt r; lossCnt := lossCnt r;
     whiteCnt := whiteCnt r |}.

Definition incr_winCnt (r : TourPlayer) : TourPlayer :=
  {| name := name r; elo := elo r; gameCnt := gameCnt r;
     winCnt := Int32.incr (winCnt r); drawCnt := drawCnt r;
     lossCnt := lossCnt r; whiteCnt := whiteCnt r |}.

Definition incr_drawCnt (r : TourPlayer) : TourPlayer :=
  {| name := name r; elo := elo r; gameCnt := gameCnt r; winCnt := winCnt r;
     drawCnt := Int32.incr (drawCnt r); lossCnt := lossCnt r;
     whiteCnt := whiteCnt r |}.

Definition incr_lossCnt (r : TourPlayer) : TourPlayer :=
  {| name := name r; elo := elo r; gameCnt := gameCnt r; winCnt := winCnt r;
     drawCnt := drawCnt r; lossCnt := Int32.incr (lossCnt r);
     whiteCnt := whiteCnt r |}.

Definition incr_whiteCnt (r : TourPlayer) : TourPlayer :=
  {| name := name r; elo := elo r; gameCnt := gameCnt r; winCnt := winCnt r;
     drawCnt := drawCnt r; lossCnt := lossCnt r;
     whiteCnt := Int32.incr (whiteCnt r) |}.

(** [TourPlayer::isValid]. *)
Definition isValid (r : TourPlayer) : bool :=
  negb (String.eqb (name r) "")
  && (gameCnt r >=? 0) && (winCnt r >=? 0) && (drawCnt r >=? 0) && (lossCnt r >=? 0)
  && (gameCnt r =? Int32.wrap (Int32.wrap (winCnt r + drawCnt r) + lossCnt r)).

(** [TourPlayer::smaller]. *)
Definition smaller (self other : TourPlayer) : bool :=
  (winCnt self <? winCnt other)
  || ((winCnt self =? winCnt other)
      && ((lossCnt self >? lossCnt other)
          || ((lossCnt self =? lossCnt other) && (drawCnt self <? drawCnt other)))).

(** The body of the loop over the two sides in [createTournamentStats],
    for a record [m] with a result. *)
Definition addSide (m : MatchRecord) (sd : Side)
    (resultMap : gmap string TourPlayer) : gmap string TourPlayer :=
  let nm := playernames m sd in
  if String.eqb nm "" then resultMap
  else
    let r := match resultMap !! nm with
             | None => set_name nm TourPlayer_default
             | Some r0 => r0
             end in
    let r := incr_gameCnt r in
    let r := match resultType m with
             | win => if decide (sd = white) then incr_winCnt r else incr_lossCnt r
             | draw => incr_drawCnt r
             | loss => if decide (sd = black) then incr_winCnt r else incr_lossCnt r
             | noresult => r
             end in
    <[nm := r]> resultMap.

(** The body of the loop over [matchRecordList]. *)
Definition addRecord (resultMap : gmap string TourPlayer) (m : MatchRecord)
    : gmap string TourPlayer :=
  if decide (resultType m = noresult) then resultMap
  else addSide m black (addSide m white resultMap).

(** The map [createTournamentStats] builds from the records. *)
Definition resultMapOf (matchRecordList : list MatchRecord) : gmap string TourPlayer :=
  foldl addRecord ∅ matchRecordList.

(** The comparison handed to [std::sort]: [rhs.smaller(lhs)]. *)
Definition rank_before (lhs rhs : TourPlayer) : bool := smaller rhs lhs.

(** [createTournamentStats], up to the rendering of the table: the rows
    ([resultList] after [std::sort]) in the order they are printed, row
    [i] under number [i + 1]. *)
Definition createTournamentStats (matchRecordList : list MatchRecord) : list TourPlayer :=
  let resultList := map snd (Std.string_map_entries (resultMapOf matchRecordList)) in
  Std.sort rank_before resultList.

End Standings.


(** ** The tournament manager *)

Module Tournament.

Import Chess Moves Records Standings Outcome.

(** What the manager needs from outside the two files.
    - [rand n] is the value of the [n]-th call of [std::rand()] (counted
      from 0) in this run; the manager's state counts the calls.
    - [getRandomBook n fen moves] is [bookMng.getRandomBook(fen, moves)]
      when [n] values of the PRNG are used up: the new start position and
      opening, and the number of PRNG values used up afterwards.
    - [isNameExistent] is [ConfigMng::instance->isNameExistent].
    - [shuffle] is [std::shuffle] with a default-constructed engine.
    - [pool_tick], [createEngine], [returnPlayer], [pool_shutdown] are the
      engine pool [playerMng]; [createEngine] yields no engine on failure.
    - [trim] is [banksia::trim]. *)
Class Collaborators (Pool Engine : Type) := {
  rand : nat -> Z;
  getRandomBook : nat -> string -> list Move -> string * list Move * nat;
  isNameExistent : string -> bool;
  shuffle : list string -> list string;
  pool_tick : Pool -> Pool;
  createEngine : Pool -> string -> option Engine * Pool;
  returnPlayer : Pool -> option Engine -> Pool;
  pool_shutdown : Pool -> Pool;
  trim : string -> string
}.

(** A game driver as the manager sees it: its board number, its state,
    the result on its board and the two attached players.  How a driver
    moves from state to state is [game.cpp]'s business (see
    [GameDriver]); the manager is given each tick as a function. *)
Record Game (Engine : Type) := mkGame {
  idx : Z;
  gstate : GameState.t;
  gresult : ResultType;
  playerW : option Engine;
  playerB : option Engine
}.
Arguments mkGame {Engine}.
Arguments idx {Engine}.
Arguments gstate {Engine}.
Arguments gresult {Engine}.
Arguments playerW {Engine}.
Arguments playerB {Engine}.

(** [Game::setState] as far as the manager's view goes. *)
Definition Game_setState {Engine : Type} (st : GameState.t) (g : Game Engine) : Game Engine :=
  {| idx := idx g; gstate := st; gresult := gresult g;
     playerW := playerW g; playerB := playerB g |}.

(** The fields of [TourMng] that the modelled functions read or write.
    [randCnt] counts the calls of [std::rand()] so far.  Text written to
    the console and to the log files is not part of the state. *)
Record TourMng (Pool Engine : Type) := mkTourMng {
  type : TourType.t;
  gameperpair : Z;
  gameConcurrency : Z;
  shufflePlayers : bool;
  resumable : bool;
  matchRecordList : list MatchRecord;
  gameList : list (Game Engine);
  state : TourState.t;
  previousElapsed : Z;
  playerMng : Pool;
  randCnt : nat
}.
Arguments mkTourMng {Pool Engine}.
Arguments type {Pool Engine}.
Arguments gameperpair {Pool Engine}.
Arguments gameConcurrency {Pool Engine}.
Arguments shufflePlayers {Pool Engine}.
Arguments resumable {Pool Engine}.
Arguments matchRecordList {Pool Engine}.
Arguments gameList {Pool Engine}.
Arguments state {Pool Engine}.
Arguments previousElapsed {Pool Engine}.
Arguments playerMng {Pool Engine}.
Arguments randCnt {Pool Engine}.

Section Manager.

Context {Pool Engine : Type} `{!Collaborators Pool Engine}.

#[local] Abbreviation Mng := (TourMng Pool Engine).

Definition set_type (v : TourType.t) (t : Mng) : Mng :=
  mkTourMng v (gameperpair t) (gameConcurrency t) (shufflePlayers t)
    (resumable t) (matchRecordList t) (gameList t) (state t)
    (previousElapsed t) (playerMng t) (randCnt t).

Definition set_matchRecordList (v : list MatchRecord) (t : Mng) : Mng :=
  mkTourMng (type t) (gameperpair t) (gameConcurrency t) (shufflePlayers t)
    (resumable t) v (gameList t) (state t)
    (previousElapsed t) (playerMng t) (randCnt t).

Definition set_gameList (v : list (Game Engine)) (t : Mng) : Mng :=
  mkTourMng (type t) (gameperpair t) (gameConcurrency t) (shufflePlayers t)
    (resumable t) (matchRecordList t) v (state t)
    (previousElapsed t) (playerMng t) (randCnt t).

Definition set_state (v : TourState.t) (t : Mng) : Mng :=
  mkTourMng (type t) (gameperpair t) (gameConcurrency t) (shufflePlayers t)
    (resumable t) (matchRecordList t) (gameList t) v
    (previousElapsed t) (playerMng t) (randCnt t).

Definition set_previousElapsed (v : Z) (t : Mng) : Mng :=
  mkTourMng (type t) (gameperpair t) (gameConcurrency t) (shufflePlayers t)
    (resumable t) (matchRecordList t) (gameList t) (state t)
    v (playerMng t) (randCnt t).

Definition set_playerMng (v : Pool) (t : Mng) : Mng :=
  mkTourMng (type t) (gameperpair t) (gameConcurrency t) (shufflePlayers t)
    (resumable t) (matchRecordList t) (gameList t) (state t)
    (previousElapsed t) v (randCnt t).

Definition set_randCnt (v : nat) (t : Mng) : Mng :=
  mkTourMng (type t) (gameperpair t) (gameConcurrency t) (shufflePlayers t)
    (resumable t) (matchRecordList t) (gameList t) (state t)
    (previousElapsed t) (playerMng t) v.

(** [std::rand()]. *)
Definition std_rand (t : Mng) : Z * Mng :=
  (rand (randCnt t), set_randCnt (S (randCnt t)) t).

(** Field updates of a [MatchRecord]. *)
Definition with_book (fen : string) (moves : list Move) (r : MatchRecord) : MatchRecord :=
  mkMatchRecord (playernameW r) (playernameB r) fen moves (Records.state r)
    (resultType r) (gameIdx r) (round r) (pairId r).

Definition with_state (st : MatchState.t) (r : MatchRecord) : MatchRecord :=
  mkMatchRecord (playernameW r) (playernameB r) (startFen r) (startMoves r) st
    (resultType r) (gameIdx r) (round r) (pairId r).

Definition with_resultType (rt : ResultType) (r : MatchRecord) : MatchRecord :=
  mkMatchRecord (playernameW r) (playernameB r) (startFen r) (startMoves r)
    (Records.state r) rt (gameIdx r) (round r) (pairId r).

Definition with_gameIdx (i : Z) (r : MatchRecord) : MatchRecord :=
  mkMatchRecord (playernameW r) (playernameB r) (startFen r) (startMoves r)
    (Records.state r) (resultType r) i (round r) (pairId r).

Definition with_round (i : Z) (r : MatchRecord) : MatchRecord :=
  mkMatchRecord (playernameW r) (playernameB r) (startFen r) (startMoves r)
    (Records.state r) (resultType r) (gameIdx r) i (pairId r).

Definition with_pairId (i : Z) (r : MatchRecord) : MatchRecord :=
  mkMatchRecord (playernameW r) (playernameB r) (startFen r) (startMoves r)
    (Records.state r) (resultType r) (gameIdx r) (round r) i.

(** [TourMng::addMatchRecord_simple].  The record is passed by reference:
    the caller sees the new [gameIdx], start position and opening. *)
Definition addMatchRecord_simple (record : MatchRecord) (t : Mng) : MatchRecord * Mng :=
  let record := with_gameIdx (Int32.wrap (Z.of_nat (length (matchRecordList t)))) record in
  let '(fen, moves, cnt) := getRandomBook (randCnt t) (startFen record) (startMoves record) in
  let record := with_book fen moves record in
  (record, set_matchRecordList (matchRecordList t ++ [record]) (set_randCnt cnt t)).

(** The loop of [TourMng::addMatchRecord]:
    [for (i = 0; i < gameperpair; i++)], with [n] rounds left. *)
Fixpoint addMatchRecord_loop (n : nat) (record : MatchRecord) (t : Mng) : MatchRecord * Mng :=
  match n with
  | O => (record, t)
  | S n' =>
      let '(record, t) := addMatchRecord_simple record t in
      addMatchRecord_loop n' (swapPlayers record) t
  end.

(** [TourMng::addMatchRecord]. *)
Definition addMatchRecord (record : MatchRecord) (t : Mng) : MatchRecord * Mng :=
  let '(k, t) := std_rand t in
  addMatchRecord_loop (Z.to_nat (gameperpair t)) (with_pairId k record) t.


(** Modelled from the spec: [TourPlayerPair] (header outside the two
    files), the two tallies [pair[0]] and [pair[1]] of one pairing. *)
Record TourPlayerPair := mkPair { pair0 : TourPlayer; pair1 : TourPlayer }.

Definition TourPlayerPair_default : TourPlayerPair :=
  {| pair0 := TourPlayer_default; pair1 := TourPlayer_default |}.

(** [p.pair[sd]] and an update of [p.pair[sd]]. *)
Definition pair_at (p : TourPlayerPair) (sd : Side) : TourPlayer :=
  match sd with white => pair0 p | black => pair1 p end.

Definition pair_upd (sd : Side) (f : TourPlayer -> TourPlayer) (p : TourPlayerPair)
    : TourPlayerPair :=
  match sd with
  | white => {| pair0 := f (pair0 p); pair1 := pair1 p |}
  | black => {| pair0 := pair0 p; pair1 := f (pair1 p) |}
  end.

(** A pair tally carrying the two names of a record. *)
Definition pair_of_record (r : MatchRecord) : TourPlayerPair :=
  {| pair0 := set_name (playernameW r) TourPlayer_default;
     pair1 := set_name (playernameB r) TourPlayer_default |}.

(** [p.pair[W].name == nm ? W : B]. *)
Definition slot_of (p : TourPlayerPair) (nm : string) : Side :=
  if String.eqb (name (pair_at p white)) nm then white else black.

(** The inner loop of [checkToExtendMatches] over the records that follow:
    [None] is the early [return] at a record of the pair that is not
    completed. *)
Fixpoint tallyPair (pid : Z) (recs : list MatchRecord) (playerPair : TourPlayerPair)
    : option TourPlayerPair :=
  match recs with
  | [] => Some playerPair
  | rcd :: rest =>
      if decide (pairId rcd <> pid) then tallyPair pid rest playerPair
      else if decide (Records.state rcd <> MatchState.completed) then None
      else if decide (resultType rcd <> win /\ resultType rcd <> loss)
           then tallyPair pid rest playerPair
      else
        let winnerName :=
          playernames rcd (if decide (resultType rcd = win) then white else black) in
        let playerPair := pair_upd (slot_of playerPair winnerName) incr_winCnt playerPair in
        let whiteIdx := slot_of playerPair (playernames rcd white) in
        tallyPair pid rest (pair_upd whiteIdx incr_whiteCnt playerPair)
  end.

(** The test "it is a tie" at the end of [checkToExtendMatches]. *)
Definition isTie (p : TourPlayerPair) : bool :=
  (winCnt (pair0 p) =? winCnt (pair1 p)) && (whiteCnt (pair0 p) =? whiteCnt (pair1 p)).

(** [TourMng::checkToExtendMatches]: the outer loop stops at the first
    record whose [gameIdx] is [gIdx]. *)
Definition checkToExtendMatches (gIdx : Z) (t : Mng) : Mng :=
  if decide (type t <> TourType.knockout) then t
  else if gIdx <? 0 then t
  else
    match List.find (fun r => gameIdx r =? gIdx) (matchRecordList t) with
    | None => t
    | Some r =>
        match tallyPair (pairId r) (matchRecordList t) (pair_of_record r) with
        | None => t
        | Some playerPair =>
            if isTie playerPair then
              let record := with_state MatchState.none (with_resultType noresult r) in
              snd (addMatchRecord_simple record t)
            else t
        end
    end.

(** [TourMng::getLastRound]. *)
Definition getLastRound (recs : list MatchRecord) : Z :=
  foldl (fun lastRound r => Z.max lastRound (round r)) 0 recs.

(** The body of the first loop of [getKnockoutWinnerList]. *)
Definition addToPairMap (lastRound : Z) (pairMap : gmap Z TourPlayerPair) (r : MatchRecord)
    : gmap Z TourPlayerPair :=
  if decide (round r <> lastRound) then pairMap
  else
    let thePair := match pairMap !! pairId r with
                   | Some p => p
                   | None => pair_of_record r
                   end in
    let thePair :=
      if decide (resultType r = win \/ resultType r = loss) then
        let idxW := slot_of thePair (playernames r white) in
        let winIdx := if decide (resultType r = win) then idxW else getXSide idxW in
        pair_upd winIdx incr_winCnt thePair
      else thePair in
    let whiteSd := slot_of thePair (playernames r white) in
    <[pairId r := pair_upd whiteSd incr_whiteCnt thePair]> pairMap.

(** The body of the second loop: the winner of one pair. *)
Definition pairWinner (thePair : TourPlayerPair) : TourPlayer :=
  let winIdx :=
    if (winCnt (pair_at thePair black) >? winCnt (pair_at thePair white))
       || ((winCnt (pair_at thePair black) =? winCnt (pair_at thePair white))
           && (whiteCnt (pair_at thePair black) <? whiteCnt (pair_at thePair white)))
    then black else white in
  pair_at thePair winIdx.

(** The map of pair tallies that [getKnockoutWinnerList] builds. *)
Definition pairMapOf (recs : list MatchRecord) : gmap Z TourPlayerPair :=
  foldl (addToPairMap (getLastRound recs)) ∅ recs.

(** [TourMng::getKnockoutWinnerList]. *)
Definition getKnockoutWinnerList (recs : list MatchRecord) : list TourPlayer :=
  map (fun p => pairWinner (snd p)) (Std.int_map_entries (pairMapOf recs)).

(** [TourMng::uncompletedMatches]. *)
Definition uncompletedMatches (t : Mng) : Z :=
  foldl (fun cnt r => if decide (Records.state r = MatchState.none)
                      then Int32.incr cnt else cnt) 0 (matchRecordList t).

(** The names of the players that had a bye so far ([luckSet]). *)
Definition luckSetOf (recs : list MatchRecord) : gset string :=
  foldl (fun (luckSet : gset string) r =>
           if String.eqb (playernameW r) "" || String.eqb (playernameB r) "" then
             {[ playernames r (if String.eqb (playernameW r) "" then black else white) ]}
             ∪ luckSet
           else luckSet) ∅ recs.

(** The loop of at most 10 draws for the lucky player: [Some] is the
    [break] with the player drawn and the vector without it. *)
Fixpoint drawLucky (n : nat) (luckSet : gset string) (playerVec : list TourPlayer) (t : Mng)
    : option (TourPlayer * list TourPlayer) * Mng :=
  match n with
  | O => (None, t)
  | S n' =>
      let '(v, t) := std_rand t in
      let k := Z.to_nat (v mod Z.of_nat (length playerVec)) in
      match playerVec !! k with
      | Some p =>
          if decide (name p ∈ luckSet) then drawLucky n' luckSet playerVec t
          else (Some (p, delete k playerVec), t)
      | None => drawLucky n' luckSet playerVec t
      end
  end.

(** The pairing loop of [createKnockoutMatchList]:
    [for (i = 0; i < n; i++)] from index [i], with [todo] rounds left. *)
Fixpoint pairUp (todo : nat) (i n : nat) (playerVec : list TourPlayer) (round : Z) (t : Mng)
    : Z * Mng :=
  match todo with
  | O => (0, t)
  | S todo' =>
      let name0 := name (default TourPlayer_default (playerVec !! i)) in
      let name1 := name (default TourPlayer_default (playerVec !! (i + n)%nat)) in
      let '(v, t) := std_rand t in
      let record := with_round round (MatchRecord_ctor name0 name1 (negb (Z.land v 1 =? 0))) in
      let '(_, t) := addMatchRecord record t in
      let '(addCnt, t) := pairUp todo' (S i) n playerVec round t in
      (Int32.incr addCnt, t)
  end.

(** [TourMng::createKnockoutMatchList(std::vector<TourPlayer>, int)]. *)
Definition createKnockoutMatchList (playerVec : list TourPlayer) (round : Z) (t : Mng)
    : bool * Mng :=
  if (length playerVec <? 2)%nat then (false, t)
  else
    let '(playerVec, t) :=
      if Nat.odd (length playerVec) then
        let luckSet := luckSetOf (matchRecordList t) in
        let '(drawn, t) := drawLucky 10 luckSet playerVec t in
        let '(luckPlayer, playerVec) :=
          match drawn with
          | Some (p, vec) => (p, vec)
          | None => (default TourPlayer_default (head playerVec), tail playerVec)
          end in
        let record := MatchRecord_ctor (name luckPlayer) "" false in
        let record := with_round round record in
        let record := with_state MatchState.completed record in
        let record := with_resultType win record in
        let '(v, t) := std_rand t in
        let record := with_pairId v record in
        (playerVec, snd (addMatchRecord_simple record t))
      else (playerVec, t) in
    let playerVec := Std.sort (fun lhs rhs => elo lhs >? elo rhs) playerVec in
    let n := (length playerVec / 2)%nat in
    let '(addCnt, t) := pairUp n 0 n playerVec round t in
    (addCnt >? 0, t).

(** [TourMng::createKnockoutMatchList(const std::vector<std::string>&)]. *)
Definition createKnockoutMatchList_names (nameList : list string) (t : Mng) : bool * Mng :=
  createKnockoutMatchList (map (fun nm => set_name nm TourPlayer_default) nameList) 0 t.

(** [TourMng::createNextKnockoutMatchList]. *)
Definition createNextKnockoutMatchList (t : Mng) : bool * Mng :=
  let winList := getKnockoutWinnerList (matchRecordList t) in
  createKnockoutMatchList winList (Int32.wrap (getLastRound (matchRecordList t) + 1)) t.

(** [TourMng::createNextRoundMatches]. *)
Definition createNextRoundMatches (t : Mng) : bool * Mng :=
  match type t with
  | TourType.roundrobin => (false, t)
  | TourType.knockout => createNextKnockoutMatchList t
  | TourType.none => (false, t)
  end.

(** [TourMng::reset]. *)
Definition reset (t : Mng) : Mng :=
  set_previousElapsed 0 (set_matchRecordList [] t).

(** The inner loop of the round-robin case of [createMatchList], over the
    names after [name0]: [Some nm] is the [break] at a missing name. *)
Fixpoint roundRobin_inner (name0 : string) (others : list string) (t : Mng)
    : option string * Mng :=
  match others with
  | [] => (None, t)
  | name1 :: others' =>
      if negb (isNameExistent name1) then (Some name1, t)
      else
        let '(v, t) := std_rand t in
        let record := with_round 1 (MatchRecord_ctor name0 name1 (negb (Z.land v 1 =? 0))) in
        let '(_, t) := addMatchRecord record t in
        roundRobin_inner name0 others' t
  end.

(** The outer loop, [for (i = 0; i < nameList.size() - 1 && !err; i++)],
    over the names from index [i] on. *)
Fixpoint roundRobin_outer (names : list string) (t : Mng) : option string * Mng :=
  match names with
  | [] => (None, t)
  | [_] => (None, t)
  | name0 :: others =>
      if negb (isNameExistent name0) then (Some name0, t)
      else
        match roundRobin_inner name0 others t with
        | (Some missingName, t) => (Some missingName, t)
        | (None, t) => roundRobin_outer others t
        end
  end.

(** [TourMng::createMatchList(nameList, tourType)]. *)
Definition createMatchList (nameList : list string) (tourType : TourType.t) (t : Mng)
    : bool * Mng :=
  let t := reset t in
  if (length nameList <? 2)%nat then (false, t)
  else
    let nameList := if shufflePlayers t then shuffle nameList else nameList in
    match tourType with
    | TourType.roundrobin =>
        match roundRobin_outer nameList t with
        | (Some _, t) => (false, t)
        | (None, t) => (true, t)
        end
    | TourType.knockout => (true, snd (createKnockoutMatchList_names nameList t))
    | TourType.none => (true, t)
    end.


(** [TourMng::createMatch(gameIdx, whiteName, blackName, startFen,
    startMoves)]: both engines are asked for; with both at hand a new
    driver is added to [gameList] ([addGame]) and kick-started (state
    [begin]); otherwise what was obtained goes back to the pool. *)
Definition createMatch_engines (gIdx : Z) (whiteName blackName : string) (t : Mng)
    : bool * Mng :=
  let '(eW, pool) := createEngine (playerMng t) whiteName in
  let '(eB, pool) := createEngine pool blackName in
  match eW, eB with
  | Some _, Some _ =>
      let game := mkGame gIdx GameState.begin noresult eW eB in
      (true, set_gameList (gameList t ++ [game]) (set_playerMng pool t))
  | _, _ =>
      (false, set_playerMng (returnPlayer (returnPlayer pool eW) eB) t)
  end.

(** [TourMng::createMatch(MatchRecord&)]. *)
Definition createMatch (record : MatchRecord) (t : Mng) : MatchRecord * Mng :=
  if negb (Records.isValid record) then (with_state MatchState.error record, t)
  else
    let '(ok, t) := createMatch_engines (gameIdx record) (playernames record white)
                      (playernames record black) t in
    if ok then (with_state MatchState.playing record, t)
    else (with_state MatchState.error record, t).

(** [gameList.size() >= gameConcurrency]. *)
Definition atCapacity (t : Mng) : bool :=
  Z.of_nat (length (gameList t)) >=? Int32.to_size_t (gameConcurrency t).

(** The loop of [playMatches] over the records from some position on; the
    records come back as the loop leaves them. *)
Fixpoint playMatches_loop (recs : list MatchRecord) (t : Mng) : list MatchRecord * Mng :=
  match recs with
  | [] => ([], t)
  | m :: rest =>
      if decide (Records.state m <> MatchState.none) then
        let '(rest, t) := playMatches_loop rest t in (m :: rest, t)
      else
        let '(m, t) := createMatch m t in
        if atCapacity t then (m :: rest, t)
        else let '(rest, t) := playMatches_loop rest t in (m :: rest, t)
  end.

(** [TourMng::finishTournament]; the process exits at its end. *)
Definition finishTournament (t : Mng) : Mng :=
  set_playerMng (pool_shutdown (playerMng t)) (set_state TourState.done t).

(** [TourMng::playMatches]. *)
Definition playMatches (t : Mng) : Mng :=
  match matchRecordList t with
  | [] => finishTournament t
  | _ =>
      if atCapacity t then t
      else
        let '(recs, t) := playMatches_loop (matchRecordList t) t in
        let t := set_matchRecordList recs t in
        match gameList t with
        | [] =>
            let '(added, t) := createNextRoundMatches t in
            if added then t else finishTournament t
        | _ => t
        end
  end.

(** [TourMng::matchCompleted]. *)
Definition matchCompleted (game : Game Engine) (t : Mng) : Mng :=
  let gIdx := idx game in
  let t :=
    if (0 <=? gIdx) && (gIdx <? Z.of_nat (length (matchRecordList t))) then
      set_matchRecordList
        (alter (fun record => with_resultType (gresult game)
                                (with_state MatchState.completed record))
               (Z.to_nat gIdx) (matchRecordList t)) t
    else t in
  checkToExtendMatches gIdx t.

(** The first loop of [tickWork]: every driver is ticked; a driver found
    [stopped] is set to [ending] and its match is completed.  [tk] is
    what has happened to a driver when the loop reads its state: the
    work of [game->tick()] this time, and whatever the engine threads
    did to the driver (a move, a resignation, a crash) since the loop
    read it last.  What such a thread does after the state is read shows
    in the [tk] of the next tick. *)
Fixpoint tickGames (tk : Game Engine -> Game Engine) (games : list (Game Engine)) (t : Mng)
    : list (Game Engine) * Mng :=
  match games with
  | [] => ([], t)
  | game :: rest =>
      let game := tk game in
      if decide (gstate game = GameState.stopped) then
        let game := Game_setState GameState.ending game in
        let t := matchCompleted game t in
        let '(rest, t) := tickGames tk rest t in (game :: rest, t)
      else
        let '(rest, t) := tickGames tk rest t in (game :: rest, t)
  end.

(** The second loop, for one driver found [ended]: its players go back to
    the pool. *)
Definition returnPlayers (pool : Pool) (game : Game Engine) : Pool :=
  let pool := match playerW game with
              | Some e => returnPlayer pool (Some e)
              | None => pool
              end in
  match playerB game with
  | Some e => returnPlayer pool (Some e)
  | None => pool
  end.

Definition isEnded (game : Game Engine) : bool :=
  bool_decide (gstate game = GameState.ended).

(** [TourMng::tickWork]. *)
Definition tickWork (tk : Game Engine -> Game Engine) (t : Mng) : Mng :=
  let t := set_playerMng (pool_tick (playerMng t)) t in
  let '(games, t) := tickGames tk (gameList t) t in
  let stoppedGameList := filter (fun g => isEnded g = true) games in
  let t := set_playerMng (foldl returnPlayers (playerMng t) stoppedGameList) t in
  let t := set_gameList (filter (fun g => isEnded g = false) games) t in
  if decide (state t = TourState.playing) then playMatches t else t.

(** The manager over several ticks, one function per tick for what the
    drivers do; nothing runs after [finishTournament]. *)
Fixpoint run (ticks : list (Game Engine -> Game Engine)) (t : Mng) : Mng :=
  match ticks with
  | [] => t
  | tk :: ticks' =>
      if decide (state t = TourState.done) then t else run ticks' (tickWork tk t)
  end.

(** [TourMng::startTournament]. *)
Definition startTournament (t : Mng) : Mng := set_state TourState.playing t.

(** The loop of [loadMatchRecords] over ["recordList"], from index [i]. *)
Fixpoint loadRecords (array : Json.Value) (n i : Z) (fuel : nat)
    : Outcome.t (list MatchRecord) :=
  match fuel with
  | O => Returns []
  | S fuel' =>
      if i <? n then
        v ← Json.at_index array i;
        '(ok, record) ← Records.load MatchRecord_default v;
        rest ← loadRecords array n (i + 1) fuel';
        mret (if ok : bool then record :: rest else rest)
      else Returns []
  end.

(** The question "Do you want to resume? (y/n)" read from the lines of
    standard input; with the input used up, [getline] keeps yielding the
    empty line and the loop never ends. *)
Fixpoint askResume (lines : list string) : Outcome.t bool :=
  match lines with
  | [] => Diverges
  | l :: rest =>
      let line := trim l in
      if String.eqb line "" then askResume rest
      else if String.eqb line "n" || String.eqb line "no" then Returns false
      else if String.eqb line "y" || String.eqb line "yes" then Returns true
      else askResume rest
  end.

(** The type named in the file: the last entry of [tourTypeNames] equal to
    it, the current type when there is none. *)
Definition typeOfName (s : string) (current : TourType.t) : TourType.t :=
  if String.eqb s "knockout" then TourType.knockout
  else if String.eqb s "roundrobin" then TourType.roundrobin
  else current.

(** [TourMng::loadMatchRecords(autoYesReply)]; [file] is the content of
    [playing.json] when [loadFromJsonFile] succeeds, [lines] what standard
    input holds.  The time control is a collaborator of its own and is
    left out. *)
Definition loadMatchRecords (autoYesReply : bool) (file : option Json.Value)
    (lines : list string) (t : Mng) : Outcome.t (bool * Mng) :=
  if negb (resumable t) then Returns (false, t)
  else
    match file with
    | None => Returns (false, t)
    | Some d =>
        array ← Json.member d "recordList";
        recordList ← loadRecords array (Int32.wrap (Z.of_nat (Json.size array))) 0
                       (Json.size array);
        let uncompletedCnt :=
          Int32.wrap (Z.of_nat (length
            (filter (fun r => Records.state r = MatchState.none) recordList))) in
        if uncompletedCnt =? 0 then Returns (false, t)
        else
          yes ← (if autoYesReply then Returns true else askResume lines);
          if negb yes then Returns (false, t)
          else
            let t := set_matchRecordList recordList t in
            hasType ← Json.isMember d "type";
            t ← (if hasType : bool
                 then s ← Json.member d "type" ≫= Json.asString;
                      mret (set_type (typeOfName s (type t)) t)
                 else mret t);
            elapsed ← Json.member d "elapsed" ≫= Json.asInt;
            let t := set_previousElapsed (Int32.wrap (previousElapsed t + elapsed)) t in
            mret (true, startTournament t)
    end.

End Manager.

End Tournament.


(** ** The game driver *)

Module GameDriver.

Import Chess Moves Outcome.

Inductive EngineComputingState := idle | thinking | pondering.

Inductive LogType := system | toEngine | fromEngine.

(** The commands a driver sends to a player.  A player is a collaborator;
    the model keeps, per player, the commands it was sent, oldest first. *)
Inductive PlayerCall :=
  | go
  | goPonder (pondermove : Move)
  | stopThinking
  | oppositeMadeMove (move : Move) (sanMoveString : string).

Record Player := mkPlayer {
  getName : string;
  getScore : Z;
  getDepth : Z;
  getNodes : Z;
  calls : list PlayerCall
}.

Definition send (c : PlayerCall) (p : Player) : Player :=
  mkPlayer (getName p) (getScore p) (getDepth p) (getNodes p) (calls p ++ [c]).

(** One entry of [board.histList], with the fields the driver touches;
    [Time] stands for the [double] of the elapsed seconds. *)
Record Hist (Time : Type) := mkHist {
  moverSide : Side;
  moveString : string;
  capIsEmpty : bool;
  elapsed : Time;
  score : Z;
  depth : Z;
  nodes : Z
}.
Arguments mkHist {Time}.
Arguments moverSide {Time}.
Arguments moveString {Time}.
Arguments capIsEmpty {Time}.
Arguments elapsed {Time}.
Arguments score {Time}.
Arguments depth {Time}.
Arguments nodes {Time}.

(** The board: the side to move, the history and the result are fields
    the driver reads and writes; the position itself is the rules
    module's. *)
Record Board (Position Time : Type) := mkBoard {
  side : Side;
  histList : list (Hist Time);
  bresult : Result;
  position : Position
}.
Arguments mkBoard {Position Time}.
Arguments side {Position Time}.
Arguments histList {Position Time}.
Arguments bresult {Position Time}.
Arguments position {Position Time}.

Record GameConfig := mkGameConfig {
  ponderMode : bool;
  adjudicationMode : bool;
  adjudicationMaxGameLength : Z;
  adjudicationEgtbMode : bool;
  adjudicationMaxPieces : Z
}.

(** What the driver needs from the rules module, the clock and the move
    type.
    - [checkMake b from dest promotion] is [board.checkMake]: whether the
      move was made, and the board afterwards.
    - [rule], [probeSyzygy] (result and error flag) are the board's.
    - [isTimeOver], [udateClockAfterMove], [setupClocksBeforeThinking]
      are the time controller's; [timeLeftText] is the "Timeleft for ..."
      line [checkTimeOver] composes from the two names, the clock and the
      side to move.
    - [moveToString] is [Move::toString], [illegalMove] is
      [Move::illegalMove]. *)
Class Rules (Position Time Clock : Type) := {
  checkMake : Board Position Time -> Z -> Z -> PieceType -> bool * Board Position Time;
  rule : Board Position Time -> Result;
  probeSyzygy : Board Position Time -> Z -> Result * bool;
  isTimeOver : Clock -> Side -> bool;
  udateClockAfterMove : Clock -> Time -> Side -> Z -> Clock;
  setupClocksBeforeThinking : Clock -> Z -> Clock;
  timeLeftText : string -> string -> Clock -> Side -> string;
  moveToString : Move -> string;
  illegalMove : Move
}.

(** The driver.  [messageLogger] tells whether a logger is installed
    ([setMessageLogger]); [logged] holds the lines handed to it. *)
Record Game (Position Time Clock : Type) := mkGame {
  state : GameState.t;
  stateTick : Z;
  board : Board Position Time;
  playerW : option Player;
  playerB : option Player;
  timeController : Clock;
  gameConfig : GameConfig;
  messageLogger : bool;
  logged : list (string * LogType)
}.
Arguments mkGame {Position Time Clock}.
Arguments state {Position Time Clock}.
Arguments stateTick {Position Time Clock}.
Arguments board {Position Time Clock}.
Arguments playerW {Position Time Clock}.
Arguments playerB {Position Time Clock}.
Arguments timeController {Position Time Clock}.
Arguments gameConfig {Position Time Clock}.
Arguments messageLogger {Position Time Clock}.
Arguments logged {Position Time Clock}.

Section Driver.

Context {Position Time Clock : Type} `{!Rules Position Time Clock}.

#[local] Abbreviation G := (Game Position Time Clock).
#[local] Abbreviation Bd := (Board Position Time).

(** [players[sd]]. *)
Definition players (g : G) (sd : Side) : option Player :=
  match sd with white => playerW g | black => playerB g end.

Definition set_players (sd : Side) (p : option Player) (g : G) : G :=
  match sd with
  | white => mkGame (state g) (stateTick g) (board g) p (playerB g)
               (timeController g) (gameConfig g) (messageLogger g) (logged g)
  | black => mkGame (state g) (stateTick g) (board g) (playerW g) p
               (timeController g) (gameConfig g) (messageLogger g) (logged g)
  end.

Definition set_board (b : Bd) (g : G) : G :=
  mkGame (state g) (stateTick g) b (playerW g) (playerB g)
    (timeController g) (gameConfig g) (messageLogger g) (logged g).

Definition set_timeController (c : Clock) (g : G) : G :=
  mkGame (state g) (stateTick g) (board g) (playerW g) (playerB g)
    c (gameConfig g) (messageLogger g) (logged g).

Definition set_bresult (r : Result) (b : Bd) : Bd :=
  mkBoard (side b) (histList b) r (position b).

Definition set_histList (h : list (Hist Time)) (b : Bd) : Bd :=
  mkBoard (side b) h (bresult b) (position b).

(** [Game::setState]. *)
Definition setState (st : GameState.t) (g : G) : G :=
  mkGame st (if decide (state g <> st) then 0 else stateTick g) (board g)
    (playerW g) (playerB g) (timeController g) (gameConfig g)
    (messageLogger g) (logged g).

(** A call of [messageLogger]: without a logger installed the call of the
    empty [std::function] throws. *)
Definition log (msg : string) (g : G) : Outcome.t G :=
  if messageLogger g then
    Returns (mkGame (state g) (stateTick g) (board g) (playerW g) (playerB g)
               (timeController g) (gameConfig g) (messageLogger g)
               (logged g ++ [(msg, system)]))
  else Throws.

(** [players[sd]->...] through a pointer that is not checked. *)
Definition deref (g : G) (sd : Side) : Outcome.t Player :=
  match players g sd with
  | Some p => Returns p
  | None => Throws
  end.

(** [players[sd]->c] for a command [c]. *)
Definition tell (sd : Side) (c : PlayerCall) (g : G) : Outcome.t G :=
  p ← deref g sd;
  mret (set_players sd (Some (send c p)) g).

(** [if (players[sd]) players[sd]->stopThinking()]. *)
Definition stopIfAttached (sd : Side) (g : G) : G :=
  match players g sd with
  | Some p => set_players sd (Some (send stopThinking p)) g
  | None => g
  end.

(** [Game::gameOver(const Result&)]. *)
Definition gameOver (result : Result) (g : G) : G :=
  let g := stopIfAttached black (stopIfAttached white g) in
  setState GameState.stopped (set_board (set_bresult result (board g)) g).

(** [Game::gameOver(Side winner, ReasonType)]. *)
Definition gameOver_winner (winner : Side) (reasonType : ReasonType) (g : G) : G :=
  gameOver (mkResult (if decide (winner = white) then win else loss) reasonType) g.

(** [Game::checkTimeOver]. *)
Definition checkTimeOver (g : G) : Outcome.t (bool * G) :=
  if isTimeOver (timeController g) (side (board g)) then
    g ← (if messageLogger g then
           pb ← deref g black;
           pw ← deref g white;
           log (timeLeftText (getName pb) (getName pw) (timeController g)
                  (side (board g))) g
         else mret g);
    mret (true, gameOver_winner (getXSide (side (board g))) timeout g)
  else mret (false, g).

(** [Game::make]. *)
Definition make (move : Move) (moveStr : string) (g : G) : Outcome.t (bool * G) :=
  let '(made, b) := checkMake (board g) (from move) (dest move) (promotion move) in
  let g := set_board b g in
  if made then
    let result := rule (board g) in
    if decide (result.(Chess.result) <> noresult) then mret (false, gameOver result g)
    else
      let lengthHit :=
        adjudicationMode (gameConfig g)
        && negb (adjudicationMaxGameLength (gameConfig g) =? 0)
        && (Z.of_nat (length (histList (board g)))
            >=? Int32.to_size_t (adjudicationMaxGameLength (gameConfig g))) in
      if lengthHit then mret (false, gameOver (mkResult draw adjudication) g)
      else
        r ← (if adjudicationMode (gameConfig g) && adjudicationEgtbMode (gameConfig g) then
               let '(result, tberror) :=
                 probeSyzygy (board g) (adjudicationMaxPieces (gameConfig g)) in
               if decide (result.(Chess.result) = noresult) then
                 if tberror then
                   match last (histList (board g)) with
                   | None => Throws
                   | Some h =>
                       if negb (capIsEmpty h) then
                         g ← log "Error: unable to probe tablebase, position invalid, illegal or not in tablebase" g;
                         mret (None, g)
                       else mret (None, g)
                   end
                 else mret (None, g)
               else mret (Some result, g)
             else mret (None, g));
        match r with
        | (Some result, g) => mret (false, gameOver result g)
        | (None, g) =>
            match last (histList (board g)) with
            | None => Throws
            | Some h =>
                g ← tell (side (board g)) (oppositeMadeMove move (moveString h)) g;
                mret (true, g)
            end
        end
  else
    p ← deref g (side (board g));
    g ← log ("Illegal move " +:+ moveStr +:+ " from " +:+ getName p) g;
    mret (false, gameOver_winner (getXSide (side (board g))) illegalmove g).

(** [Game::startThinking]. *)
Definition startThinking (pondermove : Move) (g : G) : Outcome.t G :=
  let g := set_timeController
             (setupClocksBeforeThinking (timeController g)
                (Int32.wrap (Z.of_nat (length (histList (board g)))))) g in
  let sd := side (board g) in
  g ← tell (getXSide sd) (goPonder pondermove) g;
  tell sd go g.

(** The stamping of the last history entry in [moveFromPlayer]. *)
Definition stampLast (timeConsumed : Time) (p : Player) (b : Bd) : Bd :=
  set_histList
    (alter (fun h => mkHist (moverSide h) (moveString h) (capIsEmpty h)
                       timeConsumed (getScore p) (getDepth p) (getNodes p))
           (length (histList b) - 1)%nat (histList b)) b.

(** [Game::moveFromPlayer], run under the per-game mutex. *)
Definition moveFromPlayer (move : Move) (moveStr : string) (ponderMove : Move)
    (timeConsumed : Time) (sd0 : Side) (oldState : EngineComputingState) (g : G)
    : Outcome.t G :=
  if decide (state g <> GameState.playing \/ side (board g) <> sd0) then mret g
  else
    '(stale, g) ← (if decide (state g <> GameState.playing) then mret (true, g)
                   else '(over, g) ← checkTimeOver g;
                        mret (over || bool_decide (side (board g) <> sd0), g));
    if stale : bool then log ("TimeOver for " +:+ moveToString move) g
    else
      let sd := side (board g) in
      match oldState with
      | thinking =>
          '(made, g) ← make move moveStr g;
          if made : bool then
            p ← deref g sd;
            match last (histList (board g)) with
            | None => Throws
            | Some lastHist =>
                let g := set_board (stampLast timeConsumed p (board g)) g in
                let g := set_timeController
                           (udateClockAfterMove (timeController g) timeConsumed
                              (moverSide lastHist)
                              (Int32.wrap (Z.of_nat (length (histList (board g)))))) g in
                startThinking (if ponderMode (gameConfig g) then ponderMove
                               else illegalMove) g
            end
          else mret g
      | pondering => tell sd go g
      | idle => mret g
      end.

End Driver.

End GameDriver.

(** ** Notions the properties are stated with *)

Module Notions.

Import Chess Moves Records Standings Outcome.

(** The stored result of a record object, as [MatchRecord::load] reads
    it. *)
Definition storedResult (obj : Json.Value) : Outcome.t string :=
  Json.member obj "result" ≫= Json.asString.

(** The state that goes with a result kind: completed with a result, none
    without. *)
Definition stateOfResult (rt : ResultType) : MatchState.t :=
  match rt with noresult => MatchState.none | _ => MatchState.completed end.

(** The elements of a JSON array. *)
Definition elements (v : Json.Value) : list Json.Value :=
  match v with Json.JArray l => l | _ => [] end.

End Notions.

(** ** Sample collaborators and inputs, for running the model *)

Module Samples.

Import Chess Moves Records Standings Outcome Tournament.

(** A pool that always delivers an engine (named after the player), a PRNG
    that yields 3, 10, 17, ..., an empty opening book, a configuration
    that knows every name, a shuffle that reverses, a [trim] that leaves
    the line alone. *)
#[global] Instance sample_collaborators : Collaborators unit string := {|
  rand := fun n => Z.of_nat (7 * n + 3);
  getRandomBook := fun n fen moves => (fen, moves, n);
  isNameExistent := fun _ => true;
  shuffle := @rev string;
  pool_tick := fun p => p;
  createEngine := fun p nm => (Some nm, p);
  returnPlayer := fun p _ => p;
  pool_shutdown := fun p => p;
  trim := fun s => s
|}.

(** A manager before any schedule exists. *)
Definition sample_mng (ty : TourType.t) (gpp conc : Z) : TourMng unit string :=
  mkTourMng ty gpp conc false true [] [] TourState.none 0 tt 0%nat.

(** A record object of the schedule file. *)
Definition sample_record_json (w b res : string) (gi : Z) : Json.Value :=
  Json.JObject [("players", Json.JArray [Json.JString w; Json.JString b]);
                ("result", Json.JString res);
                ("gameIdx", Json.JInt gi);
                ("round", Json.JInt 1);
                ("pairId", Json.JInt 41)].

(** A schedule file with one finished game and one game that was being
    played when the file was written. *)
Definition sample_file : Json.Value :=
  Json.JObject [("type", Json.JString "roundrobin");
                ("elapsed", Json.JInt 12);
                ("recordList",
                 Json.JArray [sample_record_json "A" "B" "1-0" 0;
                              sample_record_json "B" "A" "*" 1])].

End Samples.

(** ** Notions the standings properties are stated with *)

Module StandingsNotions.

Import Chess Records Standings.

(** [A] outranks [B]: more wins; or as many wins and fewer losses; or as
    many wins and losses and more draws. *)
Definition outranks (A B : TourPlayer) : Prop :=
  winCnt A > winCnt B
  \/ (winCnt A = winCnt B /\ lossCnt A < lossCnt B)
  \/ (winCnt A = winCnt B /\ lossCnt A = lossCnt B /\ drawCnt A > drawCnt B).

(** The entry of a name in the map, the fresh entry when it has none. *)
Definition entryOf (resultMap : gmap string TourPlayer) (nm : string) : TourPlayer :=
  default (set_name nm TourPlayer_default) (resultMap !! nm).

(** The counters of an entry add up, and none is negative. *)
Definition consistent (r : TourPlayer) : Prop :=
  0 <= gameCnt r /\ 0 <= winCnt r /\ 0 <= drawCnt r /\ 0 <= lossCnt r /\
  gameCnt r = winCnt r + drawCnt r + lossCnt r.

(** [r'] is [r] after one more game: one more in [gameCnt] and in exactly
    one of [winCnt], [drawCnt], [lossCnt]. *)
Definition oneMoreGame (r r' : TourPlayer) : Prop :=
  gameCnt r' = gameCnt r + 1 /\
  ((winCnt r' = winCnt r + 1 /\ drawCnt r' = drawCnt r /\ lossCnt r' = lossCnt r)
   \/ (winCnt r' = winCnt r /\ drawCnt r' = drawCnt r + 1 /\ lossCnt r' = lossCnt r)
   \/ (winCnt r' = winCnt r /\ drawCnt r' = drawCnt r /\ lossCnt r' = lossCnt r + 1)).

(** Every entry sits under its own, non-empty name, its counters are
    consistent, and it has counted at most [n] games. *)
Definition wellCounted (n : Z) (resultMap : gmap string TourPlayer) : Prop :=
  forall nm r, resultMap !! nm = Some r ->
    name r = nm /\ nm <> ""%string /\ consistent r /\ gameCnt r <= n.

(** The appearances of players in the records: every record once for its
    White and once for its Black side, in the order of the records. *)
Definition occurrences (recs : list MatchRecord) : list (MatchRecord * Side) :=
  flat_map (fun m => [(m, white); (m, black)]) recs.

(** Among appearances, those of [nm] in a record with a result; those it
    won (White in a win, Black in a loss); those drawn; those it lost. *)
Definition playedIn (nm : string) (occ : list (MatchRecord * Side)) : Z :=
  Z.of_nat (length (filter (fun ms : MatchRecord * Side =>
                              resultType ms.1 <> noresult /\ playernames ms.1 ms.2 = nm)
                           occ)).

Definition wonIn (nm : string) (occ : list (MatchRecord * Side)) : Z :=
  Z.of_nat (length (filter (fun ms : MatchRecord * Side =>
                              playernames ms.1 ms.2 = nm /\
                              ((resultType ms.1 = win /\ ms.2 = white)
                               \/ (resultType ms.1 = loss /\ ms.2 = black)))
                           occ)).

Definition drawnIn (nm : string) (occ : list (MatchRecord * Side)) : Z :=
  Z.of_nat (length (filter (fun ms : MatchRecord * Side =>
                              playernames ms.1 ms.2 = nm /\ resultType ms.1 = draw)
                           occ)).

Definition lostIn (nm : string) (occ : list (MatchRecord * Side)) : Z :=
  Z.of_nat (length (filter (fun ms : MatchRecord * Side =>
                              playernames ms.1 ms.2 = nm /\
                              ((resultType ms.1 = win /\ ms.2 = black)
                               \/ (resultType ms.1 = loss /\ ms.2 = white)))
                           occ)).

(** The entry a name must have after these appearances: none for the
    empty name and for a name that has not played; otherwise the name
    with its numbers of games played, won, drawn and lost (Elo and White
    count are not touched by the aggregation). *)
Definition rowIn (nm : string) (occ : list (MatchRecord * Side)) : option TourPlayer :=
  if decide (nm <> ""%string /\ 0 < playedIn nm occ)
  then Some (mkTourPlayer nm 0 (playedIn nm occ) (wonIn nm occ) (drawnIn nm occ)
               (lostIn nm occ) 0)
  else None.

(** The numbers of a name over the records, and its entry. *)
Definition gamesPlayed (nm : string) (recs : list MatchRecord) : Z :=
  playedIn nm (occurrences recs).
Definition gamesWon (nm : string) (recs : list MatchRecord) : Z :=
  wonIn nm (occurrences recs).
Definition gamesDrawn (nm : string) (recs : list MatchRecord) : Z :=
  drawnIn nm (occurrences recs).
Definition gamesLost (nm : string) (recs : list MatchRecord) : Z :=
  lostIn nm (occurrences recs).

Definition tallyOf (nm : string) (recs : list MatchRecord) : TourPlayer :=
  mkTourPlayer nm 0 (gamesPlayed nm recs) (gamesWon nm recs) (gamesDrawn nm recs)
    (gamesLost nm recs) 0.

(** Three finished games: A beats B, A and B draw, C (as Black) beats A;
    and one without a result. *)
Definition sample_records : list MatchRecord :=
  [mkMatchRecord "A" "B" "" [] MatchState.completed win 0 1 5;
   mkMatchRecord "B" "A" "" [] MatchState.completed draw 1 1 5;
   mkMatchRecord "A" "C" "" [] MatchState.completed loss 2 1 6;
   mkMatchRecord "B" "C" "" [] MatchState.none noresult 3 1 7].

End StandingsNotions.

(** ** Notions the scheduler properties are stated with *)

Module SchedulerNotions.

Import Chess Records Tournament.

(** Two manager states with the same live games and the same limit. *)
Definition sameGames {Pool Engine : Type} (t t' : TourMng Pool Engine) : Prop :=
  gameList t' = gameList t /\ gameConcurrency t' = gameConcurrency t.

(** The number of live games is within the limit. *)
Definition withinLimit {Pool Engine : Type} (t : TourMng Pool Engine) : Prop :=
  Z.of_nat (length (gameList t)) <= gameConcurrency t.

(** A record that was not waiting (state other than none) is left as it
    is. *)
Definition keptUnlessWaiting (r r' : MatchRecord) : Prop :=
  Records.state r <> MatchState.none -> r' = r.

(** A round-robin of three players, one game per pair, two games at a
    time, about to start. *)
Definition sample_tournament : TourMng unit string :=
  startTournament
    (snd (createMatchList ["A"; "B"; "C"]%string TourType.roundrobin
            (Samples.sample_mng TourType.roundrobin 1 2))).

(** A tick in which every driver found in [begin] finishes with a White
    win, and a later one in which stopped drivers have let go of their
    players. *)
Definition sample_tick (g : Game string) : Game string :=
  match gstate g with
  | GameState.begin => mkGame (idx g) GameState.stopped win (playerW g) (playerB g)
  | GameState.ending => Game_setState GameState.ended g
  | _ => g
  end.

End SchedulerNotions.

(** ** Notions the knockout properties are stated with *)

Module KnockoutNotions.

Import Chess Records Standings Tournament.

(** The name of the player who won the game of a record, if it was
    decided. *)
Definition winnerName (r : MatchRecord) : option string :=
  match resultType r with
  | win => Some (playernameW r)
  | loss => Some (playernameB r)
  | _ => None
  end.

(** The number of games of [g] that [nm] won, and the number it played as
    White. *)
Definition winsOf (nm : string) (g : list MatchRecord) : Z :=
  Z.of_nat (length (filter (fun r => winnerName r = Some nm) g)).

Definition whitesOf (nm : string) (g : list MatchRecord) : Z :=
  Z.of_nat (length (filter (fun r => playernameW r = nm) g)).

(** The number of decided games of [g] that [nm] played as White. *)
Definition decidedWhitesOf (nm : string) (g : list MatchRecord) : Z :=
  Z.of_nat (length (filter (fun r => playernameW r = nm /\ is_Some (winnerName r)) g)).

(** The records with pair id [p]. *)
Definition pairGroup (p : Z) (recs : list MatchRecord) : list MatchRecord :=
  filter (fun r => pairId r = p) recs.

(** [L] is the last round of the records: the largest round number any
    of them carries. *)
Definition isLastRound (recs : list MatchRecord) (L : Z) : Prop :=
  (exists r, r ∈ recs /\ round r = L) /\ (forall r, r ∈ recs -> round r <= L).

(** The records of round [L] with pair id [p]. *)
Definition roundGroup (L : Z) (recs : list MatchRecord) (p : Z) : list MatchRecord :=
  filter (fun r => round r = L /\ pairId r = p) recs.

(** The game of [r] is between [a] and [b], in either colors. *)
Definition between (a b : string) (r : MatchRecord) : Prop :=
  (playernameW r = a /\ playernameB r = b) \/ (playernameW r = b /\ playernameB r = a).

(** What one record of the last round adds to the tally of its pair, in
    [getKnockoutWinnerList]. *)
Definition tallyRecord (thePair : TourPlayerPair) (r : MatchRecord) : TourPlayerPair :=
  let thePair :=
    if decide (resultType r = win \/ resultType r = loss) then
      let idxW := slot_of thePair (playernames r white) in
      let winIdx := if decide (resultType r = win) then idxW else getXSide idxW in
      pair_upd winIdx incr_winCnt thePair
    else thePair in
  pair_upd (slot_of thePair (playernames r white)) incr_whiteCnt thePair.

(** One step of the tally loop as the entry of one pair id sees it. *)
Definition tallyStep (o : option TourPlayerPair) (r : MatchRecord) : option TourPlayerPair :=
  Some (tallyRecord (default (pair_of_record r) o) r).

(** A knockout pairing of X and Y over two games: X wins with White, then
    the game with Y as White is drawn. *)
Definition sample_knockout_round : list MatchRecord :=
  [mkMatchRecord "X" "Y" "" [] MatchState.completed win 0 0 7;
   mkMatchRecord "Y" "X" "" [] MatchState.completed draw 1 0 7].

(** Two rounds of a knockout.  Round 0: X beats Y (pair id 7) and Z beats
    V (pair id 8).  Round 1, the last: Z beats X with Black (pair id
    9). *)
Definition sample_two_rounds : list MatchRecord :=
  [mkMatchRecord "X" "Y" "" [] MatchState.completed win 0 0 7;
   mkMatchRecord "Z" "V" "" [] MatchState.completed win 1 0 8;
   mkMatchRecord "X" "Z" "" [] MatchState.completed loss 2 1 9].

(** A knockout pairing of X and Y over four games with alternating colors:
    X wins with White, a draw, Y wins with Black, a draw.  Each has one
    win and two games as White. *)
Definition sample_tied_pair : list MatchRecord :=
  [mkMatchRecord "X" "Y" "" [] MatchState.completed win 0 0 7;
   mkMatchRecord "Y" "X" "" [] MatchState.completed draw 1 0 7;
   mkMatchRecord "X" "Y" "" [] MatchState.completed loss 2 0 7;
   mkMatchRecord "Y" "X" "" [] MatchState.completed draw 3 0 7].

(** A knockout pairing of X and Y of one game, drawn with X as White. *)
Definition sample_drawn_pair : list MatchRecord :=
  [mkMatchRecord "X" "Y" "" [] MatchState.completed draw 0 0 7].

(** A knockout manager holding the given records, no game running. *)
Definition knockout_mng (recs : list MatchRecord) : TourMng unit string :=
  mkTourMng TourType.knockout 4 2 false true recs [] TourState.playing 0 tt 0%nat.

End KnockoutNotions.

(** ** Notions the round-robin properties are stated with *)

Module PairingNotions.

Import Chess Records Tournament KnockoutNotions.

#[global] Instance between_dec a b r : Decision (between a b r).
Proof. unfold between. apply _. Defined.

(** The pairs [(p_i, p_j)], [i < j], of a list of players, in the order
    the two loops of [createMatchList] visit them. *)
Fixpoint pairsOf (names : list string) : list (string * string) :=
  match names with
  | [] => []
  | a :: rest => map (fun b => (a, b)) rest ++ pairsOf rest
  end.

(** The players of a record, White first. *)
Definition colors (r : MatchRecord) : string * string :=
  (playernameW r, playernameB r).

(** [blk] is the block of records of the pair [ab]: [n] records with one
    pair id, round 1, waiting and without result; the first has the pair
    in one of the two colorings, and the colors are exchanged from each
    record to the next. *)
Definition blockOf (n : nat) (ab : string * string) (blk : list MatchRecord) : Prop :=
  length blk = n /\
  exists (pid : Z) (w b : string),
    ((w, b) = ab \/ (b, w) = ab) /\
    forall (k : nat) (r : MatchRecord),
      blk !! k = Some r ->
      pairId r = pid /\ round r = 1 /\
      Records.state r = MatchState.none /\ resultType r = noresult /\
      colors r = if Nat.even k then (w, b) else (b, w).

(** The number of records of [recs] that are games between [p] and [q]. *)
Definition gamesBetween (p q : string) (recs : list MatchRecord) : nat :=
  length (filter (between p q) recs).

End PairingNotions.

(** ** Notions and samples for the game driver *)

Module DriverNotions.

Import Chess Moves Outcome GameDriver.

(** The result kind when [winner] wins: [win] is a win of White. *)
Definition winBy (winner : Side) : ResultType :=
  match winner with white => win | black => loss end.

(** The commands [after] has received beyond those of [before]. *)
Definition newCalls (before after : Player) : list PlayerCall :=
  drop (length (calls before)) (calls after).

(** A ponder command is among the commands newly received. *)
Definition receivedPonder (before after : Player) : Prop :=
  exists m, goPonder m ∈ newCalls before after.

(** A toy rules module: a move is legal when origin and destination
    differ; a legal move is entered in the history and passes the turn;
    nothing ends the game and no clock runs out.  The illegal-move
    sentinel is the move from -1 to -1. *)
#[global] Instance sample_rules : Rules unit Z unit := {|
  checkMake := fun b f d _ =>
    if f =? d then (false, b)
    else (true, mkBoard (getXSide (side b))
                  (histList b ++ [mkHist (side b) "san" true 0 0 0 0])
                  (bresult b) (position b));
  rule := fun _ => mkResult noresult noreason;
  probeSyzygy := fun _ _ => (mkResult noresult noreason, false);
  isTimeOver := fun _ _ => false;
  udateClockAfterMove := fun c _ _ _ => c;
  setupClocksBeforeThinking := fun c _ => c;
  timeLeftText := fun _ _ _ _ => "Timeleft"%string;
  moveToString := fun _ => "move"%string;
  illegalMove := mkMove (-1) (-1) 0
|}.

Definition sample_white : Player := mkPlayer "Alpha" 10 5 1000 [].
Definition sample_black : Player := mkPlayer "Beta" 20 6 2000 [].

(** A game being played, White to move, with a logger, ponder as given. *)
Definition sample_game (ponder : bool) : Game unit Z unit :=
  mkGame GameState.playing 3
    (mkBoard white [] (mkResult noresult noreason) tt)
    (Some sample_white) (Some sample_black) tt
    (mkGameConfig ponder false 0 false 0) true [].

End DriverNotions.

(** ** Notions for the round trip of a record through the schedule file *)

Module RoundTripNotions.

Import Chess Moves Records Notions.

(** A move whose three fields fit a byte each. *)
Definition byteMove (m : Move) : Prop :=
  byte (from m) /\ byte (dest m) /\ byte (promotion m).

(** The move with origin and destination exchanged. *)
Definition exchanged (m : Move) : Move :=
  {| from := dest m; dest := from m; promotion := promotion m |}.

(** What comes back of a record that is saved and loaded again: the state
    is set from the result, and every opening move has its origin and
    destination exchanged. *)
Definition reloaded (r : MatchRecord) : MatchRecord :=
  {| playernameW := playernameW r; playernameB := playernameB r;
     startFen := startFen r; startMoves := map exchanged (startMoves r);
     state := stateOfResult (resultType r); resultType := resultType r;
     gameIdx := gameIdx r; round := round r; pairId := pairId r |}.

(** What comes back when the saved record is loaded into the record
    [self]: as [reloaded], but a record saved without start position
    leaves the start position of [self] in place. *)
Definition reloadedInto (self r : MatchRecord) : MatchRecord :=
  {| playernameW := playernameW r; playernameB := playernameB r;
     startFen := if String.eqb (startFen r) "" then startFen self else startFen r;
     startMoves := map exchanged (startMoves r);
     state := stateOfResult (resultType r); resultType := resultType r;
     gameIdx := gameIdx r; round := round r; pairId := pairId r |}.

(** A record with an opening of two moves, being played. *)
Definition sample_playing_record : MatchRecord :=
  mkMatchRecord "A" "B" "8/8/8/8/8/8/8/8 w - - 0 1"
    [mkMove 12 28 0; mkMove 52 36 0] MatchState.playing noresult 4 1 77.

End RoundTripNotions.

(** ** Notions for the further properties of the manager *)

Module ManagerNotions.

Import Chess Records Tournament.

(** The record at every position carries that position as its
    [gameIdx]. *)
Definition indexed (recs : list MatchRecord) : Prop :=
  forall (i : nat) (r : MatchRecord), recs !! i = Some r -> gameIdx r = Z.of_nat i.

(** [recs'] continues [recs]: it is at least as long, keeps the [gameIdx]
    at every old position, and numbers every new position by itself. *)
Definition continues (recs recs' : list MatchRecord) : Prop :=
  (length recs <= length recs')%nat /\
  (forall i r r', recs !! i = Some r -> recs' !! i = Some r' -> gameIdx r' = gameIdx r) /\
  (forall i r', (length recs <= i)%nat -> recs' !! i = Some r' ->
                gameIdx r' = Int32.wrap (Z.of_nat i)).

(** A round-robin manager whose three games are over, no game running. *)
Definition sample_finished : TourMng unit string :=
  mkTourMng TourType.roundrobin 1 2 false true
    [mkMatchRecord "B" "A" "" [] MatchState.completed win 0 1 10;
     mkMatchRecord "C" "A" "" [] MatchState.completed draw 1 1 24;
     mkMatchRecord "C" "B" "" [] MatchState.error noresult 2 1 38]
    [] TourState.playing 0 tt 6%nat.

End ManagerNotions.

(** ** Notions the knockout pairing properties are stated with *)

Module SeedingNotions.

Import Chess Records Standings Tournament PairingNotions.

(** The pairs of a seeded vector: the [i]-th player of the upper half
    meets the [i]-th player of the lower half. *)
Definition halves (v : list TourPlayer) : list (string * string) :=
  let n := (length v / 2)%nat in
  zip (map name (take n v)) (map name (drop n v)).

(** No player stands before one with a higher Elo. *)
Definition seeded (v : list TourPlayer) : Prop :=
  forall (i j : nat) (p q : TourPlayer),
    (i < j)%nat -> v !! i = Some p -> v !! j = Some q -> elo q <= elo p.

(** [blk] is the block of records of the pair [ab] in round [rd]: [n]
    records with one pair id, waiting and without result; the first has
    the pair in one of the two colorings, and the colors are exchanged
    from each record to the next. *)
Definition roundBlock (n : nat) (rd : Z) (ab : string * string) (blk : list MatchRecord)
    : Prop :=
  length blk = n /\
  exists (pid : Z) (w b : string),
    ((w, b) = ab \/ (b, w) = ab) /\
    forall (k : nat) (r : MatchRecord),
      blk !! k = Some r ->
      pairId r = pid /\ round r = rd /\
      Records.state r = MatchState.none /\ resultType r = noresult /\
      colors r = if Nat.even k then (w, b) else (b, w).

(** [b] is the record of a bye of [p] in round [rd]: [p] alone, as White,
    completed as a win. *)
Definition byeOf (rd : Z) (p : TourPlayer) (b : MatchRecord) : Prop :=
  playernameW b = name p /\ playernameB b = ""%string /\
  Records.state b = MatchState.completed /\ resultType b = win /\ round b = rd.

(** [new] is a round [rd] of a knockout among [playerVec], [n] games per
    pair.  With an odd number of players one of them has a bye.  The
    others are seeded by Elo, and the upper half meets the lower half in
    this order, one block per pair. *)
Definition roundOf (n : nat) (rd : Z) (playerVec : list TourPlayer)
    (new : list MatchRecord) : Prop :=
  exists (lucky rest : list TourPlayer) (byes : list MatchRecord)
         (blocks : list (list MatchRecord)),
    Permutation playerVec (lucky ++ rest) /\
    length lucky = (if Nat.odd (length playerVec) then 1 else 0)%nat /\
    seeded rest /\
    new = byes ++ concat blocks /\
    Forall2 (byeOf rd) lucky byes /\
    Forall2 (roundBlock n rd) (halves rest) blocks.

(** [nm] had a bye in [recs]: a record with nobody on one side has [nm]
    on the other. *)
Definition hadBye (nm : string) (recs : list MatchRecord) : Prop :=
  exists r, r ∈ recs /\
    ((playernameW r = ""%string /\ playernameB r = nm) \/
     (playernameB r = ""%string /\ playernameW r = nm)).

(** The player the draw number [i] (from 0) of a manager in state [t]
    points at: [playerVec.at(std::rand() % playerVec.size())] at the
    [i]-th call of [std::rand] from [t]. *)
Definition drawnAt {Pool Engine : Type} `{!Collaborators Pool Engine}
    (playerVec : list TourPlayer) (t : TourMng Pool Engine) (i : nat) : option TourPlayer :=
  playerVec !! Z.to_nat (rand (randCnt t + i)%nat mod Z.of_nat (length playerVec)).

(** Whom the bye of a round goes to: the player of the first of ten
    draws that points at somebody without an earlier bye; when all ten
    point at players who had one, the first player of the vector. *)
Definition byeGoesTo {Pool Engine : Type} `{!Collaborators Pool Engine}
    (playerVec : list TourPlayer) (t : TourMng Pool Engine) (p : TourPlayer) : Prop :=
  (exists i, (i < 10)%nat /\ drawnAt playerVec t i = Some p /\
             ~ hadBye (name p) (matchRecordList t) /\
             forall j, (j < i)%nat ->
                       exists q, drawnAt playerVec t j = Some q /\
                                 hadBye (name q) (matchRecordList t))
  \/ (head playerVec = Some p /\
      forall j, (j < 10)%nat ->
                exists q, drawnAt playerVec t j = Some q /\
                          hadBye (name q) (matchRecordList t)).

(** A knockout after a first round of five players in which A had the
    bye, B beat C and E beat D. *)
Definition sample_after_bye : TourMng unit string :=
  mkTourMng TourType.knockout 1 2 false true
    [mkMatchRecord "A" "" "" [] MatchState.completed win 0 0 3;
     mkMatchRecord "B" "C" "" [] MatchState.completed win 1 0 10;
     mkMatchRecord "D" "E" "" [] MatchState.completed loss 2 0 17]
    [] TourState.none 0 tt 0%nat.

(** The winners of that round. *)
Definition sample_winners : list TourPlayer :=
  [set_name "A" TourPlayer_default; set_name "B" TourPlayer_default;
   set_name "E" TourPlayer_default].

(** Five players with their Elo. *)
Definition sample_field : list TourPlayer :=
  [mkTourPlayer "A" 2400 0 0 0 0 0; mkTourPlayer "B" 2700 0 0 0 0 0;
   mkTourPlayer "C" 2500 0 0 0 0 0; mkTourPlayer "D" 2600 0 0 0 0 0;
   mkTourPlayer "E" 2300 0 0 0 0 0].

End SeedingNotions.

(** ** Notions for more properties of the driver *)

Module DriverMoreNotions.

Import Chess Moves Outcome GameDriver DriverNotions.

(** The toy rules with a clock that has run out for White. *)
Definition late_rules : Rules unit Z unit := {|
  checkMake := checkMake (Rules := sample_rules);
  rule := rule (Rules := sample_rules);
  probeSyzygy := probeSyzygy (Rules := sample_rules);
  isTimeOver := fun _ sd => bool_decide (sd = white);
  udateClockAfterMove := fun c _ _ _ => c;
  setupClocksBeforeThinking := fun c _ => c;
  timeLeftText := fun _ _ _ _ => "Timeleft"%string;
  moveToString := fun _ => "move"%string;
  illegalMove := mkMove (-1) (-1) 0
|}.

(** The toy rules under which any move mates: once a move is in the
    history, White has won. *)
Definition mating_rules : Rules unit Z unit := {|
  checkMake := checkMake (Rules := sample_rules);
  rule := fun b => match histList b with
                   | [] => mkResult noresult noreason
                   | _ :: _ => mkResult win mate
                   end;
  probeSyzygy := probeSyzygy (Rules := sample_rules);
  isTimeOver := isTimeOver (Rules := sample_rules);
  udateClockAfterMove := fun c _ _ _ => c;
  setupClocksBeforeThinking := fun c _ => c;
  timeLeftText := fun _ _ _ _ => "Timeleft"%string;
  moveToString := fun _ => "move"%string;
  illegalMove := mkMove (-1) (-1) 0
|}.

Section Verdict.

Context {Position Time Clock : Type} `{!Rules Position Time Clock}.

(** Adjudication is on, a maximal game length is set, and the history
    of the board has reached it. *)
Definition lengthReached (cfg : GameConfig) (b : Board Position Time) : Prop :=
  adjudicationMode cfg = true /\ adjudicationMaxGameLength cfg <> 0 /\
  Int32.to_size_t (adjudicationMaxGameLength cfg) <= Z.of_nat (length (histList b)).

(** The result that ends a game at a move, [b] being the board after the
    attempt and [ok] telling whether the move was legal: an illegal move
    loses for the side that sent it; else the result of the rules; else
    a draw when the game is adjudicated by length; else the result of
    the tablebase when adjudication asks for it. *)
Inductive verdict (cfg : GameConfig) (ok : bool) (b : Board Position Time) : Result -> Prop :=
  | verdict_illegal :
      ok = false ->
      verdict cfg ok b (mkResult (winBy (getXSide (side b))) illegalmove)
  | verdict_rule :
      ok = true -> result (rule b) <> noresult ->
      verdict cfg ok b (rule b)
  | verdict_length :
      ok = true -> result (rule b) = noresult -> lengthReached cfg b ->
      verdict cfg ok b (mkResult draw adjudication)
  | verdict_tablebase :
      ok = true -> result (rule b) = noresult -> ~ lengthReached cfg b ->
      adjudicationMode cfg = true -> adjudicationEgtbMode cfg = true ->
      result (fst (probeSyzygy b (adjudicationMaxPieces cfg))) <> noresult ->
      verdict cfg ok b (fst (probeSyzygy b (adjudicationMaxPieces cfg))).

End Verdict.

End DriverMoreNotions.

(** ** Writing the schedule file *)

Module Persistence.

Import Chess Moves Records Outcome Tournament.

(** [tourTypeNames], the array ["roundrobin", "knockout", nullptr] indexed
    by the type. *)
Definition tourTypeNames (ty : TourType.t) : option string :=
  match ty with
  | TourType.roundrobin => Some "roundrobin"%string
  | TourType.knockout => Some "knockout"%string
  | TourType.none => None
  end.

(** [TourMng::saveMatchRecords]: the value written to [playing.json],
    [None] when nothing is written.  [timeControl] is what
    [timeController.saveToJson()] gives, [seconds] is
    [time(nullptr) - startTime].  An array to which nothing was appended
    stays null, and no JSON value is made from the null pointer that ends
    [tourTypeNames]. *)
Definition saveMatchRecords {Pool Engine : Type} (timeControl : Json.Value) (seconds : Z)
    (t : TourMng Pool Engine) : Outcome.t (option Json.Value) :=
  if negb (resumable t) then Returns None
  else
    match tourTypeNames (type t) with
    | None => Throws
    | Some typeName =>
        let a := match matchRecordList t with
                 | [] => Json.JNull
                 | recs => Json.JArray (map saveToJson recs)
                 end in
        Returns (Some (Json.JObject
                         [("type", Json.JString typeName);
                          ("timeControl", timeControl);
                          ("recordList", a);
                          ("elapsed", Json.JInt (Int32.wrap seconds))]%string))
    end.

End Persistence.

(** ** Notions for the round trip of the schedule through its file *)

Module PersistenceNotions.

Import Chess Moves Records Tournament RoundTripNotions.

(** A record whose integers are [int]s and whose opening moves fit the
    packed form. *)
Definition storable (r : MatchRecord) : Prop :=
  Int32.in_range (gameIdx r) /\ Int32.in_range (round r) /\ Int32.in_range (pairId r) /\
  Forall byteMove (startMoves r) /\
  Z.of_nat (length (startMoves r)) <= Int32.max_int.

(** The manager after resuming from a file that was written from the
    records [recs] of a tournament of type [ty] after [seconds]
    seconds. *)
Definition resumed {Pool Engine : Type} (recs : list MatchRecord) (ty : TourType.t)
    (seconds : Z) (t : TourMng Pool Engine) : TourMng Pool Engine :=
  startTournament
    (set_previousElapsed (Int32.wrap (previousElapsed t + Int32.wrap seconds))
       (set_type ty (set_matchRecordList (map reloaded recs) t))).

(** A knockout manager in its second game, the first being over. *)
Definition sample_saved : TourMng unit string :=
  mkTourMng TourType.knockout 2 1 false true
    [mkMatchRecord "X" "Y" "" [] MatchState.completed win 0 0 7;
     mkMatchRecord "Y" "X" "" [mkMove 12 28 0] MatchState.playing noresult 1 0 7]
    [] TourState.playing 0 tt 3%nat.

End PersistenceNotions.

(** ** The tick of the game driver *)

Module PlayerState.
(** Modelled from the spec: the state of a player as the driver observes
    it ("Player state ... {idle, ready, playing, stopped, ...}", declared
    in a header outside the two files).  The driver tests for [ready],
    [playing] and [stopped]; [other] stands for every other state. *)
Inductive t := ready | playing | stopped | other.
#[global] Instance eq_dec : EqDecision t.
Proof. solve_decision. Defined.
End PlayerState.

Module GameTicks.

Import Chess Moves Outcome GameDriver.

(** What the tick needs from the players and the board beyond [Rules].
    - [getState], [getTickState], [isSafeToDeattach] are what the driver
      observes of a player.
    - [prepareToDeattach] and [player_newGame] are the commands
      [prepareToDeattach()] and [newGame()], as what they make of the
      player.
    - [board_newGame] is [board.newGame(startFen)]; [commentLast] is the
      assignment to [board.histList.back().comment]. *)
Class Handshake (Position Time : Type) := {
  getState : Player -> PlayerState.t;
  getTickState : Player -> Z;
  isSafeToDeattach : Player -> bool;
  prepareToDeattach : Player -> Player;
  player_newGame : Player -> Player;
  board_newGame : Board Position Time -> string -> Board Position Time;
  commentLast : string -> Board Position Time -> Board Position Time
}.

(** The fields [setStartup] sets; the functions below only read them. *)
Record Startup := mkStartup {
  idx : Z;
  startFen : string;
  startMoves : list Move
}.

Section Ticks.

Context {Position Time Clock : Type} `{!Rules Position Time Clock}
        `{!Handshake Position Time}.

#[local] Abbreviation G := (Game Position Time Clock).
#[local] Abbreviation Bd := (Board Position Time).

Definition set_stateTick (n : Z) (g : G) : G :=
  mkGame (state g) n (board g) (playerW g) (playerB g)
    (timeController g) (gameConfig g) (messageLogger g) (logged g).

(** [if (players[sd]) players[sd]->c()] for a command [c] given as what
    it makes of the player. *)
Definition commandIfAttached (sd : Side) (c : Player -> Player) (g : G) : G :=
  match players g sd with
  | Some p => set_players sd (Some (c p)) g
  | None => g
  end.

(** The loop of [newGame] over the opening: it stops at the first move
    that is not made. *)
Fixpoint playOpening (moves : list Move) (b : Bd) : Bd :=
  match moves with
  | [] => b
  | m :: rest =>
      let '(made, b) := checkMake b (from m) (dest m) (promotion m) in
      if made : bool then playOpening rest b else b
  end.

(** [Game::newGame]. *)
Definition newGame (su : Startup) (g : G) : Outcome.t G :=
  let g := set_board (board_newGame (board g) (startFen su)) g in
  let g := set_timeController (setupClocksBeforeThinking (timeController g) 0) g in
  g ← (match startMoves su with
       | [] => mret g
       | _ =>
           let b := playOpening (startMoves su) (board g) in
           match last (histList b) with
           | None => Throws
           | Some _ => mret (set_board (commentLast "End of opening" b) g)
           end
       end);
  mret (commandIfAttached black player_newGame
          (commandIfAttached white player_newGame g)).

(** The test of the handshake loop of [tickWork] for one player. *)
Definition okFor (st : GameState.t) (p : Player) : bool :=
  (bool_decide (st = GameState.begin) && bool_decide (getState p = PlayerState.ready))
  || (bool_decide (st = GameState.ready)
      && (bool_decide (getState p = PlayerState.playing)
          || (bool_decide (getState p = PlayerState.ready) && (getTickState p >? 5)))).

(** One round of that loop: [(okCnt, stoppedCnt)]. *)
Definition countPlayer (st : GameState.t) (cnts : Z * Z) (p : option Player) : Z * Z :=
  match p with
  | None => cnts
  | Some p =>
      if okFor st p then (Int32.incr (fst cnts), snd cnts)
      else if bool_decide (getState p = PlayerState.stopped)
           then (fst cnts, Int32.incr (snd cnts))
           else cnts
  end.

(** One round of the loop of the [ending] case. *)
Definition prepare (sd : Side) (acc : Z * G) : Z * G :=
  let '(cnt, g) := acc in
  match players g sd with
  | Some p =>
      if negb (isSafeToDeattach p)
      then (Int32.incr cnt, set_players sd (Some (prepareToDeattach p)) g)
      else (cnt, g)
  | None => (cnt, g)
  end.

(** [Game::tickWork]; [lockFree] tells whether [criticalMutex.try_lock()]
    succeeds.  Modelled from the spec: [startThinking()] without argument
    is [startThinking(Move::illegalMove)] (the default argument is
    declared in a header outside the two files). *)
Definition tickWork (su : Startup) (lockFree : bool) (g : G) : Outcome.t G :=
  let g := set_stateTick (Int32.incr (stateTick g)) g in
  match state g with
  | GameState.begin | GameState.ready =>
      let '(okCnt, stoppedCnt) :=
        countPlayer (state g) (countPlayer (state g) (0, 0) (players g white))
                    (players g black) in
      if Int32.wrap (okCnt + stoppedCnt) <? 2 then mret g
      else if okCnt =? 2 then
        if decide (state g = GameState.begin)
        then newGame su (setState GameState.ready g)
        else startThinking illegalMove (setState GameState.playing g)
      else
        let g := setState GameState.stopped g in
        if stoppedCnt =? 2 then mret (gameOver (mkResult draw crash) g)
        else
          pw ← deref g white;
          mret (gameOver
                  (mkResult (if bool_decide (getState pw = PlayerState.stopped)
                             then loss else win) crash) g)
  | GameState.playing =>
      match players g (side (board g)) with
      | None => mret g
      | Some _ =>
          if lockFree then
            if decide (state g = GameState.playing)
            then '(_, g) ← checkTimeOver g; mret g
            else mret g
          else mret g
      end
  | GameState.ending =>
      let '(cnt, g) := prepare black (prepare white (0, g)) in
      if cnt =? 0 then mret (setState GameState.ended g) else mret g
  | _ => mret g
  end.

End Ticks.

End GameTicks.

(** ** Notions the properties of the driver's tick are stated with *)

Module TickNotions.

Import Chess Moves Outcome GameDriver GameTicks DriverNotions.

Section Notions.

Context {Position Time : Type} `{!Handshake Position Time}.

(** The handshake cannot go on because of this player: it is missing, or
    it is neither through this step nor stopped. *)
Definition pending (st : GameState.t) (p : option Player) : Prop :=
  match p with
  | None => True
  | Some p => okFor st p = false /\ getState p <> PlayerState.stopped
  end.

(** The result of a game one of whose players has stopped during the
    handshake: a draw when both have, otherwise the loss of the one that
    has. *)
Definition crashResult (pw pb : Player) : Result :=
  mkResult (if bool_decide (getState pw = PlayerState.stopped)
            then (if bool_decide (getState pb = PlayerState.stopped) then draw else loss)
            else win) crash.

(** What a tick in state [ending] makes of a player. *)
Definition settle (p : Player) : Player :=
  if isSafeToDeattach p then p else prepareToDeattach p.

End Notions.

Section Opening.

Context {Position Time Clock : Type} `{!Rules Position Time Clock}
        `{!Handshake Position Time}.

(** The board [newGame] sets up from the board [b]: the new board, with
    the opening played as far as it goes and its last entry marked. *)
Definition openingBoard (su : Startup) (b : Board Position Time) : Board Position Time :=
  match startMoves su with
  | [] => board_newGame b (startFen su)
  | _ => commentLast "End of opening"
           (playOpening (startMoves su) (board_newGame b (startFen su)))
  end.

End Opening.

(** A toy player interface: the player called "Crashed" has stopped, any
    other is ready since 9 ticks and safe to detach; the commands are
    entered in the player's score (new game 1, prepare 2). *)
#[global] Instance sample_handshake : Handshake unit Z := {|
  getState := fun p => if String.eqb (getName p) "Crashed"
                       then PlayerState.stopped else PlayerState.ready;
  getTickState := fun _ => 9;
  isSafeToDeattach := fun p => negb (String.eqb (getName p) "Crashed");
  prepareToDeattach := fun p => mkPlayer (getName p) 2 (getDepth p) (getNodes p) (calls p);
  player_newGame := fun p => mkPlayer (getName p) 1 (getDepth p) (getNodes p) (calls p);
  board_newGame := fun b _ => mkBoard white [] (mkResult noresult noreason) (position b);
  commentLast := fun _ b => b
|}.

(** The sample game in a given state, and with a White that has
    crashed. *)
Definition sample_game_in (st : GameState.t) : Game unit Z unit :=
  mkGame st 3 (mkBoard white [] (mkResult noresult noreason) tt)
    (Some sample_white) (Some sample_black) tt
    (mkGameConfig true false 0 false 0) true [].

Definition sample_crashed_game : Game unit Z unit :=
  mkGame GameState.begin 3 (mkBoard white [] (mkResult noresult noreason) tt)
    (Some (mkPlayer "Crashed" 0 0 0 [])) (Some sample_black) tt
    (mkGameConfig true false 0 false 0) true [].

Definition sample_startup : Startup := mkStartup 0 "" [mkMove 12 28 0].

End TickNotions.

(** ** Notions for the manager's tick *)

Module TickLoopNotions.

Import Chess Records Tournament.

(** What the loops of [tickWork] make of a driver, by the state the
    first loop reads after the driver's own tick [tk]: read [stopped],
    the driver stays, set to [ending]; read [ended], it is taken out; in
    any other state it stays as its tick left it. *)
Definition kept {Engine : Type} (tk : Game Engine -> Game Engine) (g : Game Engine)
    : option (Game Engine) :=
  match gstate (tk g) with
  | GameState.stopped => Some (Game_setState GameState.ending (tk g))
  | GameState.ended => None
  | _ => Some (tk g)
  end.

(** No other driver of [games] is read [stopped] with the board number
    of the driver [g] at position [i]. *)
Definition aloneOnBoard {Engine : Type} (tk : Game Engine -> Game Engine)
    (games : list (Game Engine)) (i : nat) (g : Game Engine) : Prop :=
  forall (j : nat) (g2 : Game Engine),
    j <> i -> games !! j = Some g2 -> gstate (tk g2) = GameState.stopped ->
    idx (tk g2) <> idx (tk g).

(** Every completed record of [recs] stands unchanged in [recs']. *)
Definition decidedKept (recs recs' : list MatchRecord) : Prop :=
  forall (k : nat) (r : MatchRecord),
    recs !! k = Some r -> Records.state r = MatchState.completed -> recs' !! k = Some r.

(** The sample tournament after its first tick: two games have been
    started. *)
Definition sample_running : TourMng unit string :=
  tickWork SchedulerNotions.sample_tick SchedulerNotions.sample_tournament.

End TickLoopNotions.

(** * Part II: the properties *)

(** ** 32-bit integers *)

Module Int32Facts.

Import Int32.

Lemma wrap_in_range x : in_range (wrap x).
Proof.
  unfold in_range, wrap, min_int, max_int.
  pose proof (Z.mod_pos_bound (x + 2 ^ 31) (2 ^ 32) ltac:(lia)). lia.
Qed.

Lemma wrap_id x : in_range x -> wrap x = x.
Proof.
  unfold in_range, wrap, min_int, max_int. intros Hx.
  rewrite Z.mod_small; lia.
Qed.

Lemma incr_small x : 0 <= x < max_int -> incr x = x + 1.
Proof.
  intros Hx. unfold incr. apply wrap_id.
  unfold in_range, min_int, max_int in *. lia.
Qed.

Lemma to_size_t_id x : 0 <= x < 2 ^ 64 -> to_size_t x = x.
Proof. intros Hx. unfold to_size_t. apply Z.mod_small. lia. Qed.

End Int32Facts.

(** ** The packed moves of the schedule file *)

Module MovesFacts.

Import Moves.

Lemma land_255 x : Z.land x 255 = x mod 256.
Proof. change 255 with (Z.ones 8). rewrite Z.land_ones by lia. reflexivity. Qed.

Lemma lor_disjoint a b : Z.land a b = 0 -> Z.lor a b = a + b.
Proof.
  intros H. rewrite <- Z.lxor_lor by exact H.
  symmetry. apply Z.add_nocarry_lxor. exact H.
Qed.

(** A value below [2 ^ n] and a multiple of [2 ^ n] share no bit. *)
Lemma land_low_high a b n :
  0 <= n -> 0 <= a < 2 ^ n -> Z.land a (b * 2 ^ n) = 0.
Proof.
  intros Hn Ha. apply Z.bits_inj'. intros i Hi.
  rewrite Z.land_spec, Z.bits_0.
  destruct (Z.lt_ge_cases i n) as [Hlt | Hge].
  - rewrite <- Z.shiftl_mul_pow2 by lia.
    rewrite Z.shiftl_spec_low by lia. apply andb_false_r.
  - replace (Z.testbit a i) with false; [reflexivity |].
    symmetry. destruct (Z.eq_dec a 0) as [-> | Hne]; [apply Z.bits_0 |].
    apply Z.bits_above_log2; [lia |].
    apply Z.log2_lt_pow2; [lia |].
    apply Z.lt_le_trans with (2 ^ n); [lia |].
    apply Z.pow_le_mono_r; lia.
Qed.

(** The decoder reads the low byte into [from] and the next into [dest]. *)
Lemma unpack_bytes d f p :
  byte d -> byte f -> byte p ->
  unpack (bytes d f p) = {| from := d; dest := f; promotion := p |}.
Proof.
  unfold byte, bytes, unpack, Move_ctor. intros Hd Hf Hp.
  rewrite !land_255, !Z.shiftr_div_pow2 by lia.
  change (2 ^ 8) with 256. change (2 ^ 16) with 65536.
  f_equal.
  - replace (d + 256 * f + 65536 * p) with (d + (f + 256 * p) * 256) by lia.
    rewrite Z.mod_add by lia. apply Z.mod_small; lia.
  - replace (d + 256 * f + 65536 * p) with (d + (f + 256 * p) * 256) by lia.
    rewrite Z.div_add by lia. rewrite (Z.div_small d) by lia.
    replace (0 + (f + 256 * p)) with (f + p * 256) by lia.
    rewrite Z.mod_add by lia. apply Z.mod_small; lia.
  - replace (d + 256 * f + 65536 * p) with ((d + 256 * f) + p * 65536) by lia.
    rewrite Z.div_add by lia. rewrite (Z.div_small (d + 256 * f)) by lia.
    apply Z.mod_small; lia.
Qed.

(** The encoder writes [dest] into the low byte and [from] into the next. *)
Lemma pack_bytes m :
  byte (from m) -> byte (dest m) -> byte (promotion m) ->
  pack m = bytes (dest m) (from m) (promotion m).
Proof.
  destruct m as [f d p]. unfold byte, bytes, pack, Int32.shl. simpl.
  intros Hf Hd Hp.
  rewrite !Z.shiftl_mul_pow2 by lia.
  change (2 ^ 8) with 256. change (2 ^ 16) with 65536.
  rewrite !Int32Facts.wrap_id
    by (unfold Int32.in_range, Int32.min_int, Int32.max_int; lia).
  rewrite (lor_disjoint d).
  2:{ change 256 with (2 ^ 8). apply land_low_high; lia. }
  rewrite lor_disjoint.
  2:{ change 65536 with (2 ^ 16). apply land_low_high; lia. }
  lia.
Qed.

(** Decoding then encoding exchanges the two low bytes. *)
Lemma pack_unpack_exchanges d f p :
  byte d -> byte f -> byte p ->
  pack (unpack (bytes d f p)) = bytes f d p.
Proof.
  intros Hd Hf Hp. rewrite unpack_bytes by assumption.
  rewrite pack_bytes by assumption. reflexivity.
Qed.

(** So the packed integer comes back exactly when its two low bytes are
    equal. *)
Lemma pack_unpack_fixed_iff d f p :
  byte d -> byte f -> byte p ->
  pack (unpack (bytes d f p)) = bytes d f p <-> d = f.
Proof.
  intros Hd Hf Hp. rewrite pack_unpack_exchanges by assumption.
  unfold bytes. lia.
Qed.

(** With the bytes read into the fields they were written from, the
    round trip is the identity. *)
Lemma pack_unpack_by_field d f p :
  byte d -> byte f -> byte p ->
  pack (unpack_by_field (bytes d f p)) = bytes d f p.
Proof.
  intros Hd Hf Hp.
  pose proof (unpack_bytes d f p Hd Hf Hp) as H.
  unfold unpack, Move_ctor in H. unfold unpack_by_field.
  injection H as H1 H2 H3. rewrite H1, H2, H3.
  rewrite pack_bytes by assumption. reflexivity.
Qed.

(** C9, at a concrete packed move.  3100 is [28 | 12 << 8]: destination
    28 in the low byte, origin 12 in the middle byte, no promotion.
    [MatchRecord::load] decodes it to the move from 28 to 12, and
    [MatchRecord::saveToJson] encodes that as 7180 = [12 | 28 << 8]: the
    round trip does not give 3100 back. *)
Theorem pack_unpack_3100 :
  bytes 28 12 0 = 3100 /\
  unpack 3100 = {| from := 28; dest := 12; promotion := 0 |} /\
  pack (unpack 3100) = 7180 /\
  pack (unpack 3100) <> 3100.
Proof. repeat split; vm_compute; congruence. Qed.

End MovesFacts.

(** ** Loading the schedule file *)

Module ResumeFacts.

Import Chess Moves Records Outcome Tournament Notions.

(** Case analysis on the steps of a computation that returned. *)
Ltac returned H :=
  repeat (cbn [mbind outcome_bind bind mret outcome_ret] in H;
          lazymatch type of H with
          | mbind _ ?m = _ =>
              let E := fresh "E" in destruct m eqn:E; try discriminate H
          | Outcome.bind _ ?m = _ =>
              let E := fresh "E" in destruct m eqn:E; try discriminate H
          | (let '(_, _) := ?p in _) = _ => destruct p
          end).

Lemma string2ResultType_star : string2ResultType "*" = noresult.
Proof. reflexivity. Qed.

Lemma stateOfResult_not_playing rt : stateOfResult rt <> MatchState.playing.
Proof. destruct rt; discriminate. Qed.

(** [load] always answers [true], and sets the state from the result
    alone. *)
Lemma load_state self obj ok r :
  Records.load self obj = Returns (ok, r) ->
  ok = true /\
  exists s, storedResult obj = Returns s /\
            resultType r = string2ResultType s /\
            Records.state r = stateOfResult (resultType r).
Proof.
  unfold Records.load, storedResult. intros H.
  returned H.
  injection H as <- <-. split; [reflexivity |].
  eexists. split; [reflexivity |].
  cbn. split; [reflexivity |].
  destruct (string2ResultType _); reflexivity.
Qed.

(** Nothing in the loader loops. *)
Lemma bind_halts {A B : Type} (f : A -> Outcome.t B) (m : Outcome.t A) :
  m <> Diverges -> (forall a, f a <> Diverges) -> m ≫= f <> Diverges.
Proof.
  intros Hm Hf. destruct m; cbn [mbind outcome_bind bind];
    [apply Hf | discriminate | congruence].
Qed.

Lemma member_halts v key : Json.member v key <> Diverges.
Proof. destruct v; discriminate. Qed.

Lemma isMember_halts v key : Json.isMember v key <> Diverges.
Proof. destruct v; discriminate. Qed.

Lemma at_index_halts v i : Json.at_index v i <> Diverges.
Proof. unfold Json.at_index. destruct (i <? 0), v; discriminate. Qed.

Lemma asString_halts v : Json.asString v <> Diverges.
Proof. destruct v; discriminate. Qed.

Lemma asInt_halts v : Json.asInt v <> Diverges.
Proof. destruct v; cbn; try discriminate. destruct (Int32.in_rangeb z); discriminate. Qed.

Ltac halts :=
  repeat first
    [ apply member_halts | apply isMember_halts | apply at_index_halts
    | apply asString_halts | apply asInt_halts
    | progress cbn [mret outcome_ret]
    | match goal with
      | |- Returns _ <> Diverges => discriminate
      | |- mret _ <> Diverges => unfold mret, outcome_ret; discriminate
      | |- (if ?b then _ else _) <> Diverges => destruct b
      | |- (let '(_, _) := ?p in _) <> Diverges => destruct p
      | |- _ ≫= _ <> Diverges => apply bind_halts; [| intros ?]
      | H : _ |- _ <> Diverges => apply H
      end ].

Lemma load_moves_halts array n fuel : forall i, load_moves array n i fuel <> Diverges.
Proof.
  induction fuel as [| fuel IH]; intros i; cbn [load_moves]; [discriminate |].
  halts.
Qed.

Lemma load_halts self obj : Records.load self obj <> Diverges.
Proof.
  unfold Records.load. pose proof load_moves_halts as Hm. halts.
Qed.

Lemma loadRecords_halts array n fuel : forall i, loadRecords array n i fuel <> Diverges.
Proof.
  induction fuel as [| fuel IH]; intros i; cbn [loadRecords]; [discriminate |].
  pose proof load_halts as Hl. halts.
Qed.

Section Resume.

Context {Pool Engine : Type} `{!Collaborators Pool Engine}.

(** Every record the loop over ["recordList"] yields was loaded from an
    element of the array. *)
Lemma loadRecords_from_elements array n fuel : forall i l,
  0 <= i -> n <= Z.of_nat (Json.size array) ->
  loadRecords array n i fuel = Returns l ->
  Forall (fun r => exists v, v ∈ elements array /\
                             Records.load MatchRecord_default v = Returns (true, r)) l.
Proof.
  induction fuel as [| fuel IH]; intros i l Hi Hn H; cbn [loadRecords] in H.
  - injection H as <-. constructor.
  - destruct (i <? n) eqn:Hlt; [| injection H as <-; constructor].
    apply Z.ltb_lt in Hlt.
    cbn [mbind outcome_bind bind mret outcome_ret] in H.
    destruct (Json.at_index array i) as [v | |] eqn:Ev; cbn in H; try discriminate H.
    destruct (Records.load MatchRecord_default v) as [[ok r] | |] eqn:El;
      cbn in H; try discriminate H.
    destruct (loadRecords array n (i + 1) fuel) as [rest | |] eqn:Er;
      cbn in H; try discriminate H.
    injection H as <-.
    specialize (IH (i + 1) rest ltac:(lia) Hn Er).
    destruct (load_state _ _ _ _ El) as [-> _].
    constructor; [| exact IH].
    exists v. split; [| exact El].
    unfold Json.at_index in Ev.
    destruct (i <? 0) eqn:Hneg; [discriminate Ev |].
    destruct array as [| | | | elems | ]; try discriminate Ev.
    + cbn in Hn. lia.
    + cbn in Hn. cbn [elements].
      destruct (elems !! Z.to_nat i) as [v' |] eqn:Elk.
      * injection Ev as <-. eapply list_elem_of_lookup_2. exact Elk.
      * apply lookup_ge_None in Elk. lia.
Qed.

Lemma wrap_length_le (n : nat) : Int32.wrap (Z.of_nat n) <= Z.of_nat n.
Proof.
  unfold Int32.wrap.
  pose proof (Z.mod_le (Z.of_nat n + 2 ^ 31) (2 ^ 32) ltac:(lia) ltac:(lia)).
  lia.
Qed.

(** C3.  When [loadMatchRecords] resumes a tournament, the tournament is
    set playing and every record of the resulting list was loaded from an
    element of the file's ["recordList"]; its result kind is the one its
    stored result string names, its state is completed when that kind is
    not noresult and none otherwise, hence never playing; in particular a
    record stored with result ["*"] has state none. *)
Theorem resume_no_record_playing (autoYesReply : bool) (file : option Json.Value)
    (lines : list string) (t t' : TourMng Pool Engine) :
  loadMatchRecords autoYesReply file lines t = Returns (true, t') ->
  state t' = TourState.playing /\
  exists d array,
    file = Some d /\ Json.member d "recordList" = Returns array /\
    Forall (fun r =>
              exists v s,
                v ∈ elements array /\
                storedResult v = Returns s /\
                resultType r = string2ResultType s /\
                Records.state r = stateOfResult (resultType r) /\
                Records.state r <> MatchState.playing /\
                (s = "*"%string -> Records.state r = MatchState.none))
           (matchRecordList t').
Proof.
  unfold loadMatchRecords. intros H.
  destruct (negb (resumable t)); [discriminate H |].
  destruct file as [d |]; [| discriminate H].
  cbn [mbind outcome_bind bind mret outcome_ret] in H.
  destruct (Json.member d "recordList") as [array | |] eqn:Ea; cbn in H;
    try discriminate H.
  destruct (loadRecords array _ 0 _) as [recordList | |] eqn:El; cbn in H;
    try discriminate H.
  destruct (_ =? 0) in H; [discriminate H |].
  destruct (if autoYesReply then _ else _) as [yes | |]; cbn in H;
    try discriminate H.
  destruct yes; cbn in H; [| discriminate H].
  destruct (Json.isMember d "type") as [hasType | |]; cbn in H; try discriminate H.
  assert (state t' = TourState.playing /\ matchRecordList t' = recordList)
    as [Hst Hl].
  { destruct hasType; returned H;
      cbn [mbind outcome_bind bind mret outcome_ret] in H; injection H as <-;
      (split; [reflexivity |]);
      cbn [startTournament set_state set_previousElapsed matchRecordList];
      first
        [ reflexivity
        | match goal with
          | E : _ = Returns ?a |- matchRecordList ?a = _ =>
              returned E; cbn [mbind outcome_bind bind mret outcome_ret] in E;
              injection E as <-; reflexivity
          end ]. }
  split; [exact Hst |].
  exists d, array. split; [reflexivity |]. split; [exact Ea |].
  rewrite Hl.
  apply loadRecords_from_elements in El; [| lia | apply wrap_length_le].
  eapply Forall_impl; [exact El |].
  intros r (v & Hv & Hload). cbn beta.
  destruct (load_state _ _ _ _ Hload) as (_ & s & Hs & Hrt & Hstate).
  exists v, s. repeat split; try assumption.
  - rewrite Hstate. apply stateOfResult_not_playing.
  - intros ->. rewrite Hstate, Hrt. reflexivity.
Qed.

(** With the answer given in advance, resuming never waits for input. *)
Lemma resume_autoYes_returns (file : option Json.Value) (lines : list string)
    (t : TourMng Pool Engine) :
  loadMatchRecords true file lines t <> Diverges.
Proof.
  unfold loadMatchRecords.
  destruct (negb (resumable t)); [discriminate |].
  destruct file as [d |]; [| discriminate].
  pose proof loadRecords_halts as Hl. halts.
Qed.

End Resume.

(** The theorem at the sample schedule file: the game that was being
    played comes back with state none, the finished one completed. *)
Lemma resume_no_record_playing_witness :
  loadMatchRecords true (Some Samples.sample_file) []
    (Samples.sample_mng TourType.none 2 2)
  = Returns (true,
      mkTourMng TourType.roundrobin 2 2 false true
        [mkMatchRecord "A" "B" "" [] MatchState.completed win 0 1 41;
         mkMatchRecord "B" "A" "" [] MatchState.none noresult 1 1 41]
        [] TourState.playing 12 tt 0%nat) /\
  Forall (fun r => Records.state r <> MatchState.playing)
    [mkMatchRecord "A" "B" "" [] MatchState.completed win 0 1 41;
     mkMatchRecord "B" "A" "" [] MatchState.none noresult 1 1 41].
Proof.
  assert (E : loadMatchRecords true (Some Samples.sample_file) []
                (Samples.sample_mng TourType.none 2 2)
              = Returns (true,
                  mkTourMng TourType.roundrobin 2 2 false true
                    [mkMatchRecord "A" "B" "" [] MatchState.completed win 0 1 41;
                     mkMatchRecord "B" "A" "" [] MatchState.none noresult 1 1 41]
                    [] TourState.playing 12 tt 0%nat)) by (vm_compute; reflexivity).
  split; [exact E |].
  destruct (resume_no_record_playing _ _ _ _ _ E) as (_ & d & array & _ & _ & HF).
  cbn [matchRecordList] in HF.
  eapply Forall_impl; [exact HF |].
  intros r (v & s & _ & _ & _ & _ & Hnp & _). exact Hnp.
Defined.

End ResumeFacts.

(** ** Sorting *)

Module StdFacts.

Import Std.

Section Sort.

Context {A : Type} (comp : A -> A -> bool).

Hypothesis comp_asym : forall x y, comp x y = true -> comp y x = false.
Hypothesis comp_trans : forall x y z, comp x y = true -> comp y z = true -> comp x z = true.

#[local] Abbreviation ordered := (Std.ordered comp).

Lemma sort_insert_perm x l : Permutation (x :: l) (sort_insert comp x l).
Proof.
  induction l as [| y l IH]; cbn [sort_insert]; [reflexivity |].
  destruct (comp x y); [reflexivity |].
  rewrite perm_swap. constructor. exact IH.
Qed.

Lemma sort_perm l : Permutation l (sort comp l).
Proof.
  induction l as [| x l IH]; cbn; [constructor |].
  etransitivity; [| apply sort_insert_perm]. constructor. exact IH.
Qed.

Lemma sort_insert_sorted x l :
  StronglySorted ordered l -> StronglySorted ordered (sort_insert comp x l).
Proof.
  induction 1 as [| y l Hs IH Hy]; cbn [sort_insert].
  - constructor; constructor.
  - destruct (comp x y) eqn:Hxy.
    + constructor; [constructor; assumption |].
      constructor; [exact (comp_asym _ _ Hxy) |].
      rewrite Forall_forall in Hy |- *. intros z Hz.
      specialize (Hy z Hz). unfold Std.ordered in *.
      destruct (comp z x) eqn:Hzx; [| reflexivity].
      rewrite (comp_trans _ _ _ Hzx Hxy) in Hy. discriminate Hy.
    + constructor; [exact IH |].
      rewrite <- (sort_insert_perm x l). constructor; assumption.
Qed.

Lemma sort_sorted l : StronglySorted ordered (sort comp l).
Proof.
  induction l as [| x l IH]; cbn; [constructor |].
  apply sort_insert_sorted. exact IH.
Qed.

Lemma StronglySorted_lookup (R : A -> A -> Prop) l :
  StronglySorted R l ->
  forall (i j : nat) x y, (i < j)%nat -> l !! i = Some x -> l !! j = Some y -> R x y.
Proof.
  induction 1 as [| z l Hs IH Hz]; intros i j x y Hij Hi Hj; [discriminate Hi |].
  destruct j as [| j]; [lia |]. cbn in Hj.
  destruct i as [| i].
  - cbn in Hi. injection Hi as <-.
    rewrite Forall_forall in Hz. apply Hz.
    eapply list_elem_of_lookup_2. exact Hj.
  - cbn in Hi. apply (IH i j); [lia | assumption | assumption].
Qed.

(** The sort of the model meets the contract of [std::sort]. *)
Lemma sort_meets_post l : sort_post comp l (sort comp l).
Proof.
  split; [apply sort_perm |].
  intros i j x y Hij Hi Hj.
  exact (StronglySorted_lookup (Std.ordered comp) _ (sort_sorted l) i j x y Hij Hi Hj).
Qed.

End Sort.

Lemma string_map_entries_perm {V : Type} (m : gmap string V) :
  Permutation (string_map_entries m) (map_to_list m).
Proof. unfold string_map_entries. apply merge_sort_Permutation. Qed.

Lemma int_map_entries_perm {V : Type} (m : gmap Z V) :
  Permutation (int_map_entries m) (map_to_list m).
Proof. unfold int_map_entries. apply merge_sort_Permutation. Qed.

End StdFacts.

(** ** Standings *)

Module StandingsFacts.

Import Chess Records Standings StandingsNotions.

Lemma smaller_spec a b :
  smaller a b = true <->
  winCnt a < winCnt b
  \/ (winCnt a = winCnt b
      /\ (lossCnt a > lossCnt b \/ (lossCnt a = lossCnt b /\ drawCnt a < drawCnt b))).
Proof.
  unfold smaller.
  rewrite !orb_true_iff, !andb_true_iff, !orb_true_iff, !andb_true_iff.
  rewrite !Z.ltb_lt, !Z.eqb_eq, Z.gtb_gt. reflexivity.
Qed.

Lemma outranks_smaller A B : outranks A B <-> smaller B A = true.
Proof. rewrite smaller_spec. unfold outranks. lia. Qed.

Lemma rank_before_asym x y : rank_before x y = true -> rank_before y x = false.
Proof.
  unfold rank_before. intros H. apply not_true_is_false. intros H'.
  apply smaller_spec in H, H'. lia.
Qed.

Lemma rank_before_trans x y z :
  rank_before x y = true -> rank_before y z = true -> rank_before x z = true.
Proof.
  unfold rank_before. intros H1 H2. apply smaller_spec in H1, H2.
  apply smaller_spec. lia.
Qed.

(** The table is ordered however [std::sort] arranges equivalent rows:
    in every list that meets its contract, a row that outranks another
    stands above it. *)
Lemma outranks_above_in_any_sort (l rows : list TourPlayer) :
  Std.sort_post rank_before l rows ->
  forall (i j : nat) A B,
    rows !! i = Some A -> rows !! j = Some B -> outranks A B -> (i < j)%nat.
Proof.
  intros [_ Hord] i j A B Hi Hj HAB.
  apply outranks_smaller in HAB.
  destruct (Nat.lt_trichotomy i j) as [Hlt | [Heq | Hgt]]; [exact Hlt | |].
  - subst j. rewrite Hi in Hj. injection Hj as <-.
    apply smaller_spec in HAB. lia.
  - specialize (Hord j i B A Hgt Hj Hi). unfold rank_before in Hord.
    rewrite HAB in Hord. discriminate Hord.
Qed.

(** C1.  In the rows of [createTournamentStats], for any two rows [A] (at
    position [i]) and [B] (at position [j]): if [A] has more wins than
    [B], or as many wins and fewer losses, or as many wins and losses and
    more draws, then [A] stands above [B]. *)
Theorem standings_order (matchRecordList : list MatchRecord) (i j : nat) (A B : TourPlayer) :
  createTournamentStats matchRecordList !! i = Some A ->
  createTournamentStats matchRecordList !! j = Some B ->
  (winCnt A > winCnt B -> (i < j)%nat) /\
  (winCnt A = winCnt B -> lossCnt A < lossCnt B -> (i < j)%nat) /\
  (winCnt A = winCnt B -> lossCnt A = lossCnt B -> drawCnt A > drawCnt B -> (i < j)%nat).
Proof.
  intros Hi Hj.
  pose proof (outranks_above_in_any_sort _ _
                (StdFacts.sort_meets_post rank_before rank_before_asym
                   rank_before_trans _) i j A B Hi Hj) as H.
  unfold outranks in H. repeat split; intros; apply H; lia.
Qed.

(** The theorem on the sample records: C (1 win, no loss) is first, A (1
    win, 1 loss, 1 draw) second, B (no win) third. *)
Lemma standings_order_witness :
  createTournamentStats sample_records
  = [mkTourPlayer "C" 0 1 1 0 0 0; mkTourPlayer "A" 0 3 1 1 1 0;
     mkTourPlayer "B" 0 2 0 1 1 0] /\
  (0 < 1)%nat /\ (1 < 2)%nat.
Proof.
  split; [vm_compute; reflexivity |].
  split.
  - refine (proj1 (proj2 (standings_order sample_records 0 1
              (mkTourPlayer "C" 0 1 1 0 0 0) (mkTourPlayer "A" 0 3 1 1 1 0) _ _)) _ _);
      vm_compute; reflexivity.
  - refine (proj1 (standings_order sample_records 1 2
              (mkTourPlayer "A" 0 3 1 1 1 0) (mkTourPlayer "B" 0 2 0 1 1 0) _ _) _);
      vm_compute; reflexivity.
Defined.

(** The counters of the aggregation. *)

Lemma entryOf_fresh_consistent nm : consistent (set_name nm TourPlayer_default).
Proof. unfold consistent. cbn. lia. Qed.

Lemma wellCounted_mono n n' resultMap :
  n <= n' -> wellCounted n resultMap -> wellCounted n' resultMap.
Proof.
  intros Hn H nm r Hr. destruct (H nm r Hr) as (? & ? & ? & ?).
  split; [assumption |]. split; [assumption |]. split; [assumption | lia].
Qed.

(** One side of one decided record: the player's entry counts one more
    game, and the other entries stay as they are. *)
Lemma addSide_step (m : MatchRecord) (sd : Side) (resultMap : gmap string TourPlayer) :
  resultType m <> noresult ->
  playernames m sd <> ""%string ->
  consistent (entryOf resultMap (playernames m sd)) ->
  gameCnt (entryOf resultMap (playernames m sd)) < Int32.max_int ->
  addSide m sd resultMap !! playernames m sd
    = Some (entryOf (addSide m sd resultMap) (playernames m sd)) /\
  name (entryOf (addSide m sd resultMap) (playernames m sd))
    = name (entryOf resultMap (playernames m sd)) /\
  oneMoreGame (entryOf resultMap (playernames m sd))
              (entryOf (addSide m sd resultMap) (playernames m sd)) /\
  forall nm', nm' <> playernames m sd -> addSide m sd resultMap !! nm' = resultMap !! nm'.
Proof.
  intros Hrt Hnm Hcons Hlt.
  unfold addSide, entryOf in *.
  destruct (String.eqb_spec (playernames m sd) "") as [E | _]; [contradiction |].
  set (nm := playernames m sd) in *.
  set (r0 := match resultMap !! nm with
             | Some r0 => r0
             | None => set_name nm TourPlayer_default
             end) in *.
  assert (Hr0 : default (set_name nm TourPlayer_default) (resultMap !! nm) = r0).
  { subst r0. destruct (resultMap !! nm); reflexivity. }
  rewrite Hr0 in *. rewrite lookup_insert_eq. cbn [default].
  destruct Hcons as (Hg & Hw & Hd & Hl & Hsum).
  assert (Hi : forall x, 0 <= x -> x <= gameCnt r0 -> Int32.incr x = x + 1).
  { intros x Hx Hle. apply Int32Facts.incr_small. lia. }
  split; [reflexivity |]. split.
  { destruct (resultType m); try contradiction; repeat case_decide; reflexivity. }
  split.
  - unfold oneMoreGame.
    destruct (resultType m); try contradiction; repeat case_decide; cbn;
      rewrite !Hi by lia; lia.
  - intros nm' Hne. rewrite lookup_insert_ne by congruence. reflexivity.
Qed.

Lemma addSide_wellCounted n m sd resultMap :
  resultType m <> noresult -> 0 <= n < Int32.max_int ->
  wellCounted n resultMap -> wellCounted (n + 1) (addSide m sd resultMap).
Proof.
  intros Hrt Hn Hwc.
  destruct (String.eqb_spec (playernames m sd) "") as [E | Hnm].
  { unfold addSide. rewrite E. cbn. eapply wellCounted_mono; [| exact Hwc]. lia. }
  assert (Hold : name (entryOf resultMap (playernames m sd)) = playernames m sd
                 /\ consistent (entryOf resultMap (playernames m sd))
                 /\ gameCnt (entryOf resultMap (playernames m sd)) <= n).
  { unfold entryOf. destruct (resultMap !! playernames m sd) as [r0 |] eqn:E0; cbn.
    - destruct (Hwc _ _ E0) as (? & ? & ? & ?). auto.
    - split; [reflexivity |]. split; [apply entryOf_fresh_consistent | cbn; lia]. }
  destruct Hold as (Hname & Hcons & Hle).
  destruct (addSide_step m sd resultMap Hrt Hnm Hcons ltac:(lia))
    as (Hnew & Hnewname & Hone & Hother).
  intros nm r Hr.
  destruct (decide (nm = playernames m sd)) as [-> | Hne].
  - rewrite Hnew in Hr. injection Hr as <-.
    split; [congruence |]. split; [assumption |].
    destruct Hone as [Hg Hcases]. unfold consistent in *. split; lia.
  - rewrite Hother in Hr by assumption.
    destruct (Hwc _ _ Hr) as (? & ? & ? & ?).
    split; [assumption |]. split; [assumption |]. split; [assumption | lia].
Qed.

Lemma addRecord_wellCounted n m resultMap :
  0 <= n -> n + 2 <= Int32.max_int ->
  wellCounted n resultMap -> wellCounted (n + 2) (addRecord resultMap m).
Proof.
  intros Hn0 Hn Hwc. unfold addRecord.
  destruct (decide (resultType m = noresult)) as [_ | Hrt].
  - eapply wellCounted_mono; [| exact Hwc]. lia.
  - replace (n + 2) with (n + 1 + 1) by lia.
    apply addSide_wellCounted; [assumption | lia |].
    apply addSide_wellCounted; [assumption | lia | assumption].
Qed.

Lemma foldl_addRecord_wellCounted recs : forall n resultMap,
  0 <= n -> n + 2 * Z.of_nat (length recs) <= Int32.max_int ->
  wellCounted n resultMap ->
  wellCounted (n + 2 * Z.of_nat (length recs)) (foldl addRecord resultMap recs).
Proof.
  induction recs as [| m recs IH]; intros n resultMap Hn0 Hn Hwc; cbn [foldl length] in *.
  - eapply wellCounted_mono; [| exact Hwc]. lia.
  - replace (n + 2 * Z.of_nat (S (length recs)))
      with ((n + 2) + 2 * Z.of_nat (length recs)) by lia.
    apply IH; [lia | lia |]. apply addRecord_wellCounted; [lia | lia | assumption].
Qed.

Lemma resultMapOf_wellCounted recs :
  2 * Z.of_nat (length recs) <= Int32.max_int ->
  wellCounted (2 * Z.of_nat (length recs)) (resultMapOf recs).
Proof.
  intros Hn. unfold resultMapOf.
  apply (foldl_addRecord_wellCounted recs 0 ∅); [lia | lia |].
  intros nm r Hr. rewrite lookup_empty in Hr. discriminate Hr.
Qed.

Lemma wellCounted_isValid n resultMap nm r :
  n <= Int32.max_int -> wellCounted n resultMap -> resultMap !! nm = Some r ->
  consistent r /\ isValid r = true.
Proof.
  intros Hn Hwc Hr. destruct (Hwc nm r Hr) as (Hname & Hne & Hcons & Hle).
  split; [exact Hcons |].
  destruct Hcons as (Hg & Hw & Hd & Hl & Hsum).
  unfold isValid. rewrite Hname.
  destruct (String.eqb_spec nm "") as [E | _]; [contradiction |]. cbn [negb andb].
  rewrite (Int32Facts.wrap_id (winCnt r + drawCnt r))
    by (unfold Int32.in_range, Int32.min_int, Int32.max_int in *; lia).
  rewrite Int32Facts.wrap_id
    by (unfold Int32.in_range, Int32.min_int, Int32.max_int in *; lia).
  repeat (apply andb_true_intro; split); try (apply Z.geb_le; lia).
  apply Z.eqb_eq. lia.
Qed.

(** The rows of the table are the entries of the map. *)
Lemma rows_from_map recs r :
  r ∈ createTournamentStats recs -> exists nm, resultMapOf recs !! nm = Some r.
Proof.
  unfold createTournamentStats. intros Hr.
  rewrite <- (StdFacts.sort_perm rank_before) in Hr.
  apply list_elem_of_fmap in Hr as ([nm r'] & -> & Hin).
  rewrite StdFacts.string_map_entries_perm in Hin.
  apply elem_of_map_to_list in Hin. exists nm. exact Hin.
Qed.

Lemma count_no (P : Prop) `{!Decision P} :
  ~ P -> (if decide P then 1 else 0) = 0.
Proof. intros HP. destruct (decide P); [contradiction | reflexivity]. Qed.

(** Counting over one more appearance. *)
Lemma count_snoc {A : Type} (P : A -> Prop) `{!forall x, Decision (P x)}
    (l : list A) (x : A) :
  Z.of_nat (length (filter P (l ++ [x])))
  = Z.of_nat (length (filter P l)) + (if decide (P x) then 1 else 0).
Proof.
  rewrite filter_app, length_app, filter_cons, filter_nil.
  destruct (decide (P x)); cbn [length]; lia.
Qed.

Lemma count_le {A : Type} (P Q : A -> Prop) `{!forall x, Decision (P x)}
    `{!forall x, Decision (Q x)} (l : list A) :
  (forall x, P x -> Q x) ->
  Z.of_nat (length (filter P l)) <= Z.of_nat (length (filter Q l)).
Proof.
  intros Himp. induction l as [| x l IH]; [reflexivity |].
  rewrite !filter_cons.
  destruct (decide (P x)) as [HP | HP], (decide (Q x)) as [HQ | HQ]; cbn [length];
    try lia.
  exfalso. apply HQ, Himp, HP.
Qed.

Lemma count_bound {A : Type} (P : A -> Prop) `{!forall x, Decision (P x)} (l : list A) :
  0 <= Z.of_nat (length (filter P l)) <= Z.of_nat (length l).
Proof. pose proof (length_filter P l). lia. Qed.

(** Every game played is won, drawn or lost, and only one of these. *)
Lemma played_split nm occ :
  playedIn nm occ = wonIn nm occ + drawnIn nm occ + lostIn nm occ.
Proof.
  unfold playedIn, wonIn, drawnIn, lostIn.
  induction occ as [| [m sd] occ IH]; [reflexivity |].
  rewrite !filter_cons. cbn [fst snd].
  destruct (decide (playernames m sd = nm)) as [En | En].
  - destruct (resultType m) eqn:Ert, sd;
      repeat case_decide; cbn [length];
      try lia; exfalso;
      repeat match goal with
             | H : ~ _ |- _ => apply H; clear H
             end;
      try tauto; try (intuition congruence); try (split; [discriminate | exact En]).
  - repeat case_decide; cbn [length]; try lia; exfalso; tauto.
Qed.

Lemma won_le_played nm occ : 0 <= wonIn nm occ <= playedIn nm occ.
Proof.
  split; [apply count_bound |]. unfold wonIn, playedIn. apply count_le.
  intros [m sd] [En [[E _] | [E _]]]; cbn [fst snd] in *;
    (split; [rewrite E; discriminate | exact En]).
Qed.

Lemma drawn_le_played nm occ : 0 <= drawnIn nm occ <= playedIn nm occ.
Proof.
  split; [apply count_bound |]. unfold drawnIn, playedIn. apply count_le.
  intros [m sd] [En E]; cbn [fst snd] in *.
  split; [rewrite E; discriminate | exact En].
Qed.

Lemma lost_le_played nm occ : 0 <= lostIn nm occ <= playedIn nm occ.
Proof.
  split; [apply count_bound |]. unfold lostIn, playedIn. apply count_le.
  intros [m sd] [En [[E _] | [E _]]]; cbn [fst snd] in *;
    (split; [rewrite E; discriminate | exact En]).
Qed.

Lemma played_bound nm occ : 0 <= playedIn nm occ <= Z.of_nat (length occ).
Proof. apply count_bound. Qed.

(** An appearance under another name, or in a record without result,
    changes nothing for [nm]. *)
Lemma rowIn_other nm occ m sd :
  resultType m = noresult \/ playernames m sd <> nm ->
  rowIn nm (occ ++ [(m, sd)]) = rowIn nm occ.
Proof.
  intros Hother. unfold rowIn, playedIn, wonIn, drawnIn, lostIn.
  rewrite !count_snoc. cbn [fst snd].
  rewrite !count_no by (intuition congruence).
  rewrite !Z.add_0_r. reflexivity.
Qed.

(** One side of one record with a result, on a map that holds the
    entries of the appearances so far. *)
Lemma addSide_rows m sd occ (resultMap : gmap string TourPlayer) :
  resultType m <> noresult ->
  Z.of_nat (length occ) < Int32.max_int ->
  (forall nm, resultMap !! nm = rowIn nm occ) ->
  forall nm, addSide m sd resultMap !! nm = rowIn nm (occ ++ [(m, sd)]).
Proof.
  intros Hrt Hlen Hmap nm. unfold addSide.
  destruct (String.eqb_spec (playernames m sd) "") as [E | E].
  { rewrite Hmap. destruct (decide (playernames m sd = nm)) as [En | En].
    - unfold rowIn. rewrite !decide_False by (intros [H _]; congruence). reflexivity.
    - symmetry. apply rowIn_other. right. exact En. }
  destruct (decide (nm = playernames m sd)) as [-> | En].
  2:{ rewrite lookup_insert_ne by congruence. rewrite Hmap.
      symmetry. apply rowIn_other. right. congruence. }
  rewrite lookup_insert_eq.
  set (nm := playernames m sd) in *.
  pose proof (played_bound nm occ) as Hp.
  pose proof (won_le_played nm occ) as Hw.
  pose proof (drawn_le_played nm occ) as Hd.
  pose proof (lost_le_played nm occ) as Hl.
  assert (Hold : match resultMap !! nm with
                 | Some r0 => r0
                 | None => set_name nm TourPlayer_default
                 end
                 = mkTourPlayer nm 0 (playedIn nm occ) (wonIn nm occ) (drawnIn nm occ)
                     (lostIn nm occ) 0).
  { rewrite Hmap. unfold rowIn.
    destruct (decide (nm <> ""%string /\ 0 < playedIn nm occ)) as [_ | Hno];
      [reflexivity |].
    assert (playedIn nm occ = 0) by (destruct (Z.lt_trichotomy 0 (playedIn nm occ))
                                       as [H | H]; [exfalso; apply Hno; tauto | lia]).
    replace (playedIn nm occ) with 0 by lia.
    replace (wonIn nm occ) with 0 by lia.
    replace (drawnIn nm occ) with 0 by lia.
    replace (lostIn nm occ) with 0 by lia. reflexivity. }
  rewrite Hold.
  assert (Hi : forall x, 0 <= x <= playedIn nm occ -> Int32.incr x = x + 1).
  { intros x Hx. apply Int32Facts.incr_small. lia. }
  unfold rowIn, playedIn, wonIn, drawnIn, lostIn.
  rewrite !count_snoc. cbn [fst snd]. fold nm.
  fold (playedIn nm occ) (wonIn nm occ) (drawnIn nm occ) (lostIn nm occ).
  destruct (resultType m) eqn:Ert; [contradiction | | |]; destruct sd;
    repeat case_decide;
    try (exfalso; intuition (try congruence; try lia); fail);
    unfold incr_gameCnt, incr_winCnt, incr_drawCnt, incr_lossCnt;
    cbn [name elo gameCnt winCnt drawCnt lossCnt whiteCnt];
    rewrite !Hi by lia;
    rewrite ?Z.add_0_r; reflexivity.
Qed.

(** The loop over the records, on a map that holds the entries of the
    appearances so far. *)
Lemma addRecord_rows m occ (resultMap : gmap string TourPlayer) :
  Z.of_nat (length occ) + 2 <= Int32.max_int ->
  (forall nm, resultMap !! nm = rowIn nm occ) ->
  forall nm, addRecord resultMap m !! nm = rowIn nm (occ ++ [(m, white); (m, black)]).
Proof.
  intros Hlen Hmap nm. unfold addRecord.
  change (occ ++ [(m, white); (m, black)]) with (occ ++ [(m, white)] ++ [(m, black)]).
  rewrite app_assoc.
  destruct (decide (resultType m = noresult)) as [E | Hrt].
  - rewrite !rowIn_other by (left; exact E). apply Hmap.
  - apply addSide_rows; [exact Hrt | rewrite length_app; cbn [length]; lia |].
    apply addSide_rows; [exact Hrt | lia | exact Hmap].
Qed.

Lemma foldl_addRecord_rows recs : forall occ (resultMap : gmap string TourPlayer),
  Z.of_nat (length occ) + 2 * Z.of_nat (length recs) <= Int32.max_int ->
  (forall nm, resultMap !! nm = rowIn nm occ) ->
  forall nm, foldl addRecord resultMap recs !! nm = rowIn nm (occ ++ occurrences recs).
Proof.
  induction recs as [| m recs IH]; intros occ resultMap Hlen Hmap nm.
  - cbn. rewrite app_nil_r. apply Hmap.
  - cbn [foldl occurrences flat_map]. cbn [length] in Hlen.
    change ((m, white) :: (m, black) :: flat_map _ recs)
      with ([(m, white); (m, black)] ++ occurrences recs).
    rewrite app_assoc.
    apply IH; [rewrite length_app; cbn [length]; lia |].
    apply addRecord_rows; [lia | exact Hmap].
Qed.

(** The map of the aggregation holds, for every name, the entry of its
    appearances in the records. *)
Lemma resultMapOf_rows recs nm :
  2 * Z.of_nat (length recs) <= Int32.max_int ->
  resultMapOf recs !! nm = rowIn nm (occurrences recs).
Proof.
  intros Hlen. unfold resultMapOf.
  rewrite (foldl_addRecord_rows recs [] ∅); [reflexivity | exact Hlen |].
  intros nm'. rewrite lookup_empty. unfold rowIn.
  rewrite decide_False; [reflexivity |]. intros [_ H].
  pose proof (played_bound nm' []) as Hb. cbn [length] in Hb. lia.
Qed.

(** Every entry of the map is a row of the table. *)
Lemma map_in_rows recs nm r :
  resultMapOf recs !! nm = Some r -> r ∈ createTournamentStats recs.
Proof.
  intros Hr. unfold createTournamentStats.
  rewrite <- (StdFacts.sort_perm rank_before).
  apply list_elem_of_fmap. exists (nm, r). split; [reflexivity |].
  rewrite StdFacts.string_map_entries_perm.
  apply elem_of_map_to_list. exact Hr.
Qed.

(** The entry of a name that appears in a record with a result. *)
Lemma rowIn_tally nm recs r :
  rowIn nm (occurrences recs) = Some r ->
  r = tallyOf nm recs /\ nm <> ""%string /\ 0 < gamesPlayed nm recs.
Proof.
  unfold rowIn. intros Hr.
  destruct (decide (nm <> ""%string /\ 0 < playedIn nm (occurrences recs)))
    as [[H1 H2] | _]; [| discriminate Hr].
  injection Hr as <-. split; [reflexivity |]. split; [exact H1 | exact H2].
Qed.

Lemma tally_rowIn nm recs :
  nm <> ""%string -> 0 < gamesPlayed nm recs ->
  rowIn nm (occurrences recs) = Some (tallyOf nm recs).
Proof.
  intros H1 H2. unfold rowIn.
  destruct (decide (nm <> ""%string /\ 0 < playedIn nm (occurrences recs)))
    as [_ | Hno]; [reflexivity |].
  exfalso. apply Hno. split; [exact H1 | exact H2].
Qed.

(** C10.  With no more records than an [int] counts twice over, the
    aggregation holds an entry exactly for the non-empty names that
    appear in a record with a decided result, and the table a row for
    each of them; the entry's [gameCnt] is the number of the name's
    appearances in decided records (each side of each record counted
    once), its [winCnt], [drawCnt] and [lossCnt] the numbers of those
    won, drawn and lost.  Hence every entry, and every row, has
    [gameCnt = winCnt + drawCnt + lossCnt] with no counter negative, and
    passes [TourPlayer::isValid].  And each side with a name of each
    decided record adds one to the [gameCnt] of that name's entry and one
    to exactly one of its [winCnt], [drawCnt], [lossCnt], touching no other
    entry. *)
Theorem standings_counters (recs : list MatchRecord) :
  2 * Z.of_nat (length recs) <= Int32.max_int ->
  (forall nm r, resultMapOf recs !! nm = Some r ->
      r = tallyOf nm recs /\ nm <> ""%string /\ 0 < gamesPlayed nm recs /\
      consistent r /\ isValid r = true) /\
  (forall nm, nm <> ""%string -> 0 < gamesPlayed nm recs ->
      resultMapOf recs !! nm = Some (tallyOf nm recs) /\
      tallyOf nm recs ∈ createTournamentStats recs) /\
  (forall nm, gamesPlayed nm recs = gamesWon nm recs + gamesDrawn nm recs + gamesLost nm recs) /\
  Forall (fun r => r = tallyOf (name r) recs /\ 0 < gamesPlayed (name r) recs /\
                   consistent r /\ isValid r = true)
    (createTournamentStats recs) /\
  (forall (m : MatchRecord) (sd : Side) (resultMap : gmap string TourPlayer),
      resultType m <> noresult ->
      playernames m sd <> ""%string ->
      consistent (entryOf resultMap (playernames m sd)) ->
      gameCnt (entryOf resultMap (playernames m sd)) < Int32.max_int ->
      oneMoreGame (entryOf resultMap (playernames m sd))
                  (entryOf (addSide m sd resultMap) (playernames m sd)) /\
      forall nm', nm' <> playernames m sd ->
                  addSide m sd resultMap !! nm' = resultMap !! nm').
Proof.
  intros Hn.
  pose proof (resultMapOf_wellCounted recs Hn) as Hwc.
  assert (Hentry : forall nm r, resultMapOf recs !! nm = Some r ->
            r = tallyOf nm recs /\ nm <> ""%string /\ 0 < gamesPlayed nm recs /\
            consistent r /\ isValid r = true).
  { intros nm r Hr.
    pose proof Hr as Hrow. rewrite (resultMapOf_rows recs nm Hn) in Hrow.
    apply rowIn_tally in Hrow as (H1 & H2 & H3).
    destruct (wellCounted_isValid _ _ _ _ Hn Hwc Hr) as [Hc Hv].
    split; [exact H1 |]. split; [exact H2 |]. split; [exact H3 |].
    split; [exact Hc | exact Hv]. }
  split; [exact Hentry |]. split; [| split; [| split]].
  - intros nm H1 H2.
    assert (Hr : resultMapOf recs !! nm = Some (tallyOf nm recs))
      by (rewrite (resultMapOf_rows recs nm Hn); apply tally_rowIn; assumption).
    split; [exact Hr |]. eapply map_in_rows. exact Hr.
  - intros nm. apply played_split.
  - apply Forall_forall. intros r Hr.
    apply rows_from_map in Hr as [nm Hnm].
    destruct (Hentry nm r Hnm) as (H1 & H2 & H3 & H4 & H5).
    assert (En : name r = nm) by (rewrite H1; reflexivity).
    rewrite En. split; [exact H1 |]. split; [exact H3 |].
    split; [exact H4 | exact H5].
  - intros m sd resultMap Hrt Hnm Hcons Hlt.
    destruct (addSide_step m sd resultMap Hrt Hnm Hcons Hlt) as (_ & _ & H1 & H2).
    split; assumption.
Qed.

(** The theorem on the sample records: A has played three games and won,
    drawn and lost one each, C has played one and won it, and both have
    their row in the table. *)
Lemma standings_counters_witness :
  (resultMapOf sample_records !! "A"%string = Some (mkTourPlayer "A" 0 3 1 1 1 0) /\
   mkTourPlayer "A" 0 3 1 1 1 0 ∈ createTournamentStats sample_records) /\
  (resultMapOf sample_records !! "C"%string = Some (mkTourPlayer "C" 0 1 1 0 0 0) /\
   mkTourPlayer "C" 0 1 1 0 0 0 ∈ createTournamentStats sample_records).
Proof.
  assert (Hn : 2 * Z.of_nat (length sample_records) <= Int32.max_int)
    by (vm_compute; discriminate).
  assert (EA : tallyOf "A" sample_records = mkTourPlayer "A" 0 3 1 1 1 0)
    by (vm_compute; reflexivity).
  assert (EC : tallyOf "C" sample_records = mkTourPlayer "C" 0 1 1 0 0 0)
    by (vm_compute; reflexivity).
  rewrite <- EA, <- EC.
  split; refine (proj1 (proj2 (standings_counters sample_records Hn)) _ _ _);
    first [discriminate | vm_compute; reflexivity].
Defined.

End StandingsFacts.

(** ** The scheduler *)

Module SchedulerFacts.

Import Chess Moves Records Standings Tournament SchedulerNotions.

Section Scheduler.

Context {Pool Engine : Type} `{!Collaborators Pool Engine}.

#[local] Abbreviation Mng := (TourMng Pool Engine).

Lemma sameGames_refl (t : Mng) : sameGames t t.
Proof. split; reflexivity. Qed.

Lemma sameGames_trans (t1 t2 t3 : Mng) :
  sameGames t1 t2 -> sameGames t2 t3 -> sameGames t1 t3.
Proof. intros [H1 H2] [H3 H4]. split; congruence. Qed.

Lemma std_rand_same (t : Mng) : sameGames t (snd (std_rand t)).
Proof. split; reflexivity. Qed.

Lemma addMatchRecord_simple_same record (t : Mng) :
  sameGames t (snd (addMatchRecord_simple record t)).
Proof.
  unfold addMatchRecord_simple.
  destruct (getRandomBook _ _ _) as [[fen moves] cnt]. split; reflexivity.
Qed.

Lemma addMatchRecord_loop_same n : forall record (t : Mng),
  sameGames t (snd (addMatchRecord_loop n record t)).
Proof.
  induction n as [| n IH]; intros record t; cbn [addMatchRecord_loop].
  - apply sameGames_refl.
  - pose proof (addMatchRecord_simple_same record t) as H1.
    destruct (addMatchRecord_simple record t) as [record' t1]. cbn [snd] in H1.
    eapply sameGames_trans; [exact H1 | apply IH].
Qed.

Lemma addMatchRecord_same record (t : Mng) :
  sameGames t (snd (addMatchRecord record t)).
Proof.
  unfold addMatchRecord. cbn [std_rand].
  eapply sameGames_trans; [| apply addMatchRecord_loop_same].
  split; reflexivity.
Qed.

Lemma checkToExtendMatches_same gIdx (t : Mng) :
  sameGames t (checkToExtendMatches gIdx t).
Proof.
  unfold checkToExtendMatches.
  repeat match goal with
         | |- context [if ?b then _ else _] => destruct b
         | |- context [match ?o with Some _ => _ | None => _ end] => destruct o
         end;
    try apply sameGames_refl.
  apply addMatchRecord_simple_same.
Qed.

Lemma matchCompleted_same game (t : Mng) : sameGames t (matchCompleted game t).
Proof.
  unfold matchCompleted.
  eapply sameGames_trans; [| apply checkToExtendMatches_same].
  destruct (_ && _); split; reflexivity.
Qed.

Lemma drawLucky_same n luckSet : forall playerVec (t : Mng),
  sameGames t (snd (drawLucky n luckSet playerVec t)).
Proof.
  induction n as [| n IH]; intros playerVec t; cbn [drawLucky std_rand].
  - apply sameGames_refl.
  - destruct (playerVec !! _) as [p |].
    + destruct (decide (name p ∈ luckSet)).
      * eapply sameGames_trans; [| apply IH]. split; reflexivity.
      * split; reflexivity.
    + eapply sameGames_trans; [| apply IH]. split; reflexivity.
Qed.

Lemma pairUp_same todo : forall i n playerVec round (t : Mng),
  sameGames t (snd (pairUp todo i n playerVec round t)).
Proof.
  induction todo as [| todo IH]; intros i n playerVec round t;
    cbn [pairUp std_rand].
  - apply sameGames_refl.
  - match goal with
    | |- context [addMatchRecord ?r ?t0] =>
        pose proof (addMatchRecord_same r t0) as H1;
        destruct (addMatchRecord r t0) as [r1 t1]
    end.
    cbn [snd] in H1.
    specialize (IH (S i) n playerVec round t1).
    destruct (pairUp todo (S i) n playerVec round t1) as [addCnt t2].
    cbn [snd] in *.
    eapply sameGames_trans; [| exact IH].
    eapply sameGames_trans; [| exact H1]. split; reflexivity.
Qed.

Lemma createKnockoutMatchList_same playerVec round (t : Mng) :
  sameGames t (snd (createKnockoutMatchList playerVec round t)).
Proof.
  unfold createKnockoutMatchList.
  destruct (length playerVec <? 2)%nat; [apply sameGames_refl |].
  destruct (Nat.odd (length playerVec)).
  - pose proof (drawLucky_same 10 (luckSetOf (matchRecordList t)) playerVec t) as H1.
    destruct (drawLucky 10 _ playerVec t) as [drawn t1]. cbn [snd] in H1.
    destruct (match drawn with Some _ => _ | None => _ end) as [luckPlayer vec].
    cbn [std_rand].
    match goal with
    | |- context [addMatchRecord_simple ?r ?t0] =>
        pose proof (addMatchRecord_simple_same r t0) as H2;
        destruct (addMatchRecord_simple r t0) as [r1 t2]
    end.
    cbn [snd] in *.
    match goal with
    | |- context [pairUp ?a ?b ?c ?d ?e ?t0] =>
        pose proof (pairUp_same a b c d e t0) as H3;
        destruct (pairUp a b c d e t0) as [addCnt t3]
    end.
    cbn [snd] in *.
    eapply sameGames_trans; [exact H1 |].
    eapply sameGames_trans; [| exact H3].
    eapply sameGames_trans; [| exact H2]. split; reflexivity.
  - match goal with
    | |- context [pairUp ?a ?b ?c ?d ?e ?t0] =>
        pose proof (pairUp_same a b c d e t0) as H3;
        destruct (pairUp a b c d e t0) as [addCnt t3]
    end.
    exact H3.
Qed.

Lemma createNextRoundMatches_same (t : Mng) :
  sameGames t (snd (createNextRoundMatches t)).
Proof.
  unfold createNextRoundMatches, createNextKnockoutMatchList.
  destruct (type t); try apply sameGames_refl.
  apply createKnockoutMatchList_same.
Qed.

Lemma finishTournament_same (t : Mng) : sameGames t (finishTournament t).
Proof. split; reflexivity. Qed.

(** A match adds at most one live game. *)
Lemma createMatch_engines_games gIdx whiteName blackName (t : Mng) :
  gameConcurrency (snd (createMatch_engines gIdx whiteName blackName t))
    = gameConcurrency t /\
  (length (gameList (snd (createMatch_engines gIdx whiteName blackName t)))
     <= S (length (gameList t)))%nat.
Proof.
  unfold createMatch_engines.
  destruct (createEngine (playerMng t) whiteName) as [eW pool].
  destruct (createEngine pool blackName) as [eB pool'].
  destruct eW, eB; cbn; try (split; [reflexivity | lia]).
  rewrite length_app. cbn. split; [reflexivity | lia].
Qed.

Lemma createMatch_games record (t : Mng) :
  gameConcurrency (snd (createMatch record t)) = gameConcurrency t /\
  (length (gameList (snd (createMatch record t))) <= S (length (gameList t)))%nat.
Proof.
  unfold createMatch.
  destruct (negb (Records.isValid record)); [cbn; split; [reflexivity | lia] |].
  pose proof (createMatch_engines_games (gameIdx record) (playernames record white)
                (playernames record black) t) as H.
  destruct (createMatch_engines _ _ _ t) as [ok t1]. cbn [snd] in H.
  destruct ok; exact H.
Qed.

(** Only a record with state none is handed to [createMatch]. *)
Lemma playMatches_loop_kept recs : forall (t : Mng),
  Forall2 keptUnlessWaiting recs (fst (playMatches_loop recs t)).
Proof.
  induction recs as [| m rest IH]; intros t; cbn [playMatches_loop].
  - constructor.
  - destruct (decide (Records.state m <> MatchState.none)) as [Hne | He].
    + specialize (IH t). destruct (playMatches_loop rest t) as [rest' t'].
      cbn [fst] in *. constructor; [intros _; reflexivity | exact IH].
    + destruct (createMatch m t) as [m' t1].
      destruct (atCapacity t1).
      * cbn [fst]. constructor; [intros Hs; contradiction |].
        clear. induction rest; constructor; [intros _; reflexivity | assumption].
      * specialize (IH t1). destruct (playMatches_loop rest t1) as [rest' t'].
        cbn [fst] in *. constructor; [intros Hs; contradiction | exact IH].
Qed.

(** Entered below the limit, the loop of [playMatches] ends within it. *)
Lemma playMatches_loop_within recs : forall (t : Mng),
  atCapacity t = false ->
  gameConcurrency (snd (playMatches_loop recs t)) = gameConcurrency t /\
  gameList (snd (playMatches_loop recs t)) <> [] /\
    Z.of_nat (length (gameList (snd (playMatches_loop recs t))))
      <= Int32.to_size_t (gameConcurrency t)
  \/ gameConcurrency (snd (playMatches_loop recs t)) = gameConcurrency t /\
     atCapacity (snd (playMatches_loop recs t)) = false.
Proof.
  induction recs as [| m rest IH]; intros t Hcap; cbn [playMatches_loop].
  - right. split; [reflexivity | exact Hcap].
  - destruct (decide (Records.state m <> MatchState.none)) as [Hne | He].
    + specialize (IH t Hcap). destruct (playMatches_loop rest t) as [rest' t'].
      exact IH.
    + pose proof (createMatch_games m t) as [Hc Hl].
      destruct (createMatch m t) as [m' t1]. cbn [snd] in *.
      destruct (atCapacity t1) eqn:Hcap1.
      * left. cbn [snd]. split; [exact Hc |].
        unfold atCapacity in Hcap, Hcap1. rewrite Hc in Hcap1.
        apply Z.geb_le in Hcap1.
        assert (Hlt : Z.of_nat (length (gameList t))
                      < Int32.to_size_t (gameConcurrency t)).
        { destruct (Z.geb_spec (Z.of_nat (length (gameList t)))
                      (Int32.to_size_t (gameConcurrency t))); [discriminate | lia]. }
        split; [| lia].
        intros E. rewrite E in Hcap1. cbn in Hcap1. lia.
      * specialize (IH t1 Hcap1). destruct (playMatches_loop rest t1) as [rest' t'].
        cbn [snd] in *. rewrite Hc in IH. exact IH.
Qed.

Lemma atCapacity_false_within (t : Mng) :
  atCapacity t = false ->
  Z.of_nat (length (gameList t)) <= Int32.to_size_t (gameConcurrency t).
Proof.
  unfold atCapacity. intros H.
  destruct (Z.geb_spec (Z.of_nat (length (gameList t)))
              (Int32.to_size_t (gameConcurrency t))); [discriminate | lia].
Qed.

(** At the limit [playMatches] starts nothing. *)
Lemma playMatches_at_capacity (t : Mng) :
  matchRecordList t <> [] -> atCapacity t = true -> playMatches t = t.
Proof.
  intros Hne Hcap. unfold playMatches.
  destruct (matchRecordList t); [contradiction |]. rewrite Hcap. reflexivity.
Qed.

(** [playMatches] keeps the live games within the limit. *)
Lemma playMatches_within (t : Mng) :
  1 <= gameConcurrency t <= Int32.max_int ->
  withinLimit t ->
  gameConcurrency (playMatches t) = gameConcurrency t /\ withinLimit (playMatches t).
Proof.
  intros Hconc Hin. unfold withinLimit in *.
  assert (Hsz : Int32.to_size_t (gameConcurrency t) = gameConcurrency t).
  { apply Int32Facts.to_size_t_id. unfold Int32.max_int in Hconc. lia. }
  unfold playMatches.
  destruct (matchRecordList t) as [| m0 recs0] eqn:Hrecs.
  { split; [reflexivity | exact Hin]. }
  destruct (atCapacity t) eqn:Hcap; [split; [reflexivity | exact Hin] |].
  pose proof (playMatches_loop_within (m0 :: recs0) t Hcap) as Hloop.
  destruct (playMatches_loop (m0 :: recs0) t) as [recs t1]. cbn [snd] in Hloop.
  cbn [set_matchRecordList gameList].
  destruct (gameList t1) as [| g gs] eqn:Hgames.
  - assert (Hc1 : gameConcurrency t1 = gameConcurrency t) by (destruct Hloop as [[? _] | [? _]]; assumption).
    pose proof (createNextRoundMatches_same (set_matchRecordList recs t1)) as Hs.
    destruct (createNextRoundMatches (set_matchRecordList recs t1)) as [added t2].
    cbn [snd] in Hs. destruct Hs as [Hg2 Hc2]. cbn in Hg2, Hc2.
    destruct added.
    + rewrite Hg2, Hc2, Hgames, Hc1. cbn. split; [reflexivity | lia].
    + cbn. rewrite Hg2, Hc2, Hgames, Hc1. cbn. split; [reflexivity | lia].
  - cbn. rewrite Hgames.
    destruct Hloop as [(Hc1 & _ & Hle) | (Hc1 & Hcap1)].
    + rewrite Hc1. rewrite Hsz in Hle. split; [reflexivity | exact Hle].
    + apply atCapacity_false_within in Hcap1.
      rewrite Hc1, Hgames, Hsz in Hcap1. rewrite Hc1. split; [reflexivity | exact Hcap1].
Qed.

(** Ticking the drivers neither adds nor removes one. *)
Lemma tickGames_length tk games : forall (t : Mng),
  length (fst (tickGames tk games t)) = length games /\
  gameConcurrency (snd (tickGames tk games t)) = gameConcurrency t.
Proof.
  induction games as [| g rest IH]; intros t; cbn [tickGames].
  - split; reflexivity.
  - destruct (decide (gstate (tk g) = GameState.stopped)).
    + pose proof (matchCompleted_same (Game_setState GameState.ending (tk g)) t)
        as [_ Hc].
      specialize (IH (matchCompleted (Game_setState GameState.ending (tk g)) t)).
      destruct (tickGames tk rest _) as [rest' t']. cbn [fst snd] in *.
      destruct IH as [IH1 IH2]. split; [cbn; congruence | congruence].
    + specialize (IH t). destruct (tickGames tk rest t) as [rest' t'].
      cbn [fst snd] in *. destruct IH as [IH1 IH2]. split; [cbn; congruence | congruence].
Qed.

(** One tick keeps the live games within the limit. *)
Lemma tickWork_within tk (t : Mng) :
  1 <= gameConcurrency t <= Int32.max_int ->
  withinLimit t ->
  gameConcurrency (tickWork tk t) = gameConcurrency t /\ withinLimit (tickWork tk t).
Proof.
  intros Hconc Hin. unfold tickWork.
  pose proof (tickGames_length tk (gameList t)
                (set_playerMng (pool_tick (playerMng t)) t)) as [Hlen Hc].
  destruct (tickGames tk _ _) as [games t1].
  cbn [fst snd set_playerMng gameList gameConcurrency] in Hlen, Hc.
  match goal with
  | |- context [set_gameList ?a ?b] => set (t2 := set_gameList a b)
  end.
  assert (Hc2 : gameConcurrency t2 = gameConcurrency t) by (subst t2; exact Hc).
  assert (Hin2 : withinLimit t2).
  { unfold withinLimit. rewrite Hc2. subst t2. cbn [set_gameList gameList].
    pose proof (length_filter (fun g => isEnded g = false) games) as Hf.
    unfold withinLimit in Hin. lia. }
  destruct (decide (state t2 = TourState.playing)).
  - destruct (playMatches_within t2 ltac:(rewrite Hc2; exact Hconc) Hin2) as [H1 H2].
    split; [congruence | exact H2].
  - split; [exact Hc2 | exact Hin2].
Qed.

(** C2.  Started within the limit (no live game at the start), with a
    concurrency of at least 1, the manager has at most [gameConcurrency]
    live games after every tick, whatever the drivers do in each tick;
    [playMatches] starts nothing when the limit is reached, and its loop
    leaves every record alone whose state is not none. *)
Theorem live_games_within_concurrency
    (ticks : list (Game Engine -> Game Engine)) (t : Mng) :
  1 <= gameConcurrency t <= Int32.max_int ->
  withinLimit t ->
  (gameConcurrency (run ticks t) = gameConcurrency t /\ withinLimit (run ticks t)) /\
  (forall t0 : Mng, matchRecordList t0 <> [] -> atCapacity t0 = true ->
                    playMatches t0 = t0) /\
  (forall recs (t0 : Mng),
      Forall2 keptUnlessWaiting recs (fst (playMatches_loop recs t0))).
Proof.
  intros Hconc Hin. split; [| split].
  - revert t Hconc Hin.
    induction ticks as [| tk ticks IH]; intros t Hconc Hin; cbn [run].
    + split; [reflexivity | exact Hin].
    + destruct (decide (state t = TourState.done)); [split; [reflexivity | exact Hin] |].
      destruct (tickWork_within tk t Hconc Hin) as [Hc Hw].
      destruct (IH (tickWork tk t) ltac:(rewrite Hc; exact Hconc) Hw) as [Hc' Hw'].
      split; [congruence | exact Hw'].
  - intros t0. apply playMatches_at_capacity.
  - intros recs t0. apply playMatches_loop_kept.
Qed.

End Scheduler.

(** The theorem on the sample tournament (three games to play, two at a
    time) over four ticks. *)
Lemma live_games_within_concurrency_witness :
  withinLimit (run [sample_tick; sample_tick; sample_tick; sample_tick]
                 sample_tournament).
Proof.
  refine (proj2 (proj1 (live_games_within_concurrency
                          [sample_tick; sample_tick; sample_tick; sample_tick]
                          sample_tournament _ _))).
  - vm_compute. split; discriminate.
  - vm_compute. discriminate.
Defined.

End SchedulerFacts.

(** ** Knockout: the winners of a round *)

Module KnockoutFacts.

Import Chess Records Standings Tournament KnockoutNotions.

Lemma addToPairMap_spec lastRound pairMap r :
  addToPairMap lastRound pairMap r =
  if decide (round r <> lastRound) then pairMap
  else <[pairId r := tallyRecord (default (pair_of_record r) (pairMap !! pairId r)) r]> pairMap.
Proof.
  unfold addToPairMap, tallyRecord.
  destruct (decide (round r <> lastRound)); [reflexivity |].
  destruct (pairMap !! pairId r); reflexivity.
Qed.

(** The tally of a pair id depends on the last-round records of that pair
    id only. *)
Lemma foldl_addToPairMap_lookup lastRound recs : forall pairMap p,
  foldl (addToPairMap lastRound) pairMap recs !! p =
  foldl tallyStep (pairMap !! p)
        (filter (fun r => round r = lastRound /\ pairId r = p) recs).
Proof.
  induction recs as [| r recs IH]; intros pairMap p; [reflexivity |].
  cbn [foldl]. rewrite IH, addToPairMap_spec, filter_cons.
  destruct (decide (round r <> lastRound)) as [Hne | He].
  - rewrite decide_False by tauto. reflexivity.
  - apply dec_stable in He.
    destruct (decide (pairId r = p)) as [<- | Hp].
    + rewrite decide_True by tauto. cbn [foldl].
      rewrite lookup_insert_eq. reflexivity.
    + rewrite decide_False by tauto.
      rewrite lookup_insert_ne by assumption. reflexivity.
Qed.

Lemma foldl_tallyStep_Some g : forall pr,
  foldl tallyStep (Some pr) g = Some (foldl tallyRecord pr g).
Proof.
  induction g as [| r g IH]; intros pr; [reflexivity |].
  cbn [foldl]. unfold tallyStep at 2. cbn [default]. apply IH.
Qed.

Lemma foldl_tallyStep_None r0 g :
  foldl tallyStep None (r0 :: g) = Some (foldl tallyRecord (pair_of_record r0) (r0 :: g)).
Proof. cbn [foldl]. unfold tallyStep at 2. cbn [default]. apply foldl_tallyStep_Some. Qed.

Lemma winsOf_cons nm r g :
  winsOf nm (r :: g) = (if decide (winnerName r = Some nm) then 1 else 0) + winsOf nm g.
Proof.
  unfold winsOf. rewrite filter_cons.
  destruct (decide (winnerName r = Some nm)); cbn [length]; lia.
Qed.

Lemma whitesOf_cons nm r g :
  whitesOf nm (r :: g) = (if decide (playernameW r = nm) then 1 else 0) + whitesOf nm g.
Proof.
  unfold whitesOf. rewrite filter_cons.
  destruct (decide (playernameW r = nm)); cbn [length]; lia.
Qed.

Lemma winsOf_nonneg nm g : 0 <= winsOf nm g.
Proof. unfold winsOf. lia. Qed.

Lemma whitesOf_nonneg nm g : 0 <= whitesOf nm g.
Proof. unfold whitesOf. lia. Qed.

(** The tally of a pair of distinct names [a], [b] over games between them
    counts, for each, the games won and the games played as White. *)
Lemma tally_counts (a b : string) (g : list MatchRecord) : forall pr,
  a <> b ->
  name (pair0 pr) = a -> name (pair1 pr) = b ->
  Forall (between a b) g ->
  0 <= winCnt (pair0 pr) -> 0 <= winCnt (pair1 pr) ->
  0 <= whiteCnt (pair0 pr) -> 0 <= whiteCnt (pair1 pr) ->
  winCnt (pair0 pr) + Z.of_nat (length g) <= Int32.max_int ->
  winCnt (pair1 pr) + Z.of_nat (length g) <= Int32.max_int ->
  whiteCnt (pair0 pr) + Z.of_nat (length g) <= Int32.max_int ->
  whiteCnt (pair1 pr) + Z.of_nat (length g) <= Int32.max_int ->
  let pr' := foldl tallyRecord pr g in
  name (pair0 pr') = a /\ name (pair1 pr') = b /\
  winCnt (pair0 pr') = winCnt (pair0 pr) + winsOf a g /\
  winCnt (pair1 pr') = winCnt (pair1 pr) + winsOf b g /\
  whiteCnt (pair0 pr') = whiteCnt (pair0 pr) + whitesOf a g /\
  whiteCnt (pair1 pr') = whiteCnt (pair1 pr) + whitesOf b g.
Proof.
  induction g as [| r g IH]; intros pr Hab Ha Hb Hg Hw0 Hw1 Hh0 Hh1 Bw0 Bw1 Bh0 Bh1.
  { cbn. unfold winsOf, whitesOf. cbn. repeat split; try assumption; lia. }
  cbn [foldl]. apply Forall_cons in Hg as [Hr Hg'].
  cbn [length] in Bw0, Bw1, Bh0, Bh1.
  assert (Hstep :
    name (pair0 (tallyRecord pr r)) = name (pair0 pr) /\
    name (pair1 (tallyRecord pr r)) = name (pair1 pr) /\
    winCnt (pair0 (tallyRecord pr r))
      = winCnt (pair0 pr) + (if decide (winnerName r = Some (name (pair0 pr))) then 1 else 0) /\
    winCnt (pair1 (tallyRecord pr r))
      = winCnt (pair1 pr) + (if decide (winnerName r = Some (name (pair1 pr))) then 1 else 0) /\
    whiteCnt (pair0 (tallyRecord pr r))
      = whiteCnt (pair0 pr) + (if decide (playernameW r = name (pair0 pr)) then 1 else 0) /\
    whiteCnt (pair1 (tallyRecord pr r))
      = whiteCnt (pair1 pr) + (if decide (playernameW r = name (pair1 pr)) then 1 else 0)).
  { assert (Hi : forall x, 0 <= x -> x + Z.of_nat (S (length g)) <= Int32.max_int ->
                           Int32.incr x = x + 1).
    { intros x Hx Hle. apply Int32Facts.incr_small. lia. }
    destruct pr as [p0 p1]. cbn [pair0 pair1] in *.
    pose proof (proj2 (String.eqb_neq (name p0) (name p1)) ltac:(congruence)) as Hne.
    unfold tallyRecord, slot_of, winnerName, playernames, pair_at. cbn [pair0 pair1].
    destruct Hr as [[HW HB] | [HW HB]]; rewrite HW, ?HB, <- ?Ha, <- ?Hb;
      destruct (resultType r); repeat case_decide;
      repeat (progress
                (cbn [pair_upd pair0 pair1 incr_winCnt incr_whiteCnt name winCnt
                      whiteCnt getXSide];
                 rewrite ?String.eqb_refl, ?Hne));
      rewrite ?Hi by assumption; repeat split;
      try congruence; try lia; try (exfalso; intuition congruence). }
  destruct Hstep as (Hn0 & Hn1 & Sw0 & Sw1 & Sh0 & Sh1).
  rewrite Ha in Sw0, Sh0. rewrite Hb in Sw1, Sh1.
  specialize (IH (tallyRecord pr r) Hab ltac:(congruence) ltac:(congruence) Hg').
  rewrite winsOf_cons, winsOf_cons, whitesOf_cons, whitesOf_cons.
  assert (Hbit : forall P (d : Decision P), 0 <= (if d then 1 else 0) <= 1)
    by (intros P d; destruct d; lia).
  pose proof (Hbit _ (decide (winnerName r = Some a))).
  pose proof (Hbit _ (decide (winnerName r = Some b))).
  pose proof (Hbit _ (decide (playernameW r = a))).
  pose proof (Hbit _ (decide (playernameW r = b))).
  destruct IH as (I1 & I2 & I3 & I4 & I5 & I6); try lia.
  cbv zeta. repeat split; try assumption; lia.
Qed.

Lemma pairMapOf_lookup recs p :
  pairMapOf recs !! p = foldl tallyStep None (roundGroup (getLastRound recs) recs p).
Proof.
  unfold pairMapOf, roundGroup.
  rewrite foldl_addToPairMap_lookup, lookup_empty. reflexivity.
Qed.

Lemma foldl_max_round recs : forall (init : Z),
  init <= foldl (fun lastRound r => Z.max lastRound (round r)) init recs /\
  (forall r, r ∈ recs ->
             round r <= foldl (fun lastRound r => Z.max lastRound (round r)) init recs) /\
  (foldl (fun lastRound r => Z.max lastRound (round r)) init recs = init
   \/ exists r, r ∈ recs /\
                round r = foldl (fun lastRound r => Z.max lastRound (round r)) init recs).
Proof.
  induction recs as [| m recs IH]; intros init; cbn [foldl].
  - split; [lia |]. split; [intros r Hr; inversion Hr | left; reflexivity].
  - destruct (IH (Z.max init (round m))) as (I1 & I2 & I3).
    split; [lia |]. split.
    + intros r Hr. apply elem_of_cons in Hr as [-> | Hr]; [lia | apply I2; exact Hr].
    + destruct I3 as [E | (r & Hr & E)].
      * destruct (Z.max_spec init (round m)) as [[_ Hm] | [_ Hm]].
        -- right. exists m. split; [apply elem_of_cons; left; reflexivity | congruence].
        -- left. congruence.
      * right. exists r. split; [apply elem_of_cons; right; exact Hr | exact E].
Qed.

(** With rounds counted from 0, [getLastRound] is the last round of the
    records. *)
Lemma getLastRound_last recs L :
  isLastRound recs L -> 0 <= L -> getLastRound recs = L.
Proof.
  intros [(r0 & Hr0 & E0) Hmax] HL. unfold getLastRound.
  destruct (foldl_max_round recs 0) as (I1 & I2 & I3).
  pose proof (I2 r0 Hr0) as Hle.
  destruct I3 as [E | (r & Hr & E)].
  - lia.
  - pose proof (Hmax r Hr). lia.
Qed.

Lemma foldl_tallyStep_is_Some g o :
  is_Some (foldl tallyStep o g) <-> is_Some o \/ g <> [].
Proof.
  destruct g as [| r g].
  - cbn. split; [auto | intros [H | H]; [exact H | contradiction]].
  - cbn [foldl]. unfold tallyStep at 2. rewrite foldl_tallyStep_Some.
    split; [intros _; right; discriminate | intros _; eexists; reflexivity].
Qed.

(** The winners are the winners of the pair tallies, one per pair id of
    the last round. *)
Lemma winner_list_members recs w :
  w ∈ getKnockoutWinnerList recs <->
  exists q pr, pairMapOf recs !! q = Some pr /\ w = pairWinner pr.
Proof.
  unfold getKnockoutWinnerList. rewrite list_elem_of_fmap. split.
  - intros ([q pr] & -> & Hin).
    rewrite StdFacts.int_map_entries_perm in Hin.
    apply elem_of_map_to_list in Hin. exists q, pr. split; [exact Hin | reflexivity].
  - intros (q & pr & Hq & ->). exists (q, pr). split; [reflexivity |].
    rewrite StdFacts.int_map_entries_perm. apply elem_of_map_to_list. exact Hq.
Qed.

Lemma winner_list_length recs :
  length (getKnockoutWinnerList recs) = size (pairMapOf recs).
Proof.
  unfold getKnockoutWinnerList. rewrite length_map.
  rewrite (Permutation_length (StdFacts.int_map_entries_perm _)).
  apply length_map_to_list.
Qed.

Lemma pairWinner_name pr :
  (winCnt (pair0 pr) > winCnt (pair1 pr) -> pairWinner pr = pair0 pr) /\
  (winCnt (pair1 pr) > winCnt (pair0 pr) -> pairWinner pr = pair1 pr) /\
  (winCnt (pair0 pr) = winCnt (pair1 pr) ->
   whiteCnt (pair0 pr) < whiteCnt (pair1 pr) -> pairWinner pr = pair0 pr) /\
  (winCnt (pair0 pr) = winCnt (pair1 pr) ->
   whiteCnt (pair1 pr) < whiteCnt (pair0 pr) -> pairWinner pr = pair1 pr).
Proof.
  unfold pairWinner, pair_at.
  destruct (Z.gtb_spec (winCnt (pair1 pr)) (winCnt (pair0 pr)));
    destruct (Z.eqb_spec (winCnt (pair1 pr)) (winCnt (pair0 pr)));
    destruct (Z.ltb_spec (whiteCnt (pair1 pr)) (whiteCnt (pair0 pr)));
    cbn; repeat split; intros; try reflexivity; lia.
Qed.

(** C4.  Let [L] be the last round of the records, the largest round
    number among them (rounds are counted from 0).  The winners are
    computed from the records of round [L], pair id by pair id: the list
    holds exactly the winners of the pair tallies, one for every pair id
    that occurs in round [L]; and for a pair id [p] whose games [G] of
    round [L] are all between the two (distinct) players [a] and [b] of
    its first record, the winner entered for [p] is the player with more
    wins in [G], and with equal wins the player with fewer games as White
    in [G]. *)
Theorem knockout_winner (recs : list MatchRecord) (L : Z) (p : Z) (r0 : MatchRecord)
    (g : list MatchRecord) :
  Z.of_nat (length recs) <= Int32.max_int ->
  isLastRound recs L -> 0 <= L ->
  roundGroup L recs p = r0 :: g ->
  playernameW r0 <> playernameB r0 ->
  Forall (between (playernameW r0) (playernameB r0)) g ->
  (forall w, w ∈ getKnockoutWinnerList recs <->
             exists q pr, pairMapOf recs !! q = Some pr /\ w = pairWinner pr) /\
  (forall q, is_Some (pairMapOf recs !! q) <-> roundGroup L recs q <> []) /\
  length (getKnockoutWinnerList recs) = size (pairMapOf recs) /\
  exists pr,
    pairMapOf recs !! p = Some pr /\
    pairWinner pr ∈ getKnockoutWinnerList recs /\
    (winsOf (playernameW r0) (r0 :: g) > winsOf (playernameB r0) (r0 :: g) ->
     name (pairWinner pr) = playernameW r0) /\
    (winsOf (playernameB r0) (r0 :: g) > winsOf (playernameW r0) (r0 :: g) ->
     name (pairWinner pr) = playernameB r0) /\
    (winsOf (playernameW r0) (r0 :: g) = winsOf (playernameB r0) (r0 :: g) ->
     whitesOf (playernameW r0) (r0 :: g) < whitesOf (playernameB r0) (r0 :: g) ->
     name (pairWinner pr) = playernameW r0) /\
    (winsOf (playernameW r0) (r0 :: g) = winsOf (playernameB r0) (r0 :: g) ->
     whitesOf (playernameB r0) (r0 :: g) < whitesOf (playernameW r0) (r0 :: g) ->
     name (pairWinner pr) = playernameB r0).
Proof.
  intros Hlen Hlast HL Hgroup Hab Hbetween.
  pose proof (getLastRound_last recs L Hlast HL) as Hround.
  split; [apply winner_list_members |].
  split.
  { intros q. rewrite pairMapOf_lookup, Hround, foldl_tallyStep_is_Some.
    split; [intros [[x Hx] | H]; [discriminate Hx | exact H] | auto]. }
  split; [apply winner_list_length |].
  assert (Hg : Z.of_nat (length (r0 :: g)) <= Int32.max_int).
  { rewrite <- Hgroup. unfold roundGroup.
    pose proof (length_filter (fun r => round r = L /\ pairId r = p) recs).
    lia. }
  assert (Hall : Forall (between (playernameW r0) (playernameB r0)) (r0 :: g)).
  { constructor; [left; split; reflexivity | exact Hbetween]. }
  pose proof (tally_counts (playernameW r0) (playernameB r0) (r0 :: g)
                (pair_of_record r0) Hab eq_refl eq_refl Hall) as Hc.
  cbn [pair_of_record pair0 pair1 set_name TourPlayer_default winCnt whiteCnt] in Hc.
  specialize (Hc ltac:(lia) ltac:(lia) ltac:(lia) ltac:(lia)
                 ltac:(lia) ltac:(lia) ltac:(lia) ltac:(lia)).
  cbv zeta in Hc.
  set (pr := foldl tallyRecord (pair_of_record r0) (r0 :: g)) in *.
  destruct Hc as (Hn0 & Hn1 & Hw0 & Hw1 & Hh0 & Hh1).
  assert (Hlook : pairMapOf recs !! p = Some pr).
  { rewrite pairMapOf_lookup, Hround, Hgroup. apply foldl_tallyStep_None. }
  exists pr. split; [exact Hlook |].
  split; [apply winner_list_members; exists p, pr; split; [exact Hlook | reflexivity] |].
  destruct (pairWinner_name pr) as (P1 & P2 & P3 & P4).
  repeat split; intros.
  - rewrite P1 by lia. exact Hn0.
  - rewrite P2 by lia. exact Hn1.
  - rewrite P3 by lia. exact Hn0.
  - rewrite P4 by lia. exact Hn1.
Qed.

(** The theorem on the sample of two rounds: the last round is round 1,
    its only pair id is 9, and Z, who won that game with Black, is the
    only winner; X and Z, the winners of round 0, are not taken from
    there. *)
Lemma knockout_winner_witness :
  length (getKnockoutWinnerList sample_two_rounds) = 1%nat /\
  exists pr, pairMapOf sample_two_rounds !! 9 = Some pr /\
             pairWinner pr ∈ getKnockoutWinnerList sample_two_rounds /\
             name (pairWinner pr) = "Z"%string.
Proof.
  destruct (knockout_winner sample_two_rounds 1 9
              (mkMatchRecord "X" "Z" "" [] MatchState.completed loss 2 1 9) [])
    as (_ & _ & Hsize & pr & Hpr & Hin & _ & Hwin & _).
  - vm_compute. discriminate.
  - split.
    + exists (mkMatchRecord "X" "Z" "" [] MatchState.completed loss 2 1 9).
      split; [| reflexivity].
      apply elem_of_cons. right. apply elem_of_cons. right.
      apply elem_of_cons. left. reflexivity.
    + intros r Hr. repeat (apply elem_of_cons in Hr as [-> | Hr]); cbn; try lia.
      inversion Hr.
  - lia.
  - vm_compute. reflexivity.
  - cbn. discriminate.
  - constructor.
  - split.
    + rewrite Hsize. vm_compute. reflexivity.
    + exists pr. split; [exact Hpr |]. split; [exact Hin |].
      apply Hwin. vm_compute. reflexivity.
Defined.

End KnockoutFacts.

(** ** Knockout: extending a tied pair *)

Module ExtensionFacts.

Import Chess Records Standings Tournament KnockoutNotions.

(** C5, at a tied pair.  X and Y have played their four games (X-Y 1-0,
    Y-X draw, X-Y 0-1, Y-X draw): all four records are completed, each
    player has one win and two games as White.  [checkToExtendMatches],
    called for the last game, appends nothing: its loop skips a drawn
    record before it counts the White game, so it sees White counts 2 and
    0.  [getKnockoutWinnerList] counts the White game of every record and
    finds the tallies equal (one win, two White games each). *)
Theorem extension_missed_on_tie :
  Forall (fun r => Records.state r = MatchState.completed) (pairGroup 7 sample_tied_pair) /\
  winsOf "X" (pairGroup 7 sample_tied_pair) = winsOf "Y" (pairGroup 7 sample_tied_pair) /\
  whitesOf "X" (pairGroup 7 sample_tied_pair) = whitesOf "Y" (pairGroup 7 sample_tied_pair) /\
  matchRecordList (checkToExtendMatches 3 (knockout_mng sample_tied_pair))
    = sample_tied_pair /\
  tallyPair 7 sample_tied_pair
    (pair_of_record (mkMatchRecord "Y" "X" "" [] MatchState.completed draw 3 0 7))
    = Some (mkPair (mkTourPlayer "Y" 0 0 1 0 0 0) (mkTourPlayer "X" 0 0 1 0 0 2)) /\
  pairMapOf sample_tied_pair !! 7
    = Some (mkPair (mkTourPlayer "X" 0 0 1 0 0 2) (mkTourPlayer "Y" 0 0 1 0 0 2)).
Proof.
  repeat split; try (vm_compute; reflexivity).
  vm_compute. repeat constructor.
Qed.

(** The same slip in the other direction: after a single drawn game with
    X as White the White counts differ (1 and 0), yet one record is
    appended. *)
Lemma extension_added_on_draw :
  whitesOf "X" (pairGroup 7 sample_drawn_pair) = 1 /\
  whitesOf "Y" (pairGroup 7 sample_drawn_pair) = 0 /\
  matchRecordList (checkToExtendMatches 0 (knockout_mng sample_drawn_pair))
    = sample_drawn_pair
      ++ [mkMatchRecord "X" "Y" "" [] MatchState.none noresult 1 0 7].
Proof. repeat split; vm_compute; reflexivity. Qed.

End ExtensionFacts.

(** ** Round-robin pairing *)

Module PairingFacts.

Import Chess Records Tournament KnockoutNotions PairingNotions.

Section Pairing.

Context {Pool Engine : Type} `{!Collaborators Pool Engine}.

#[local] Abbreviation Mng := (TourMng Pool Engine).

(** What [addMatchRecord_simple] appends is the record given, up to its
    [gameIdx] and opening. *)
Lemma addMatchRecord_simple_appends record (t : Mng) :
  let '(record', t') := addMatchRecord_simple record t in
  matchRecordList t' = matchRecordList t ++ [record'] /\
  gameperpair t' = gameperpair t /\ shufflePlayers t' = shufflePlayers t /\
  colors record' = colors record /\ pairId record' = pairId record /\
  round record' = round record /\ Records.state record' = Records.state record /\
  resultType record' = resultType record.
Proof.
  unfold addMatchRecord_simple.
  destruct (getRandomBook _ _ _) as [[fen moves] cnt]. cbn.
  repeat split; reflexivity.
Qed.

(** The records one call of [addMatchRecord]'s loop appends. *)
Lemma addMatchRecord_loop_appends n : forall record (t : Mng),
  exists blk,
    matchRecordList (snd (addMatchRecord_loop n record t)) = matchRecordList t ++ blk /\
    gameperpair (snd (addMatchRecord_loop n record t)) = gameperpair t /\
    shufflePlayers (snd (addMatchRecord_loop n record t)) = shufflePlayers t /\
    length blk = n /\
    forall (k : nat) (r : MatchRecord),
      blk !! k = Some r ->
      pairId r = pairId record /\ round r = round record /\
      Records.state r = Records.state record /\ resultType r = resultType record /\
      colors r = if Nat.even k then colors record
                 else (playernameB record, playernameW record).
Proof.
  induction n as [| n IH]; intros record t; cbn [addMatchRecord_loop].
  - exists []. rewrite app_nil_r. repeat (split; [reflexivity |]).
    intros k r Hk. discriminate Hk.
  - pose proof (addMatchRecord_simple_appends record t) as H1.
    destruct (addMatchRecord_simple record t) as [rec1 t1].
    destruct H1 as (Hl & Hg & Hs & Hc & Hp & Hr & Hst & Hrt).
    destruct (IH (swapPlayers rec1) t1) as (blk & Hl' & Hg' & Hs' & Hlen & Hblk).
    exists (rec1 :: blk). rewrite Hl', Hl, <- app_assoc. cbn [app length].
    repeat (split; [congruence |]).
    intros k r Hk. destruct k as [| k].
    + cbn in Hk. injection Hk as <-. cbn [Nat.even]. repeat split; assumption.
    + cbn in Hk. destruct (Hblk k r Hk) as (B1 & B2 & B3 & B4 & B5).
      cbn [swapPlayers pairId round Records.state resultType] in B1, B2, B3, B4.
      repeat split; try congruence.
      rewrite B5. rewrite Nat.even_succ, <- Nat.negb_even.
      unfold colors in *. cbn [swapPlayers playernameW playernameB].
      injection Hc as Hw Hb. destruct (Nat.even k); cbn [negb]; congruence.
Qed.

(** One call of [addMatchRecord] for a fresh record of round 1 appends a
    block of the pair. *)
Lemma addMatchRecord_block name0 name1 swap (t : Mng) :
  exists blk,
    matchRecordList (snd (addMatchRecord
                            (with_round 1 (MatchRecord_ctor name0 name1 swap)) t))
      = matchRecordList t ++ blk /\
    gameperpair (snd (addMatchRecord
                        (with_round 1 (MatchRecord_ctor name0 name1 swap)) t))
      = gameperpair t /\
    shufflePlayers (snd (addMatchRecord
                        (with_round 1 (MatchRecord_ctor name0 name1 swap)) t))
      = shufflePlayers t /\
    blockOf (Z.to_nat (gameperpair t)) (name0, name1) blk.
Proof.
  unfold addMatchRecord. cbn [std_rand].
  set (record := with_pairId _ _).
  set (t0 := set_randCnt _ t).
  destruct (addMatchRecord_loop_appends (Z.to_nat (gameperpair t0)) record t0)
    as (blk & Hl & Hg & Hs & Hlen & Hblk).
  exists blk. split; [exact Hl |]. split; [exact Hg |]. split; [exact Hs |].
  split; [exact Hlen |].
  exists (pairId record), (playernameW record), (playernameB record).
  split.
  { subst record. destruct swap; cbn; [right | left]; reflexivity. }
  intros i r Hi. destruct (Hblk i r Hi) as (B1 & B2 & B3 & B4 & B5).
  repeat split; try assumption.
Qed.

(** The inner loop, all names known: one block per name after [name0]. *)
Lemma roundRobin_inner_blocks name0 others : forall (t : Mng),
  Forall (fun nm => isNameExistent nm = true) others ->
  exists blocks,
    roundRobin_inner name0 others t
      = (None, snd (roundRobin_inner name0 others t)) /\
    matchRecordList (snd (roundRobin_inner name0 others t))
      = matchRecordList t ++ concat blocks /\
    gameperpair (snd (roundRobin_inner name0 others t)) = gameperpair t /\
    shufflePlayers (snd (roundRobin_inner name0 others t)) = shufflePlayers t /\
    Forall2 (blockOf (Z.to_nat (gameperpair t)))
            (map (fun b => (name0, b)) others) blocks.
Proof.
  induction others as [| name1 others IH]; intros t Hall; cbn [roundRobin_inner].
  - exists []. cbn. rewrite app_nil_r. repeat (split; [reflexivity |]). constructor.
  - apply Forall_cons in Hall as [H1 Hall]. rewrite H1. cbn [negb std_rand].
    match goal with
    | |- context [addMatchRecord ?r ?t0] =>
        destruct (addMatchRecord_block name0 name1 (negb (Z.land (rand (randCnt t)) 1 =? 0))
                    t0) as (blk & Hl & Hg & Hs & Hblk);
        destruct (addMatchRecord r t0) as [r1 t1]
    end.
    cbn [snd] in Hl, Hg, Hs.
    destruct (IH t1 Hall) as (blocks & He & Hl' & Hg' & Hs' & Hbs).
    exists (blk :: blocks).
    split; [rewrite He at 1; reflexivity |].
    split; [rewrite Hl', Hl; cbn; rewrite <- app_assoc; reflexivity |].
    split; [rewrite Hg', Hg; reflexivity |].
    split; [rewrite Hs', Hs; reflexivity |].
    cbn [map]. constructor; [exact Hblk |].
    rewrite Hg in Hbs. exact Hbs.
Qed.

(** The outer loop, all names known: one block per pair. *)
Lemma roundRobin_outer_blocks names : forall (t : Mng),
  Forall (fun nm => isNameExistent nm = true) names ->
  exists blocks,
    roundRobin_outer names t = (None, snd (roundRobin_outer names t)) /\
    matchRecordList (snd (roundRobin_outer names t))
      = matchRecordList t ++ concat blocks /\
    gameperpair (snd (roundRobin_outer names t)) = gameperpair t /\
    Forall2 (blockOf (Z.to_nat (gameperpair t))) (pairsOf names) blocks.
Proof.
  induction names as [| name0 others IH]; intros t Hall.
  - exists []. cbn. rewrite app_nil_r. repeat (split; [reflexivity |]). constructor.
  - apply Forall_cons in Hall as [H0 Hall].
    destruct others as [| name1 others'].
    { exists []. cbn. rewrite app_nil_r. repeat (split; [reflexivity |]). constructor. }
    set (others := name1 :: others') in *.
    change (roundRobin_outer (name0 :: others) t)
      with (if negb (isNameExistent name0) then (Some name0, t)
            else match roundRobin_inner name0 others t with
                 | (Some missingName, t) => (Some missingName, t)
                 | (None, t) => roundRobin_outer others t
                 end).
    rewrite H0. cbn [negb].
    destruct (roundRobin_inner_blocks name0 others t Hall)
      as (bs1 & He1 & Hl1 & Hg1 & _ & Hb1).
    rewrite He1.
    destruct (IH (snd (roundRobin_inner name0 others t)) Hall)
      as (bs2 & He2 & Hl2 & Hg2 & Hb2).
    exists (bs1 ++ bs2).
    split; [rewrite He2 at 1; reflexivity |].
    split; [rewrite Hl2, Hl1, concat_app, <- app_assoc; reflexivity |].
    split; [rewrite Hg2, Hg1; reflexivity |].
    cbn [pairsOf]. apply Forall2_app; [exact Hb1 |].
    rewrite Hg1 in Hb2. exact Hb2.
Qed.

End Pairing.

(** Counting the pairs and the records. *)

Lemma pairsOf_length names :
  (2 * length (pairsOf names) = length names * (length names - 1))%nat.
Proof.
  induction names as [| a rest IH]; [reflexivity |].
  cbn [pairsOf length]. rewrite length_app, length_map. nia.
Qed.

Lemma blocks_length n pairs blocks :
  Forall2 (blockOf n) pairs blocks ->
  length (concat blocks) = (n * length pairs)%nat.
Proof.
  induction 1 as [| ab blk pairs blocks [Hlen _] _ IH]; cbn [concat length].
  - lia.
  - rewrite length_app, IH, Hlen. lia.
Qed.

(** A record of the block of [(a, b)] is a game between [a] and [b]. *)
Lemma blockOf_between n a b blk r :
  blockOf n (a, b) blk -> r ∈ blk -> between a b r.
Proof.
  intros (_ & pid & w & bl & Hwb & Hblk) Hr.
  apply list_elem_of_lookup in Hr as [k Hk].
  destruct (Hblk k r Hk) as (_ & _ & _ & _ & Hc).
  unfold colors in Hc. unfold between.
  destruct (Nat.even k), Hwb as [E | E]; injection E as -> ->;
    injection Hc as -> ->; auto.
Qed.

Lemma gamesBetween_app p q l1 l2 :
  gamesBetween p q (l1 ++ l2) = (gamesBetween p q l1 + gamesBetween p q l2)%nat.
Proof. unfold gamesBetween. rewrite filter_app, length_app. reflexivity. Qed.

Lemma gamesBetween_all p q l :
  Forall (between p q) l -> gamesBetween p q l = length l.
Proof.
  unfold gamesBetween. induction 1 as [| r l Hr _ IH]; [reflexivity |].
  rewrite filter_cons_True by exact Hr. cbn. rewrite IH. reflexivity.
Qed.

Lemma gamesBetween_none p q l :
  Forall (fun r => ~ between p q r) l -> gamesBetween p q l = 0%nat.
Proof.
  unfold gamesBetween. induction 1 as [| r l Hr _ IH]; [reflexivity |].
  rewrite filter_cons_False by exact Hr. exact IH.
Qed.

(** The block of the pair [{p, q}] holds [n] games between them, the
    block of another pair none. *)
Lemma block_games n a b blk p q :
  blockOf n (a, b) blk ->
  gamesBetween p q blk
    = if decide ((a = p /\ b = q) \/ (a = q /\ b = p)) then n else 0%nat.
Proof.
  intros Hblk. destruct (decide _) as [Hsame | Hdiff].
  - rewrite gamesBetween_all; [exact (proj1 Hblk) |].
    apply Forall_forall. intros r Hr.
    pose proof (blockOf_between _ _ _ _ _ Hblk Hr) as Hb.
    unfold between in *. destruct Hsame as [[-> ->] | [-> ->]]; tauto.
  - apply gamesBetween_none. apply Forall_forall. intros r Hr Hpq.
    pose proof (blockOf_between _ _ _ _ _ Hblk Hr) as Hb.
    apply Hdiff. unfold between in *.
    destruct Hb as [[<- <-] | [<- <-]], Hpq as [[E1 E2] | [E1 E2]]; auto.
Qed.

(** Among the pairs of a list without repetition, exactly one is the
    pair of two given distinct members. *)
Lemma pairsOf_games n names : forall blocks p q,
  NoDup names -> p ∈ names -> q ∈ names -> p <> q ->
  Forall2 (blockOf n) (pairsOf names) blocks ->
  gamesBetween p q (concat blocks) = n.
Proof.
  assert (Hrow : forall a rest blocks p q,
            Forall2 (blockOf n) (map (fun b => (a, b)) rest) blocks ->
            (a <> p -> a <> q -> gamesBetween p q (concat blocks) = 0%nat) /\
            (NoDup rest -> a ∉ rest -> a = p -> q ∈ rest ->
             gamesBetween p q (concat blocks) = n) /\
            (NoDup rest -> a ∉ rest -> a = q -> p ∈ rest ->
             gamesBetween p q (concat blocks) = n) /\
            (a = p -> q ∉ rest -> gamesBetween p q (concat blocks) = 0%nat) /\
            (a = q -> p ∉ rest -> gamesBetween p q (concat blocks) = 0%nat)).
  { intros a rest. induction rest as [| b rest IH]; intros blocks p q Hb;
      cbn [map] in Hb.
    - apply Forall2_nil_inv_l in Hb as ->. cbn.
      repeat split; intros; try reflexivity;
        match goal with H : _ ∈ [] |- _ => apply not_elem_of_nil in H; contradiction end.
    - apply Forall2_cons_inv_l in Hb as (blk & blocks' & Hblk & Hbs & ->).
      cbn [concat]. rewrite gamesBetween_app, (block_games _ _ _ _ p q Hblk).
      destruct (IH blocks' p q Hbs) as (I1 & I2 & I3 & I4 & I5).
      repeat split.
      + intros Hp Hq. rewrite decide_False by tauto. rewrite I1 by assumption. lia.
      + intros Hnd Hna -> Hqin.
        apply NoDup_cons in Hnd as [Hb' Hnd]. apply not_elem_of_cons in Hna as [Hab Hna].
        apply elem_of_cons in Hqin as [-> | Hqin].
        * rewrite decide_True by tauto. rewrite I4 by auto. lia.
        * rewrite decide_False by (intros [[E1 E2] | [E1 E2]]; congruence).
          rewrite I2 by auto. lia.
      + intros Hnd Hna -> Hpin.
        apply NoDup_cons in Hnd as [Hb' Hnd]. apply not_elem_of_cons in Hna as [Hab Hna].
        apply elem_of_cons in Hpin as [-> | Hpin].
        * rewrite decide_True by tauto. rewrite I5 by auto. lia.
        * rewrite decide_False by (intros [[E1 E2] | [E1 E2]]; congruence).
          rewrite I3 by auto. lia.
      + intros -> Hq. apply not_elem_of_cons in Hq as [Hqb Hq].
        rewrite decide_False by (intros [[E1 E2] | [E1 E2]]; congruence).
        rewrite I4 by auto. lia.
      + intros -> Hp. apply not_elem_of_cons in Hp as [Hpb Hp].
        rewrite decide_False by (intros [[E1 E2] | [E1 E2]]; congruence).
        rewrite I5 by auto. lia. }
  induction names as [| a rest IH]; intros blocks p q Hnd Hp Hq Hpq Hb.
  - apply not_elem_of_nil in Hp. contradiction.
  - cbn [pairsOf] in Hb.
    apply Forall2_app_inv_l in Hb as (bs1 & bs2 & Hb1 & Hb2 & ->).
    rewrite concat_app, gamesBetween_app.
    apply NoDup_cons in Hnd as [Ha Hnd].
    destruct (Hrow a rest bs1 p q Hb1) as (R1 & R2 & R3 & R4 & R5).
    assert (Hrest0 : forall bs, Forall2 (blockOf n) (pairsOf rest) bs ->
                                (p ∉ rest \/ q ∉ rest) ->
                                gamesBetween p q (concat bs) = 0%nat).
    { clear -Hrow. induction rest as [| b rest IH]; intros bs Hbs Hout.
      - cbn in Hbs. apply Forall2_nil_inv_l in Hbs as ->. reflexivity.
      - cbn [pairsOf] in Hbs.
        apply Forall2_app_inv_l in Hbs as (c1 & c2 & Hc1 & Hc2 & ->).
        rewrite concat_app, gamesBetween_app.
        destruct (Hrow b rest c1 p q Hc1) as (R1 & _ & _ & R4 & R5).
        rewrite (IH c2 Hc2).
        2:{ destruct Hout as [H | H]; apply not_elem_of_cons in H as [_ H]; auto. }
        destruct (decide (b = p)) as [-> | Hbp].
        + rewrite R4; [lia | reflexivity |].
          destruct Hout as [H | H]; apply not_elem_of_cons in H as [H1 H2];
            [congruence | exact H2].
        + destruct (decide (b = q)) as [-> | Hbq].
          * rewrite R5; [lia | reflexivity |].
            destruct Hout as [H | H]; apply not_elem_of_cons in H as [H1 H2];
              [exact H2 | congruence].
          * rewrite R1 by assumption. lia. }
    apply elem_of_cons in Hp as [-> | Hp]; apply elem_of_cons in Hq as [-> | Hq].
    + congruence.
    + rewrite R2 by auto. rewrite (Hrest0 bs2 Hb2) by auto. lia.
    + rewrite R3 by auto. rewrite (Hrest0 bs2 Hb2) by auto. lia.
    + rewrite R1 by (intros ->; contradiction).
      rewrite (IH bs2 p q Hnd Hp Hq Hpq Hb2). lia.
Qed.

Lemma blocks_round n pairs blocks :
  Forall2 (blockOf n) pairs blocks -> Forall (fun r => round r = 1) (concat blocks).
Proof.
  induction 1 as [| ab blk pairs blocks Hblk _ IH]; cbn [concat]; [constructor |].
  apply Forall_app. split; [| exact IH].
  destruct Hblk as (_ & pid & w & b & _ & Hk).
  apply Forall_forall. intros r Hr.
  apply list_elem_of_lookup in Hr as [k Hr]. exact (proj1 (proj2 (Hk k r Hr))).
Qed.

Section Schedule.

Context {Pool Engine : Type} `{!Collaborators Pool Engine}.

(** C6.  For a list of at least two players, all known to the engine
    configuration, the round-robin schedule is the concatenation of one
    block per pair [(p_i, p_j)], [i < j], of the (possibly shuffled) list:
    each block has [gameperpair] records that share one pair id, alternate
    colors from one record to the next, and have round 1.  So the schedule
    has [gameperpair * n * (n - 1) / 2] records, [n * (n - 1) / 2] when
    [gameperpair] is 1, and when no name occurs twice every two distinct
    players meet in exactly [gameperpair] records. *)
Theorem round_robin_schedule (names : list string) (t : TourMng Pool Engine) :
  (2 <= length names)%nat ->
  Forall (fun nm => isNameExistent nm = true) names ->
  (shufflePlayers t = true -> Permutation (shuffle names) names) ->
  exists (t' : TourMng Pool Engine) (blocks : list (list MatchRecord)),
    createMatchList names TourType.roundrobin t = (true, t') /\
    matchRecordList t' = concat blocks /\
    Forall2 (blockOf (Z.to_nat (gameperpair t)))
            (pairsOf (if shufflePlayers t then shuffle names else names)) blocks /\
    Forall (fun r => round r = 1) (matchRecordList t') /\
    (2 * length (matchRecordList t')
     = Z.to_nat (gameperpair t) * (length names * (length names - 1)))%nat /\
    (gameperpair t = 1 ->
     length (matchRecordList t') = (length names * (length names - 1) / 2)%nat) /\
    (NoDup names ->
     forall p q, p ∈ names -> q ∈ names -> p <> q ->
                 gamesBetween p q (matchRecordList t') = Z.to_nat (gameperpair t)).
Proof.
  intros Hlen Hall Hshuffle.
  set (names' := if shufflePlayers t then shuffle names else names).
  assert (Hperm : Permutation names' names).
  { subst names'. destruct (shufflePlayers t); [auto | reflexivity]. }
  assert (Hall' : Forall (fun nm => isNameExistent nm = true) names').
  { rewrite Hperm. exact Hall. }
  destruct (roundRobin_outer_blocks names' (reset t) Hall')
    as (blocks & He & Hl & Hg & Hb).
  cbn [reset set_previousElapsed set_matchRecordList matchRecordList gameperpair app]
    in Hl, Hg, Hb.
  exists (snd (roundRobin_outer names' (reset t))), blocks.
  assert (Hcount : (2 * length (concat blocks)
                    = Z.to_nat (gameperpair t) * (length names * (length names - 1)))%nat).
  { rewrite (blocks_length _ _ _ Hb).
    pose proof (pairsOf_length names') as Hp.
    rewrite (Permutation_length Hperm) in Hp. nia. }
  split.
  { unfold createMatchList.
    destruct (length names <? 2)%nat eqn:Hlt; [apply Nat.ltb_lt in Hlt; lia |].
    cbn [reset set_previousElapsed set_matchRecordList shufflePlayers].
    fold names'.
    change (set_previousElapsed 0 (set_matchRecordList [] t)) with (reset t).
    rewrite He. reflexivity. }
  rewrite Hl.
  split; [reflexivity |].
  split; [exact Hb |].
  split; [exact (blocks_round _ _ _ Hb) |].
  split; [exact Hcount |].
  split.
  { intros H1. rewrite H1 in Hcount. change (Z.to_nat 1) with 1%nat in Hcount.
    apply Nat.div_unique_exact; lia. }
  intros Hnd p q Hp Hq Hpq.
  apply (pairsOf_games _ names' blocks p q); try assumption.
  - rewrite Hperm. exact Hnd.
  - rewrite Hperm. exact Hp.
  - rewrite Hperm. exact Hq.
Qed.

End Schedule.

(** The theorem for three players and two games per pair: six records,
    two of them between A and B. *)
Lemma round_robin_schedule_witness :
  length (matchRecordList
            (snd (createMatchList ["A"; "B"; "C"]%string TourType.roundrobin
                    (Samples.sample_mng TourType.roundrobin 2 2)))) = 6%nat /\
  gamesBetween "A" "B"
    (matchRecordList
       (snd (createMatchList ["A"; "B"; "C"]%string TourType.roundrobin
               (Samples.sample_mng TourType.roundrobin 2 2)))) = 2%nat.
Proof.
  destruct (round_robin_schedule ["A"; "B"; "C"]%string
              (Samples.sample_mng TourType.roundrobin 2 2))
    as (t' & blocks & He & _ & _ & _ & Hcount & _ & Hgames).
  - cbn. lia.
  - repeat constructor.
  - cbn. discriminate.
  - rewrite He. cbn [snd]. split.
    + cbn in Hcount. lia.
    + apply Hgames.
      * compute_done.
      * compute_done.
      * compute_done.
      * discriminate.
Defined.

End PairingFacts.

(** ** The game driver: a move from a player *)

Module DriverFacts.

Import Chess Moves Outcome GameDriver DriverNotions.

Section Moves.

Context {Position Time Clock : Type} `{!Rules Position Time Clock}.

#[local] Abbreviation G := (Game Position Time Clock).

Lemma players_set_players_eq sd p (g : G) : players (set_players sd p g) sd = p.
Proof. destruct sd; reflexivity. Qed.

Lemma players_set_players_ne sd sd' p (g : G) :
  sd <> sd' -> players (set_players sd p g) sd' = players g sd'.
Proof. destruct sd, sd'; intros H; try contradiction; reflexivity. Qed.

Lemma getXSide_ne sd : getXSide sd <> sd.
Proof. destruct sd; discriminate. Qed.

(** [gameOver] stops the game with the given result, tells every attached
    player to stop thinking, and leaves the log alone. *)
Lemma gameOver_effect result (g : G) :
  state (gameOver result g) = GameState.stopped /\
  bresult (board (gameOver result g)) = result /\
  side (board (gameOver result g)) = side (board g) /\
  logged (gameOver result g) = logged g /\
  forall sd, players (gameOver result g) sd = send stopThinking <$> players g sd.
Proof.
  destruct g as [st tk b pw pb tc gc ml lg].
  unfold gameOver, stopIfAttached.
  repeat (split; [destruct pw, pb; reflexivity |]).
  intros sd. destruct pw, pb, sd; reflexivity.
Qed.

(** C7, at [Game::make] and at [Game::moveFromPlayer].  When [checkMake]
    refuses the move (leaving the side to move as it is), with a logger
    installed and the mover [p] attached: the game is stopped with the
    mover's opponent as winner and reason illegal-move, the line
    ["Illegal move <moveStr> from <name of p>"] is logged, and both
    players are told to stop thinking.  [moveFromPlayer] gets there for a
    move of the side to move in a game that is playing, whose clock has
    not run out, from an engine that was thinking. *)
Theorem illegal_move_loses (g : G) (move : Move) (moveStr : string) (ponderMove : Move)
    (timeConsumed : Time) (sd0 : Side) (p : Player) (b' : Board Position Time) :
  state g = GameState.playing ->
  side (board g) = sd0 ->
  isTimeOver (timeController g) sd0 = false ->
  messageLogger g = true ->
  players g sd0 = Some p ->
  checkMake (board g) (from move) (dest move) (promotion move) = (false, b') ->
  side b' = sd0 ->
  exists g',
    make move moveStr g = Returns (false, g') /\
    moveFromPlayer move moveStr ponderMove timeConsumed sd0 thinking g = Returns g' /\
    state g' = GameState.stopped /\
    bresult (board g') = mkResult (winBy (getXSide sd0)) illegalmove /\
    logged g' = logged g ++ [("Illegal move " +:+ moveStr +:+ " from " +:+ getName p, system)] /\
    forall sd, players g' sd = send stopThinking <$> players g sd.
Proof.
  intros Hst Hsd Htime Hlog Hp Hcheck Hside.
  assert (Hmake : exists g',
    make move moveStr g = Returns (false, g') /\
    state g' = GameState.stopped /\
    bresult (board g') = mkResult (winBy (getXSide sd0)) illegalmove /\
    logged g' = logged g ++ [("Illegal move " +:+ moveStr +:+ " from " +:+ getName p, system)] /\
    forall sd, players g' sd = send stopThinking <$> players g sd).
  { unfold make. rewrite Hcheck.
    cbn [mbind outcome_bind bind mret outcome_ret].
    unfold deref, log. cbn [set_board board side]. rewrite Hside.
    change (players (set_board b' g) sd0) with (players g sd0).
    change (messageLogger (set_board b' g)) with (messageLogger g).
    rewrite Hp, Hlog. cbn [mbind outcome_bind bind mret outcome_ret].
    eexists. split; [reflexivity |].
    unfold gameOver_winner.
    match goal with
    | |- context [gameOver ?r ?g0] =>
        destruct (gameOver_effect r g0) as (E1 & E2 & E3 & E4 & E5)
    end.
    cbn [board side] in *. rewrite E1, E2, E4.
    split; [reflexivity |].
    split; [rewrite Hside; destruct sd0; reflexivity |].
    split; [reflexivity |].
    intros sd. rewrite E5. destruct sd; reflexivity. }
  destruct Hmake as (g' & Hmake & R1 & R2 & R3 & R4).
  exists g'. split; [exact Hmake |]. split; [| repeat split; assumption].
  unfold moveFromPlayer.
  rewrite decide_False by (intros [H | H]; contradiction).
  rewrite decide_False by (intros H; contradiction).
  unfold checkTimeOver. rewrite Hsd, Htime.
  cbn [mbind outcome_bind bind mret outcome_ret].
  rewrite Hsd. rewrite bool_decide_eq_false_2 by (intros H; apply H; reflexivity).
  cbn [orb]. rewrite Hmake. reflexivity.
Qed.

End Moves.

(** The theorem on the sample game: White plays the move from 5 to 5,
    which the sample rules refuse. *)
Lemma illegal_move_loses_witness :
  exists g',
    moveFromPlayer (mkMove 5 5 0) "e5e5" (mkMove 1 2 0) 7 white thinking
      (sample_game false) = Returns g' /\
    state g' = GameState.stopped /\
    bresult (board g') = mkResult loss illegalmove /\
    logged g' = [("Illegal move e5e5 from Alpha"%string, system)].
Proof.
  destruct (illegal_move_loses (sample_game false) (mkMove 5 5 0) "e5e5" (mkMove 1 2 0)
              7 white sample_white (board (sample_game false)))
    as (g' & _ & Hm & Hs & Hr & Hl & _); try reflexivity.
  exists g'. repeat split; assumption.
Defined.

Section Thinking.

Context {Position Time Clock : Type} `{!Rules Position Time Clock}.

#[local] Abbreviation G := (Game Position Time Clock).

(** What [make] has done when it answers [true]: the move is on the
    board, the game goes on, and the player now to move has been told the
    move; the other player has been told nothing. *)
Lemma make_true_inv (g g1 : G) (move : Move) (moveStr : string) :
  make move moveStr g = Returns (true, g1) ->
  exists h pN,
    checkMake (board g) (from move) (dest move) (promotion move) = (true, board g1) /\
    last (histList (board g1)) = Some h /\
    players g (side (board g1)) = Some pN /\
    players g1 (side (board g1))
      = Some (send (oppositeMadeMove move (moveString h)) pN) /\
    players g1 (getXSide (side (board g1))) = players g (getXSide (side (board g1))) /\
    state g1 = state g /\ timeController g1 = timeController g /\
    gameConfig g1 = gameConfig g.
Proof.
  unfold make. intros H.
  destruct (checkMake (board g) (from move) (dest move) (promotion move))
    as [made b'] eqn:Hcheck.
  destruct made; cbn [mbind outcome_bind bind mret outcome_ret] in H.
  2: solve [ResumeFacts.returned H;
            try (cbn [mbind outcome_bind bind mret outcome_ret] in H; discriminate H)].
  destruct (decide (result (rule (board (set_board b' g))) <> noresult));
    [discriminate H |].
  destruct (_ && _ && _) in H; [discriminate H |].
  assert (Hlast : forall gl : G,
            board gl = b' -> players gl = players g -> state gl = state g ->
            timeController gl = timeController g -> gameConfig gl = gameConfig g ->
            match last (histList (board gl)) with
            | Some h =>
                tell (side (board gl)) (oppositeMadeMove move (moveString h)) gl
                ≫= (fun g0 : G => mret (true, g0))
            | None => Throws
            end = Returns (true, g1) ->
            exists h pN,
              (true, b') = (true, board g1) /\
              last (histList (board g1)) = Some h /\
              players g (side (board g1)) = Some pN /\
              players g1 (side (board g1))
                = Some (send (oppositeMadeMove move (moveString h)) pN) /\
              players g1 (getXSide (side (board g1)))
                = players g (getXSide (side (board g1))) /\
              state g1 = state g /\ timeController g1 = timeController g /\
              gameConfig g1 = gameConfig g).
  { intros gl Hb Hpl Hs Htc Hgc Hl.
    destruct (last (histList (board gl))) as [h |] eqn:Elast; [| discriminate Hl].
    unfold tell, deref in Hl. rewrite Hpl in Hl.
    destruct (players g (side (board gl))) as [pN |] eqn:EpN;
      cbn [mbind outcome_bind bind mret outcome_ret] in Hl; [| discriminate Hl].
    injection Hl as <-.
    assert (Hbd : board (set_players (side (board gl))
                           (Some (send (oppositeMadeMove move (moveString h)) pN)) gl)
                  = board gl) by (destruct (side (board gl)); reflexivity).
    rewrite Hbd. exists h, pN.
    split; [rewrite Hb; reflexivity |]. split; [exact Elast |]. split; [exact EpN |].
    split; [apply players_set_players_eq |].
    split; [rewrite players_set_players_ne by (apply not_eq_sym, getXSide_ne);
            rewrite Hpl; reflexivity |].
    destruct (side (board gl)); cbn; auto. }
  assert (Hlog : forall msg (gl gl' : G),
            log msg gl = Returns gl' ->
            board gl' = board gl /\ players gl' = players gl /\ state gl' = state gl /\
            timeController gl' = timeController gl /\ gameConfig gl' = gameConfig gl).
  { intros msg gl gl' Hl. unfold log in Hl.
    destruct (messageLogger gl); [| discriminate Hl]. injection Hl as <-.
    repeat split. }
  destruct (adjudicationMode (gameConfig (set_board b' g))
            && adjudicationEgtbMode (gameConfig (set_board b' g))) in H.
  - destruct (probeSyzygy _ _) as [res tberror] in H.
    destruct (decide (result res = noresult)) in H;
      [| cbn [mbind outcome_bind bind mret outcome_ret] in H; discriminate H].
    destruct tberror.
    + destruct (last (histList (board (set_board b' g)))) as [h0 |] in H;
        [| discriminate H].
      destruct (negb (capIsEmpty h0)).
      * cbn [mbind outcome_bind bind mret outcome_ret] in H.
        destruct (log _ (set_board b' g)) as [gl | |] eqn:El;
          cbn [mbind outcome_bind bind mret outcome_ret] in H; try discriminate H.
        destruct (Hlog _ _ _ El) as (L1 & L2 & L3 & L4 & L5).
        eapply (Hlast gl); try exact H;
          first [rewrite L1 | rewrite L2 | rewrite L3 | rewrite L4 | rewrite L5];
          reflexivity.
      * cbn [mbind outcome_bind bind mret outcome_ret] in H.
        eapply (Hlast (set_board b' g)); try exact H; reflexivity.
    + cbn [mbind outcome_bind bind mret outcome_ret] in H.
      eapply (Hlast (set_board b' g)); try exact H; reflexivity.
  - cbn [mbind outcome_bind bind mret outcome_ret] in H.
    eapply (Hlast (set_board b' g)); try exact H; reflexivity.
Qed.

(** [startThinking]: the player not to move is sent [goPonder] with the
    move given, then the player to move is sent [go]. *)
Lemma startThinking_calls (g : G) (pondermove : Move) (pN pO : Player) :
  players g (side (board g)) = Some pN ->
  players g (getXSide (side (board g))) = Some pO ->
  exists g',
    startThinking pondermove g = Returns g' /\
    players g' (side (board g)) = Some (send go pN) /\
    players g' (getXSide (side (board g))) = Some (send (goPonder pondermove) pO) /\
    state g' = state g /\ board g' = board g.
Proof.
  intros HN HO. unfold startThinking, tell, deref.
  destruct g as [st tk b pw pb tc gc ml lg].
  cbn [board set_timeController timeController side] in *.
  destruct (side b); cbn in HN, HO |- *; rewrite HN, HO; cbn;
    eexists; (split; [reflexivity |]); cbn; auto.
Qed.

(** C8, as the code has it.  After a move that [make] applied without
    ending the game, in a game that is playing, for a move of the side to
    move whose clock has not run out, from an engine that was thinking:
    the player now to move has been told the move and then [go]; the
    player who is not to move has been sent [goPonder] in either ponder
    mode, with the reported ponder move when ponder mode is on and with
    [Move::illegalMove] when it is off. *)
Theorem thinking_after_move (g g1 : G) (move : Move) (moveStr : string)
    (ponderMove : Move) (timeConsumed : Time) (sd0 : Side) (pO : Player) :
  state g = GameState.playing ->
  side (board g) = sd0 ->
  isTimeOver (timeController g) sd0 = false ->
  make move moveStr g = Returns (true, g1) ->
  players g (getXSide (side (board g1))) = Some pO ->
  exists g' pN san,
    moveFromPlayer move moveStr ponderMove timeConsumed sd0 thinking g = Returns g' /\
    state g' = GameState.playing /\
    side (board g') = side (board g1) /\
    players g (side (board g1)) = Some pN /\
    players g' (side (board g1)) = Some (send go (send (oppositeMadeMove move san) pN)) /\
    players g' (getXSide (side (board g1)))
      = Some (send (goPonder (if ponderMode (gameConfig g) then ponderMove
                              else illegalMove)) pO).
Proof.
  intros Hst Hsd Htime Hmake HO.
  destruct (make_true_inv g g1 move moveStr Hmake)
    as (h & pN & Hcheck & Hlast & HN & HN1 & HO1 & Hs1 & Htc1 & Hgc1).
  rewrite HO in HO1.
  assert (Hmover : exists p, deref g1 sd0 = Returns p).
  { unfold deref.
    destruct (decide (sd0 = side (board g1))) as [-> | Hne].
    - rewrite HN1. eexists. reflexivity.
    - assert (sd0 = getXSide (side (board g1))) as ->
        by (destruct sd0, (side (board g1)); try reflexivity; contradiction).
      rewrite HO1. eexists. reflexivity. }
  destruct Hmover as [p Hp].
  set (g2 := set_timeController
               (udateClockAfterMove (timeController g1) timeConsumed (moverSide h)
                  (Int32.wrap (Z.of_nat
                     (length (histList (stampLast timeConsumed p (board g1)))))))
               (set_board (stampLast timeConsumed p (board g1)) g1)).
  assert (Hside2 : side (board g2) = side (board g1)) by reflexivity.
  assert (Hpl2 : forall sd, players g2 sd = players g1 sd)
    by (intros sd; destruct sd; reflexivity).
  destruct (startThinking_calls g2
              (if ponderMode (gameConfig g) then ponderMove else illegalMove)
              (send (oppositeMadeMove move (moveString h)) pN) pO)
    as (g' & Hstart & T1 & T2 & T3 & T4).
  { rewrite Hside2, Hpl2. exact HN1. }
  { rewrite Hside2, Hpl2. exact HO1. }
  exists g', pN, (moveString h).
  split.
  { unfold moveFromPlayer.
    rewrite decide_False by (intros [H | H]; contradiction).
    rewrite decide_False by (intros H; contradiction).
    unfold checkTimeOver. rewrite Hsd, Htime.
    cbn [mbind outcome_bind bind mret outcome_ret].
    rewrite Hsd. rewrite bool_decide_eq_false_2 by (intros H; apply H; reflexivity).
    cbn [orb]. rewrite Hmake. cbn [mbind outcome_bind bind mret outcome_ret].
    rewrite Hp. cbn [mbind outcome_bind bind mret outcome_ret].
    rewrite Hlast.
    change (gameConfig (set_timeController _ _)) with (gameConfig g1).
    rewrite Hgc1. exact Hstart. }
  rewrite Hside2 in T1, T2.
  split; [rewrite T3; exact (eq_trans eq_refl (eq_trans Hs1 Hst)) |].
  split; [rewrite T4; exact Hside2 |].
  split; [exact HN |]. split; [exact T1 | exact T2].
Qed.

End Thinking.

(** The theorem on the sample game with ponder mode on: White plays from
    12 to 28; Black is told the move and [go], White is sent [goPonder]
    with the ponder move from 52 to 36. *)
Lemma thinking_after_move_witness :
  exists g',
    moveFromPlayer (mkMove 12 28 0) "e2e4" (mkMove 52 36 0) 7 white thinking
      (sample_game true) = Returns g' /\
    (calls <$> players g' black) = Some [oppositeMadeMove (mkMove 12 28 0) "san"; go] /\
    (calls <$> players g' white) = Some [goPonder (mkMove 52 36 0)].
Proof.
  destruct (thinking_after_move (sample_game true)
              (mkGame GameState.playing 3
                 (mkBoard black [mkHist white "san" true 0 0 0 0]
                    (mkResult noresult noreason) tt)
                 (Some sample_white)
                 (Some (send (oppositeMadeMove (mkMove 12 28 0) "san") sample_black))
                 tt (mkGameConfig true false 0 false 0) true [])
              (mkMove 12 28 0) "e2e4" (mkMove 52 36 0) 7 white sample_white)
    as (g' & pN & san & Hm & _ & _ & HN & H1 & H2); try reflexivity.
  exists g'. split; [exact Hm |].
  assert (E : Returns g' = moveFromPlayer (mkMove 12 28 0) "e2e4" (mkMove 52 36 0) 7
                             white thinking (sample_game true))
    by (symmetry; exact Hm).
  vm_compute in E. injection E as ->. split; reflexivity.
Defined.

(** C8 as stated fails with ponder mode off: White plays from 12 to 28 in
    the sample game, and White, who is then not to move, is sent a ponder
    command all the same, [goPonder] with the illegal-move sentinel. *)
Lemma ponder_call_with_ponder_off :
  ponderMode (gameConfig (sample_game false)) = false /\
  exists g' after,
    moveFromPlayer (mkMove 12 28 0) "e2e4" (mkMove 52 36 0) 7 white thinking
      (sample_game false) = Returns g' /\
    players g' white = Some after /\
    newCalls sample_white after = [goPonder illegalMove] /\
    receivedPonder sample_white after.
Proof.
  split; [reflexivity |].
  eexists. eexists. split; [vm_compute; reflexivity |].
  split; [reflexivity |]. split; [reflexivity |].
  exists illegalMove. vm_compute. apply list_elem_of_here.
Qed.

End DriverFacts.

(** ** A record through the schedule file and back *)

Module RoundTripFacts.

Import Chess Moves Records Outcome Notions RoundTripNotions.

(** A move that is saved and loaded again comes back with origin and
    destination exchanged. *)
Lemma unpack_pack_exchanges (m : Move) :
  byteMove m -> unpack (pack m) = exchanged m.
Proof.
  intros (Hf & Hd & Hp).
  rewrite MovesFacts.pack_bytes by assumption.
  rewrite MovesFacts.unpack_bytes by assumption. reflexivity.
Qed.

Lemma pack_in_range m : byteMove m -> Int32.in_rangeb (pack m) = true.
Proof.
  intros (Hf & Hd & Hp). rewrite MovesFacts.pack_bytes by assumption.
  unfold byte, bytes, Int32.in_rangeb, Int32.min_int, Int32.max_int in *.
  apply andb_true_intro. split; [apply Z.leb_le | apply Z.leb_le]; lia.
Qed.

(** The loop over ["startMoves"] on the array [saveToJson] writes. *)
Lemma load_moves_saved (ms : list Move) : forall (pre : list Move),
  Forall byteMove ms ->
  load_moves (Json.JArray (map (fun m => Json.JInt (pack m)) (pre ++ ms)))
             (Z.of_nat (length (pre ++ ms))) (Z.of_nat (length pre)) (length ms)
  = Returns (map (fun m => unpack (pack m)) ms).
Proof.
  induction ms as [| m ms IH]; intros pre Hall; [reflexivity |].
  apply Forall_cons in Hall as [Hm Hall].
  cbn [length load_moves].
  rewrite (proj2 (Z.ltb_lt _ _)) by (rewrite length_app; cbn [length]; lia).
  unfold Json.at_index.
  rewrite (proj2 (Z.ltb_ge _ _)) by lia.
  rewrite Nat2Z.id, list_lookup_fmap, lookup_app_r by lia.
  rewrite Nat.sub_diag.
  cbn [lookup list_lookup fmap option_fmap option_map default].
  unfold id. cbn [mbind outcome_bind bind mret outcome_ret Json.asInt].
  rewrite (pack_in_range m Hm). cbn [mbind outcome_bind bind mret outcome_ret].
  specialize (IH (pre ++ [m]) Hall).
  rewrite <- app_assoc in IH. cbn [app] in IH.
  rewrite (length_app pre [m]) in IH. cbn [length] in IH.
  replace (Z.of_nat (length pre) + 1) with (Z.of_nat (length pre + 1)) by lia.
  rewrite IH. reflexivity.
Qed.

Lemma string2ResultType_resultType2String rt :
  string2ResultType (resultType2String rt) = rt.
Proof. destruct rt; reflexivity. Qed.

(** The members of the object [saveToJson] writes. *)
Lemma saved_members (r : MatchRecord) :
  Json.member (saveToJson r) "players"
    = Returns (Json.JArray [Json.JString (playernameW r); Json.JString (playernameB r)]) /\
  Json.member (saveToJson r) "result"
    = Returns (Json.JString (resultType2String (resultType r))) /\
  Json.member (saveToJson r) "gameIdx" = Returns (Json.JInt (gameIdx r)) /\
  Json.member (saveToJson r) "round" = Returns (Json.JInt (round r)) /\
  Json.member (saveToJson r) "pairId" = Returns (Json.JInt (pairId r)) /\
  Json.isMember (saveToJson r) "startFen"
    = Returns (negb (String.eqb (startFen r) "")) /\
  (String.eqb (startFen r) "" = false ->
   Json.member (saveToJson r) "startFen" = Returns (Json.JString (startFen r))) /\
  Json.isMember (saveToJson r) "startMoves"
    = Returns (match startMoves r with [] => false | _ => true end) /\
  (startMoves r <> [] ->
   Json.member (saveToJson r) "startMoves"
     = Returns (Json.JArray (map (fun m => Json.JInt (pack m)) (startMoves r)))).
Proof.
  destruct r as [nw nb fen ms st rt gi rd pid]. unfold saveToJson.
  cbn [playernameW playernameB startFen startMoves resultType gameIdx round pairId].
  destruct (String.eqb fen ""), ms as [| m0 ms'];
    repeat split; try reflexivity; intros H; try discriminate H; try contradiction;
    reflexivity.
Qed.

Lemma in_rangeb_of_range (x : Z) : Int32.in_range x -> Int32.in_rangeb x = true.
Proof.
  intros [H1 H2]. unfold Int32.in_rangeb.
  apply andb_true_intro. split; apply Z.leb_le; assumption.
Qed.

(** The opening of a saved record, as [load] reads it. *)
Lemma saved_moves_loaded (r : MatchRecord) :
  Forall byteMove (startMoves r) ->
  Z.of_nat (length (startMoves r)) <= Int32.max_int ->
  (if match startMoves r with [] => false | _ => true end
   then marr ← Json.member (saveToJson r) "startMoves";
        load_moves marr (Int32.wrap (Z.of_nat (Json.size marr))) 0 (Json.size marr)
   else mret [])
  = Returns (map exchanged (startMoves r)).
Proof.
  intros Hms Hlen.
  destruct (saved_members r) as (_ & _ & _ & _ & _ & _ & _ & _ & M9).
  destruct (startMoves r) as [| m0 ms'] eqn:Ems; [reflexivity |].
  rewrite M9 by discriminate.
  cbn [mbind outcome_bind bind mret outcome_ret Json.size].
  rewrite length_map.
  rewrite Int32Facts.wrap_id
    by (unfold Int32.in_range, Int32.min_int, Int32.max_int in *; lia).
  pose proof (load_moves_saved (m0 :: ms') [] Hms) as E.
  cbn [app] in E. change (Z.of_nat (length (@nil Move))) with 0 in E. rewrite E.
  f_equal. apply map_ext_Forall. eapply Forall_impl; [exact Hms |].
  intros m Hm. apply unpack_pack_exchanges. exact Hm.
Qed.

(** [load] into a fresh record on what [saveToJson] wrote. *)
Lemma load_saved_record (r : MatchRecord) :
  Int32.in_range (gameIdx r) -> Int32.in_range (round r) -> Int32.in_range (pairId r) ->
  Forall byteMove (startMoves r) ->
  Z.of_nat (length (startMoves r)) <= Int32.max_int ->
  Records.load MatchRecord_default (saveToJson r) = Returns (true, reloaded r).
Proof.
  intros Hg Hr Hp Hms Hlen.
  destruct (saved_members r) as (M1 & M2 & M3 & M4 & M5 & M6 & M7 & M8 & M9).
  unfold Records.load.
  rewrite M1, M2, M3, M4, M5, M6, M8.
  cbn [mbind outcome_bind bind mret outcome_ret Json.at_index Json.asString
       Json.asInt Z.ltb Z.compare Z.to_nat lookup list_lookup default Pos.to_nat
       Pos.iter_op Nat.add].
  rewrite (in_rangeb_of_range _ Hg), (in_rangeb_of_range _ Hr), (in_rangeb_of_range _ Hp).
  rewrite string2ResultType_resultType2String.
  rewrite (saved_moves_loaded r Hms Hlen).
  destruct (String.eqb_spec (startFen r) "") as [E | E]; cbn [negb].
  - cbn [mbind outcome_bind bind mret outcome_ret].
    unfold reloaded. rewrite E. destruct (resultType r); reflexivity.
  - rewrite M7 by reflexivity.
    cbn [mbind outcome_bind bind mret outcome_ret Json.asString].
    unfold reloaded. destruct (resultType r); reflexivity.
Qed.

(** A record that is saved with [saveToJson] and loaded with [load] comes
    back with its names, result and the three integers; its state is set
    from the result (a record that was playing or in error comes back
    waiting); each opening move comes back with origin and destination
    exchanged; the start position is the saved one, and a record saved
    without start position leaves that of the record loaded into as it
    was, while the opening moves of that record are dropped. *)
Theorem save_load_record (self r : MatchRecord) :
  Int32.in_range (gameIdx r) -> Int32.in_range (round r) -> Int32.in_range (pairId r) ->
  Forall byteMove (startMoves r) ->
  Z.of_nat (length (startMoves r)) <= Int32.max_int ->
  Records.load self (saveToJson r) = Returns (true, reloadedInto self r).
Proof.
  intros Hg Hr Hp Hms Hlen.
  destruct (saved_members r) as (M1 & M2 & M3 & M4 & M5 & M6 & M7 & M8 & M9).
  unfold Records.load.
  rewrite M1, M2, M3, M4, M5, M6, M8.
  cbn [mbind outcome_bind bind mret outcome_ret Json.at_index Json.asString
       Json.asInt Z.ltb Z.compare Z.to_nat lookup list_lookup default Pos.to_nat
       Pos.iter_op Nat.add].
  rewrite (in_rangeb_of_range _ Hg), (in_rangeb_of_range _ Hr), (in_rangeb_of_range _ Hp).
  rewrite string2ResultType_resultType2String.
  rewrite (saved_moves_loaded r Hms Hlen).
  unfold reloadedInto.
  destruct (String.eqb (startFen r) "") eqn:E; cbn [negb].
  - cbn [mbind outcome_bind bind mret outcome_ret].
    destruct (resultType r); reflexivity.
  - rewrite M7 by reflexivity.
    cbn [mbind outcome_bind bind mret outcome_ret Json.asString].
    destruct (resultType r); reflexivity.
Qed.

(** The theorem on a record that was being played when it was saved. *)
Lemma save_load_record_witness :
  Records.load MatchRecord_default (saveToJson sample_playing_record)
  = Returns (true,
      mkMatchRecord "A" "B" "8/8/8/8/8/8/8/8 w - - 0 1"
        [mkMove 28 12 0; mkMove 36 52 0] MatchState.none noresult 4 1 77).
Proof.
  apply (save_load_record MatchRecord_default sample_playing_record).
  - vm_compute. split; discriminate.
  - vm_compute. split; discriminate.
  - vm_compute. split; discriminate.
  - repeat constructor; vm_compute; congruence.
  - vm_compute. discriminate.
Defined.

End RoundTripFacts.

(** ** Declining to resume *)

Module DeclineFacts.

Import Chess Moves Records Outcome Tournament Notions.

Section Decline.

Context {Pool Engine : Type} `{!Collaborators Pool Engine}.

(** Whenever [loadMatchRecords] answers [false] (not resumable, no
    readable file, no uncompleted record in the file, or the answer "n" or
    "no"), it leaves the manager as it was: the records, the type and the
    elapsed time are taken from the file only on the way to resuming. *)
Theorem load_declined_unchanged (autoYesReply : bool) (file : option Json.Value)
    (lines : list string) (t t' : TourMng Pool Engine) :
  loadMatchRecords autoYesReply file lines t = Returns (false, t') -> t' = t.
Proof.
  unfold loadMatchRecords. intros H.
  destruct (negb (resumable t)); [injection H as <-; reflexivity |].
  destruct file as [d |]; [| injection H as <-; reflexivity].
  ResumeFacts.returned H.
  cbn [mbind outcome_bind bind mret outcome_ret] in H.
  destruct (_ =? 0) in H; [injection H as <-; reflexivity |].
  ResumeFacts.returned H.
  cbn [mbind outcome_bind bind mret outcome_ret] in H.
  match type of H with
  | (if negb ?b then _ else _) = _ => destruct b; cbn [negb] in H
  end; [| injection H as <-; reflexivity].
  ResumeFacts.returned H.
  all: cbn [mbind outcome_bind bind mret outcome_ret] in H; discriminate H.
Qed.

End Decline.

(** The theorem on the sample file, with the answers "", "maybe", "no". *)
Lemma load_declined_unchanged_witness :
  exists t',
    loadMatchRecords false (Some Samples.sample_file) [""; "maybe"; "no"]%string
      (Samples.sample_mng TourType.knockout 2 2) = Returns (false, t') /\
    t' = Samples.sample_mng TourType.knockout 2 2.
Proof.
  eexists. split; [vm_compute; reflexivity |].
  apply (load_declined_unchanged false (Some Samples.sample_file)
           [""; "maybe"; "no"]%string).
  vm_compute. reflexivity.
Defined.

End DeclineFacts.

(** ** More on the standings *)

Module StandingsMore.

Import Chess Records Standings StandingsNotions.

(** [TourPlayer::smaller] is a strict weak ordering, as [std::sort]
    requires of its comparison: irreflexive, asymmetric, transitive, and
    with a transitive "neither is smaller". *)
Theorem smaller_strict_weak_order :
  (forall a, smaller a a = false) /\
  (forall a b, smaller a b = true -> smaller b a = false) /\
  (forall a b c, smaller a b = true -> smaller b c = true -> smaller a c = true) /\
  (forall a b c,
      smaller a b = false -> smaller b a = false ->
      smaller b c = false -> smaller c b = false ->
      smaller a c = false /\ smaller c a = false).
Proof.
  assert (Hf : forall a b, smaller a b = false <-> ~ (smaller a b = true))
    by (intros a b; destruct (smaller a b); split; congruence).
  repeat split.
  - intros a. apply Hf. rewrite StandingsFacts.smaller_spec. lia.
  - intros a b H. apply Hf. rewrite StandingsFacts.smaller_spec in *. lia.
  - intros a b c H1 H2. rewrite StandingsFacts.smaller_spec in *. lia.
  - apply Hf. rewrite !Hf, !StandingsFacts.smaller_spec in *. lia.
  - apply Hf. rewrite !Hf, !StandingsFacts.smaller_spec in *. lia.
Qed.

(** Every entry of the map sits under its own name. *)
Lemma addSide_names m sd resultMap :
  (forall nm r, resultMap !! nm = Some r -> name r = nm) ->
  forall nm r, addSide m sd resultMap !! nm = Some r -> name r = nm.
Proof.
  intros Hn nm r. unfold addSide.
  destruct (String.eqb (playernames m sd) ""); [apply Hn |].
  destruct (decide (nm = playernames m sd)) as [-> | Hne].
  - rewrite lookup_insert_eq. intros [= <-].
    destruct (resultMap !! playernames m sd) as [r0 |] eqn:E0;
      [apply Hn in E0 |];
      destruct (resultType m); repeat case_decide; cbn; congruence.
  - rewrite lookup_insert_ne by congruence. apply Hn.
Qed.

Lemma addSide_dom m sd resultMap nm :
  is_Some (addSide m sd resultMap !! nm) <->
  is_Some (resultMap !! nm) \/ (nm = playernames m sd /\ nm <> ""%string).
Proof.
  unfold addSide.
  destruct (String.eqb_spec (playernames m sd) "") as [E | E].
  - split; [auto | intros [H | [-> H]]; [exact H | contradiction]].
  - destruct (decide (nm = playernames m sd)) as [-> | Hne].
    + rewrite lookup_insert_eq. split; [auto | intros _; eexists; reflexivity].
    + rewrite lookup_insert_ne by congruence.
      split; [auto | intros [H | [H _]]; [exact H | contradiction]].
Qed.

Lemma foldl_addRecord_names recs : forall resultMap,
  (forall nm r, resultMap !! nm = Some r -> name r = nm) ->
  forall nm r, foldl addRecord resultMap recs !! nm = Some r -> name r = nm.
Proof.
  induction recs as [| m recs IH]; intros resultMap Hn; [exact Hn |].
  cbn [foldl]. apply IH. unfold addRecord.
  destruct (decide (resultType m = noresult)); [exact Hn |].
  apply addSide_names, addSide_names, Hn.
Qed.

Lemma foldl_addRecord_dom recs : forall resultMap nm,
  is_Some (foldl addRecord resultMap recs !! nm) <->
  is_Some (resultMap !! nm)
  \/ (nm <> ""%string /\
      exists m sd, m ∈ recs /\ resultType m <> noresult /\ playernames m sd = nm).
Proof.
  induction recs as [| m recs IH]; intros resultMap nm; cbn [foldl].
  - split; [auto |]. intros [H | (_ & m & sd & Hin & _)]; [exact H |].
    apply not_elem_of_nil in Hin. contradiction.
  - rewrite IH. unfold addRecord.
    destruct (decide (resultType m = noresult)) as [Hno | Hyes].
    + split.
      * intros [H | (Hne & m' & sd & Hin & Hrt & Hnm)]; [auto |].
        right. split; [exact Hne |]. exists m', sd.
        split; [apply elem_of_cons; auto | auto].
      * intros [H | (Hne & m' & sd & Hin & Hrt & Hnm)]; [auto |].
        apply elem_of_cons in Hin as [-> | Hin]; [contradiction |].
        right. split; [exact Hne |]. exists m', sd. auto.
    + rewrite !addSide_dom. split.
      * intros [[[H | [-> Hne]] | [-> Hne]] | (Hne & m' & sd & Hin & Hrt & Hnm)].
        -- auto.
        -- right. split; [exact Hne |]. exists m, white.
           split; [apply elem_of_cons; auto | auto].
        -- right. split; [exact Hne |]. exists m, black.
           split; [apply elem_of_cons; auto | auto].
        -- right. split; [exact Hne |]. exists m', sd.
           split; [apply elem_of_cons; auto | auto].
      * intros [H | (Hne & m' & sd & Hin & Hrt & Hnm)]; [auto |].
        apply elem_of_cons in Hin as [-> | Hin].
        -- left. destruct sd; [left; right | right]; auto.
        -- right. split; [exact Hne |]. exists m', sd. auto.
Qed.

(** The table has exactly one row for every name that is not empty and
    stands in a record with a result, and no other row: a record without
    result adds nothing, and the empty name of a bye never gets a row. *)
Theorem standings_rows (recs : list MatchRecord) :
  NoDup (map name (createTournamentStats recs)) /\
  forall nm,
    nm ∈ map name (createTournamentStats recs) <->
    nm <> ""%string /\
    exists m sd, m ∈ recs /\ resultType m <> noresult /\ playernames m sd = nm.
Proof.
  assert (Hnames : forall nm r, resultMapOf recs !! nm = Some r -> name r = nm).
  { apply foldl_addRecord_names. intros nm r Hr. rewrite lookup_empty in Hr.
    discriminate Hr. }
  assert (Hperm : Permutation (map name (createTournamentStats recs))
                              (map fst (map_to_list (resultMapOf recs)))).
  { unfold createTournamentStats.
    rewrite <- (StdFacts.sort_perm rank_before).
    rewrite StdFacts.string_map_entries_perm.
    rewrite map_map.
    apply Permutation_refl'. apply map_ext_Forall. apply Forall_forall.
    intros [nm r] Hin. apply elem_of_map_to_list in Hin. cbn.
    apply Hnames. exact Hin. }
  split.
  - rewrite Hperm. apply NoDup_fst_map_to_list.
  - intros nm. rewrite Hperm.
    rewrite list_elem_of_fmap.
    transitivity (is_Some (resultMapOf recs !! nm)).
    + split.
      * intros ([k r] & -> & Hin). apply elem_of_map_to_list in Hin.
        cbn. eexists. exact Hin.
      * intros [r Hr]. exists (nm, r). split; [reflexivity |].
        apply elem_of_map_to_list. exact Hr.
    + unfold resultMapOf. rewrite foldl_addRecord_dom, lookup_empty.
      split; [intros [[x Hx] | H]; [discriminate Hx | exact H] | auto].
Qed.

End StandingsMore.

(** ** More on the manager *)

Module ManagerFacts.

Import Chess Moves Records Standings Tournament SchedulerNotions KnockoutNotions
       ManagerNotions.

Section Manager.

Context {Pool Engine : Type} `{!Collaborators Pool Engine}.

#[local] Abbreviation Mng := (TourMng Pool Engine).

(** The cases of [createMatch]. *)
Lemma createMatch_cases (record : MatchRecord) (t : Mng) :
  fst (createMatch record t)
    = with_state (Records.state (fst (createMatch record t))) record /\
  matchRecordList (snd (createMatch record t)) = matchRecordList t /\
  ((Records.state (fst (createMatch record t)) = MatchState.playing /\
    Records.isValid record = true /\
    exists eW eB,
      gameList (snd (createMatch record t))
      = gameList t ++ [mkGame (gameIdx record) GameState.begin noresult (Some eW) (Some eB)])
   \/ (Records.state (fst (createMatch record t)) = MatchState.error /\
       gameList (snd (createMatch record t)) = gameList t)).
Proof.
  unfold createMatch, createMatch_engines.
  destruct (Records.isValid record) eqn:Hv; cbn [negb].
  - destruct (createEngine (playerMng t) _) as [eW pool].
    destruct (createEngine pool _) as [eB pool'].
    destruct eW as [eW |], eB as [eB |]; cbn;
      (split; [reflexivity |]); (split; [reflexivity |]);
      try (right; split; reflexivity).
    left. split; [reflexivity |]. split; [reflexivity |]. eauto.
  - cbn. split; [reflexivity |]. split; [reflexivity |].
    right; split; reflexivity.
Qed.

(** [createMatch] changes the record in its state only, and leaves it
    playing or in error, never waiting.  It is playing exactly when one
    driver, in state [begin] and numbered with the record's [gameIdx], was
    added at the end of [gameList]; in error the games are as before.  A
    record that lacks a name is set in error without the pool being asked
    for an engine. *)
Theorem createMatch_outcome (record : MatchRecord) (t : Mng) :
  fst (createMatch record t)
    = with_state (Records.state (fst (createMatch record t))) record /\
  matchRecordList (snd (createMatch record t)) = matchRecordList t /\
  ((Records.state (fst (createMatch record t)) = MatchState.playing /\
    Records.isValid record = true /\
    exists eW eB,
      gameList (snd (createMatch record t))
      = gameList t ++ [mkGame (gameIdx record) GameState.begin noresult (Some eW) (Some eB)])
   \/ (Records.state (fst (createMatch record t)) = MatchState.error /\
       gameList (snd (createMatch record t)) = gameList t)) /\
  (Records.isValid record = false -> snd (createMatch record t) = t).
Proof.
  destruct (createMatch_cases record t) as (Hrec & Hrecs & Hgames).
  split; [exact Hrec |]. split; [exact Hrecs |]. split; [exact Hgames |].
  intros Hv. unfold createMatch. rewrite Hv. reflexivity.
Qed.

(** With nothing waiting, the loop of [playMatches] does nothing. *)
Lemma playMatches_loop_idle recs : forall (t : Mng),
  Forall (fun r => Records.state r <> MatchState.none) recs ->
  playMatches_loop recs t = (recs, t).
Proof.
  induction recs as [| m recs IH]; intros t Hall; cbn [playMatches_loop];
    [reflexivity |].
  apply Forall_cons in Hall as [Hm Hall].
  rewrite decide_True by exact Hm. rewrite (IH t Hall). reflexivity.
Qed.

(** A round-robin tournament ends when nothing is left to do: with no
    record waiting and no game running (and a concurrency of at least 1),
    [playMatches] finishes the tournament and keeps the records. *)
Theorem roundrobin_finishes (t : Mng) :
  type t = TourType.roundrobin ->
  1 <= gameConcurrency t <= Int32.max_int ->
  gameList t = [] ->
  Forall (fun r => Records.state r <> MatchState.none) (matchRecordList t) ->
  state (playMatches t) = TourState.done /\
  matchRecordList (playMatches t) = matchRecordList t.
Proof.
  intros Hty Hconc Hgames Hall. unfold playMatches.
  destruct (matchRecordList t) as [| m0 recs0] eqn:Hrecs;
    [split; [reflexivity | exact Hrecs] |].
  assert (Hcap : atCapacity t = false).
  { unfold atCapacity. rewrite Hgames, Int32Facts.to_size_t_id
      by (unfold Int32.max_int in Hconc; lia).
    cbn [length]. rewrite Z.geb_leb. apply Z.leb_gt. lia. }
  rewrite Hcap, (playMatches_loop_idle _ t Hall).
  cbn [set_matchRecordList gameList]. rewrite Hgames.
  unfold createNextRoundMatches. cbn [set_matchRecordList type]. rewrite Hty.
  cbn. split; reflexivity.
Qed.

(** [getLastRound] is the largest round among the records, and 0 when
    there is no record or no round above 0. *)
Theorem getLastRound_is_max (recs : list MatchRecord) :
  0 <= getLastRound recs /\
  (forall r, r ∈ recs -> round r <= getLastRound recs) /\
  (getLastRound recs = 0 \/ exists r, r ∈ recs /\ round r = getLastRound recs).
Proof.
  unfold getLastRound.
  assert (H : forall recs0 init,
            init <= foldl (fun lastRound r => Z.max lastRound (round r)) init recs0 /\
            (forall r, r ∈ recs0 ->
               round r <= foldl (fun lastRound r => Z.max lastRound (round r)) init recs0) /\
            (foldl (fun lastRound r => Z.max lastRound (round r)) init recs0 = init \/
             exists r, r ∈ recs0 /\
               round r = foldl (fun lastRound r => Z.max lastRound (round r)) init recs0)).
  { induction recs0 as [| r0 recs0 IH]; intros init; cbn [foldl].
    - split; [lia |]. split; [| left; reflexivity].
      intros r Hr. apply not_elem_of_nil in Hr. contradiction.
    - destruct (IH (Z.max init (round r0))) as (I1 & I2 & I3).
      split; [lia |]. split.
      + intros r Hr. apply elem_of_cons in Hr as [-> | Hr]; [lia | auto].
      + destruct I3 as [E | (r & Hr & E)].
        * destruct (Z.max_spec init (round r0)) as [[_ Hm] | [_ Hm]].
          -- right. exists r0. split; [apply list_elem_of_here | lia].
          -- left. lia.
        * right. exists r. split; [apply list_elem_of_further; exact Hr | exact E]. }
  destruct (H recs 0) as (H1 & H2 & H3). auto.
Qed.

End Manager.

(** The theorem on the sample manager whose games are over. *)
Lemma roundrobin_finishes_witness :
  state (playMatches sample_finished) = TourState.done /\
  matchRecordList (playMatches sample_finished) = matchRecordList sample_finished.
Proof.
  apply (roundrobin_finishes sample_finished).
  - reflexivity.
  - vm_compute. split; discriminate.
  - reflexivity.
  - repeat constructor; discriminate.
Defined.

End ManagerFacts.

(** ** The records over the life of a tournament *)

Module RecordFacts.

Import Chess Moves Records Standings Tournament SchedulerNotions KnockoutNotions
       PairingNotions ManagerNotions.

Lemma continues_refl recs : continues recs recs.
Proof.
  split; [lia |]. split.
  - intros i r r' H1 H2. congruence.
  - intros i r' Hi Hr. apply lookup_lt_Some in Hr. lia.
Qed.

Lemma continues_trans l1 l2 l3 : continues l1 l2 -> continues l2 l3 -> continues l1 l3.
Proof.
  intros (A1 & A2 & A3) (B1 & B2 & B3). split; [lia |]. split.
  - intros i r r' H1 H3.
    destruct (l2 !! i) as [r2 |] eqn:E2.
    + rewrite (B2 i r2 r' E2 H3). exact (A2 i r r2 H1 E2).
    + apply lookup_ge_None in E2. apply lookup_lt_Some in H1. lia.
  - intros i r' Hi H3.
    destruct (l2 !! i) as [r2 |] eqn:E2.
    + rewrite (B2 i r2 r' E2 H3). exact (A3 i r2 Hi E2).
    + apply lookup_ge_None in E2. exact (B3 i r' E2 H3).
Qed.

Lemma continues_app_one recs r :
  gameIdx r = Int32.wrap (Z.of_nat (length recs)) -> continues recs (recs ++ [r]).
Proof.
  intros Hr. split; [rewrite length_app; lia |]. split.
  - intros i r1 r2 H1 H2. rewrite lookup_app_l in H2 by (eapply lookup_lt_Some; eauto).
    congruence.
  - intros i r' Hi Hl. rewrite lookup_app_r in Hl by lia.
    destruct (i - length recs)%nat as [| k] eqn:Ek; [| destruct k; discriminate Hl].
    injection Hl as <-. rewrite Hr. f_equal. lia.
Qed.

(** Records of the same length that agree on every [gameIdx]. *)
Lemma continues_same_idx recs recs' :
  Forall2 (fun r r' => gameIdx r' = gameIdx r) recs recs' -> continues recs recs'.
Proof.
  intros HF. pose proof (Forall2_length _ _ _ HF) as Hlen.
  split; [lia |]. split.
  - intros i r r' H1 H2. exact (Forall2_lookup_lr _ _ _ _ _ _ HF H1 H2).
  - intros i r' Hi Hl. apply lookup_lt_Some in Hl. lia.
Qed.

(** With fewer than [2^31] records, positions numbered by [continues]
    from the empty schedule on are the positions themselves. *)
Lemma continues_indexed recs recs' :
  indexed recs -> continues recs recs' ->
  Z.of_nat (length recs') <= Int32.max_int -> indexed recs'.
Proof.
  intros Hidx (C1 & C2 & C3) Hlen i r' Hr'.
  pose proof (lookup_lt_Some _ _ _ Hr') as Hi.
  destruct (recs !! i) as [r |] eqn:E.
  - rewrite (C2 i r r' E Hr'). apply Hidx. exact E.
  - apply lookup_ge_None in E. rewrite (C3 i r' E Hr').
    apply Int32Facts.wrap_id.
    unfold Int32.in_range, Int32.min_int, Int32.max_int in *. lia.
Qed.

Section Records.

Context {Pool Engine : Type} `{!Collaborators Pool Engine}.

#[local] Abbreviation Mng := (TourMng Pool Engine).

Lemma addMatchRecord_simple_continues record (t : Mng) :
  continues (matchRecordList t) (matchRecordList (snd (addMatchRecord_simple record t))).
Proof.
  unfold addMatchRecord_simple.
  destruct (getRandomBook _ _ _) as [[fen moves] cnt]. cbn.
  apply continues_app_one. reflexivity.
Qed.

Lemma addMatchRecord_loop_continues n : forall record (t : Mng),
  continues (matchRecordList t) (matchRecordList (snd (addMatchRecord_loop n record t))).
Proof.
  induction n as [| n IH]; intros record t; cbn [addMatchRecord_loop].
  - apply continues_refl.
  - pose proof (addMatchRecord_simple_continues record t) as H1.
    destruct (addMatchRecord_simple record t) as [record' t1]. cbn [snd] in H1.
    eapply continues_trans; [exact H1 | apply IH].
Qed.

Lemma addMatchRecord_continues record (t : Mng) :
  continues (matchRecordList t) (matchRecordList (snd (addMatchRecord record t))).
Proof.
  unfold addMatchRecord. cbn [std_rand].
  exact (addMatchRecord_loop_continues _ _ (set_randCnt (S (randCnt t)) t)).
Qed.

Lemma drawLucky_records n luckSet : forall playerVec (t : Mng),
  matchRecordList (snd (drawLucky n luckSet playerVec t)) = matchRecordList t.
Proof.
  induction n as [| n IH]; intros playerVec t; cbn [drawLucky std_rand];
    [reflexivity |].
  destruct (playerVec !! _) as [p |]; [destruct (decide (name p ∈ luckSet)) |];
    try rewrite IH; reflexivity.
Qed.

Lemma pairUp_continues todo : forall i n playerVec round (t : Mng),
  continues (matchRecordList t)
            (matchRecordList (snd (pairUp todo i n playerVec round t))).
Proof.
  induction todo as [| todo IH]; intros i n playerVec round t;
    cbn [pairUp std_rand].
  - apply continues_refl.
  - match goal with
    | |- context [addMatchRecord ?r ?t0] =>
        pose proof (addMatchRecord_continues r t0) as H1;
        destruct (addMatchRecord r t0) as [r1 t1]
    end.
    cbn [snd] in H1.
    specialize (IH (S i) n playerVec round t1).
    destruct (pairUp todo (S i) n playerVec round t1) as [addCnt t2].
    cbn [snd] in *. eapply continues_trans; [exact H1 | exact IH].
Qed.

Lemma createKnockoutMatchList_continues playerVec round (t : Mng) :
  continues (matchRecordList t)
            (matchRecordList (snd (createKnockoutMatchList playerVec round t))).
Proof.
  unfold createKnockoutMatchList.
  destruct (length playerVec <? 2)%nat; [apply continues_refl |].
  destruct (Nat.odd (length playerVec)).
  - pose proof (drawLucky_records 10 (luckSetOf (matchRecordList t)) playerVec t) as H1.
    destruct (drawLucky 10 _ playerVec t) as [drawn t1]. cbn [snd] in H1.
    destruct (match drawn with Some _ => _ | None => _ end) as [luckPlayer vec].
    cbn [std_rand].
    match goal with
    | |- context [addMatchRecord_simple ?r ?t0] =>
        pose proof (addMatchRecord_simple_continues r t0) as H2;
        destruct (addMatchRecord_simple r t0) as [r1 t2]
    end.
    cbn [snd set_randCnt matchRecordList] in *.
    match goal with
    | |- context [pairUp ?a ?b ?c ?d ?e ?t0] =>
        pose proof (pairUp_continues a b c d e t0) as H3;
        destruct (pairUp a b c d e t0) as [addCnt t3]
    end.
    cbn [snd] in *. rewrite H1 in H2.
    eapply continues_trans; [exact H2 | exact H3].
  - match goal with
    | |- context [pairUp ?a ?b ?c ?d ?e ?t0] =>
        pose proof (pairUp_continues a b c d e t0) as H3;
        destruct (pairUp a b c d e t0) as [addCnt t3]
    end.
    exact H3.
Qed.

Lemma createNextRoundMatches_continues (t : Mng) :
  continues (matchRecordList t) (matchRecordList (snd (createNextRoundMatches t))).
Proof.
  unfold createNextRoundMatches, createNextKnockoutMatchList.
  destruct (type t); try apply continues_refl.
  apply createKnockoutMatchList_continues.
Qed.

(** The early [return] of the inner loop of [checkToExtendMatches] is
    taken exactly when a record of the pair id is not completed. *)
Lemma tallyPair_completed pid recs : forall playerPair,
  is_Some (tallyPair pid recs playerPair) <->
  Forall (fun rcd => Records.state rcd = MatchState.completed) (pairGroup pid recs).
Proof.
  unfold pairGroup.
  induction recs as [| rcd recs IH]; intros playerPair; cbn [tallyPair].
  - split; [constructor | eauto].
  - rewrite filter_cons.
    destruct (decide (pairId rcd <> pid)) as [Hne | He].
    + rewrite (decide_False (P := pairId rcd = pid)) by exact Hne. apply IH.
    + apply dec_stable in He.
      rewrite (decide_True (P := pairId rcd = pid)) by exact He.
      rewrite Forall_cons.
      destruct (decide (Records.state rcd <> MatchState.completed)) as [Hs | Hs].
      * split; [intros [x Hx]; discriminate Hx | intros [Hc _]; contradiction].
      * apply dec_stable in Hs.
        destruct (decide (resultType rcd <> win /\ resultType rcd <> loss));
          rewrite IH; tauto.
Qed.

(** [checkToExtendMatches] adds nothing, or one record numbered with its
    position, and that in a knockout only. *)
Lemma extension_cases (gIdx : Z) (t : Mng) :
  matchRecordList (checkToExtendMatches gIdx t) = matchRecordList t
  \/ (type t = TourType.knockout /\
      exists ext,
        matchRecordList (checkToExtendMatches gIdx t) = matchRecordList t ++ [ext] /\
        gameIdx ext = Int32.wrap (Z.of_nat (length (matchRecordList t)))).
Proof.
  unfold checkToExtendMatches.
  destruct (decide (type t <> TourType.knockout)) as [Hty | Hty]; [left; reflexivity |].
  apply dec_stable in Hty.
  destruct (gIdx <? 0); [left; reflexivity |].
  destruct (List.find _ (matchRecordList t)) as [r |]; [| left; reflexivity].
  destruct (tallyPair (pairId r) (matchRecordList t) (pair_of_record r))
    as [playerPair |]; [| left; reflexivity].
  destruct (isTie playerPair); [| left; reflexivity].
  right. split; [exact Hty |].
  unfold addMatchRecord_simple.
  destruct (getRandomBook _ _ _) as [[fen moves] cnt]. cbn [snd].
  eexists. split; reflexivity.
Qed.

Lemma checkToExtendMatches_continues gIdx (t : Mng) :
  continues (matchRecordList t) (matchRecordList (checkToExtendMatches gIdx t)).
Proof.
  destruct (extension_cases gIdx t)
    as [-> | (_ & ext & -> & Hidx)].
  - apply continues_refl.
  - apply continues_app_one. exact Hidx.
Qed.

(** [matchCompleted] for a driver whose board number is a position of the
    schedule: the record there becomes completed with the driver's result,
    no other record changes, and at most one record is added at the end,
    none unless the tournament is a knockout. *)
Theorem matchCompleted_records (game : Game Engine) (t : Mng) (r : MatchRecord) :
  0 <= idx game ->
  matchRecordList t !! Z.to_nat (idx game) = Some r ->
  exists ext,
    matchRecordList (matchCompleted game t)
      = <[Z.to_nat (idx game) :=
            with_resultType (gresult game) (with_state MatchState.completed r)]>
          (matchRecordList t) ++ ext /\
    (length ext <= 1)%nat /\
    (type t <> TourType.knockout -> ext = []).
Proof.
  intros Hpos Hr. unfold matchCompleted.
  pose proof (lookup_lt_Some _ _ _ Hr) as Hlt.
  rewrite (proj2 (Z.leb_le _ _) Hpos).
  rewrite (proj2 (Z.ltb_lt _ _)) by lia. cbn [andb].
  set (t1 := set_matchRecordList _ t).
  assert (Hrecs1 : matchRecordList t1
                   = <[Z.to_nat (idx game) :=
                         with_resultType (gresult game)
                           (with_state MatchState.completed r)]> (matchRecordList t)).
  { subst t1. cbn [set_matchRecordList matchRecordList].
    apply list_eq. intros i.
    rewrite list_lookup_alter.
    destruct (decide (Z.to_nat (idx game) = i)) as [<- | Hne].
    - rewrite Hr, list_lookup_insert_eq by exact Hlt. reflexivity.
    - rewrite list_lookup_insert_ne by congruence. reflexivity. }
  destruct (extension_cases (idx game) t1)
    as [E | (Hty & ext & E & _)].
  - exists []. rewrite app_nil_r, E, Hrecs1. split; [reflexivity |].
    split; [cbn; lia | reflexivity].
  - exists [ext]. rewrite E, Hrecs1. split; [reflexivity |].
    split; [cbn; lia |]. intros Hk. exfalso. apply Hk. exact Hty.
Qed.

End Records.

(** The theorem for the only game of a knockout pair, drawn: the record
    at position 0 is completed as a draw, and one record follows it. *)
Lemma matchCompleted_records_witness :
  exists ext,
    matchRecordList
      (matchCompleted (mkGame 0 GameState.stopped draw None None)
                      (KnockoutNotions.knockout_mng
                         [mkMatchRecord "X" "Y" "" [] MatchState.playing noresult 0 0 7]))
    = [mkMatchRecord "X" "Y" "" [] MatchState.completed draw 0 0 7] ++ ext /\
    (length ext <= 1)%nat.
Proof.
  destruct (matchCompleted_records
              (mkGame 0 GameState.stopped draw None None)
              (KnockoutNotions.knockout_mng
                 [mkMatchRecord "X" "Y" "" [] MatchState.playing noresult 0 0 7])
              (mkMatchRecord "X" "Y" "" [] MatchState.playing noresult 0 0 7)
              ltac:(cbn; lia) eq_refl) as (ext & E & Hlen & _).
  exists ext. split; [exact E | exact Hlen].
Defined.

End RecordFacts.

(** ** Invariants over the ticks *)

Module LifeFacts.

Import Chess Moves Records Standings Tournament SchedulerNotions KnockoutNotions
       PairingNotions ManagerNotions RecordFacts.

Lemma continues_alter (f : MatchRecord -> MatchRecord) i recs :
  (forall r, gameIdx (f r) = gameIdx r) -> continues recs (alter f i recs).
Proof.
  intros Hf. split; [rewrite length_alter; lia |]. split.
  - intros k r r' H1 H2. rewrite list_lookup_alter in H2.
    destruct (decide (i = k));
      [subst k; rewrite H1 in H2; cbn in H2; injection H2 as <-; apply Hf | congruence].
  - intros k r' Hk Hl. apply lookup_lt_Some in Hl. rewrite length_alter in Hl. lia.
Qed.

Section Life.

Context {Pool Engine : Type} `{!Collaborators Pool Engine}.

#[local] Abbreviation Mng := (TourMng Pool Engine).

Lemma matchCompleted_continues game (t : Mng) :
  continues (matchRecordList t) (matchRecordList (matchCompleted game t)).
Proof.
  unfold matchCompleted.
  eapply continues_trans; [| apply checkToExtendMatches_continues].
  destruct (_ && _); [| apply continues_refl].
  cbn [set_matchRecordList matchRecordList].
  apply continues_alter. reflexivity.
Qed.

Lemma tickGames_continues tk games : forall (t : Mng),
  continues (matchRecordList t) (matchRecordList (snd (tickGames tk games t))).
Proof.
  induction games as [| g rest IH]; intros t; cbn [tickGames].
  - apply continues_refl.
  - destruct (decide (gstate (tk g) = GameState.stopped)).
    + pose proof (matchCompleted_continues (Game_setState GameState.ending (tk g)) t)
        as H1.
      specialize (IH (matchCompleted (Game_setState GameState.ending (tk g)) t)).
      destruct (tickGames tk rest _) as [rest' t']. cbn [snd] in *.
      eapply continues_trans; [exact H1 | exact IH].
    + specialize (IH t). destruct (tickGames tk rest t) as [rest' t']. exact IH.
Qed.

(** The loop of [playMatches] keeps the [gameIdx] of every record, leaves
    the manager's own list alone, and adds only drivers in state [begin]
    at the end of [gameList]. *)
Lemma playMatches_loop_effect recs : forall (t : Mng),
  Forall2 (fun r r' => gameIdx r' = gameIdx r) recs (fst (playMatches_loop recs t)) /\
  matchRecordList (snd (playMatches_loop recs t)) = matchRecordList t /\
  exists new,
    gameList (snd (playMatches_loop recs t)) = gameList t ++ new /\
    Forall (fun g => gstate g = GameState.begin) new.
Proof.
  induction recs as [| m rest IH]; intros t; cbn [playMatches_loop].
  - split; [constructor |]. split; [reflexivity |].
    exists []. rewrite app_nil_r. split; [reflexivity | constructor].
  - destruct (decide (Records.state m <> MatchState.none)).
    + destruct (IH t) as (I1 & I2 & new & I3 & I4).
      destruct (playMatches_loop rest t) as [rest' t']. cbn [fst snd] in *.
      split; [constructor; [reflexivity | exact I1] |]. split; [exact I2 |].
      exists new. split; assumption.
    + destruct (ManagerFacts.createMatch_cases m t) as (C1 & C2 & C3).
      destruct (createMatch m t) as [m' t1]. cbn [fst snd] in *.
      assert (Hidx : gameIdx m' = gameIdx m) by (rewrite C1; reflexivity).
      assert (Hnew1 : exists new1, gameList t1 = gameList t ++ new1 /\
                                   Forall (fun g => gstate g = GameState.begin) new1).
      { destruct C3 as [(_ & _ & eW & eB & ->) | (_ & ->)].
        - eexists. split; [reflexivity |]. repeat constructor.
        - exists []. rewrite app_nil_r. split; [reflexivity | constructor]. }
      destruct Hnew1 as (new1 & Hg1 & Hb1).
      destruct (atCapacity t1).
      * cbn [fst snd]. split.
        { constructor; [exact Hidx |]. clear. induction rest; constructor; auto. }
        split; [exact C2 |]. exists new1. split; assumption.
      * destruct (IH t1) as (I1 & I2 & new & I3 & I4).
        destruct (playMatches_loop rest t1) as [rest' t']. cbn [fst snd] in *.
        split; [constructor; [exact Hidx | exact I1] |].
        split; [congruence |].
        exists (new1 ++ new). rewrite I3, Hg1, <- app_assoc.
        split; [reflexivity | apply Forall_app; split; assumption].
Qed.

Lemma playMatches_effect (t : Mng) :
  continues (matchRecordList t) (matchRecordList (playMatches t)) /\
  exists new,
    gameList (playMatches t) = gameList t ++ new /\
    Forall (fun g => gstate g = GameState.begin) new.
Proof.
  unfold playMatches.
  assert (Hnone : exists new : list (Game Engine),
            gameList t = gameList t ++ new /\
            Forall (fun g => gstate g = GameState.begin) new).
  { exists []. rewrite app_nil_r. split; [reflexivity | constructor]. }
  destruct (matchRecordList t) as [| m0 recs0] eqn:Hrecs.
  { split; [cbn; rewrite Hrecs; apply continues_refl | exact Hnone]. }
  destruct (atCapacity t); [split; [rewrite Hrecs; apply continues_refl | exact Hnone] |].
  destruct (playMatches_loop_effect (m0 :: recs0) t) as (L1 & L2 & new & L3 & L4).
  destruct (playMatches_loop (m0 :: recs0) t) as [recs t1]. cbn [fst snd] in *.
  cbn [set_matchRecordList gameList].
  assert (Hc1 : continues (m0 :: recs0) recs) by (apply continues_same_idx; exact L1).
  destruct (gameList t1) as [| g gs] eqn:Hgames.
  - pose proof (createNextRoundMatches_continues (set_matchRecordList recs t1)) as Hc2.
    pose proof (SchedulerFacts.createNextRoundMatches_same (set_matchRecordList recs t1))
      as [Hg2 _].
    destruct (createNextRoundMatches (set_matchRecordList recs t1)) as [added t2].
    cbn [snd set_matchRecordList matchRecordList gameList] in Hc2, Hg2.
    assert (Hcont : continues (m0 :: recs0) (matchRecordList t2))
      by (eapply continues_trans; [exact Hc1 | exact Hc2]).
    destruct added; cbn; (split; [exact Hcont |]); exists new;
      (split; [congruence | exact L4]).
  - cbn. split; [exact Hc1 |]. exists new. split; [congruence | exact L4].
Qed.

Lemma tickWork_continues tk (t : Mng) :
  continues (matchRecordList t) (matchRecordList (tickWork tk t)).
Proof.
  unfold tickWork.
  pose proof (tickGames_continues tk (gameList (set_playerMng (pool_tick (playerMng t)) t))
                (set_playerMng (pool_tick (playerMng t)) t)) as H1.
  destruct (tickGames tk _ _) as [games t1]. cbn [snd set_playerMng matchRecordList] in H1.
  match goal with
  | |- context [set_gameList ?a ?b] => set (t2 := set_gameList a b)
  end.
  assert (H2 : matchRecordList t2 = matchRecordList t1) by reflexivity.
  destruct (decide (state t2 = TourState.playing)).
  - eapply continues_trans; [exact H1 |]. rewrite <- H2. apply playMatches_effect.
  - rewrite H2. exact H1.
Qed.

(** Every record keeps its [gameIdx] through the ticks, and every record
    added is numbered with its position: a schedule whose records carry
    their positions keeps that property (below [2^31] records).  This is
    what lets [matchCompleted] find the record of a driver at
    [matchRecordList[gIdx]]. *)
Theorem gameIdx_is_position_over_ticks
    (ticks : list (Game Engine -> Game Engine)) (t : Mng) :
  indexed (matchRecordList t) ->
  Z.of_nat (length (matchRecordList (run ticks t))) <= Int32.max_int ->
  indexed (matchRecordList (run ticks t)).
Proof.
  intros Hidx Hlen. eapply continues_indexed; [exact Hidx | | exact Hlen].
  clear. revert t. induction ticks as [| tk ticks IH]; intros t; cbn [run].
  - apply continues_refl.
  - destruct (decide (state t = TourState.done)); [apply continues_refl |].
    eapply continues_trans; [apply tickWork_continues | apply IH].
Qed.

End Life.

(** The theorem on the sample tournament over four ticks. *)
Lemma gameIdx_is_position_over_ticks_witness :
  indexed (matchRecordList
             (run [sample_tick; sample_tick; sample_tick; sample_tick]
                sample_tournament)).
Proof.
  apply (gameIdx_is_position_over_ticks
           [sample_tick; sample_tick; sample_tick; sample_tick] sample_tournament).
  - intros i r Hr. vm_compute in Hr.
    destruct i as [| [| [| i]]]; try discriminate Hr; injection Hr as <-; reflexivity.
  - vm_compute. discriminate.
Defined.

End LifeFacts.

(** ** Creating the schedule *)

Module CreationFacts.

Import Chess Moves Records Standings Tournament SchedulerNotions KnockoutNotions
       PairingNotions ManagerNotions SeedingNotions RecordFacts.

Section Creation.

Context {Pool Engine : Type} `{!Collaborators Pool Engine}.

#[local] Abbreviation Mng := (TourMng Pool Engine).

Lemma roundRobin_inner_continues name0 others : forall (t : Mng),
  continues (matchRecordList t)
            (matchRecordList (snd (roundRobin_inner name0 others t))).
Proof.
  induction others as [| name1 others IH]; intros t; cbn [roundRobin_inner].
  - apply continues_refl.
  - destruct (negb (isNameExistent name1)); [apply continues_refl |].
    cbn [std_rand].
    match goal with
    | |- context [addMatchRecord ?r ?t0] =>
        pose proof (addMatchRecord_continues r t0) as H1;
        destruct (addMatchRecord r t0) as [r1 t1]
    end.
    cbn [snd set_randCnt matchRecordList] in H1.
    eapply continues_trans; [exact H1 | apply IH].
Qed.

Lemma roundRobin_outer_continues names : forall (t : Mng),
  continues (matchRecordList t) (matchRecordList (snd (roundRobin_outer names t))).
Proof.
  induction names as [| name0 others IH]; intros t; [apply continues_refl |].
  destruct others as [| name1 others']; [apply continues_refl |].
  set (others := name1 :: others') in *.
  change (roundRobin_outer (name0 :: others) t)
    with (if negb (isNameExistent name0) then (Some name0, t)
          else match roundRobin_inner name0 others t with
               | (Some missingName, t) => (Some missingName, t)
               | (None, t) => roundRobin_outer others t
               end).
  destruct (negb (isNameExistent name0)); [apply continues_refl |].
  pose proof (roundRobin_inner_continues name0 others t) as H1.
  destruct (roundRobin_inner name0 others t) as [[missing |] t1]; cbn [snd] in *.
  - exact H1.
  - eapply continues_trans; [exact H1 | apply IH].
Qed.

(** Every record of a schedule that [createMatchList] has made, of either
    type, carries its position in the schedule as [gameIdx] (below [2^31]
    records). *)
Theorem created_records_numbered (nameList : list string) (tourType : TourType.t)
    (t : Mng) :
  Z.of_nat (length (matchRecordList (snd (createMatchList nameList tourType t))))
    <= Int32.max_int ->
  indexed (matchRecordList (snd (createMatchList nameList tourType t))).
Proof.
  intros Hlen.
  eapply (continues_indexed []); [intros i r Hr; discriminate Hr | | exact Hlen].
  clear Hlen. unfold createMatchList.
  destruct (length nameList <? 2)%nat; [apply continues_refl |].
  set (names := if shufflePlayers (reset t) then shuffle nameList else nameList).
  destruct tourType.
  - pose proof (roundRobin_outer_continues names (reset t)) as H1.
    destruct (roundRobin_outer names (reset t)) as [[missing |] t1]; exact H1.
  - cbn [snd]. unfold createKnockoutMatchList_names.
    exact (createKnockoutMatchList_continues _ 0 (reset t)).
  - apply continues_refl.
Qed.

(** The inner loop stops with a missing name exactly when one of the
    names it is given is not in the engine configuration. *)
Lemma roundRobin_inner_missing name0 others : forall (t : Mng),
  fst (roundRobin_inner name0 others t) = None <->
  Forall (fun nm => isNameExistent nm = true) others.
Proof.
  induction others as [| name1 others IH]; intros t; cbn [roundRobin_inner].
  - split; [constructor | reflexivity].
  - rewrite Forall_cons. destruct (isNameExistent name1) eqn:E; cbn [negb].
    + cbn [std_rand].
      match goal with
      | |- context [addMatchRecord ?r ?t0] => destruct (addMatchRecord r t0) as [r1 t1]
      end.
      rewrite IH. tauto.
    + cbn. split; [discriminate | intros [H _]; discriminate H].
Qed.

Lemma roundRobin_outer_missing names : forall (t : Mng),
  (2 <= length names)%nat ->
  fst (roundRobin_outer names t) = None <->
  Forall (fun nm => isNameExistent nm = true) names.
Proof.
  induction names as [| name0 others IH]; intros t Hlen; [cbn in Hlen; lia |].
  destruct others as [| name1 others']; [cbn in Hlen; lia |].
  set (others := name1 :: others') in *.
  change (roundRobin_outer (name0 :: others) t)
    with (if negb (isNameExistent name0) then (Some name0, t)
          else match roundRobin_inner name0 others t with
               | (Some missingName, t) => (Some missingName, t)
               | (None, t) => roundRobin_outer others t
               end).
  rewrite (Forall_cons _ name0 others).
  destruct (isNameExistent name0) eqn:E0; cbn [negb].
  2:{ cbn. split; [discriminate | intros [H _]; discriminate H]. }
  pose proof (roundRobin_inner_missing name0 others t) as Hin.
  destruct (roundRobin_inner name0 others t) as [[missing |] t1]; cbn [fst] in *.
  - split; [discriminate |]. intros [_ H]. apply Hin in H. discriminate H.
  - assert (Hall : Forall (fun nm => isNameExistent nm = true) others)
      by (apply Hin; reflexivity).
    split; [intros _; split; [reflexivity | exact Hall] |]. intros _.
    destruct (PairingFacts.roundRobin_outer_blocks others t1 Hall) as (bs & He & _).
    rewrite He. reflexivity.
Qed.

(** [createMatchList] for a round-robin: with fewer than two names it
    fails and has emptied the schedule; with two or more it succeeds
    exactly when every name is in the engine configuration (the shuffle
    only permutes the names). *)
Theorem roundrobin_needs_all_names (nameList : list string) (t : Mng) :
  ((length nameList < 2)%nat ->
   createMatchList nameList TourType.roundrobin t = (false, reset t)) /\
  ((2 <= length nameList)%nat ->
   (shufflePlayers t = true -> Permutation (shuffle nameList) nameList) ->
   (fst (createMatchList nameList TourType.roundrobin t) = true <->
    Forall (fun nm => isNameExistent nm = true) nameList)).
Proof.
  unfold createMatchList. split.
  - intros Hlt. rewrite (proj2 (Nat.ltb_lt _ _) Hlt). reflexivity.
  - intros Hlen Hshuffle.
    rewrite (proj2 (Nat.ltb_ge _ _) Hlen).
    cbn [reset set_previousElapsed set_matchRecordList shufflePlayers].
    set (names := if shufflePlayers t then shuffle nameList else nameList).
    assert (Hperm : Permutation names nameList)
      by (subst names; destruct (shufflePlayers t); [auto | reflexivity]).
    rewrite <- Hperm.
    pose proof (roundRobin_outer_missing names
                  (set_previousElapsed 0 (set_matchRecordList [] t))
                  ltac:(rewrite (Permutation_length Hperm); exact Hlen)) as Hm.
    destruct (roundRobin_outer names _) as [[missing |] t1]; cbn [fst] in *.
    + split; [discriminate |]. intros H. apply Hm in H. discriminate H.
    + split; [intros _; apply Hm; reflexivity | reflexivity].
Qed.

(** The player drawn is taken out of the vector. *)
Lemma drawLucky_drawn (n : nat) (luckSet : gset string)
    (playerVec : list TourPlayer) (t : Mng) (p : TourPlayer) (vec : list TourPlayer) :
  fst (drawLucky n luckSet playerVec t) = Some (p, vec) ->
  exists k, playerVec !! k = Some p /\ vec = delete k playerVec.
Proof.
  revert t. induction n as [| n IH]; intros t; cbn [drawLucky std_rand];
    [discriminate |].
  destruct (playerVec !! _) as [q |] eqn:Eq; [| apply IH].
  destruct (decide (name q ∈ luckSet)) as [Hin | Hout]; [apply IH |].
  cbn [fst]. intros [= <- <-]. eexists. split; [exact Eq | reflexivity].
Qed.

(** [luckSet] holds the names that had a bye. *)
Lemma luckSet_from acc recs nm :
  nm ∈ foldl (fun (luckSet : gset string) r =>
                if String.eqb (playernameW r) "" || String.eqb (playernameB r) "" then
                  {[ playernames r (if String.eqb (playernameW r) "" then black else white) ]}
                  ∪ luckSet
                else luckSet) acc recs
  <-> nm ∈ acc \/ hadBye nm recs.
Proof.
  revert acc. induction recs as [| r recs IH]; intros acc; cbn [foldl].
  - split; [left; assumption |]. intros [H | (r & Hr & _)]; [exact H |].
    apply elem_of_nil in Hr. contradiction.
  - rewrite IH. unfold hadBye.
    destruct (String.eqb_spec (playernameW r) "") as [EW | EW];
      destruct (String.eqb_spec (playernameB r) "") as [EB | EB];
      cbn [orb playernames]; rewrite ?elem_of_union, ?elem_of_singleton.
    all: split;
      [ intros [H | (r' & Hr' & H)];
        [| right; exists r'; split; [apply elem_of_cons; right; exact Hr' | exact H]]
      | intros [H | (r' & Hr' & H)];
        [| apply elem_of_cons in Hr' as [-> | Hr'];
           [| right; exists r'; split; [exact Hr' | exact H]]] ].
    all: try (left; tauto).
    all: try (destruct H as [H | H];
              [right; exists r; split; [apply elem_of_cons; left; reflexivity |];
               first [left; split; [exact EW | symmetry; exact H]
                     | right; split; [exact EB | symmetry; exact H]]
              | left; exact H]).
    all: try (left; left; destruct H as [[H1 H2] | [H1 H2]]; congruence).
    all: try (exfalso; destruct H as [[H1 H2] | [H1 H2]]; congruence).
    all: try (left; exact H).
Qed.

Lemma luckSetOf_hadBye recs nm : nm ∈ luckSetOf recs <-> hadBye nm recs.
Proof.
  unfold luckSetOf. rewrite luckSet_from. split; [| right; assumption].
  intros [H | H]; [| exact H]. apply elem_of_empty in H. contradiction.
Qed.

(** A draw points at a player of the vector. *)
Lemma drawnAt_member (playerVec : list TourPlayer) (t : Mng) (i : nat) :
  playerVec <> [] -> exists q, drawnAt playerVec t i = Some q.
Proof.
  intros Hne. unfold drawnAt. apply lookup_lt_is_Some_2.
  assert (0 < Z.of_nat (length playerVec)) by (destruct playerVec; [contradiction | cbn; lia]).
  pose proof (Z.mod_pos_bound (rand (randCnt t + i)) (Z.of_nat (length playerVec))).
  lia.
Qed.

(** The loop of the draws stops at the first draw that points at a
    player without an earlier bye. *)
Lemma drawLucky_first (recs : list MatchRecord) (playerVec : list TourPlayer) (n : nat) :
  playerVec <> [] ->
  forall t : Mng,
    match fst (drawLucky n (luckSetOf recs) playerVec t) with
    | Some (p, vec) =>
        exists i, (i < n)%nat /\ drawnAt playerVec t i = Some p /\
                  ~ hadBye (name p) recs /\
                  forall j, (j < i)%nat ->
                            exists q, drawnAt playerVec t j = Some q /\ hadBye (name q) recs
    | None =>
        forall j, (j < n)%nat ->
                  exists q, drawnAt playerVec t j = Some q /\ hadBye (name q) recs
    end.
Proof.
  intros Hne. induction n as [| n IH]; intros t; cbn [drawLucky std_rand].
  { cbn [fst]. intros j Hj. lia. }
  assert (Hshift : forall j, drawnAt playerVec (set_randCnt (S (randCnt t)) t) j
                             = drawnAt playerVec t (S j)).
  { intros j. unfold drawnAt. cbn [randCnt set_randCnt].
    rewrite Nat.add_succ_r. reflexivity. }
  assert (H0 : drawnAt playerVec t 0
               = playerVec !! Z.to_nat (rand (randCnt t) mod Z.of_nat (length playerVec))).
  { unfold drawnAt. rewrite Nat.add_0_r. reflexivity. }
  destruct (drawnAt_member playerVec t 0 Hne) as [q Hq].
  rewrite <- H0, Hq.
  specialize (IH (set_randCnt (S (randCnt t)) t)).
  destruct (decide (name q ∈ luckSetOf recs)) as [Hin | Hout].
  - apply luckSetOf_hadBye in Hin.
    destruct (fst (drawLucky n (luckSetOf recs) playerVec (set_randCnt (S (randCnt t)) t)))
      as [[p vec] |].
    + destruct IH as (i & Hi & Hp & Hfresh & Hbefore).
      exists (S i). split; [lia |]. split; [rewrite <- Hshift; exact Hp |].
      split; [exact Hfresh |].
      intros [| j] Hj; [exists q; split; assumption |].
      rewrite <- Hshift. apply Hbefore. lia.
    + intros [| j] Hj; [exists q; split; assumption |].
      rewrite <- Hshift. apply IH. lia.
  - cbn [fst]. exists 0%nat. split; [lia |]. split; [exact Hq |].
    split; [rewrite <- luckSetOf_hadBye; exact Hout |].
    intros j Hj. lia.
Qed.

Lemma drawLucky_gameperpair n luckSet : forall playerVec (t : Mng),
  gameperpair (snd (drawLucky n luckSet playerVec t)) = gameperpair t.
Proof.
  induction n as [| n IH]; intros playerVec t; cbn [drawLucky std_rand];
    [reflexivity |].
  destruct (playerVec !! _) as [p |]; [destruct (decide (name p ∈ luckSet)) |];
    try rewrite IH; reflexivity.
Qed.

End Creation.

(** The theorem on three names with every name known. *)
Lemma roundrobin_needs_all_names_witness :
  fst (createMatchList ["A"; "B"; "C"]%string TourType.roundrobin
         (Samples.sample_mng TourType.roundrobin 2 2)) = true.
Proof.
  apply (proj2 (roundrobin_needs_all_names ["A"; "B"; "C"]%string
                  (Samples.sample_mng TourType.roundrobin 2 2))).
  - cbn. lia.
  - cbn. discriminate.
  - repeat constructor.
Defined.

(** The theorem on the sample round-robin schedule. *)
Lemma created_records_numbered_witness :
  indexed (matchRecordList
             (snd (createMatchList ["A"; "B"; "C"]%string TourType.roundrobin
                     (Samples.sample_mng TourType.roundrobin 2 2)))).
Proof.
  apply (created_records_numbered ["A"; "B"; "C"]%string TourType.roundrobin
           (Samples.sample_mng TourType.roundrobin 2 2)).
  vm_compute. discriminate.
Defined.

End CreationFacts.

(** ** When a knockout pairing is extended *)

Module ExtensionMore.

Import Chess Records Standings Tournament KnockoutNotions.

Lemma decidedWhitesOf_cons nm r g :
  decidedWhitesOf nm (r :: g)
  = (if decide (playernameW r = nm /\ is_Some (winnerName r)) then 1 else 0)
    + decidedWhitesOf nm g.
Proof.
  unfold decidedWhitesOf. rewrite filter_cons.
  destruct (decide (playernameW r = nm /\ is_Some (winnerName r))); cbn [length]; lia.
Qed.

Lemma winnerName_decided r :
  is_Some (winnerName r) <-> resultType r = win \/ resultType r = loss.
Proof.
  unfold winnerName. destruct (resultType r); split;
    try (intros [x Hx]; discriminate Hx); try (intros [H | H]; discriminate H);
    eauto.
Qed.

(** One completed record of the pair in the loop of
    [checkToExtendMatches]: a drawn record is passed over entirely, a
    decided one is tallied as [getKnockoutWinnerList] tallies it. *)
Lemma tallyPair_step pid r rest pr :
  pairId r = pid -> Records.state r = MatchState.completed ->
  name (pair0 pr) <> name (pair1 pr) ->
  between (name (pair0 pr)) (name (pair1 pr)) r ->
  tallyPair pid (r :: rest) pr
  = if decide (resultType r = win \/ resultType r = loss)
    then tallyPair pid rest (tallyRecord pr r) else tallyPair pid rest pr.
Proof.
  intros Hp Hs Hne Hb. cbn [tallyPair].
  rewrite (decide_False (P := pairId r <> pid)) by tauto.
  rewrite (decide_False (P := Records.state r <> MatchState.completed)) by tauto.
  destruct (decide (resultType r = win \/ resultType r = loss)) as [Hd | Hd].
  - rewrite (decide_False (P := resultType r <> win /\ resultType r <> loss)) by tauto.
    f_equal. unfold tallyRecord.
    rewrite (decide_True (P := resultType r = win \/ resultType r = loss)) by exact Hd.
    destruct pr as [p0 p1]. cbn [pair0 pair1] in *.
    pose proof (proj2 (String.eqb_neq (name p0) (name p1)) Hne) as Hn.
    unfold slot_of, playernames, pair_at. cbn [pair0 pair1].
    destruct Hb as [[HW HB] | [HW HB]]; rewrite HW, HB;
      destruct Hd as [Hd | Hd]; rewrite Hd;
      repeat (progress
                (cbn [pair_upd pair0 pair1 incr_winCnt name getXSide];
                 rewrite ?String.eqb_refl, ?Hn;
                 try rewrite decide_True by reflexivity;
                 try rewrite decide_False by discriminate));
      reflexivity.
  - rewrite (decide_True (P := resultType r <> win /\ resultType r <> loss)) by tauto.
    reflexivity.
Qed.

(** Over a pair group all of whose records are completed, the loop of
    [checkToExtendMatches] counts for each player the games won and the
    decided games played as White. *)
Lemma tallyPair_counts (a b : string) pid recs : forall pr,
  a <> b ->
  name (pair0 pr) = a -> name (pair1 pr) = b ->
  Forall (between a b) (pairGroup pid recs) ->
  Forall (fun r => Records.state r = MatchState.completed) (pairGroup pid recs) ->
  0 <= winCnt (pair0 pr) -> 0 <= winCnt (pair1 pr) ->
  0 <= whiteCnt (pair0 pr) -> 0 <= whiteCnt (pair1 pr) ->
  winCnt (pair0 pr) + Z.of_nat (length (pairGroup pid recs)) <= Int32.max_int ->
  winCnt (pair1 pr) + Z.of_nat (length (pairGroup pid recs)) <= Int32.max_int ->
  whiteCnt (pair0 pr) + Z.of_nat (length (pairGroup pid recs)) <= Int32.max_int ->
  whiteCnt (pair1 pr) + Z.of_nat (length (pairGroup pid recs)) <= Int32.max_int ->
  exists pr',
    tallyPair pid recs pr = Some pr' /\
    winCnt (pair0 pr') = winCnt (pair0 pr) + winsOf a (pairGroup pid recs) /\
    winCnt (pair1 pr') = winCnt (pair1 pr) + winsOf b (pairGroup pid recs) /\
    whiteCnt (pair0 pr') = whiteCnt (pair0 pr) + decidedWhitesOf a (pairGroup pid recs) /\
    whiteCnt (pair1 pr') = whiteCnt (pair1 pr) + decidedWhitesOf b (pairGroup pid recs).
Proof.
  induction recs as [| r recs IH];
    intros pr Hab Ha Hb Hg Hc Hw0 Hw1 Hh0 Hh1 Bw0 Bw1 Bh0 Bh1.
  { exists pr. cbn. unfold winsOf, decidedWhitesOf. cbn. repeat split; lia. }
  unfold pairGroup in *. rewrite filter_cons in *.
  destruct (decide (pairId r = pid)) as [Hp | Hp].
  2:{ cbn [tallyPair]. rewrite (decide_True (P := pairId r <> pid)) by exact Hp.
      apply IH; assumption. }
  apply Forall_cons in Hg as [Hr Hg']. apply Forall_cons in Hc as [Hs Hc'].
  cbn [length] in Bw0, Bw1, Bh0, Bh1.
  rewrite tallyPair_step; [| exact Hp | exact Hs | congruence | rewrite Ha, Hb; exact Hr].
  rewrite !KnockoutFacts.winsOf_cons, !decidedWhitesOf_cons.
  destruct (decide (resultType r = win \/ resultType r = loss)) as [Hd | Hd].
  - pose proof (KnockoutFacts.tally_counts a b [r] pr Hab Ha Hb
                  ltac:(constructor; [exact Hr | constructor])
                  Hw0 Hw1 Hh0 Hh1
                  ltac:(cbn [length]; lia) ltac:(cbn [length]; lia)
                  ltac:(cbn [length]; lia) ltac:(cbn [length]; lia)) as Hstep.
    cbv zeta in Hstep. cbn [foldl] in Hstep.
    rewrite !KnockoutFacts.winsOf_cons, !KnockoutFacts.whitesOf_cons in Hstep.
    change (winsOf a []) with 0 in Hstep. change (winsOf b []) with 0 in Hstep.
    change (whitesOf a []) with 0 in Hstep. change (whitesOf b []) with 0 in Hstep.
    destruct Hstep as (Hn0 & Hn1 & Sw0 & Sw1 & Sh0 & Sh1).
    assert (Hbit : forall P (d : Decision P), 0 <= (if d then 1 else 0) <= 1)
      by (intros P d; destruct d; lia).
    pose proof (Hbit _ (decide (winnerName r = Some a))).
    pose proof (Hbit _ (decide (winnerName r = Some b))).
    pose proof (Hbit _ (decide (playernameW r = a))).
    pose proof (Hbit _ (decide (playernameW r = b))).
    destruct (IH (tallyRecord pr r) Hab Hn0 Hn1 Hg' Hc')
      as (pr' & E & I1 & I2 & I3 & I4); try lia.
    exists pr'. split; [exact E |].
    assert (Hsome : is_Some (winnerName r)) by (apply winnerName_decided; exact Hd).
    assert (Ea : (if decide (playernameW r = a /\ is_Some (winnerName r)) then 1 else 0)
                 = (if decide (playernameW r = a) then 1 else 0))
      by (repeat case_decide; tauto || reflexivity).
    assert (Eb : (if decide (playernameW r = b /\ is_Some (winnerName r)) then 1 else 0)
                 = (if decide (playernameW r = b) then 1 else 0))
      by (repeat case_decide; tauto || reflexivity).
    rewrite Ea, Eb. repeat split; lia.
  - assert (Hnone : ~ is_Some (winnerName r)) by (rewrite winnerName_decided; exact Hd).
    destruct (IH pr Hab Ha Hb Hg' Hc') as (pr' & E & I1 & I2 & I3 & I4); try lia.
    exists pr'. split; [exact E |].
    rewrite (decide_False (P := winnerName r = Some a))
      by (intros H; apply Hnone; rewrite H; eauto).
    rewrite (decide_False (P := winnerName r = Some b))
      by (intros H; apply Hnone; rewrite H; eauto).
    rewrite (decide_False (P := playernameW r = a /\ is_Some (winnerName r))) by tauto.
    rewrite (decide_False (P := playernameW r = b /\ is_Some (winnerName r))) by tauto.
    repeat split; lia.
Qed.

Section Extension.

Context {Pool Engine : Type} `{!Collaborators Pool Engine}.

#[local] Abbreviation Mng := (TourMng Pool Engine).

(** What [checkToExtendMatches] can do to the schedule: nothing, or add
    one record at its end.  It adds nothing unless the tournament is a
    knockout, the index is not negative, a record [r] carries it as
    [gameIdx], and every record with the pair id of [r] is completed.  The
    record it adds has the players (in the same colors), the round and the
    pair id of [r], is waiting without result, and is numbered with its
    position. *)
Theorem extension_shape (gIdx : Z) (t : Mng) :
  matchRecordList (checkToExtendMatches gIdx t) = matchRecordList t
  \/ (type t = TourType.knockout /\ 0 <= gIdx /\
      exists r ext,
        List.find (fun r => gameIdx r =? gIdx) (matchRecordList t) = Some r /\
        Forall (fun rcd => Records.state rcd = MatchState.completed)
               (pairGroup (pairId r) (matchRecordList t)) /\
        matchRecordList (checkToExtendMatches gIdx t) = matchRecordList t ++ [ext] /\
        PairingNotions.colors ext = PairingNotions.colors r /\
        round ext = round r /\ pairId ext = pairId r /\
        Records.state ext = MatchState.none /\ resultType ext = noresult /\
        gameIdx ext = Int32.wrap (Z.of_nat (length (matchRecordList t)))).
Proof.
  unfold checkToExtendMatches.
  destruct (decide (type t <> TourType.knockout)) as [Hty | Hty]; [left; reflexivity |].
  apply dec_stable in Hty.
  destruct (Z.ltb_spec gIdx 0) as [Hneg | Hpos]; [left; reflexivity |].
  destruct (List.find _ (matchRecordList t)) as [r |] eqn:Hfind; [| left; reflexivity].
  destruct (tallyPair (pairId r) (matchRecordList t) (pair_of_record r))
    as [playerPair |] eqn:Htally; [| left; reflexivity].
  destruct (isTie playerPair); [| left; reflexivity].
  right. split; [exact Hty |]. split; [exact Hpos |].
  unfold addMatchRecord_simple.
  destruct (getRandomBook _ _ _) as [[fen moves] cnt]. cbn [snd].
  eexists r, _. split; [reflexivity |].
  split; [apply (RecordFacts.tallyPair_completed _ _ (pair_of_record r));
          rewrite Htally; eauto |].
  split; [reflexivity |]. cbn. repeat split.
Qed.

(** In a knockout, for the record [r] found under a game index, with all
    records of its pair completed and between its two (distinct) players:
    [checkToExtendMatches] adds a record when the two players have won
    equally many games of the pair and have played equally many of its
    decided games as White, and leaves the manager as it is otherwise.
    Drawn games do not enter the count of White games. *)
Theorem extension_exactly_on_decided_tie (gIdx : Z) (t : Mng) (r : MatchRecord) :
  type t = TourType.knockout ->
  0 <= gIdx ->
  List.find (fun r => gameIdx r =? gIdx) (matchRecordList t) = Some r ->
  playernameW r <> playernameB r ->
  Forall (between (playernameW r) (playernameB r))
         (pairGroup (pairId r) (matchRecordList t)) ->
  Forall (fun rcd => Records.state rcd = MatchState.completed)
         (pairGroup (pairId r) (matchRecordList t)) ->
  Z.of_nat (length (pairGroup (pairId r) (matchRecordList t))) <= Int32.max_int ->
  let g := pairGroup (pairId r) (matchRecordList t) in
  let tied := winsOf (playernameW r) g = winsOf (playernameB r) g /\
              decidedWhitesOf (playernameW r) g = decidedWhitesOf (playernameB r) g in
  (tied -> exists ext,
     matchRecordList (checkToExtendMatches gIdx t) = matchRecordList t ++ [ext]) /\
  (~ tied -> checkToExtendMatches gIdx t = t).
Proof.
  intros Hty Hpos Hfind Hne Hbt Hcomp Hlen g tied.
  destruct (tallyPair_counts (playernameW r) (playernameB r) (pairId r)
              (matchRecordList t) (pair_of_record r) Hne eq_refl eq_refl Hbt Hcomp)
    as (pr' & E & I1 & I2 & I3 & I4); cbn; try lia.
  cbn in I1, I2, I3, I4. rewrite Z.add_0_l in I1, I2, I3, I4.
  fold g in I1, I2, I3, I4.
  unfold checkToExtendMatches.
  rewrite (decide_False (P := type t <> TourType.knockout)) by tauto.
  rewrite (proj2 (Z.ltb_ge _ _) Hpos), Hfind, E.
  unfold isTie. rewrite I1, I2, I3, I4.
  destruct (Z.eqb_spec (winsOf (playernameW r) g) (winsOf (playernameB r) g)) as [Ew | Ew];
    [destruct (Z.eqb_spec (decidedWhitesOf (playernameW r) g)
                          (decidedWhitesOf (playernameB r) g)) as [Eh | Eh] |];
    cbn [andb]; subst tied.
  - split; [| tauto]. intros _. unfold addMatchRecord_simple.
    destruct (getRandomBook _ _ _) as [[fen moves] cnt]. cbn. eauto.
  - split; [tauto | reflexivity].
  - split; [tauto | reflexivity].
Qed.

End Extension.

(** The theorem at the tied pair of four games: one win each, but the two
    decided games were both played by X as White, so nothing is added. *)
Lemma extension_exactly_on_decided_tie_witness :
  checkToExtendMatches 3 (knockout_mng sample_tied_pair) = knockout_mng sample_tied_pair.
Proof.
  refine (proj2 (extension_exactly_on_decided_tie 3 (knockout_mng sample_tied_pair)
                   (mkMatchRecord "Y" "X" "" [] MatchState.completed draw 3 0 7)
                   _ _ _ _ _ _ _) _).
  - reflexivity.
  - lia.
  - reflexivity.
  - cbn. intros H. discriminate H.
  - compute_done.
  - compute_done.
  - vm_compute. discriminate.
  - vm_compute. intros [_ H]. discriminate H.
Defined.

End ExtensionMore.

(** ** The pairings of a knockout round *)

Module SeedingFacts.

Import Chess Records Standings Tournament PairingNotions SeedingNotions.

Lemma halves_by_index (v : list TourPlayer) :
  (length v = 2 * (length v / 2))%nat ->
  map (fun i => (name (default TourPlayer_default (v !! i)),
                 name (default TourPlayer_default (v !! (i + length v / 2)%nat))))
      (seq 0 (length v / 2))
  = halves v.
Proof.
  intros Heven. unfold halves. set (n := (length v / 2)%nat) in *.
  apply list_eq. intros i.
  rewrite list_lookup_fmap.
  change (map name) with (fmap (M := list) name).
  rewrite lookup_zip_with, !list_lookup_fmap.
  destruct (decide (i < n)%nat) as [Hlt | Hge].
  - rewrite lookup_seq_lt by exact Hlt. cbn [fmap option_fmap option_map Nat.add].
    rewrite lookup_take_lt by exact Hlt. rewrite lookup_drop.
    destruct (lookup_lt_is_Some_2 v i ltac:(lia)) as [p Hp].
    destruct (lookup_lt_is_Some_2 v (n + i) ltac:(lia)) as [q Hq].
    rewrite Hp, Hq, (Nat.add_comm i n), Hq. reflexivity.
  - rewrite lookup_seq_ge by lia. rewrite lookup_take_ge by lia. reflexivity.
Qed.

Section Seeding.

Context {Pool Engine : Type} `{!Collaborators Pool Engine}.

#[local] Abbreviation Mng := (TourMng Pool Engine).

(** One call of [addMatchRecord] for a fresh record of round [rd]
    appends a block of the pair. *)
Lemma addMatchRecord_roundBlock name0 name1 swap rd (t : Mng) :
  exists blk,
    matchRecordList (snd (addMatchRecord
                            (with_round rd (MatchRecord_ctor name0 name1 swap)) t))
      = matchRecordList t ++ blk /\
    gameperpair (snd (addMatchRecord
                        (with_round rd (MatchRecord_ctor name0 name1 swap)) t))
      = gameperpair t /\
    roundBlock (Z.to_nat (gameperpair t)) rd (name0, name1) blk.
Proof.
  unfold addMatchRecord. cbn [std_rand].
  set (record := with_pairId _ _).
  set (t0 := set_randCnt _ t).
  destruct (PairingFacts.addMatchRecord_loop_appends
              (Z.to_nat (gameperpair t0)) record t0)
    as (blk & Hl & Hg & Hs & Hlen & Hblk).
  exists blk. split; [exact Hl |]. split; [exact Hg |].
  split; [exact Hlen |].
  exists (pairId record), (playernameW record), (playernameB record).
  split.
  { subst record. destruct swap; cbn; [right | left]; reflexivity. }
  intros i r Hi. destruct (Hblk i r Hi) as (B1 & B2 & B3 & B4 & B5).
  repeat split; try assumption.
Qed.

(** The pairing loop appends one block per index it visits, and counts
    the pairs. *)
Lemma pairUp_blocks todo : forall i n playerVec rd (t : Mng),
  exists blocks,
    matchRecordList (snd (pairUp todo i n playerVec rd t))
      = matchRecordList t ++ concat blocks /\
    gameperpair (snd (pairUp todo i n playerVec rd t)) = gameperpair t /\
    Forall2 (roundBlock (Z.to_nat (gameperpair t)) rd)
            (map (fun j => (name (default TourPlayer_default (playerVec !! j)),
                            name (default TourPlayer_default (playerVec !! (j + n)%nat))))
                 (seq i todo))
            blocks /\
    (Z.of_nat todo <= Int32.max_int ->
     fst (pairUp todo i n playerVec rd t) = Z.of_nat todo).
Proof.
  induction todo as [| todo IH]; intros i n playerVec rd t; cbn [pairUp std_rand].
  - exists []. cbn. rewrite app_nil_r. repeat (split; [reflexivity |]).
    split; [constructor | reflexivity].
  - match goal with
    | |- context [addMatchRecord (with_round rd (MatchRecord_ctor ?a ?b ?s)) ?t0] =>
        destruct (addMatchRecord_roundBlock a b s rd t0) as (blk & Hl & Hg & Hblk);
        destruct (addMatchRecord (with_round rd (MatchRecord_ctor a b s)) t0) as [r1 t1]
    end.
    cbn [snd] in Hl, Hg.
    destruct (IH (S i) n playerVec rd t1) as (blocks & Hl' & Hg' & Hbs & Hcnt).
    destruct (pairUp todo (S i) n playerVec rd t1) as [addCnt t2].
    cbn [fst snd] in *.
    exists (blk :: blocks).
    split; [rewrite Hl', Hl; cbn; rewrite <- app_assoc; reflexivity |].
    split; [rewrite Hg', Hg; reflexivity |].
    split.
    + cbn [seq map]. constructor; [exact Hblk |]. rewrite Hg in Hbs. exact Hbs.
    + intros Hle. rewrite Hcnt by lia. rewrite Int32Facts.incr_small by lia. lia.
Qed.

Lemma even_half (n : nat) : Nat.odd n = false -> (n = 2 * (n / 2))%nat.
Proof.
  intros H. pose proof (Nat.div2_odd n) as E.
  rewrite Nat.div2_div, H in E. cbn [Nat.b2n] in E. lia.
Qed.

Lemma sort_by_elo_seeded (v : list TourPlayer) :
  Permutation v (Std.sort (fun lhs rhs => elo lhs >? elo rhs) v) /\
  seeded (Std.sort (fun lhs rhs => elo lhs >? elo rhs) v).
Proof.
  assert (Hasym : forall x y : TourPlayer,
             (elo x >? elo y) = true -> (elo y >? elo x) = false).
  { intros x y Hxy. rewrite Z.gtb_ltb in *. apply Z.ltb_lt in Hxy. apply Z.ltb_ge. lia. }
  assert (Htrans : forall x y z : TourPlayer,
             (elo x >? elo y) = true -> (elo y >? elo z) = true ->
             (elo x >? elo z) = true).
  { intros x y z Hxy Hyz. rewrite Z.gtb_ltb in *.
    apply Z.ltb_lt in Hxy, Hyz. apply Z.ltb_lt. lia. }
  destruct (StdFacts.sort_meets_post (fun lhs rhs : TourPlayer => elo lhs >? elo rhs)
              Hasym Htrans v) as [Hperm Hord].
  split; [exact Hperm |].
  intros i j p q Hij Hp Hq. specialize (Hord i j p q Hij Hp Hq).
  cbv beta in Hord. rewrite Z.gtb_ltb in Hord. apply Z.ltb_ge in Hord. exact Hord.
Qed.

(** The rest of [createKnockoutMatchList] once the bye is settled: the
    players are seeded by Elo and the upper half is paired with the lower
    half. *)
Lemma seed_and_pair (vec : list TourPlayer) (rd : Z) (t : Mng) :
  Nat.odd (length vec) = false ->
  let rest := Std.sort (fun lhs rhs => elo lhs >? elo rhs) vec in
  exists blocks,
    Permutation vec rest /\ seeded rest /\
    matchRecordList (snd (pairUp (length rest / 2) 0 (length rest / 2) rest rd t))
      = matchRecordList t ++ concat blocks /\
    Forall2 (roundBlock (Z.to_nat (gameperpair t)) rd) (halves rest) blocks /\
    (Z.of_nat (length vec) <= Int32.max_int -> (2 <= length vec)%nat ->
     (fst (pairUp (length rest / 2) 0 (length rest / 2) rest rd t) >? 0) = true).
Proof.
  intros Hodd rest.
  destruct (sort_by_elo_seeded vec) as [Hperm Hseed]. fold rest in Hperm, Hseed.
  assert (Hlen : length rest = length vec) by (symmetry; apply Permutation_length, Hperm).
  destruct (pairUp_blocks (length rest / 2) 0 (length rest / 2) rest rd t)
    as (blocks & Hl & _ & Hbs & Hcnt).
  exists blocks. split; [exact Hperm |]. split; [exact Hseed |].
  split; [exact Hl |]. split.
  - rewrite <- halves_by_index; [exact Hbs |].
    apply even_half. rewrite Hlen. exact Hodd.
  - intros Hmax H2. pose proof (even_half (length rest) ltac:(rewrite Hlen; exact Hodd)).
    rewrite Hcnt by lia. apply Z.gtb_lt. lia.
Qed.

(** [createKnockoutMatchList] from two or more players appends a round
    of them. *)
Lemma knockout_round_cases (playerVec : list TourPlayer) (rd : Z) (t : Mng) :
  (2 <= length playerVec)%nat ->
  exists new,
    matchRecordList (snd (createKnockoutMatchList playerVec rd t))
      = matchRecordList t ++ new /\
    roundOf (Z.to_nat (gameperpair t)) rd playerVec new /\
    (Z.of_nat (length playerVec) <= Int32.max_int ->
     fst (createKnockoutMatchList playerVec rd t) = true).
Proof.
  intros Hlen. unfold createKnockoutMatchList, roundOf.
  rewrite (proj2 (Nat.ltb_ge _ _) Hlen).
  destruct (Nat.odd (length playerVec)) eqn:Hodd.
  - pose proof (RecordFacts.drawLucky_records 10 (luckSetOf (matchRecordList t))
                  playerVec t) as Hrecs.
    pose proof (CreationFacts.drawLucky_gameperpair 10 (luckSetOf (matchRecordList t))
                  playerVec t) as Hgpp.
    pose proof (CreationFacts.drawLucky_drawn 10 (luckSetOf (matchRecordList t))
                  playerVec t) as Hdrawn.
    destruct (drawLucky 10 _ playerVec t) as [drawn t0]. cbn [fst snd] in *.
    assert (Hpick : exists p vec,
               match drawn with
               | Some (p, vec) => (p, vec)
               | None => (default TourPlayer_default (head playerVec), tail playerVec)
               end = (p, vec) /\ Permutation playerVec (p :: vec)).
    { destruct drawn as [[p vec] |].
      - exists p, vec. split; [reflexivity |].
        destruct (Hdrawn p vec eq_refl) as (k & Hk & ->).
        apply delete_Permutation. exact Hk.
      - destruct playerVec as [| p vec]; [cbn in Hlen; lia |].
        exists p, vec. split; reflexivity. }
    destruct Hpick as (p & vec & -> & Hperm).
    cbn [std_rand].
    match goal with
    | |- context [addMatchRecord_simple ?r ?t1] =>
        pose proof (PairingFacts.addMatchRecord_simple_appends r t1) as Hbye;
        destruct (addMatchRecord_simple r t1) as [bye t2]
    end.
    destruct Hbye as (Hl & Hg & _ & Hc & _ & Hr & Hst & Hrt).
    cbn [snd set_randCnt matchRecordList gameperpair] in *.
    assert (Hvlen : length playerVec = S (length vec))
      by (rewrite (Permutation_length Hperm); reflexivity).
    assert (Hvodd : Nat.odd (length vec) = false).
    { rewrite Hvlen, Nat.odd_succ in Hodd. rewrite <- Nat.negb_even, Hodd. reflexivity. }
    destruct (seed_and_pair vec rd t2 Hvodd) as (blocks & Hp & Hseed & Hl2 & Hbs & Hcnt).
    cbv zeta in Hl2, Hbs, Hcnt, Hp, Hseed.
    destruct (pairUp _ 0 _ _ rd t2) as [addCnt t3]. cbn [fst snd] in *.
    exists ([bye] ++ concat blocks).
    split; [rewrite Hl2, Hl, Hrecs, <- app_assoc; reflexivity |].
    split.
    + exists [p], (Std.sort (fun lhs rhs => elo lhs >? elo rhs) vec), [bye], blocks.
      split; [rewrite Hperm; cbn; constructor; exact Hp |].
      split; [reflexivity |]. split; [exact Hseed |]. split; [reflexivity |].
      split; [| rewrite Hg, Hgpp in Hbs; exact Hbs].
      constructor; [| constructor]. unfold colors in Hc. injection Hc as Hw Hb.
      unfold byeOf. rewrite Hw, Hb, Hr, Hst, Hrt. cbn. repeat split.
    + intros Hmax. apply Hcnt; [lia |].
      destruct vec as [| x [| y vec']]; cbn in Hvlen, Hvodd |- *; try lia; discriminate.
  - destruct (seed_and_pair playerVec rd t Hodd) as (blocks & Hp & Hseed & Hl2 & Hbs & Hcnt).
    cbv zeta in Hl2, Hbs, Hcnt, Hp, Hseed.
    destruct (pairUp _ 0 _ _ rd t) as [addCnt t3]. cbn [fst snd] in *.
    exists (concat blocks). split; [exact Hl2 |]. split.
    + exists [], (Std.sort (fun lhs rhs => elo lhs >? elo rhs) playerVec), [], blocks.
      split; [exact Hp |]. split; [reflexivity |]. split; [exact Hseed |].
      split; [reflexivity |]. split; [constructor | exact Hbs].
    + intros Hmax. apply Hcnt; assumption.
Qed.

(** A round of a knockout made by [createKnockoutMatchList] from two or
    more players.  With an odd number of players one of them gets a bye: a
    completed record that it wins as White against nobody.  The others
    are seeded by Elo (no player stands before one with a higher Elo), and
    the upper half meets the lower half in this order: every pair gets
    [gameperpair] waiting records of the round, under one pair id, with
    alternating colors.  Nothing else is added, and the answer is
    [true].  From fewer than two players nothing is made and the answer
    is [false]. *)
Theorem knockout_round_pairs (playerVec : list TourPlayer) (rd : Z) (t : Mng) :
  ((length playerVec < 2)%nat ->
   createKnockoutMatchList playerVec rd t = (false, t)) /\
  ((2 <= length playerVec)%nat ->
   exists new,
     matchRecordList (snd (createKnockoutMatchList playerVec rd t))
       = matchRecordList t ++ new /\
     roundOf (Z.to_nat (gameperpair t)) rd playerVec new /\
     (Z.of_nat (length playerVec) <= Int32.max_int ->
      fst (createKnockoutMatchList playerVec rd t) = true)).
Proof.
  split.
  - intros Hlt. unfold createKnockoutMatchList.
    rewrite (proj2 (Nat.ltb_lt _ _) Hlt). reflexivity.
  - exact (knockout_round_cases playerVec rd t).
Qed.

(** The bye of a round.  [createKnockoutMatchList] from an odd number
    (three or more) of players appends first the record of a bye: of the
    player of the first of ten draws that points at somebody who had no
    bye in the records so far, and, when all ten draws point at players
    who had one, of the first player of the vector, whether or not that
    player had a bye before.  After it come the blocks of the pairs of
    the other players, seeded by Elo. *)
Theorem knockout_bye_player (playerVec : list TourPlayer) (rd : Z) (t : Mng) :
  (2 <= length playerVec)%nat -> Nat.odd (length playerVec) = true ->
  exists (p : TourPlayer) (vec : list TourPlayer) (bye : MatchRecord)
         (blocks : list (list MatchRecord)),
    matchRecordList (snd (createKnockoutMatchList playerVec rd t))
      = matchRecordList t ++ bye :: concat blocks /\
    byeOf rd p bye /\
    byeGoesTo playerVec t p /\
    p ∈ playerVec /\ Permutation playerVec (p :: vec) /\
    Forall2 (roundBlock (Z.to_nat (gameperpair t)) rd)
            (halves (Std.sort (fun lhs rhs => elo lhs >? elo rhs) vec)) blocks.
Proof.
  intros Hlen Hodd. unfold createKnockoutMatchList.
  rewrite (proj2 (Nat.ltb_ge _ _) Hlen), Hodd.
  assert (Hne : playerVec <> []) by (destruct playerVec; [cbn in Hlen; lia | discriminate]).
  pose proof (RecordFacts.drawLucky_records 10 (luckSetOf (matchRecordList t))
                playerVec t) as Hrecs.
  pose proof (CreationFacts.drawLucky_gameperpair 10 (luckSetOf (matchRecordList t))
                playerVec t) as Hgpp.
  pose proof (CreationFacts.drawLucky_drawn 10 (luckSetOf (matchRecordList t))
                playerVec t) as Hdrawn.
  pose proof (CreationFacts.drawLucky_first (matchRecordList t) playerVec 10 Hne t)
    as Hfirst.
  destruct (drawLucky 10 _ playerVec t) as [drawn t0]. cbn [fst snd] in *.
  assert (Hpick : exists p vec,
             match drawn with
             | Some (p, vec) => (p, vec)
             | None => (default TourPlayer_default (head playerVec), tail playerVec)
             end = (p, vec) /\ Permutation playerVec (p :: vec) /\
             byeGoesTo playerVec t p).
  { destruct drawn as [[p vec] |].
    - exists p, vec. split; [reflexivity |].
      destruct (Hdrawn p vec eq_refl) as (k & Hk & ->).
      split; [apply delete_Permutation; exact Hk |].
      left. exact Hfirst.
    - destruct playerVec as [| p vec]; [contradiction |].
      exists p, vec. split; [reflexivity |]. split; [reflexivity |].
      right. split; [reflexivity | exact Hfirst]. }
  destruct Hpick as (p & vec & -> & Hperm & Hgoes).
  cbn [std_rand].
  match goal with
  | |- context [addMatchRecord_simple ?r ?t1] =>
      pose proof (PairingFacts.addMatchRecord_simple_appends r t1) as Hbye;
      destruct (addMatchRecord_simple r t1) as [bye t2]
  end.
  destruct Hbye as (Hl & Hg & _ & Hc & _ & Hr & Hst & Hrt).
  cbn [snd set_randCnt matchRecordList gameperpair] in *.
  assert (Hvlen : length playerVec = S (length vec))
    by (rewrite (Permutation_length Hperm); reflexivity).
  assert (Hvodd : Nat.odd (length vec) = false).
  { rewrite Hvlen, Nat.odd_succ in Hodd. rewrite <- Nat.negb_even, Hodd. reflexivity. }
  destruct (seed_and_pair vec rd t2 Hvodd) as (blocks & Hp & Hseed & Hl2 & Hbs & Hcnt).
  cbv zeta in Hl2, Hbs, Hcnt, Hp, Hseed.
  destruct (pairUp _ 0 _ _ rd t2) as [addCnt t3]. cbn [fst snd] in *.
  exists p, vec, bye, blocks.
  split; [rewrite Hl2, Hl, Hrecs, <- app_assoc; reflexivity |].
  split.
  { unfold colors in Hc. injection Hc as Hw Hb.
    unfold byeOf. rewrite Hw, Hb, Hr, Hst, Hrt. cbn. repeat split. }
  split; [exact Hgoes |].
  split; [rewrite Hperm; apply elem_of_cons; left; reflexivity |].
  split; [exact Hperm |].
  rewrite Hg, Hgpp in Hbs. exact Hbs.
Qed.

End Seeding.

(** The theorem for the five sample players in a manager with two games
    per pair. *)
Lemma knockout_round_pairs_witness :
  exists new,
    matchRecordList (snd (createKnockoutMatchList sample_field 0
                            (Samples.sample_mng TourType.knockout 2 2)))
      = new /\
    roundOf 2 0 sample_field new.
Proof.
  destruct (proj2 (knockout_round_pairs sample_field 0
                     (Samples.sample_mng TourType.knockout 2 2)) ltac:(cbn; lia))
    as (new & E & Hround & _).
  exists new. split; [exact E | exact Hround].
Defined.

(** The theorem on the three winners A, B, E of a first round in which A
    had the bye: the first draw points at A and is passed over, the
    second points at B, and the bye of round 1 is B's. *)
Lemma knockout_bye_player_witness :
  exists bye rest,
    matchRecordList (snd (createKnockoutMatchList sample_winners 1 sample_after_bye))
      = matchRecordList sample_after_bye ++ bye :: rest /\
    playernameW bye = "B"%string /\ playernameB bye = ""%string /\
    hadBye "A" (matchRecordList sample_after_bye) /\
    drawnAt sample_winners sample_after_bye 0 = Some (set_name "A" TourPlayer_default).
Proof.
  destruct (knockout_bye_player sample_winners 1 sample_after_bye
              ltac:(cbn; lia) eq_refl)
    as (p & vec & bye & blocks & E & Hbye & Hgoes & _).
  exists bye, (concat blocks). split; [exact E |].
  destruct Hbye as (Hw & Hb & _).
  assert (HA : hadBye "A" (matchRecordList sample_after_bye)).
  { exists (mkMatchRecord "A" "" "" [] MatchState.completed win 0 0 3).
    split; [apply elem_of_cons; left; reflexivity | right; split; reflexivity]. }
  assert (H0 : drawnAt sample_winners sample_after_bye 0
               = Some (set_name "A" TourPlayer_default)) by reflexivity.
  assert (H1 : drawnAt sample_winners sample_after_bye 1
               = Some (set_name "B" TourPlayer_default)) by reflexivity.
  assert (HB : ~ hadBye "B" (matchRecordList sample_after_bye)).
  { intros (r & Hr & H). cbn in Hr.
    repeat (apply elem_of_cons in Hr as [-> | Hr]; [cbn in H; intuition discriminate |]).
    apply elem_of_nil in Hr. exact Hr. }
  split; [| split; [exact Hb | split; [exact HA | exact H0]]].
  rewrite Hw.
  destruct Hgoes as [(i & Hi & Hp & Hfresh & Hbefore) | (_ & Hall)].
  - destruct i as [| [| i]].
    + rewrite H0 in Hp. injection Hp as <-. contradiction.
    + rewrite H1 in Hp. injection Hp as <-. reflexivity.
    + destruct (Hbefore 1%nat ltac:(lia)) as (q & Hq & Hhad).
      rewrite H1 in Hq. injection Hq as <-. contradiction.
  - destruct (Hall 1%nat ltac:(lia)) as (q & Hq & Hhad).
    rewrite H1 in Hq. injection Hq as <-. contradiction.
Defined.

End SeedingFacts.

(** ** From one knockout round to the next *)

Module RoundsFacts.

Import Chess Records Standings Tournament PairingNotions SeedingNotions.

Section Rounds.

Context {Pool Engine : Type} `{!Collaborators Pool Engine}.

#[local] Abbreviation Mng := (TourMng Pool Engine).

Lemma frame_refl (t : Mng) :
  exists recs cnt, t = set_matchRecordList recs (set_randCnt cnt t).
Proof. exists (matchRecordList t), (randCnt t). destruct t; reflexivity. Qed.

Lemma frame_step (t t1 t2 : Mng) :
  (exists recs cnt, t1 = set_matchRecordList recs (set_randCnt cnt t)) ->
  (exists recs cnt, t2 = set_matchRecordList recs (set_randCnt cnt t1)) ->
  exists recs cnt, t2 = set_matchRecordList recs (set_randCnt cnt t).
Proof.
  intros (r1 & c1 & ->) (r2 & c2 & ->). exists r2, c2. reflexivity.
Qed.

Lemma drawLucky_frame n luckSet : forall playerVec (t : Mng),
  exists recs cnt,
    snd (drawLucky n luckSet playerVec t) = set_matchRecordList recs (set_randCnt cnt t).
Proof.
  induction n as [| n IH]; intros playerVec t; cbn [drawLucky std_rand];
    [apply frame_refl |].
  assert (Hstep : exists recs cnt,
             set_randCnt (S (randCnt t)) t = set_matchRecordList recs (set_randCnt cnt t)).
  { exists (matchRecordList t), (S (randCnt t)). destruct t; reflexivity. }
  destruct (playerVec !! _) as [p |]; [destruct (decide (name p ∈ luckSet)) |];
    cbn [snd]; [| exact Hstep |]; (eapply frame_step; [exact Hstep | apply IH]).
Qed.

Lemma addMatchRecord_simple_frame record (t : Mng) :
  exists recs cnt,
    snd (addMatchRecord_simple record t) = set_matchRecordList recs (set_randCnt cnt t).
Proof.
  unfold addMatchRecord_simple.
  destruct (getRandomBook _ _ _) as [[fen moves] cnt]. cbn [snd]. eauto.
Qed.

Lemma addMatchRecord_loop_frame n : forall record (t : Mng),
  exists recs cnt,
    snd (addMatchRecord_loop n record t) = set_matchRecordList recs (set_randCnt cnt t).
Proof.
  induction n as [| n IH]; intros record t; cbn [addMatchRecord_loop];
    [apply frame_refl |].
  pose proof (addMatchRecord_simple_frame record t) as H1.
  destruct (addMatchRecord_simple record t) as [r1 t1]. cbn [snd] in H1.
  eapply frame_step; [exact H1 | apply IH].
Qed.

Lemma addMatchRecord_frame record (t : Mng) :
  exists recs cnt,
    snd (addMatchRecord record t) = set_matchRecordList recs (set_randCnt cnt t).
Proof.
  unfold addMatchRecord. cbn [std_rand].
  eapply frame_step; [| apply addMatchRecord_loop_frame].
  exists (matchRecordList t), (S (randCnt t)). destruct t; reflexivity.
Qed.

Lemma pairUp_frame todo : forall i n playerVec rd (t : Mng),
  exists recs cnt,
    snd (pairUp todo i n playerVec rd t) = set_matchRecordList recs (set_randCnt cnt t).
Proof.
  induction todo as [| todo IH]; intros i n playerVec rd t; cbn [pairUp std_rand];
    [apply frame_refl |].
  match goal with
  | |- context [addMatchRecord ?r ?t0] =>
      pose proof (addMatchRecord_frame r t0) as H1;
      destruct (addMatchRecord r t0) as [r1 t1]
  end.
  cbn [snd] in H1.
  specialize (IH (S i) n playerVec rd t1).
  destruct (pairUp todo (S i) n playerVec rd t1) as [addCnt t2]. cbn [snd] in *.
  eapply frame_step; [| exact IH]. eapply frame_step; [| exact H1].
  exists (matchRecordList t), (S (randCnt t)). destruct t; reflexivity.
Qed.

(** [createKnockoutMatchList] touches the records and the random
    generator only. *)
Lemma createKnockoutMatchList_frame playerVec rd (t : Mng) :
  exists recs cnt,
    snd (createKnockoutMatchList playerVec rd t)
    = set_matchRecordList recs (set_randCnt cnt t).
Proof.
  unfold createKnockoutMatchList.
  destruct (length playerVec <? 2)%nat; [apply frame_refl |].
  destruct (Nat.odd (length playerVec)).
  - pose proof (drawLucky_frame 10 (luckSetOf (matchRecordList t)) playerVec t) as H0.
    destruct (drawLucky 10 _ playerVec t) as [drawn t0]. cbn [snd] in H0.
    destruct (match drawn with Some (p, vec) => (p, vec) | None => _ end)
      as [luckPlayer vec].
    cbn [std_rand].
    match goal with
    | |- context [addMatchRecord_simple ?r ?t1] =>
        pose proof (addMatchRecord_simple_frame r t1) as H1;
        destruct (addMatchRecord_simple r t1) as [bye t2]
    end.
    cbn [snd] in H1.
    match goal with
    | |- context [pairUp ?a ?b ?c ?d ?e ?f] =>
        pose proof (pairUp_frame a b c d e f) as H2;
        destruct (pairUp a b c d e f) as [addCnt t3]
    end.
    cbn [snd] in *.
    eapply frame_step; [| exact H2]. eapply frame_step; [| exact H1].
    eapply frame_step; [exact H0 |].
    exists (matchRecordList t0), (S (randCnt t0)). destruct t0; reflexivity.
  - match goal with
    | |- context [pairUp ?a ?b ?c ?d ?e ?f] =>
        pose proof (pairUp_frame a b c d e f) as H2;
        destruct (pairUp a b c d e f) as [addCnt t3]
    end.
    exact H2.
Qed.

(** The end of a knockout round, seen from [playMatches]: no record is
    waiting and no game runs.  With fewer than two winners of the last
    round the tournament is finished and the records stay.  With two or
    more, the tournament goes on and a round of the winners is added,
    numbered one above the last round; its games start with a later
    tick. *)
Theorem knockout_round_over (t : Mng) :
  type t = TourType.knockout ->
  1 <= gameConcurrency t <= Int32.max_int ->
  gameList t = [] ->
  matchRecordList t <> [] ->
  Forall (fun r => Records.state r <> MatchState.none) (matchRecordList t) ->
  let winners := getKnockoutWinnerList (matchRecordList t) in
  ((length winners < 2)%nat ->
   state (playMatches t) = TourState.done /\
   matchRecordList (playMatches t) = matchRecordList t) /\
  ((2 <= length winners)%nat -> Z.of_nat (length winners) <= Int32.max_int ->
   state (playMatches t) = state t /\ gameList (playMatches t) = [] /\
   exists new,
     matchRecordList (playMatches t) = matchRecordList t ++ new /\
     roundOf (Z.to_nat (gameperpair t))
             (Int32.wrap (getLastRound (matchRecordList t) + 1)) winners new).
Proof.
  intros Hty Hconc Hgames Hne Hall winners.
  assert (Hcap : atCapacity t = false).
  { unfold atCapacity. rewrite Hgames, Int32Facts.to_size_t_id
      by (unfold Int32.max_int in Hconc; lia).
    cbn [length]. rewrite Z.geb_leb. apply Z.leb_gt. lia. }
  assert (Hplay : playMatches t
                  = let '(added, t') := createNextKnockoutMatchList t in
                    if added then t' else finishTournament t').
  { unfold playMatches.
    destruct (matchRecordList t) as [| m0 recs0] eqn:Hrecs; [contradiction |].
    rewrite Hcap, (ManagerFacts.playMatches_loop_idle _ t Hall).
    assert (Hset : set_matchRecordList (m0 :: recs0) t = t)
      by (rewrite <- Hrecs; destruct t; reflexivity).
    rewrite Hset, Hgames. unfold createNextRoundMatches. rewrite Hty. reflexivity. }
  rewrite Hplay. unfold createNextKnockoutMatchList. fold winners.
  split.
  - intros Hlt. unfold createKnockoutMatchList.
    rewrite (proj2 (Nat.ltb_lt _ _) Hlt). split; reflexivity.
  - intros Hge Hmax.
    destruct (SeedingFacts.knockout_round_cases winners
                (Int32.wrap (getLastRound (matchRecordList t) + 1)) t Hge)
      as (new & Hl & Hround & Hfst).
    destruct (createKnockoutMatchList_frame winners
                (Int32.wrap (getLastRound (matchRecordList t) + 1)) t)
      as (recs & cnt & Hframe).
    destruct (createKnockoutMatchList winners _ t) as [added t'].
    cbn [fst snd] in *. rewrite (Hfst Hmax).
    split; [rewrite Hframe; reflexivity |].
    split; [rewrite Hframe; cbn; exact Hgames |].
    exists new. split; [exact Hl | exact Hround].
Qed.

End Rounds.

(** The theorem for a knockout whose last round was the single pairing of
    X and Y: X is the only winner, and the tournament is finished. *)
Lemma knockout_round_over_witness :
  state (playMatches (KnockoutNotions.knockout_mng KnockoutNotions.sample_knockout_round))
  = TourState.done.
Proof.
  refine (proj1 (proj1 (knockout_round_over
                          (KnockoutNotions.knockout_mng
                             KnockoutNotions.sample_knockout_round)
                          _ _ _ _ _) _)).
  - reflexivity.
  - cbn. unfold Int32.max_int. lia.
  - reflexivity.
  - discriminate.
  - repeat constructor; discriminate.
  - vm_compute. lia.
Defined.

End RoundsFacts.

(** ** The manager's tick, driver by driver *)

Module TickLoopFacts.

Import Chess Moves Records Standings Tournament SchedulerNotions ManagerNotions
       TickLoopNotions.

Lemma decidedKept_refl recs : decidedKept recs recs.
Proof. intros k r Hr _. exact Hr. Qed.

Lemma decidedKept_trans l1 l2 l3 :
  decidedKept l1 l2 -> decidedKept l2 l3 -> decidedKept l1 l3.
Proof. intros H12 H23 k r Hr Hs. apply H23; [apply H12; assumption | exact Hs]. Qed.

Lemma decidedKept_app recs new : decidedKept recs (recs ++ new).
Proof. intros k r Hr _. apply lookup_app_l_Some. exact Hr. Qed.

Section TickLoop.

Context {Pool Engine : Type} `{!Collaborators Pool Engine}.

#[local] Abbreviation Mng := (TourMng Pool Engine).

(** The drivers the two loops of [tickWork] leave in the list. *)
Lemma tickGames_kept (tk : Game Engine -> Game Engine) games : forall (t : Mng),
  filter (fun g => isEnded g = false) (fst (tickGames tk games t)) = omap (kept tk) games.
Proof.
  induction games as [| g rest IH]; intros t; cbn [tickGames omap list_omap];
    [reflexivity |].
  unfold kept at 1.
  destruct (decide (gstate (tk g) = GameState.stopped)) as [Hs | Hs].
  - specialize (IH (matchCompleted (Game_setState GameState.ending (tk g)) t)).
    destruct (tickGames tk rest _) as [rest' t']. cbn [fst] in *.
    rewrite Hs, filter_cons, IH.
    rewrite decide_True by reflexivity. reflexivity.
  - specialize (IH t). destruct (tickGames tk rest t) as [rest' t']. cbn [fst] in *.
    rewrite filter_cons, IH. unfold isEnded.
    destruct (gstate (tk g)) eqn:Hst; try contradiction;
      first [rewrite decide_True by reflexivity | rewrite decide_False by discriminate];
      reflexivity.
Qed.

(** [checkToExtendMatches] keeps the records and may add one. *)
Lemma checkToExtendMatches_appends gIdx (t : Mng) :
  exists new, matchRecordList (checkToExtendMatches gIdx t) = matchRecordList t ++ new.
Proof.
  destruct (RecordFacts.extension_cases gIdx t) as [-> | (_ & ext & -> & _)].
  - exists []. rewrite app_nil_r. reflexivity.
  - exists [ext]. reflexivity.
Qed.

(** [matchCompleted] completes the record of the driver with the
    driver's result. *)
Lemma matchCompleted_here (game : Game Engine) (t : Mng) :
  0 <= idx game < Z.of_nat (length (matchRecordList t)) ->
  exists r, matchRecordList (matchCompleted game t) !! Z.to_nat (idx game) = Some r /\
            Records.state r = MatchState.completed /\ resultType r = gresult game.
Proof.
  intros Hrange. unfold matchCompleted.
  rewrite (proj2 (andb_true_iff _ _)) by (split; [apply Z.leb_le | apply Z.ltb_lt]; lia).
  match goal with
  | |- context [checkToExtendMatches ?i ?t0] =>
      destruct (checkToExtendMatches_appends i t0) as [new ->]
  end.
  cbn [set_matchRecordList matchRecordList].
  destruct (lookup_lt_is_Some_2 (matchRecordList t) (Z.to_nat (idx game)) ltac:(lia))
    as [r0 Hr0].
  eexists. split.
  - apply lookup_app_l_Some. rewrite list_lookup_alter, decide_True by reflexivity.
    rewrite Hr0. reflexivity.
  - split; reflexivity.
Qed.

(** A completed record stays completed through [matchCompleted], and
    stays as it is when the driver is on another board. *)
Lemma matchCompleted_keeps (game : Game Engine) (t : Mng) (k : nat) (r : MatchRecord) :
  matchRecordList t !! k = Some r -> Records.state r = MatchState.completed ->
  exists r', matchRecordList (matchCompleted game t) !! k = Some r' /\
             Records.state r' = MatchState.completed /\
             (idx game <> Z.of_nat k -> r' = r).
Proof.
  intros Hr Hs. unfold matchCompleted.
  match goal with
  | |- context [checkToExtendMatches ?i ?t0] =>
      destruct (checkToExtendMatches_appends i t0) as [new ->]
  end.
  destruct ((0 <=? idx game) && (idx game <? Z.of_nat (length (matchRecordList t))))
    eqn:Hin; cbn [set_matchRecordList matchRecordList].
  - destruct (decide (Z.to_nat (idx game) = k)) as [E | E].
    + subst k. eexists. split.
      * apply lookup_app_l_Some. rewrite list_lookup_alter, decide_True by reflexivity.
        rewrite Hr. reflexivity.
      * split; [reflexivity |]. intros Hne. exfalso.
        apply andb_true_iff in Hin as [H0 _]. apply Z.leb_le in H0. lia.
    + exists r. split.
      * apply lookup_app_l_Some. rewrite list_lookup_alter, decide_False by exact E.
        exact Hr.
      * split; [exact Hs | reflexivity].
  - exists r. split; [apply lookup_app_l_Some; exact Hr |].
    split; [exact Hs | reflexivity].
Qed.

(** A completed record stays completed through the first loop of
    [tickWork], and stays as it is when no driver read [stopped] is on
    its board. *)
Lemma tickGames_keeps (tk : Game Engine -> Game Engine) games :
  forall (t : Mng) (k : nat) (r : MatchRecord),
    matchRecordList t !! k = Some r -> Records.state r = MatchState.completed ->
    exists r', matchRecordList (snd (tickGames tk games t)) !! k = Some r' /\
               Records.state r' = MatchState.completed /\
               ((forall g2, g2 ∈ games -> gstate (tk g2) = GameState.stopped ->
                            idx (tk g2) <> Z.of_nat k) -> r' = r).
Proof.
  induction games as [| g rest IH]; intros t k r Hr Hs; cbn [tickGames].
  - exists r. split; [exact Hr |]. split; [exact Hs | reflexivity].
  - destruct (decide (gstate (tk g) = GameState.stopped)) as [Hst | Hst].
    + destruct (matchCompleted_keeps (Game_setState GameState.ending (tk g)) t k r Hr Hs)
        as (r1 & Hr1 & Hs1 & Hsame1).
      destruct (IH (matchCompleted (Game_setState GameState.ending (tk g)) t) k r1 Hr1 Hs1)
        as (r2 & Hr2 & Hs2 & Hsame2).
      destruct (tickGames tk rest _) as [rest' t']. cbn [snd] in *.
      exists r2. split; [exact Hr2 |]. split; [exact Hs2 |].
      intros Hother. rewrite Hsame2.
      * apply Hsame1. cbn [Game_setState idx].
        apply Hother; [apply elem_of_cons; left; reflexivity | exact Hst].
      * intros g2 Hg2. apply Hother. apply elem_of_cons. right. exact Hg2.
    + destruct (IH t k r Hr Hs) as (r2 & Hr2 & Hs2 & Hsame2).
      destruct (tickGames tk rest t) as [rest' t']. cbn [snd] in *.
      exists r2. split; [exact Hr2 |]. split; [exact Hs2 |].
      intros Hother. apply Hsame2.
      intros g2 Hg2. apply Hother. apply elem_of_cons. right. exact Hg2.
Qed.

(** The first loop of [tickWork] completes the record of every driver it
    reads [stopped]. *)
Lemma tickGames_completes (tk : Game Engine -> Game Engine) games :
  forall (t : Mng) (i : nat) (g : Game Engine),
    games !! i = Some g -> gstate (tk g) = GameState.stopped ->
    0 <= idx (tk g) < Z.of_nat (length (matchRecordList t)) ->
    exists r, matchRecordList (snd (tickGames tk games t)) !! Z.to_nat (idx (tk g)) = Some r /\
              Records.state r = MatchState.completed /\
              (aloneOnBoard tk games i g -> resultType r = gresult (tk g)).
Proof.
  induction games as [| g0 rest IH]; intros t i g Hg Hst Hrange; [discriminate Hg |].
  cbn [tickGames].
  destruct i as [| i].
  - injection Hg as ->. rewrite decide_True by exact Hst.
    destruct (matchCompleted_here (Game_setState GameState.ending (tk g)) t Hrange)
      as (r1 & Hr1 & Hs1 & Hres1).
    cbn [Game_setState idx gresult] in Hr1, Hres1.
    destruct (tickGames_keeps tk rest
                (matchCompleted (Game_setState GameState.ending (tk g)) t)
                _ r1 Hr1 Hs1) as (r2 & Hr2 & Hs2 & Hsame2).
    destruct (tickGames tk rest _) as [rest' t']. cbn [snd] in *.
    exists r2. split; [exact Hr2 |]. split; [exact Hs2 |].
    intros Halone. rewrite Hsame2; [exact Hres1 |].
    intros g2 Hg2 Hst2. apply list_elem_of_lookup in Hg2 as [j Hj].
    rewrite Z2Nat.id by lia.
    apply (Halone (S j) g2); [discriminate | exact Hj | exact Hst2].
  - cbn in Hg.
    assert (Halone' : aloneOnBoard tk (g0 :: rest) (S i) g -> aloneOnBoard tk rest i g).
    { intros Halone j g2 Hj Hg2. apply (Halone (S j) g2); [lia | exact Hg2]. }
    destruct (decide (gstate (tk g0) = GameState.stopped)) as [Hst0 | Hst0].
    + assert (Hrange' : 0 <= idx (tk g)
                          < Z.of_nat (length (matchRecordList
                               (matchCompleted (Game_setState GameState.ending (tk g0)) t)))).
      { destruct (LifeFacts.matchCompleted_continues
                    (Game_setState GameState.ending (tk g0)) t) as [Hlen _]. lia. }
      destruct (IH (matchCompleted (Game_setState GameState.ending (tk g0)) t) i g Hg Hst
                  Hrange') as (r & Hr & Hs & Hres).
      destruct (tickGames tk rest _) as [rest' t']. cbn [snd] in *.
      exists r. split; [exact Hr |]. split; [exact Hs |].
      intros Halone. apply Hres, Halone', Halone.
    + destruct (IH t i g Hg Hst Hrange) as (r & Hr & Hs & Hres).
      destruct (tickGames tk rest t) as [rest' t']. cbn [snd] in *.
      exists r. split; [exact Hr |]. split; [exact Hs |].
      intros Halone. apply Hres, Halone', Halone.
Qed.

(** The loop of [playMatches] leaves completed records alone. *)
Lemma playMatches_loop_keeps recs : forall (t : Mng),
  decidedKept recs (fst (playMatches_loop recs t)).
Proof.
  induction recs as [| m rest IH]; intros t; cbn [playMatches_loop];
    [apply decidedKept_refl |].
  destruct (decide (Records.state m <> MatchState.none)) as [Hm | Hm].
  - specialize (IH t). destruct (playMatches_loop rest t) as [rest' t']. cbn [fst] in *.
    intros [| k] r Hr Hs; [exact Hr |]. cbn in Hr |- *. apply IH; assumption.
  - apply dec_stable in Hm.
    destruct (createMatch m t) as [m' t1].
    destruct (atCapacity t1).
    + cbn [fst]. intros [| k] r Hr Hs; [| exact Hr].
      cbn in Hr. injection Hr as <-. rewrite Hm in Hs. discriminate Hs.
    + specialize (IH t1). destruct (playMatches_loop rest t1) as [rest' t']. cbn [fst] in *.
      intros [| k] r Hr Hs.
      * cbn in Hr. injection Hr as <-. rewrite Hm in Hs. discriminate Hs.
      * cbn in Hr |- *. apply IH; assumption.
Qed.

(** [createNextRoundMatches] keeps the records and adds a round. *)
Lemma createNextRoundMatches_appends (t : Mng) :
  exists new, matchRecordList (snd (createNextRoundMatches t)) = matchRecordList t ++ new.
Proof.
  assert (Hnone : exists new : list MatchRecord, matchRecordList t = matchRecordList t ++ new)
    by (exists []; rewrite app_nil_r; reflexivity).
  unfold createNextRoundMatches, createNextKnockoutMatchList.
  destruct (type t); try exact Hnone.
  match goal with
  | |- context [createKnockoutMatchList ?v ?rd t] =>
      destruct (decide (2 <= length v)%nat) as [Hlen | Hlen];
      [ destruct (SeedingFacts.knockout_round_cases v rd t Hlen) as (new & Hnew & _);
        exists new; exact Hnew
      | unfold createKnockoutMatchList;
        rewrite (proj2 (Nat.ltb_lt _ _)) by lia; exact Hnone ]
  end.
Qed.

(** [playMatches] leaves completed records alone. *)
Lemma playMatches_keeps (t : Mng) :
  decidedKept (matchRecordList t) (matchRecordList (playMatches t)).
Proof.
  unfold playMatches.
  destruct (matchRecordList t) as [| m0 recs0] eqn:Hrecs.
  { cbn. rewrite Hrecs. apply decidedKept_refl. }
  destruct (atCapacity t); [rewrite Hrecs; apply decidedKept_refl |].
  pose proof (playMatches_loop_keeps (m0 :: recs0) t) as Hloop.
  destruct (playMatches_loop (m0 :: recs0) t) as [recs t1]. cbn [fst] in Hloop.
  cbn [set_matchRecordList gameList].
  destruct (gameList t1) as [| g gs]; [| exact Hloop].
  destruct (createNextRoundMatches_appends (set_matchRecordList recs t1)) as [new Hnew].
  cbn [set_matchRecordList matchRecordList] in Hnew.
  destruct (createNextRoundMatches (set_matchRecordList recs t1)) as [added t2].
  cbn [snd] in Hnew.
  assert (H2 : decidedKept (m0 :: recs0) (matchRecordList t2)).
  { rewrite Hnew. eapply decidedKept_trans; [exact Hloop | apply decidedKept_app]. }
  destruct added; exact H2.
Qed.

(** One tick of the manager, driver by driver, by the state the first
    loop of [tickWork] reads after the driver's own tick (an engine
    thread that stops a driver later is seen by the next tick).  The
    list afterwards holds, in their order, the drivers that were read in
    a state other than [ended], those read [stopped] now in [ending],
    followed by the drivers [playMatches] has created, all in [begin].
    And the record of a driver read [stopped], its board number being a
    position of the schedule, is completed after the tick, with the
    driver's result when no other driver of the list was read [stopped]
    on the same board. *)
Theorem tick_handles_each_driver (tk : Game Engine -> Game Engine) (t : Mng) :
  (exists new,
      gameList (tickWork tk t) = omap (kept tk) (gameList t) ++ new /\
      Forall (fun g => gstate g = GameState.begin) new) /\
  (forall (i : nat) (g : Game Engine),
      gameList t !! i = Some g -> gstate (tk g) = GameState.stopped ->
      0 <= idx (tk g) < Z.of_nat (length (matchRecordList t)) ->
      exists r,
        matchRecordList (tickWork tk t) !! Z.to_nat (idx (tk g)) = Some r /\
        Records.state r = MatchState.completed /\
        (aloneOnBoard tk (gameList t) i g -> resultType r = gresult (tk g))).
Proof.
  unfold tickWork.
  pose proof (tickGames_kept tk
                (gameList (set_playerMng (pool_tick (playerMng t)) t))
                (set_playerMng (pool_tick (playerMng t)) t)) as Hkept.
  pose proof (tickGames_completes tk
                (gameList (set_playerMng (pool_tick (playerMng t)) t))
                (set_playerMng (pool_tick (playerMng t)) t)) as Hdone.
  destruct (tickGames tk _ _) as [games t1]. cbn [fst snd] in Hkept, Hdone.
  cbn [set_playerMng gameList matchRecordList] in Hkept, Hdone.
  match goal with
  | |- context [set_gameList ?a ?b] => set (t2 := set_gameList a b)
  end.
  assert (Hg2 : gameList t2 = omap (kept tk) (gameList t)) by exact Hkept.
  assert (Hr2 : matchRecordList t2 = matchRecordList t1) by reflexivity.
  split.
  - destruct (decide (state t2 = TourState.playing)).
    + destruct (LifeFacts.playMatches_effect t2) as (_ & new & Hnew & Hbegin).
      exists new. split; [rewrite Hnew, Hg2; reflexivity | exact Hbegin].
    + exists []. rewrite app_nil_r. split; [exact Hg2 | constructor].
  - intros i g Hg Hst Hrange.
    destruct (Hdone i g Hg Hst Hrange) as (r & Hr & Hs & Hres).
    exists r. split; [| split; [exact Hs | exact Hres]].
    destruct (decide (state t2 = TourState.playing)); [| rewrite Hr2; exact Hr].
    apply playMatches_keeps; [rewrite Hr2; exact Hr | exact Hs].
Qed.

End TickLoop.

(** The theorem on the sample tournament at its second tick: the two
    drivers started by the first tick finish with a White win and are
    read [stopped]; they stay in the list in [ending], and the first
    record is completed as a win. *)
Lemma tick_handles_each_driver_witness :
  gameList (tickWork sample_tick sample_running)
    = [mkGame 0 GameState.ending win (Some "B"%string) (Some "A"%string);
       mkGame 1 GameState.ending win (Some "C"%string) (Some "A"%string)] /\
  exists r, matchRecordList (tickWork sample_tick sample_running) !! 0%nat = Some r /\
            Records.state r = MatchState.completed /\ resultType r = win.
Proof.
  destruct (tick_handles_each_driver sample_tick sample_running) as [Hlist Hrec].
  split.
  - destruct Hlist as (new & Hnew & _).
    assert (Hlen : length (gameList (tickWork sample_tick sample_running)) = 2%nat)
      by (vm_compute; reflexivity).
    rewrite Hnew in Hlen |- *. rewrite length_app in Hlen.
    destruct new as [| g new]; [rewrite app_nil_r; reflexivity |].
    exfalso. vm_compute in Hlen. lia.
  - destruct (Hrec 0%nat (mkGame 0 GameState.begin noresult (Some "B"%string)
                            (Some "A"%string)))
      as (r & Hr & Hs & Hres).
    + reflexivity.
    + reflexivity.
    + vm_compute. split; [discriminate | reflexivity].
    + exists r. split; [exact Hr |]. split; [exact Hs |].
      apply Hres. intros j g2 Hj Hg2 _.
      destruct j as [| [| j]]; [contradiction | | discriminate Hg2].
      vm_compute in Hg2. injection Hg2 as <-. discriminate.
Defined.

End TickLoopFacts.


(** ** More on the game driver *)

Module DriverMore.

Import Chess Moves Outcome GameDriver DriverNotions DriverMoreNotions.

(** Case analysis on every test a returned computation went through. *)
Ltac by_cases H :=
  repeat first
    [ discriminate H
    | progress (cbn [mbind outcome_bind bind mret outcome_ret] in H)
    | match type of H with
      | context [match ?c with _ => _ end] => destruct c eqn:?
      | context [mbind _ ?m] =>
          lazymatch m with
          | mbind _ _ => fail
          | _ => destruct m eqn:?
          end
      end ].

Section Answers.

Context {Position Time Clock : Type} `{!Rules Position Time Clock}.

#[local] Abbreviation G := (Game Position Time Clock).

Lemma log_keeps msg (g g' : G) :
  log msg g = Returns g' ->
  state g' = state g /\ board g' = board g /\ players g' = players g /\
  logged g' = logged g ++ [(msg, system)].
Proof.
  unfold log. destruct (messageLogger g); [| discriminate].
  intros [= <-]. repeat split.
Qed.

(** The answer of [make] tells whether the game goes on: with [true] the
    state is as before; with [false] the game is stopped, with a result
    other than "no result". *)
Lemma make_answer (g g' : G) (move : Move) (moveStr : string) (made : bool) :
  make move moveStr g = Returns (made, g') ->
  if made then state g' = state g
  else state g' = GameState.stopped /\ result (bresult (board g')) <> noresult.
Proof.
  intros H. destruct made.
  { destruct (DriverFacts.make_true_inv g g' move moveStr H)
      as (h & pN & _ & _ & _ & _ & _ & Hs & _). exact Hs. }
  unfold make in H.
  destruct (checkMake (board g) (from move) (dest move) (promotion move))
    as [made b'] eqn:Hcheck.
  by_cases H.
  all: try (injection H as <-).
  all: unfold gameOver_winner.
  all: match goal with
       | |- context [gameOver ?r ?x] =>
           destruct (DriverFacts.gameOver_effect r x) as (E1 & E2 & _)
       end;
       rewrite E1, E2; split; [reflexivity |].
  all: try assumption; cbn; try case_decide; discriminate.
Qed.

Lemma gameOver_board result (g : G) :
  board (gameOver result g) = set_bresult result (board g).
Proof. destruct g as [st tk b pw pb tc gc ml lg]. destruct pw, pb; reflexivity. Qed.

Lemma tell_keeps sd c (g g' : G) :
  tell sd c g = Returns g' ->
  state g' = state g /\ board g' = board g /\ logged g' = logged g.
Proof.
  unfold tell, deref. destruct (players g sd); [| discriminate].
  cbn. intros [= <-]. destruct sd; repeat split.
Qed.

Lemma startThinking_keeps pondermove (g g' : G) :
  startThinking pondermove g = Returns g' ->
  state g' = state g /\ board g' = board g.
Proof.
  unfold startThinking. intros H. by_cases H.
  apply tell_keeps in H as (B1 & B2 & _).
  match goal with
  | H1 : tell _ _ _ = Returns _ |- _ => apply tell_keeps in H1 as (A1 & A2 & _)
  end.
  split; [rewrite B1, A1 | rewrite B2, A2]; reflexivity.
Qed.

(** [checkTimeOver] answers [false] and does nothing while the clock of
    the side to move has not run out; otherwise it answers [true] and has
    stopped the game as a loss on time of the side to move, the position
    being as it was. *)
Lemma checkTimeOver_cases (g g1 : G) (over : bool) :
  checkTimeOver g = Returns (over, g1) ->
  (over = false /\ g1 = g /\ isTimeOver (timeController g) (side (board g)) = false)
  \/ (over = true /\ isTimeOver (timeController g) (side (board g)) = true /\
      state g1 = GameState.stopped /\
      board g1 = set_bresult (mkResult (winBy (getXSide (side (board g)))) timeout)
                   (board g)).
Proof.
  unfold checkTimeOver. intros H.
  destruct (isTimeOver (timeController g) (side (board g))) eqn:Hover.
  - right. by_cases H; injection H as <- <-.
    all: repeat match goal with
                | Hl : log _ _ = Returns _ |- _ =>
                    apply log_keeps in Hl as (L1 & L2 & _)
                end.
    all: unfold gameOver_winner.
    all: match goal with
         | |- context [gameOver ?r ?x] =>
             destruct (DriverFacts.gameOver_effect r x) as (E1 & _);
             rewrite E1, (gameOver_board r x)
         end.
    all: rewrite ?L2; repeat (split; [reflexivity |]).
    all: destruct (side (board g)); reflexivity.
  - left. injection H as <- <-. auto.
Qed.

(** What a reported move can do to the state of the game: nothing, or
    stop a game that was playing, with a result other than "no result".
    A move for a game that is not playing, or of the side that is not to
    move, changes nothing at all, and writes no line. *)
Theorem reported_move_and_state (g g' : G) (move : Move) (moveStr : string)
    (ponderMove : Move) (timeConsumed : Time) (sd0 : Side)
    (oldState : EngineComputingState) :
  moveFromPlayer move moveStr ponderMove timeConsumed sd0 oldState g = Returns g' ->
  (state g' = state g \/
   (state g = GameState.playing /\ state g' = GameState.stopped /\
    result (bresult (board g')) <> noresult)) /\
  (state g <> GameState.playing \/ side (board g) <> sd0 -> g' = g).
Proof.
  unfold moveFromPlayer. intros H.
  destruct (decide (state g <> GameState.playing \/ side (board g) <> sd0)) as [Hd | Hd].
  { injection H as <-. split; [left; reflexivity | reflexivity]. }
  split; [| tauto].
  assert (Hst : state g = GameState.playing)
    by (destruct (decide (state g = GameState.playing)); tauto).
  rewrite (decide_False (P := state g <> GameState.playing)) in H by tauto.
  cbn [mbind outcome_bind bind mret outcome_ret] in H.
  destruct (checkTimeOver g) as [[over g1] | |] eqn:Hct;
    cbn [mbind outcome_bind bind mret outcome_ret] in H; try discriminate H.
  apply checkTimeOver_cases in Hct as [(-> & -> & Hover) | (-> & Hover & Hs1 & Hb1)].
  - rewrite bool_decide_false in H by tauto. cbn [orb] in H.
    destruct oldState.
    + injection H as <-. left. reflexivity.
    + cbn [mbind outcome_bind bind mret outcome_ret] in H.
      destruct (make move moveStr g) as [[made g2] | |] eqn:Hmake;
        cbn [mbind outcome_bind bind mret outcome_ret] in H; try discriminate H.
      apply make_answer in Hmake. destruct made.
      * by_cases H; apply startThinking_keeps in H as (S1 & _);
          left; rewrite S1; cbn; exact Hmake.
      * injection H as <-. right. split; [exact Hst | exact Hmake].
    + apply tell_keeps in H as (T1 & _). left. exact T1.
  - cbn [orb] in H. apply log_keeps in H as (L1 & L2 & _).
    right. split; [exact Hst |]. split; [congruence |].
    rewrite L2, Hb1. cbn. destruct (getXSide (side (board g))); discriminate.
Qed.

(** A move that arrives after the clock of its side has run out (in a
    game that is playing, with a logger and both players attached) is not
    made, whatever the engine was doing: the game is stopped as a win on
    time of the other side, history and position are as before, both
    players are told to stop thinking, and two lines are logged, the time
    left and ["TimeOver for <move>"]. *)
Theorem late_move_times_out (g : G) (move : Move) (moveStr : string)
    (ponderMove : Move) (timeConsumed : Time) (sd0 : Side)
    (oldState : EngineComputingState) (pw pb : Player) :
  state g = GameState.playing ->
  side (board g) = sd0 ->
  isTimeOver (timeController g) sd0 = true ->
  messageLogger g = true ->
  players g white = Some pw -> players g black = Some pb ->
  exists g',
    moveFromPlayer move moveStr ponderMove timeConsumed sd0 oldState g = Returns g' /\
    state g' = GameState.stopped /\
    board g' = set_bresult (mkResult (winBy (getXSide sd0)) timeout) (board g) /\
    logged g' = logged g
                ++ [(timeLeftText (getName pb) (getName pw) (timeController g) sd0, system);
                    ("TimeOver for " +:+ moveToString move, system)] /\
    forall sd, players g' sd = send stopThinking <$> players g sd.
Proof.
  intros Hst Hsd Hover Hlog Hw Hb.
  destruct g as [st tk b w bl tc gc ml lg]. cbn in Hst, Hsd, Hover, Hlog, Hw, Hb.
  subst st ml w bl sd0.
  unfold moveFromPlayer. cbn [state board].
  rewrite (decide_False (P := GameState.playing <> GameState.playing \/ side b <> side b))
    by (intros [H | H]; apply H; reflexivity).
  rewrite (decide_False (P := GameState.playing <> GameState.playing))
    by (intros H; apply H; reflexivity).
  unfold checkTimeOver. cbn [timeController board messageLogger].
  rewrite Hover. unfold deref, log. cbn.
  eexists. split; [reflexivity |]. cbn.
  split; [reflexivity |].
  split; [destruct (side b); reflexivity |].
  split; [rewrite <- app_assoc; reflexivity |].
  intros sd. destruct sd; reflexivity.
Qed.

(** A move reported by an engine that was not thinking is never put on
    the board: history, position and side to move are as before.  When
    the engine was pondering (a missed ponder hit) and nothing stops the
    move, its player is told [go]. *)
Theorem only_thinking_moves_are_made (g g' : G) (move : Move) (moveStr : string)
    (ponderMove : Move) (timeConsumed : Time) (sd0 : Side)
    (oldState : EngineComputingState) :
  oldState <> thinking ->
  moveFromPlayer move moveStr ponderMove timeConsumed sd0 oldState g = Returns g' ->
  (histList (board g') = histList (board g) /\
   position (board g') = position (board g) /\
   side (board g') = side (board g)) /\
  (oldState = pondering -> state g = GameState.playing -> side (board g) = sd0 ->
   isTimeOver (timeController g) sd0 = false ->
   exists p, players g sd0 = Some p /\ g' = set_players sd0 (Some (send go p)) g).
Proof.
  intros Hold H. unfold moveFromPlayer in H.
  destruct (decide (state g <> GameState.playing \/ side (board g) <> sd0)) as [Hd | Hd].
  { injection H as <-. split; [repeat split | tauto]. }
  assert (Hst : state g = GameState.playing)
    by (destruct (decide (state g = GameState.playing)); tauto).
  assert (Hsd : side (board g) = sd0)
    by (destruct (decide (side (board g) = sd0)); tauto).
  rewrite (decide_False (P := state g <> GameState.playing)) in H by tauto.
  cbn [mbind outcome_bind bind mret outcome_ret] in H.
  destruct (checkTimeOver g) as [[over g1] | |] eqn:Hct;
    cbn [mbind outcome_bind bind mret outcome_ret] in H; try discriminate H.
  apply checkTimeOver_cases in Hct as [(-> & -> & Hover) | (-> & Hover & Hs1 & Hb1)].
  - rewrite bool_decide_false in H by tauto. cbn [orb] in H.
    destruct oldState; [| contradiction |].
    + injection H as <-. split; [repeat split | discriminate].
    + split.
      * apply tell_keeps in H as (_ & T2 & _). rewrite T2. repeat split.
      * intros _ _ _ _. unfold tell, deref in H. rewrite Hsd in H.
        destruct (players g sd0) as [p |]; [| discriminate H].
        cbn in H. injection H as <-. exists p. split; reflexivity.
  - cbn [orb] in H. apply log_keeps in H as (_ & L2 & _).
    split; [rewrite L2, Hb1; repeat split |].
    intros _ _ _ Hno. rewrite Hsd, Hno in Hover. discriminate Hover.
Qed.

(** The test of [make] for the adjudication by length. *)
Lemma lengthHit_reached (cfg : GameConfig) (b : Board Position Time) :
  adjudicationMode cfg && negb (adjudicationMaxGameLength cfg =? 0)
  && (Z.of_nat (length (histList b)) >=? Int32.to_size_t (adjudicationMaxGameLength cfg))
  = true <-> lengthReached cfg b.
Proof.
  unfold lengthReached.
  rewrite !andb_true_iff, negb_true_iff, Z.eqb_neq, Z.geb_le. tauto.
Qed.

(** At most one result ends the game at a move. *)
Lemma verdict_unique (cfg : GameConfig) (ok : bool) (b : Board Position Time) (R R' : Result) :
  verdict cfg ok b R -> verdict cfg ok b R' -> R = R'.
Proof.
  intros H H'. destruct H, H'; try reflexivity; try congruence; contradiction.
Qed.

(** The end of [make] when nothing ends the game. *)
Lemma make_goes_on (g1 g' : G) (gc : GameConfig) (b' : Board Position Time)
    (move : Move) (answer : bool) :
  board g1 = b' ->
  result (rule b') = noresult -> ~ lengthReached gc b' ->
  (adjudicationMode gc = true -> adjudicationEgtbMode gc = true ->
   result (fst (probeSyzygy b' (adjudicationMaxPieces gc))) = noresult) ->
  match last (histList (board g1)) with
  | None => Throws
  | Some h =>
      g2 ← tell (side (board g1)) (oppositeMadeMove move (moveString h)) g1;
      mret (true, g2)
  end = Returns (answer, g') ->
  answer = true /\ board g' = b' /\ forall R, ~ verdict gc true b' R.
Proof.
  intros Hb1 Hrule Hnl Hnone Hrun.
  destruct (last (histList (board g1))) as [h |]; [| discriminate Hrun].
  destruct (tell (side (board g1)) (oppositeMadeMove move (moveString h)) g1)
    as [g2 | |] eqn:Htell; cbn in Hrun; try discriminate Hrun.
  injection Hrun as <- <-.
  apply tell_keeps in Htell as (_ & T2 & _).
  split; [reflexivity |]. split; [congruence |].
  intros R HV. destruct HV as [E | E HR | E HR HL | E HR HL HA HE HT];
    try discriminate E; try contradiction.
  apply HT, Hnone; assumption.
Qed.

(** What [make] answers and leaves on the board, by the result that ends
    the game at the move. *)
Lemma make_verdict (g g' : G) (move : Move) (moveStr : string) (answer : bool) :
  make move moveStr g = Returns (answer, g') ->
  let cm := checkMake (board g) (from move) (dest move) (promotion move) in
  if answer then board g' = cm.2 /\ forall R, ~ verdict (gameConfig g) cm.1 cm.2 R
  else exists R, verdict (gameConfig g) cm.1 cm.2 R /\ board g' = set_bresult R cm.2.
Proof.
  intros H. unfold make in H.
  destruct (checkMake (board g) (from move) (dest move) (promotion move))
    as [ok b'] eqn:Hcheck.
  cbn zeta. cbn [fst snd].
  set (g0 := set_board b' g) in *.
  assert (Hb0 : board g0 = b') by (destruct g; reflexivity).
  assert (Hc0 : gameConfig g0 = gameConfig g) by (destruct g; reflexivity).
  rewrite Hb0, Hc0 in H. clearbody g0.
  set (gc := gameConfig g) in *. clearbody gc.
  destruct ok.
  - destruct (decide (result (rule b') <> noresult)) as [Hr | Hr].
    { injection H as <- <-. exists (rule b'). split.
      - apply verdict_rule; [reflexivity | exact Hr].
      - rewrite gameOver_board, Hb0. reflexivity. }
    assert (Hr' : result (rule b') = noresult)
      by (destruct (decide (result (rule b') = noresult)); [assumption | contradiction]).
    destruct (adjudicationMode gc && negb (adjudicationMaxGameLength gc =? 0)
              && (Z.of_nat (length (histList b'))
                  >=? Int32.to_size_t (adjudicationMaxGameLength gc))) eqn:Hlen.
    { injection H as <- <-. exists (mkResult draw adjudication). split.
      - apply verdict_length; [reflexivity | exact Hr' |].
        apply lengthHit_reached. exact Hlen.
      - rewrite gameOver_board, Hb0. reflexivity. }
    assert (Hnl : ~ lengthReached gc b').
    { intros Hl. apply lengthHit_reached in Hl. congruence. }
    destruct (adjudicationMode gc && adjudicationEgtbMode gc) eqn:Htb.
    + destruct (probeSyzygy b' (adjudicationMaxPieces gc)) as [res tberror] eqn:Hps.
      destruct (decide (result res = noresult)) as [Hno | Hyes].
      * assert (Hnone : adjudicationMode gc = true -> adjudicationEgtbMode gc = true ->
                        result (fst (probeSyzygy b' (adjudicationMaxPieces gc))) = noresult)
          by (intros _ _; rewrite Hps; exact Hno).
        assert (Hsplit : exists g1 : G,
                   board g1 = b' /\
                   match last (histList (board g1)) with
                   | None => Throws
                   | Some h =>
                       g2 ← tell (side (board g1))
                              (oppositeMadeMove move (moveString h)) g1;
                       mret (true, g2)
                   end = Returns (answer, g')).
        { destruct tberror.
          - destruct (last (histList b')) as [h |] eqn:Hlast; [| discriminate H].
            destruct (negb (capIsEmpty h)).
            + cbn [mbind outcome_bind bind mret outcome_ret] in H.
              destruct (log _ g0) as [g1 | |] eqn:Hlog; try discriminate H.
              cbn [mbind outcome_bind bind mret outcome_ret] in H.
              exists g1. split; [| exact H].
              apply log_keeps in Hlog as (_ & L2 & _). congruence.
            + cbn [mbind outcome_bind bind mret outcome_ret] in H.
              exists g0. split; [exact Hb0 | exact H].
          - cbn [mbind outcome_bind bind mret outcome_ret] in H.
            exists g0. split; [exact Hb0 | exact H]. }
        destruct Hsplit as (g1 & Hb1 & Hrun).
        destruct (make_goes_on g1 g' gc b' move answer Hb1 Hr' Hnl Hnone Hrun)
          as (-> & Hb & Hnv).
        split; [exact Hb | exact Hnv].
      * cbn [mbind outcome_bind bind mret outcome_ret] in H.
        injection H as <- <-. exists res. split.
        -- replace res with (fst (probeSyzygy b' (adjudicationMaxPieces gc)))
             by (rewrite Hps; reflexivity).
           apply andb_true_iff in Htb as [HA HE].
           apply verdict_tablebase; try assumption; try reflexivity.
           rewrite Hps. exact Hyes.
        -- rewrite gameOver_board, Hb0. reflexivity.
    + cbn [mbind outcome_bind bind mret outcome_ret] in H.
      assert (Hnone : adjudicationMode gc = true -> adjudicationEgtbMode gc = true ->
                      result (fst (probeSyzygy b' (adjudicationMaxPieces gc))) = noresult)
        by (intros HA HE; rewrite HA, HE in Htb; discriminate Htb).
      destruct (make_goes_on g0 g' gc b' move answer Hb0 Hr' Hnl Hnone H)
        as (-> & Hb & Hnv).
      split; [exact Hb | exact Hnv].
  - destruct (deref g0 _) as [p | |]; try discriminate H.
    cbn [mbind outcome_bind bind mret outcome_ret] in H.
    destruct (log _ g0) as [g1 | |] eqn:Hlog; try discriminate H.
    cbn [mbind outcome_bind bind mret outcome_ret] in H.
    injection H as <- <-.
    apply log_keeps in Hlog as (_ & L2 & _).
    exists (mkResult (winBy (getXSide (side b'))) illegalmove). split.
    + apply verdict_illegal. reflexivity.
    + unfold gameOver_winner. rewrite gameOver_board, L2, Hb0.
      f_equal. f_equal. destruct (side b'); reflexivity.
Qed.

(** The answer of [make] tells whether the game goes on, and which
    result ends it.  With [true] the state is as before, the board is
    the one [checkMake] left, and nothing ends the game: the move was
    legal, the rules give no result, the length adjudication does not
    apply and no tablebase result was asked for and found.  With [false]
    the game has been stopped and every attached player has been told to
    stop thinking and nothing else; the board is the one [checkMake]
    left with its result set to the one result that ends the game: the
    loss of the side that sent an illegal move, else the result of the
    rules, else the draw by adjudication, else the tablebase result; in
    each case other than "no result". *)
Theorem make_answer_and_state (g g' : G) (move : Move) (moveStr : string) (made : bool) :
  make move moveStr g = Returns (made, g') ->
  let cm := checkMake (board g) (from move) (dest move) (promotion move) in
  if made then
    state g' = state g /\ board g' = cm.2 /\
    forall R, ~ verdict (gameConfig g) cm.1 cm.2 R
  else
    state g' = GameState.stopped /\ result (bresult (board g')) <> noresult /\
    (forall sd, players g' sd = send stopThinking <$> players g sd) /\
    exists R, verdict (gameConfig g) cm.1 cm.2 R /\
              (forall R', verdict (gameConfig g) cm.1 cm.2 R' -> R' = R) /\
              board g' = set_bresult R cm.2.
Proof.
  intros H. pose proof (make_answer g g' move moveStr made H) as Hanswer.
  pose proof (make_verdict g g' move moveStr made H) as Hverdict.
  cbn zeta in *.
  destruct made.
  { destruct Hverdict as [Hb Hnv]. split; [exact Hanswer |]. split; [exact Hb | exact Hnv]. }
  destruct Hanswer as [Hs Hr]. split; [exact Hs |]. split; [exact Hr |].
  split.
  2:{ destruct Hverdict as (R & HV & Hb). exists R. split; [exact HV |].
      split; [| exact Hb]. intros R' HV'. exact (verdict_unique _ _ _ _ _ HV' HV). }
  unfold make in H.
  destruct (checkMake (board g) (from move) (dest move) (promotion move))
    as [ok b'] eqn:Hcheck.
  by_cases H.
  all: try (injection H as <-).
  all: repeat match goal with
              | Hl : log _ _ = Returns _ |- _ =>
                  apply log_keeps in Hl as (_ & _ & Lp & _)
              end.
  all: unfold gameOver_winner.
  all: intros sd;
       match goal with
       | |- context [gameOver ?r ?x] =>
           destruct (DriverFacts.gameOver_effect r x) as (_ & _ & _ & _ & E5)
       end;
       rewrite E5, ?Lp; reflexivity.
Qed.

End Answers.

(** The theorem on the sample game under rules by which any move mates:
    White plays from 12 to 28, [make] answers [false], the game is
    stopped and the board holds the result of the rules, a win by mate. *)
Lemma make_answer_and_state_witness :
  exists g',
    make (Rules0 := DriverMoreNotions.mating_rules) (mkMove 12 28 0) "e2e4"
      (sample_game true) = Returns (false, g') /\
    state g' = GameState.stopped /\
    board g' = mkBoard black [mkHist white "san" true 0 0 0 0] (mkResult win mate) tt.
Proof.
  destruct (make (Rules0 := DriverMoreNotions.mating_rules) (mkMove 12 28 0) "e2e4"
              (sample_game true)) as [[made g'] | |] eqn:E;
    [| vm_compute in E; discriminate E | vm_compute in E; discriminate E].
  destruct made; [vm_compute in E; discriminate E |].
  exists g'. split; [reflexivity |].
  destruct (make_answer_and_state (Rules0 := DriverMoreNotions.mating_rules) _ _ _ _ false E)
    as (Hs & _ & _ & R & _ & Hu & Hb).
  split; [exact Hs |].
  rewrite Hb.
  rewrite <- (Hu (mkResult win mate)); [reflexivity |].
  exact (DriverMoreNotions.verdict_rule (Rules0 := DriverMoreNotions.mating_rules)
           (mkGameConfig true false 0 false 0) true
           (mkBoard black [mkHist white "san" true 0 0 0 0] (mkResult noresult noreason) tt)
           eq_refl ltac:(discriminate)).
Defined.

(** The theorem on the sample game: White, thinking, plays from 12 to 28;
    the game goes on. *)
Lemma reported_move_and_state_witness :
  exists g',
    moveFromPlayer (mkMove 12 28 0) "e2e4" (mkMove 52 36 0) 5 white thinking
      (sample_game true) = Returns g' /\
    state g' = GameState.playing.
Proof.
  destruct (moveFromPlayer (mkMove 12 28 0) "e2e4" (mkMove 52 36 0) 5 white thinking
              (sample_game true)) as [g' | |] eqn:E;
    [| vm_compute in E; discriminate E | vm_compute in E; discriminate E].
  exists g'. split; [reflexivity |].
  destruct (proj1 (reported_move_and_state _ _ _ _ _ _ _ _ E)) as [H | (_ & H & _)].
  - exact H.
  - vm_compute in E. injection E as <-. discriminate H.
Defined.

(** The theorem on the sample game under rules whose clock has run out
    for White: the move from 12 to 28 is not made, Black wins on time. *)
Lemma late_move_times_out_witness :
  exists g',
    moveFromPlayer (Rules0 := DriverMoreNotions.late_rules)
      (mkMove 12 28 0) "e2e4" (mkMove 52 36 0) 5 white thinking (sample_game false)
    = Returns g' /\
    state g' = GameState.stopped /\
    board g' = mkBoard white [] (mkResult loss timeout) tt.
Proof.
  destruct (late_move_times_out (Rules0 := DriverMoreNotions.late_rules)
              (sample_game false) (mkMove 12 28 0) "e2e4" (mkMove 52 36 0) 5 white
              thinking sample_white sample_black
              eq_refl eq_refl eq_refl eq_refl eq_refl eq_refl)
    as (g' & E & Hs & Hb & _).
  exists g'. split; [exact E |]. split; [exact Hs | exact Hb].
Defined.

(** The theorem on the sample game: White reports a move while it was
    pondering; the board stays empty and White is told [go]. *)
Lemma only_thinking_moves_are_made_witness :
  exists g',
    moveFromPlayer (mkMove 12 28 0) "e2e4" (mkMove 52 36 0) 5 white pondering
      (sample_game true) = Returns g' /\
    histList (board g') = [] /\
    players g' white = Some (send go sample_white).
Proof.
  destruct (moveFromPlayer (mkMove 12 28 0) "e2e4" (mkMove 52 36 0) 5 white pondering
              (sample_game true)) as [g' | |] eqn:E;
    [| vm_compute in E; discriminate E | vm_compute in E; discriminate E].
  exists g'. split; [reflexivity |].
  destruct (only_thinking_moves_are_made _ _ _ _ _ _ _ pondering
              ltac:(discriminate) E) as ((Hh & _) & Hgo).
  split; [exact Hh |].
  destruct (Hgo eq_refl eq_refl eq_refl eq_refl) as (p & Hp & ->).
  cbn in Hp. injection Hp as <-. reflexivity.
Defined.

End DriverMore.

(** ** The schedule through its file *)

Module PersistFacts.

Import Chess Moves Records Outcome Tournament Notions RoundTripNotions Persistence
       PersistenceNotions.

(** The loop over ["recordList"] on the array [saveMatchRecords] writes. *)
Lemma loadRecords_saved (recs : list MatchRecord) : forall (pre : list MatchRecord),
  Forall storable recs ->
  loadRecords (Json.JArray (map saveToJson (pre ++ recs)))
              (Z.of_nat (length (pre ++ recs))) (Z.of_nat (length pre)) (length recs)
  = Returns (map reloaded recs).
Proof.
  induction recs as [| r recs IH]; intros pre Hall; [reflexivity |].
  apply Forall_cons in Hall as [(Hg & Hr & Hp & Hms & Hlen) Hall].
  cbn [length loadRecords].
  rewrite (proj2 (Z.ltb_lt _ _)) by (rewrite length_app; cbn [length]; lia).
  unfold Json.at_index.
  rewrite (proj2 (Z.ltb_ge _ _)) by lia.
  rewrite Nat2Z.id, list_lookup_fmap, lookup_app_r by lia.
  rewrite Nat.sub_diag.
  cbn [lookup list_lookup fmap option_fmap option_map default].
  unfold id. cbn [mbind outcome_bind bind mret outcome_ret].
  rewrite (RoundTripFacts.load_saved_record r Hg Hr Hp Hms Hlen).
  cbn [mbind outcome_bind bind mret outcome_ret].
  specialize (IH (pre ++ [r]) Hall).
  rewrite <- app_assoc in IH. cbn [app] in IH.
  rewrite (length_app pre [r]) in IH. cbn [length] in IH.
  replace (Z.of_nat (length pre) + 1) with (Z.of_nat (length pre + 1)) by lia.
  rewrite IH. reflexivity.
Qed.

Lemma waiting_reloaded (recs : list MatchRecord) :
  filter (fun r => Records.state r = MatchState.none) (map reloaded recs)
  = map reloaded (filter (fun r => resultType r = noresult) recs).
Proof.
  induction recs as [| r recs IH]; [reflexivity |].
  cbn [map]. rewrite !filter_cons, IH.
  cbn [reloaded Records.state].
  destruct (resultType r); cbn [stateOfResult];
    repeat case_decide; try congruence; reflexivity.
Qed.

(** The members of the object [saveMatchRecords] writes. *)
Lemma file_members (typeName : string) (timeControl a : Json.Value) (e : Z) :
  let d := Json.JObject [("type", Json.JString typeName);
                         ("timeControl", timeControl);
                         ("recordList", a);
                         ("elapsed", Json.JInt e)]%string in
  Json.member d "recordList" = Returns a /\
  Json.isMember d "type" = Returns true /\
  Json.member d "type" = Returns (Json.JString typeName) /\
  Json.member d "elapsed" = Returns (Json.JInt e).
Proof. repeat split. Qed.

Section Resuming.

Context {Pool Engine : Type} `{!Collaborators Pool Engine}.

#[local] Abbreviation Mng := (TourMng Pool Engine).

(** Saving and resuming.  Let the schedule file be written by
    [saveMatchRecords] from a manager whose records are storable, and let
    [loadMatchRecords] read it with automatic "yes" into a resumable
    manager.  When a saved record has no result, the tournament is
    resumed: the records are those saved, each with its state set from
    its result and with origin and destination of its opening moves
    exchanged; the type is the saved type; the seconds saved are added to
    the elapsed time; the manager is playing.  When every saved record has
    a result, and also when none was saved, the answer is [false] and the
    manager stays as it was. *)
Theorem resume_restores_schedule (timeControl : Json.Value) (seconds : Z)
    (saved t : Mng) (d : Json.Value) (lines : list string) :
  saveMatchRecords timeControl seconds saved = Returns (Some d) ->
  resumable t = true ->
  Forall storable (matchRecordList saved) ->
  Z.of_nat (length (matchRecordList saved)) <= Int32.max_int ->
  (Exists (fun r => resultType r = noresult) (matchRecordList saved) ->
   loadMatchRecords true (Some d) lines t
   = Returns (true, resumed (matchRecordList saved) (type saved) seconds t)) /\
  (Forall (fun r => resultType r <> noresult) (matchRecordList saved) ->
   loadMatchRecords true (Some d) lines t = Returns (false, t)).
Proof.
  intros Hsave Ht Hall Hmax.
  unfold saveMatchRecords in Hsave.
  destruct (resumable saved); cbn [negb] in Hsave; [| discriminate Hsave].
  destruct (tourTypeNames (type saved)) as [typeName |] eqn:Hname; [| discriminate Hsave].
  set (recs := matchRecordList saved) in *.
  cbv zeta in Hsave.
  match type of Hsave with
  | context [("recordList"%string, ?x)] => set (a := x) in *
  end.
  injection Hsave as <-.
  destruct (file_members typeName timeControl a (Int32.wrap seconds))
    as (M1 & M2 & M3 & M4).
  assert (Hload : loadRecords a (Int32.wrap (Z.of_nat (Json.size a))) 0 (Json.size a)
                  = Returns (map reloaded recs)).
  { subst a. destruct recs as [| r0 recs'] eqn:Hrecs; [reflexivity |].
    cbn [Json.size]. rewrite length_map.
    rewrite Int32Facts.wrap_id
      by (unfold Int32.in_range, Int32.min_int, Int32.max_int in *; lia).
    exact (loadRecords_saved (r0 :: recs') [] Hall). }
  assert (Hcount : (length (filter (fun r => resultType r = noresult) recs)
                    <= length recs)%nat) by apply length_filter.
  unfold loadMatchRecords. rewrite Ht. cbn [negb].
  rewrite M1. cbn [mbind outcome_bind bind mret outcome_ret].
  rewrite Hload. cbn [mbind outcome_bind bind mret outcome_ret].
  rewrite waiting_reloaded, length_map.
  split.
  - intros Hex.
    assert (Hpos : (0 < length (filter (fun r => resultType r = noresult) recs))%nat).
    { apply Exists_exists in Hex as (r & Hin & Hr).
      assert (Hf : r ∈ filter (fun r => resultType r = noresult) recs)
        by (apply list_elem_of_filter; split;
            [exact Hr | first [exact Hin | apply list_elem_of_In; exact Hin]]).
      destruct (filter _ recs); [inversion Hf | cbn; lia]. }
    rewrite Int32Facts.wrap_id
      by (unfold Int32.in_range, Int32.min_int, Int32.max_int in *; lia).
    rewrite (proj2 (Z.eqb_neq _ 0)) by lia.
    cbn [negb]. rewrite M2. cbn [mbind outcome_bind bind mret outcome_ret].
    rewrite M3. cbn [mbind outcome_bind bind mret outcome_ret Json.asString].
    rewrite M4. cbn [mbind outcome_bind bind mret outcome_ret Json.asInt].
    assert (Hr : Int32.in_rangeb (Int32.wrap seconds) = true).
    { pose proof (Int32Facts.wrap_in_range seconds) as [H1 H2].
      unfold Int32.in_rangeb. apply andb_true_intro. split; apply Z.leb_le; assumption. }
    rewrite Hr. cbn [mbind outcome_bind bind mret outcome_ret].
    unfold resumed. do 4 f_equal.
    destruct (type saved); cbn in Hname; try discriminate Hname;
      injection Hname as <-; reflexivity.
  - intros Hnone.
    assert (Hf : filter (fun r => resultType r = noresult) recs = []).
    { clear -Hnone. induction Hnone as [| r l Hr _ IH]; [reflexivity |].
      rewrite filter_cons, decide_False by exact Hr. exact IH. }
    rewrite Hf. reflexivity.
Qed.

End Resuming.

(** The theorem for a knockout saved during its second game. *)
Lemma resume_restores_schedule_witness :
  exists d,
    saveMatchRecords Json.JNull 90 sample_saved = Returns (Some d) /\
    loadMatchRecords true (Some d) [] (Samples.sample_mng TourType.roundrobin 2 1)
    = Returns (true,
               mkTourMng TourType.knockout 2 1 false true
                 [mkMatchRecord "X" "Y" "" [] MatchState.completed win 0 0 7;
                  mkMatchRecord "Y" "X" "" [mkMove 28 12 0] MatchState.none noresult 1 0 7]
                 [] TourState.playing 90 tt 0%nat).
Proof.
  eexists. split; [reflexivity |].
  refine (proj1 (resume_restores_schedule Json.JNull 90 sample_saved
                   (Samples.sample_mng TourType.roundrobin 2 1) _ [] eq_refl eq_refl _ _) _).
  - repeat constructor; vm_compute; congruence.
  - vm_compute. discriminate.
  - right. left. reflexivity.
Defined.

End PersistFacts.

(** ** The tick of the game driver *)

Module TickFacts.

Import Chess Moves Outcome GameDriver DriverNotions GameTicks TickNotions.

Section Ticking.

Context {Position Time Clock : Type} `{!Rules Position Time Clock}
        `{!Handshake Position Time}.

#[local] Abbreviation G := (Game Position Time Clock).

Lemma commandIfAttached_players sd c (g : G) sd' :
  players (commandIfAttached sd c g) sd'
  = if decide (sd' = sd) then c <$> players g sd' else players g sd'.
Proof.
  unfold commandIfAttached.
  destruct g as [st tk b pw pb tc gc ml lg].
  destruct sd, sd', pw, pb; reflexivity.
Qed.

Lemma commandIfAttached_keeps sd c (g : G) :
  state (commandIfAttached sd c g) = state g /\
  stateTick (commandIfAttached sd c g) = stateTick g /\
  board (commandIfAttached sd c g) = board g /\
  timeController (commandIfAttached sd c g) = timeController g.
Proof.
  unfold commandIfAttached. destruct (players g sd); [| repeat split].
  destruct sd; repeat split.
Qed.

(** [newGame] touches the board, the clock and the players only, and
    every attached player is told of the new game. *)
Lemma newGame_keeps su (g g' : G) :
  newGame su g = Returns g' ->
  state g' = state g /\ stateTick g' = stateTick g /\
  timeController g' = setupClocksBeforeThinking (timeController g) 0 /\
  forall sd, players g' sd = player_newGame <$> players g sd.
Proof.
  unfold newGame. intros H.
  assert (Hend : forall gl : G,
             state gl = state g -> stateTick gl = stateTick g ->
             timeController gl = setupClocksBeforeThinking (timeController g) 0 ->
             players gl = players g ->
             g' = commandIfAttached black player_newGame
                    (commandIfAttached white player_newGame gl) ->
             state g' = state g /\ stateTick g' = stateTick g /\
             timeController g' = setupClocksBeforeThinking (timeController g) 0 /\
             forall sd, players g' sd = player_newGame <$> players g sd).
  { intros gl Hs Htk Htc Hp ->.
    destruct (commandIfAttached_keeps black player_newGame
                (commandIfAttached white player_newGame gl)) as (A1 & A2 & _ & A4).
    destruct (commandIfAttached_keeps white player_newGame gl) as (B1 & B2 & _ & B4).
    split; [congruence |]. split; [congruence |]. split; [congruence |].
    intros sd. rewrite !commandIfAttached_players, Hp.
    destruct sd; cbn; destruct (playerW g), (playerB g); reflexivity. }
  destruct (startMoves su) as [| m0 ms].
  - cbn [mbind outcome_bind bind mret outcome_ret] in H. injection H as H.
    eapply Hend; [| | | | symmetry; exact H]; reflexivity.
  - destruct (last (histList _)) in H; [| discriminate H].
    cbn [mbind outcome_bind bind mret outcome_ret] in H. injection H as H.
    eapply Hend; [| | | | symmetry; exact H]; reflexivity.
Qed.

Lemma prepare_effect sd (cnt : Z) (g : G) :
  0 <= cnt < 2 ->
  let '(cnt', g') := prepare sd (cnt, g) in
  state g' = state g /\ stateTick g' = stateTick g /\ board g' = board g /\
  (forall sd', players g' sd'
               = if decide (sd' = sd) then settle <$> players g sd' else players g sd') /\
  cnt' = cnt + (match players g sd with
                | Some p => if isSafeToDeattach p then 0 else 1
                | None => 0
                end).
Proof.
  intros Hc. unfold prepare, settle.
  destruct g as [st tk b pw pb tc gc ml lg].
  assert (Hi : Int32.incr cnt = cnt + 1)
    by (apply Int32Facts.incr_small; unfold Int32.max_int; lia).
  destruct sd; cbn [players playerW playerB].
  - destruct pw as [p |]; [destruct (isSafeToDeattach p) eqn:Hsafe |]; cbn [negb];
      repeat split; try lia; try exact Hi;
      intros sd'; destruct sd'; cbn; rewrite ?Hsafe; reflexivity.
  - destruct pb as [p |]; [destruct (isSafeToDeattach p) eqn:Hsafe |]; cbn [negb];
      repeat split; try lia; try exact Hi;
      intros sd'; destruct sd'; cbn; rewrite ?Hsafe; reflexivity.
Qed.

(** The two counters of the handshake loop, for two attached players
    each of which is through the step, stopped, or neither. *)
Lemma countPlayer_two st (pw pb : option Player) :
  countPlayer st (countPlayer st (0, 0) pw) pb
  = ((match pw with Some p => if okFor st p then 1 else 0 | None => 0 end)
     + (match pb with Some p => if okFor st p then 1 else 0 | None => 0 end),
     (match pw with
      | Some p => if okFor st p then 0
                  else if bool_decide (getState p = PlayerState.stopped) then 1 else 0
      | None => 0
      end)
     + (match pb with
        | Some p => if okFor st p then 0
                    else if bool_decide (getState p = PlayerState.stopped) then 1 else 0
        | None => 0
        end)).
Proof.
  unfold countPlayer.
  destruct pw as [p |], pb as [q |]; cbn [fst snd];
    repeat match goal with
           | |- context [okFor st ?x] => destruct (okFor st x)
           | |- context [bool_decide ?P] => destruct (bool_decide P)
           end;
    cbn [fst snd]; reflexivity.
Qed.

Lemma okFor_not_stopped st p : okFor st p = true -> getState p <> PlayerState.stopped.
Proof.
  unfold okFor. intros H Hs. rewrite Hs in H.
  rewrite !(bool_decide_false (PlayerState.stopped = _)) in H by discriminate.
  rewrite !andb_false_r in H. discriminate H.
Qed.

(** The transitions of the driver's tick.  A tick leaves the state as it
    is, or takes the game from [begin] to [ready], from [ready] to
    [playing], from [ending] to [ended], or from [begin], [ready] or
    [playing] to [stopped]; a game it stops has a result other than "no
    result". *)
Theorem tick_transitions (su : Startup) (lockFree : bool) (g g' : G) :
  tickWork su lockFree g = Returns g' ->
  state g' = state g
  \/ (state g = GameState.begin /\ state g' = GameState.ready)
  \/ (state g = GameState.ready /\ state g' = GameState.playing)
  \/ (state g = GameState.ending /\ state g' = GameState.ended)
  \/ ((state g = GameState.begin \/ state g = GameState.ready
       \/ state g = GameState.playing) /\
      state g' = GameState.stopped /\ result (bresult (board g')) <> noresult).
Proof.
  unfold tickWork. intros H.
  set (g0 := set_stateTick (Int32.incr (stateTick g)) g) in *.
  assert (Hs0 : state g0 = state g) by reflexivity.
  assert (Hcrash : forall r (gl : G),
             result r <> noresult ->
             state (gameOver r gl) = GameState.stopped /\
             result (bresult (board (gameOver r gl))) <> noresult).
  { intros r gl Hr. destruct (DriverFacts.gameOver_effect r gl) as (E1 & E2 & _).
    rewrite E1, E2. split; [reflexivity | exact Hr]. }
  assert (Hhand : (state g = GameState.begin \/ state g = GameState.ready) ->
            (let '(okCnt, stoppedCnt) :=
               countPlayer (state g) (countPlayer (state g) (0, 0) (players g0 white))
                 (players g0 black) in
             if Int32.wrap (okCnt + stoppedCnt) <? 2 then mret g0
             else if okCnt =? 2
                  then if decide (state g = GameState.begin)
                       then newGame su (setState GameState.ready g0)
                       else startThinking illegalMove (setState GameState.playing g0)
                  else
                    let g1 := setState GameState.stopped g0 in
                    if stoppedCnt =? 2 then mret (gameOver (mkResult draw crash) g1)
                    else pw ← deref g1 white;
                         mret (gameOver
                                 (mkResult (if bool_decide (getState pw = PlayerState.stopped)
                                            then loss else win) crash) g1))
            = Returns g' ->
            state g' = state g
            \/ (state g = GameState.begin /\ state g' = GameState.ready)
            \/ (state g = GameState.ready /\ state g' = GameState.playing)
            \/ (state g = GameState.ending /\ state g' = GameState.ended)
            \/ ((state g = GameState.begin \/ state g = GameState.ready
                 \/ state g = GameState.playing) /\
                state g' = GameState.stopped /\ result (bresult (board g')) <> noresult)).
  { intros Hst Hrun.
    destruct (countPlayer _ _ _) as [okCnt stoppedCnt].
    destruct (Int32.wrap (okCnt + stoppedCnt) <? 2).
    { injection Hrun as <-. left. reflexivity. }
    destruct (okCnt =? 2).
    - destruct (decide (state g = GameState.begin)) as [Hb | Hb].
      + apply newGame_keeps in Hrun as (N1 & _). right. left.
        split; [exact Hb | exact N1].
      + apply DriverMore.startThinking_keeps in Hrun as (S1 & _).
        right. right. left. split; [| exact S1].
        destruct Hst as [Hst | Hst]; [congruence | exact Hst].
    - right. right. right. right. split; [tauto |].
      destruct (stoppedCnt =? 2).
      + injection Hrun as <-. apply Hcrash. discriminate.
      + cbv zeta in Hrun. DriverMore.by_cases Hrun.
        all: injection Hrun as <-; apply Hcrash; cbn; discriminate. }
  destruct (state g) eqn:Hst; rewrite Hs0 in H.
  - injection H as <-. left. exact Hs0.
  - apply Hhand; [left; reflexivity | exact H].
  - apply Hhand; [right; reflexivity | exact H].
  - destruct (players g0 (side (board g0))); [| injection H as <-; left; exact Hs0].
    destruct lockFree; [| injection H as <-; left; exact Hs0].
    destruct (decide (GameState.playing = GameState.playing));
      [| injection H as <-; left; exact Hs0].
    destruct (checkTimeOver g0) as [[over g1] | |] eqn:Hct; cbn in H; try discriminate H.
    injection H as <-.
    apply DriverMore.checkTimeOver_cases in Hct
      as [(-> & -> & _) | (-> & _ & Hs1 & Hb1)].
    + left. exact Hs0.
    + right. right. right. right. split; [tauto |]. split; [exact Hs1 |].
      rewrite Hb1. cbn. destruct (getXSide _); discriminate.
  - injection H as <-. left. exact Hs0.
  - pose proof (prepare_effect white 0 g0 ltac:(lia)) as P1.
    destruct (prepare white (0, g0)) as [c1 g1].
    destruct P1 as (A1 & _ & _ & _ & Ac).
    pose proof (prepare_effect black c1 g1) as P2.
    destruct (prepare black (c1, g1)) as [c2 g2].
    destruct P2 as (B1 & _).
    { rewrite Ac. destruct (players g0 white) as [p |];
        [destruct (isSafeToDeattach p) |]; lia. }
    destruct (c2 =? 0); injection H as <-.
    + right. right. right. left. split; reflexivity.
    + left. rewrite B1, A1. exact Hs0.
  - injection H as <-. left. exact Hs0.
Qed.

(** A crash during the handshake.  In [begin] or [ready], with both
    players attached, each of them through the step or stopped, and at
    least one stopped: the tick stops the game with reason crash, as a
    draw when both have stopped and otherwise as the loss of the one that
    has; both players are told to stop thinking, and the tick counter of
    the state starts again at 0. *)
Theorem crash_in_handshake (su : Startup) (lockFree : bool) (g : G) (pw pb : Player) :
  state g = GameState.begin \/ state g = GameState.ready ->
  players g white = Some pw -> players g black = Some pb ->
  okFor (state g) pw = true \/ getState pw = PlayerState.stopped ->
  okFor (state g) pb = true \/ getState pb = PlayerState.stopped ->
  getState pw = PlayerState.stopped \/ getState pb = PlayerState.stopped ->
  exists g',
    tickWork su lockFree g = Returns g' /\
    state g' = GameState.stopped /\ stateTick g' = 0 /\
    bresult (board g') = crashResult pw pb /\
    forall sd, players g' sd = send stopThinking <$> players g sd.
Proof.
  intros Hst Hw Hb Hokw Hokb Hcrash.
  assert (Hother : forall p, getState p = PlayerState.stopped -> okFor (state g) p = false).
  { intros p Hs. destruct (okFor (state g) p) eqn:E; [| reflexivity].
    exfalso. exact (okFor_not_stopped _ _ E Hs). }
  unfold tickWork.
  set (g0 := set_stateTick (Int32.incr (stateTick g)) g).
  assert (Hs0 : state g0 = state g) by reflexivity.
  assert (Hrun :
    (let '(okCnt, stoppedCnt) :=
       countPlayer (state g0) (countPlayer (state g0) (0, 0) (players g0 white))
         (players g0 black) in
     if Int32.wrap (okCnt + stoppedCnt) <? 2 then mret g0
     else if okCnt =? 2
          then if decide (state g0 = GameState.begin)
               then newGame su (setState GameState.ready g0)
               else startThinking illegalMove (setState GameState.playing g0)
          else
            let g1 := setState GameState.stopped g0 in
            if stoppedCnt =? 2 then mret (gameOver (mkResult draw crash) g1)
            else pw ← deref g1 white;
                 mret (gameOver
                         (mkResult (if bool_decide (getState pw = PlayerState.stopped)
                                    then loss else win) crash) g1))
    = Returns (gameOver (crashResult pw pb) (setState GameState.stopped g0))).
  { rewrite countPlayer_two, Hs0.
    change (players g0 white) with (players g white).
    change (players g0 black) with (players g black).
    rewrite Hw, Hb. unfold crashResult, deref.
    change (players (setState GameState.stopped g0) white) with (players g white).
    rewrite Hw.
    destruct Hokw as [Ew | Ew], Hokb as [Eb | Eb];
      try (pose proof (okFor_not_stopped _ _ Ew));
      try (pose proof (okFor_not_stopped _ _ Eb));
      try rewrite (Hother _ Ew); try rewrite (Hother _ Eb);
      try rewrite Ew; try rewrite Eb;
      try (destruct Hcrash; contradiction);
      cbn [mbind outcome_bind bind mret outcome_ret];
      repeat match goal with
             | |- context [bool_decide ?P] => destruct (bool_decide_reflect P)
             end;
      try congruence; reflexivity. }
  exists (gameOver (crashResult pw pb) (setState GameState.stopped g0)).
  split.
  { destruct Hst as [Hst | Hst]; rewrite Hs0, Hst; rewrite Hs0, Hst in Hrun; exact Hrun. }
  destruct (DriverFacts.gameOver_effect (crashResult pw pb)
              (setState GameState.stopped g0)) as (E1 & E2 & _ & _ & E5).
  split; [exact E1 |]. split.
  { unfold gameOver, setState, stopIfAttached. cbn.
    destruct (players g0 white), (players g0 black);
      destruct Hst as [Hst | Hst]; cbn; rewrite ?Hst;
      repeat case_decide; try reflexivity; try congruence;
      destruct g as [st tk b w bl tc gc ml lg]; cbn in *; subst; cbn;
      repeat case_decide; try reflexivity; congruence. }
  split; [exact E2 |].
  intros sd. rewrite E5. destruct sd; reflexivity.
Qed.

(** A tick that only counts.  In the states [none], [stopped] and
    [ended], and in [begin] or [ready] as long as a player is missing or
    is neither through the step nor stopped, the tick adds one to the
    tick counter of the state and changes nothing else: the handshake has
    no time limit. *)
Theorem tick_only_counts (su : Startup) (lockFree : bool) (g : G) :
  state g = GameState.none \/ state g = GameState.stopped \/ state g = GameState.ended
  \/ ((state g = GameState.begin \/ state g = GameState.ready) /\
      (pending (state g) (players g white) \/ pending (state g) (players g black))) ->
  tickWork su lockFree g = Returns (set_stateTick (Int32.incr (stateTick g)) g).
Proof.
  intros Hcases. unfold tickWork.
  set (g0 := set_stateTick (Int32.incr (stateTick g)) g).
  assert (Hs0 : state g0 = state g) by reflexivity.
  destruct Hcases as [Hst | [Hst | [Hst | [Hst Hpend]]]];
    try (rewrite Hs0, Hst; reflexivity).
  assert (Hrun :
    (let '(okCnt, stoppedCnt) :=
       countPlayer (state g0) (countPlayer (state g0) (0, 0) (players g0 white))
         (players g0 black) in
     if Int32.wrap (okCnt + stoppedCnt) <? 2 then mret g0
     else if okCnt =? 2
          then if decide (state g0 = GameState.begin)
               then newGame su (setState GameState.ready g0)
               else startThinking illegalMove (setState GameState.playing g0)
          else
            let g1 := setState GameState.stopped g0 in
            if stoppedCnt =? 2 then mret (gameOver (mkResult draw crash) g1)
            else pw ← deref g1 white;
                 mret (gameOver
                         (mkResult (if bool_decide (getState pw = PlayerState.stopped)
                                    then loss else win) crash) g1))
    = Returns g0).
  { rewrite countPlayer_two, Hs0.
    change (players g0 white) with (players g white).
    change (players g0 black) with (players g black).
    unfold pending in Hpend.
    assert (Hlt : forall a b c d : Z,
               0 <= a <= 1 -> 0 <= b <= 1 -> 0 <= c <= 1 -> 0 <= d <= 1 ->
               a + b + (c + d) < 2 -> (Int32.wrap (a + b + (c + d)) <? 2) = true).
    { intros a b c d Ha Hb Hc Hd Hsum. apply Z.ltb_lt.
      rewrite Int32Facts.wrap_id
        by (unfold Int32.in_range, Int32.min_int, Int32.max_int; lia). exact Hsum. }
    destruct (players g white) as [p |], (players g black) as [q |];
      rewrite Hlt; try reflexivity;
      repeat match goal with
             | |- context [okFor ?s ?x] => destruct (okFor s x) eqn:?
             | |- context [bool_decide ?P] => destruct (bool_decide_reflect P)
             end;
      try lia;
      destruct Hpend as [Hp | Hp]; try destruct Hp as [Hp1 Hp2];
      try congruence; try contradiction. }
  destruct Hst as [Hst | Hst]; rewrite Hs0, Hst; rewrite Hs0, Hst in Hrun; exact Hrun.
Qed.

(** The handshake completed.  With both players attached and through
    the step, a tick in [begin] sets the state to [ready] and starts a new
    game: new board with the opening played, clocks set up, both players
    told of the new game (an opening none of whose moves is made leaves no
    history entry to mark, which the theorem excludes).  A tick in [ready]
    sets the state to [playing] and starts the thinking: the player not to
    move is sent [goPonder] with the illegal move, the player to move is
    sent [go].  The tick counter of the state starts again at 0. *)
Theorem handshake_completes (su : Startup) (lockFree : bool) (g : G) (pw pb : Player) :
  players g white = Some pw -> players g black = Some pb ->
  okFor (state g) pw = true -> okFor (state g) pb = true ->
  (state g = GameState.begin ->
   startMoves su = []
   \/ histList (playOpening (startMoves su) (board_newGame (board g) (startFen su))) <> [] ->
   exists g',
     tickWork su lockFree g = Returns g' /\
     state g' = GameState.ready /\ stateTick g' = 0 /\
     board g' = openingBoard su (board g) /\
     timeController g' = setupClocksBeforeThinking (timeController g) 0 /\
     players g' white = Some (player_newGame pw) /\
     players g' black = Some (player_newGame pb)) /\
  (state g = GameState.ready ->
   forall pN pO,
     players g (side (board g)) = Some pN ->
     players g (getXSide (side (board g))) = Some pO ->
     exists g',
       tickWork su lockFree g = Returns g' /\
       state g' = GameState.playing /\ stateTick g' = 0 /\
       board g' = board g /\
       players g' (side (board g)) = Some (send go pN) /\
       players g' (getXSide (side (board g))) = Some (send (goPonder illegalMove) pO)).
Proof.
  intros Hw Hb Hokw Hokb.
  assert (Hcount : countPlayer (state g) (countPlayer (state g) (0, 0) (players g white))
                     (players g black) = (2, 0)).
  { rewrite countPlayer_two, Hw, Hb, Hokw, Hokb. reflexivity. }
  destruct g as [st tk b w bl tc gc ml lg].
  cbn [state players playerW playerB board timeController] in *. subst w bl.
  split.
  - intros -> Hopen. unfold tickWork. cbn [set_stateTick state players playerW playerB].
    rewrite Hcount. cbn [fst snd Z.add Z.ltb Z.eqb].
    change (Int32.wrap (2 + 0) <? 2) with false. cbn [Z.eqb Pos.eqb].
    rewrite decide_True by reflexivity.
    unfold newGame, openingBoard. cbn [setState set_board set_timeController board
                                        timeController state].
    destruct (startMoves su) as [| m0 ms] eqn:Hms.
    + cbn. eexists. split; [reflexivity |]. cbn. repeat split.
    + destruct Hopen as [Hopen | Hopen]; [discriminate Hopen |].
      match goal with
      | |- context [last (histList ?x)] =>
          destruct (last (histList x)) as [h |] eqn:Hlast
      end.
      * cbn [mbind outcome_bind bind mret outcome_ret].
        eexists. split; [reflexivity |]. cbn. repeat split.
      * apply last_None in Hlast. exfalso. apply Hopen. exact Hlast.
  - intros -> pN pO HN HO. unfold tickWork.
    cbn [set_stateTick state players playerW playerB].
    rewrite Hcount. cbn [fst snd].
    change (Int32.wrap (2 + 0) <? 2) with false. cbn [Z.eqb Pos.eqb].
    rewrite decide_False by discriminate.
    match goal with
    | |- context [startThinking illegalMove ?x] =>
        destruct (DriverFacts.startThinking_calls x illegalMove pN pO)
          as (g' & E & P1 & P2 & S1 & B1)
    end.
    + cbn. exact HN.
    + cbn. exact HO.
    + assert (Htick : stateTick g' = 0).
      { clear -E HN HO. unfold startThinking, tell, deref in E.
        cbn in E, HN, HO.
        destruct (side b); cbn in E, HN, HO;
          injection HN as <-; injection HO as <-; injection E as <-; reflexivity. }
      exists g'. cbn in P1, P2, S1, B1 |- *.
      split; [exact E |]. split; [exact S1 |].
      split; [exact Htick |]. split; [exact B1 |]. split; [exact P1 | exact P2].
Qed.

(** A tick in state [ending]: every attached player that is not yet safe
    to detach is told to prepare for it; when none had to be told, the
    state becomes [ended] (with its tick counter at 0), otherwise it stays
    [ending]. *)
Theorem ending_step (su : Startup) (lockFree : bool) (g : G) :
  state g = GameState.ending ->
  exists g',
    tickWork su lockFree g = Returns g' /\
    board g' = board g /\
    (forall sd, players g' sd = settle <$> players g sd) /\
    ((forall sd p, players g sd = Some p -> isSafeToDeattach p = true) ->
     state g' = GameState.ended /\ stateTick g' = 0) /\
    ((exists sd p, players g sd = Some p /\ isSafeToDeattach p = false) ->
     state g' = GameState.ending /\ stateTick g' = Int32.incr (stateTick g)).
Proof.
  intros Hst. unfold tickWork.
  set (g0 := set_stateTick (Int32.incr (stateTick g)) g).
  assert (Hs0 : state g0 = state g) by reflexivity.
  rewrite Hs0, Hst.
  pose proof (prepare_effect white 0 g0 ltac:(lia)) as P1.
  destruct (prepare white (0, g0)) as [c1 g1].
  destruct P1 as (A1 & A2 & A3 & A4 & Ac).
  assert (Hc1 : 0 <= c1 < 2).
  { rewrite Ac. destruct (players g0 white) as [p |];
      [destruct (isSafeToDeattach p) |]; lia. }
  pose proof (prepare_effect black c1 g1 Hc1) as P2.
  destruct (prepare black (c1, g1)) as [c2 g2].
  destruct P2 as (B1 & B2 & B3 & B4 & Bc).
  assert (Hpl : forall sd, players g2 sd = settle <$> players g sd).
  { intros sd. rewrite B4, A4.
    change (players g0) with (players g).
    destruct sd; cbn [decide]; repeat case_decide; try congruence; reflexivity. }
  assert (Hblack : players g1 black = players g black) by (rewrite A4; reflexivity).
  rewrite Hblack in Bc. change (players g0 white) with (players g white) in Ac.
  assert (Hzero : c2 = 0 <-> (forall sd p, players g sd = Some p -> isSafeToDeattach p = true)).
  { rewrite Bc, Ac. split.
    - intros Hsum sd p Hp. destruct sd; cbn in Hp; cbn [players] in Hsum;
        rewrite Hp in Hsum; destruct (isSafeToDeattach p); try reflexivity;
        destruct (playerW g) as [q |], (playerB g) as [q' |];
        repeat match goal with
               | H : context [isSafeToDeattach ?x] |- _ => destruct (isSafeToDeattach x)
               end; lia.
    - intros Hall. cbn [players].
      destruct (playerW g) as [q |] eqn:Ew, (playerB g) as [q' |] eqn:Eb;
        try rewrite (Hall white q Ew); try rewrite (Hall black q' Eb); reflexivity. }
  destruct (Z.eqb_spec c2 0) as [Hc | Hc].
  - eexists. split; [reflexivity |].
    split; [cbn; rewrite B3, A3; reflexivity |].
    split; [intros sd; rewrite <- Hpl; destruct sd; reflexivity |].
    split.
    + intros _. split; [reflexivity |]. cbn.
      rewrite decide_True; [reflexivity |]. rewrite B1, A1, Hs0, Hst. discriminate.
    + intros (sd & p & Hp & Hunsafe).
      rewrite (proj1 Hzero Hc sd p Hp) in Hunsafe. discriminate Hunsafe.
  - exists g2. split; [reflexivity |].
    split; [rewrite B3, A3; reflexivity |].
    split; [exact Hpl |].
    split.
    + intros Hall. exfalso. apply Hc. exact (proj2 Hzero Hall).
    + intros _. split; [rewrite B1, A1, Hs0; exact Hst | rewrite B2, A2; reflexivity].
Qed.

End Ticking.

(** The theorem on the sample game whose White has crashed before the
    handshake was over: the tick stops the game. *)
Lemma tick_transitions_witness :
  exists g',
    tickWork sample_startup true sample_crashed_game = Returns g' /\
    state g' = GameState.stopped.
Proof.
  destruct (tickWork sample_startup true sample_crashed_game) as [g' | |] eqn:E;
    [| vm_compute in E; discriminate E | vm_compute in E; discriminate E].
  exists g'. split; [reflexivity |].
  destruct (tick_transitions _ _ _ _ E)
    as [H | [[_ H] | [[H _] | [[H _] | (_ & H & _)]]]];
    try exact H; try discriminate H;
    vm_compute in E; injection E as <-; discriminate H.
Defined.

(** The theorem on the same game: White has stopped, Black is ready, so
    White loses by crash. *)
Lemma crash_in_handshake_witness :
  exists g',
    tickWork sample_startup true sample_crashed_game = Returns g' /\
    bresult (board g') = mkResult loss crash.
Proof.
  destruct (crash_in_handshake sample_startup true sample_crashed_game
              (mkPlayer "Crashed" 0 0 0 []) sample_black)
    as (g' & E & _ & _ & Hb & _).
  - left. reflexivity.
  - reflexivity.
  - reflexivity.
  - right. reflexivity.
  - left. reflexivity.
  - left. reflexivity.
  - exists g'. split; [exact E | exact Hb].
Defined.

(** The theorem on the sample game in state [stopped]. *)
Lemma tick_only_counts_witness :
  tickWork sample_startup true (sample_game_in GameState.stopped)
  = Returns (set_stateTick 4 (sample_game_in GameState.stopped)).
Proof.
  apply (tick_only_counts sample_startup true (sample_game_in GameState.stopped)).
  right. left. reflexivity.
Defined.

(** The theorem on the sample game in state [begin], both players ready,
    with an opening of one move. *)
Lemma handshake_completes_witness :
  exists g',
    tickWork sample_startup true (sample_game_in GameState.begin) = Returns g' /\
    state g' = GameState.ready /\ stateTick g' = 0.
Proof.
  destruct (handshake_completes sample_startup true
              (sample_game_in GameState.begin) sample_white sample_black)
    as [Hbegin _].
  - reflexivity.
  - reflexivity.
  - reflexivity.
  - reflexivity.
  - destruct Hbegin as (g' & E & Hs & Htk & _).
    + reflexivity.
    + right. vm_compute. discriminate.
    + exists g'. split; [exact E |]. split; [exact Hs | exact Htk].
Defined.

(** The theorem on the sample game in state [ending], both players safe
    to detach. *)
Lemma ending_step_witness :
  exists g',
    tickWork sample_startup true (sample_game_in GameState.ending) = Returns g' /\
    state g' = GameState.ended.
Proof.
  destruct (ending_step sample_startup true (sample_game_in GameState.ending) eq_refl)
    as (g' & E & _ & _ & Hsafe & _).
  exists g'. split; [exact E |].
  apply Hsafe. intros sd p Hp. destruct sd; cbn in Hp; injection Hp as <-; reflexivity.
Defined.

End TickFacts.
